(** * Overlay stacking, modality and dismissal routing of [vaadin-overlay]

    A shallow embedding of [packages/overlay/src/vaadin-overlay.js].  The
    class [Overlay] keeps no registry of its own: the stack of open overlays
    is recomputed on demand from [document.body.children].  The embedding
    therefore carries the relevant part of the document (the child nodes of
    [<body>], parent and shadow-host links, the body's inline
    [pointer-events], the focused element) next to a store of [Overlay]
    instances, and every method of the class becomes a function on that
    state.  Methods that can raise a [TypeError] return [option State].

    Conventions.
    - DOM nodes are numbered; [document], [<html>] and [<body>] are fixed.
    - JavaScript numbers that hold a z-index are integers ([Z]); [undefined]
      and [NaN] are both rendered as [None] (they behave alike in every
      expression in which the class uses [__zIndex]).  The z-index that the
      style sheets give an overlay is a number (the style sheet of the
      class says 200) or [auto], which [parseFloat] turns into [NaN].
    - What the environment decides is passed in: whether a CSS animation is
      running ([_shouldAnimate]) and whether some listener calls
      [preventDefault] on a dispatched notification. *)

From stdpp Require Import base option list sorting gmap strings.
From Stdlib Require Import ZArith Lia.

Open Scope Z_scope.

(** ** The document *)

Definition Node := nat.

Definition document : Node := 0%nat.
Definition documentElement : Node := 1%nat.
Definition body : Node := 2%nat.

Inductive EventName :=
| vaadin_overlay_close
| vaadin_overlay_closing
| vaadin_overlay_outside_click
| vaadin_overlay_escape_press.

#[global] Instance EventName_eq_dec : EqDecision EventName.
Proof. solve_decision. Defined.

(** A DOM event as the listeners see it. *)
Record DomEvent := mkDomEvent {
  composedPath : list Node;
  key : string;
}.

(** ** Overlay instances *)

Record Overlay := mkOverlay {
  (* public properties *)
  opened : bool;
  modeless : bool;
  restoreFocusOnClose : bool;
  restoreFocusNode : option Node;
  (* private fields *)
  __restoreFocusNode : option Node;
  _mouseDownInside : bool;
  _mouseUpInside : bool;
  attr_opening : bool;              (* hasAttribute('opening') *)
  attr_closing : bool;              (* hasAttribute('closing') *)
  __openingHandler : bool;          (* typeof this.__openingHandler === 'function' *)
  __closingHandler : bool;          (* typeof this.__closingHandler === 'function' *)
  _placeholder : option Node;       (* the comment node left behind on attach *)
  __zIndex : option Z;              (* None: undefined or NaN *)
  style_zIndex : option Z;          (* this.style.zIndex; None: '' *)
  sheet_zIndex : option Z;
    (* z-index given by the style sheets; None: auto *)
  part_pointerEvents : option string;
    (* inline pointer-events of [part="overlay"]; None: not set *)
  _previousDocumentPointerEvents : option string;
  part_overlay : Node;              (* this.$.overlay *)
}.

Definition set_opened (v : bool) (o : Overlay) : Overlay :=
  mkOverlay v (modeless o) (restoreFocusOnClose o) (restoreFocusNode o)
    (__restoreFocusNode o) (_mouseDownInside o) (_mouseUpInside o)
    (attr_opening o) (attr_closing o) (__openingHandler o)
    (__closingHandler o) (_placeholder o) (__zIndex o) (style_zIndex o)
    (sheet_zIndex o) (part_pointerEvents o) (_previousDocumentPointerEvents o)
    (part_overlay o).
Definition set_modeless (v : bool) (o : Overlay) : Overlay :=
  mkOverlay (opened o) v (restoreFocusOnClose o) (restoreFocusNode o)
    (__restoreFocusNode o) (_mouseDownInside o) (_mouseUpInside o)
    (attr_opening o) (attr_closing o) (__openingHandler o)
    (__closingHandler o) (_placeholder o) (__zIndex o) (style_zIndex o)
    (sheet_zIndex o) (part_pointerEvents o) (_previousDocumentPointerEvents o)
    (part_overlay o).
Definition set___restoreFocusNode (v : option Node) (o : Overlay) : Overlay :=
  mkOverlay (opened o) (modeless o) (restoreFocusOnClose o)
    (restoreFocusNode o) v (_mouseDownInside o) (_mouseUpInside o)
    (attr_opening o) (attr_closing o) (__openingHandler o)
    (__closingHandler o) (_placeholder o) (__zIndex o) (style_zIndex o)
    (sheet_zIndex o) (part_pointerEvents o) (_previousDocumentPointerEvents o)
    (part_overlay o).
Definition set__mouseDownInside (v : bool) (o : Overlay) : Overlay :=
  mkOverlay (opened o) (modeless o) (restoreFocusOnClose o)
    (restoreFocusNode o) (__restoreFocusNode o) v (_mouseUpInside o)
    (attr_opening o) (attr_closing o) (__openingHandler o)
    (__closingHandler o) (_placeholder o) (__zIndex o) (style_zIndex o)
    (sheet_zIndex o) (part_pointerEvents o) (_previousDocumentPointerEvents o)
    (part_overlay o).
Definition set__mouseUpInside (v : bool) (o : Overlay) : Overlay :=
  mkOverlay (opened o) (modeless o) (restoreFocusOnClose o)
    (restoreFocusNode o) (__restoreFocusNode o) (_mouseDownInside o) v
    (attr_opening o) (attr_closing o) (__openingHandler o)
    (__closingHandler o) (_placeholder o) (__zIndex o) (style_zIndex o)
    (sheet_zIndex o) (part_pointerEvents o) (_previousDocumentPointerEvents o)
    (part_overlay o).
Definition set_attr_opening (v : bool) (o : Overlay) : Overlay :=
  mkOverlay (opened o) (modeless o) (restoreFocusOnClose o)
    (restoreFocusNode o) (__restoreFocusNode o) (_mouseDownInside o)
    (_mouseUpInside o) v (attr_closing o) (__openingHandler o)
    (__closingHandler o) (_placeholder o) (__zIndex o) (style_zIndex o)
    (sheet_zIndex o) (part_pointerEvents o) (_previousDocumentPointerEvents o)
    (part_overlay o).
Definition set_attr_closing (v : bool) (o : Overlay) : Overlay :=
  mkOverlay (opened o) (modeless o) (restoreFocusOnClose o)
    (restoreFocusNode o) (__restoreFocusNode o) (_mouseDownInside o)
    (_mouseUpInside o) (attr_opening o) v (__openingHandler o)
    (__closingHandler o) (_placeholder o) (__zIndex o) (style_zIndex o)
    (sheet_zIndex o) (part_pointerEvents o) (_previousDocumentPointerEvents o)
    (part_overlay o).
Definition set___openingHandler (v : bool) (o : Overlay) : Overlay :=
  mkOverlay (opened o) (modeless o) (restoreFocusOnClose o)
    (restoreFocusNode o) (__restoreFocusNode o) (_mouseDownInside o)
    (_mouseUpInside o) (attr_opening o) (attr_closing o) v
    (__closingHandler o) (_placeholder o) (__zIndex o) (style_zIndex o)
    (sheet_zIndex o) (part_pointerEvents o) (_previousDocumentPointerEvents o)
    (part_overlay o).
Definition set___closingHandler (v : bool) (o : Overlay) : Overlay :=
  mkOverlay (opened o) (modeless o) (restoreFocusOnClose o)
    (restoreFocusNode o) (__restoreFocusNode o) (_mouseDownInside o)
    (_mouseUpInside o) (attr_opening o) (attr_closing o) (__openingHandler o)
    v (_placeholder o) (__zIndex o) (style_zIndex o) (sheet_zIndex o)
    (part_pointerEvents o) (_previousDocumentPointerEvents o)
    (part_overlay o).
Definition set__placeholder (v : option Node) (o : Overlay) : Overlay :=
  mkOverlay (opened o) (modeless o) (restoreFocusOnClose o)
    (restoreFocusNode o) (__restoreFocusNode o) (_mouseDownInside o)
    (_mouseUpInside o) (attr_opening o) (attr_closing o) (__openingHandler o)
    (__closingHandler o) v (__zIndex o) (style_zIndex o) (sheet_zIndex o)
    (part_pointerEvents o) (_previousDocumentPointerEvents o)
    (part_overlay o).
Definition set___zIndex (v : option Z) (o : Overlay) : Overlay :=
  mkOverlay (opened o) (modeless o) (restoreFocusOnClose o)
    (restoreFocusNode o) (__restoreFocusNode o) (_mouseDownInside o)
    (_mouseUpInside o) (attr_opening o) (attr_closing o) (__openingHandler o)
    (__closingHandler o) (_placeholder o) v (style_zIndex o) (sheet_zIndex o)
    (part_pointerEvents o) (_previousDocumentPointerEvents o)
    (part_overlay o).
Definition set_style_zIndex (v : option Z) (o : Overlay) : Overlay :=
  mkOverlay (opened o) (modeless o) (restoreFocusOnClose o)
    (restoreFocusNode o) (__restoreFocusNode o) (_mouseDownInside o)
    (_mouseUpInside o) (attr_opening o) (attr_closing o) (__openingHandler o)
    (__closingHandler o) (_placeholder o) (__zIndex o) v (sheet_zIndex o)
    (part_pointerEvents o) (_previousDocumentPointerEvents o)
    (part_overlay o).
Definition set_part_pointerEvents (v : option string) (o : Overlay) : Overlay :=
  mkOverlay (opened o) (modeless o) (restoreFocusOnClose o)
    (restoreFocusNode o) (__restoreFocusNode o) (_mouseDownInside o)
    (_mouseUpInside o) (attr_opening o) (attr_closing o) (__openingHandler o)
    (__closingHandler o) (_placeholder o) (__zIndex o) (style_zIndex o)
    (sheet_zIndex o) v (_previousDocumentPointerEvents o) (part_overlay o).
Definition set__previousDocumentPointerEvents (v : option string) (o : Overlay) : Overlay :=
  mkOverlay (opened o) (modeless o) (restoreFocusOnClose o)
    (restoreFocusNode o) (__restoreFocusNode o) (_mouseDownInside o)
    (_mouseUpInside o) (attr_opening o) (attr_closing o) (__openingHandler o)
    (__closingHandler o) (_placeholder o) (__zIndex o) (style_zIndex o)
    (sheet_zIndex o) (part_pointerEvents o) v (part_overlay o).

(** What JavaScript reads from an element that is not an [Overlay]: every
    field is [undefined]. *)
Definition not_an_overlay : Overlay :=
  mkOverlay false false false None None false false false false false false
    None None None None None None 0%nat.

(** ** The state: overlay store and document *)

Record State := mkState {
  overlays : gmap Node Overlay;       (* el instanceof Overlay *)
  parentNode : gmap Node Node;        (* n.parentNode; absent: null *)
  host : gmap Node Node;              (* n.host of a shadow root *)
  body_childNodes : list Node;        (* children of <body>, document order *)
  body_pointerEvents : string;        (* document.body.style.pointerEvents *)
  activeElement : option Node;        (* document.activeElement *)
  shadow_activeElements : list Node;
    (* the chain a.shadowRoot.activeElement below document.activeElement *)
  timers : list Node;                 (* pending setTimeout(() => n.focus()) *)
  dispatched : list (Node * EventName);  (* notifications, latest first *)
  next_node : Node;                   (* the next node document.create* makes *)
}.

Definition set_overlays (v : gmap Node Overlay) (s : State) : State :=
  mkState v (parentNode s) (host s) (body_childNodes s) (body_pointerEvents s)
    (activeElement s) (shadow_activeElements s) (timers s) (dispatched s)
    (next_node s).
Definition set_parentNode (v : gmap Node Node) (s : State) : State :=
  mkState (overlays s) v (host s) (body_childNodes s) (body_pointerEvents s)
    (activeElement s) (shadow_activeElements s) (timers s) (dispatched s)
    (next_node s).
Definition set_body_childNodes (v : list Node) (s : State) : State :=
  mkState (overlays s) (parentNode s) (host s) v (body_pointerEvents s)
    (activeElement s) (shadow_activeElements s) (timers s) (dispatched s)
    (next_node s).
Definition set_body_pointerEvents (v : string) (s : State) : State :=
  mkState (overlays s) (parentNode s) (host s) (body_childNodes s) v
    (activeElement s) (shadow_activeElements s) (timers s) (dispatched s)
    (next_node s).
Definition set_timers (v : list Node) (s : State) : State :=
  mkState (overlays s) (parentNode s) (host s) (body_childNodes s)
    (body_pointerEvents s) (activeElement s) (shadow_activeElements s) v
    (dispatched s) (next_node s).
Definition set_dispatched (v : list (Node * EventName)) (s : State) : State :=
  mkState (overlays s) (parentNode s) (host s) (body_childNodes s)
    (body_pointerEvents s) (activeElement s) (shadow_activeElements s)
    (timers s) v (next_node s).
Definition set_next_node (v : Node) (s : State) : State :=
  mkState (overlays s) (parentNode s) (host s) (body_childNodes s)
    (body_pointerEvents s) (activeElement s) (shadow_activeElements s)
    (timers s) (dispatched s) v.

(** Field access on an element of the document; [update] is the assignment
    [el.f = v] on an [Overlay] (and is never applied to anything else). *)
Definition ov (s : State) (el : Node) : Overlay :=
  default not_an_overlay (overlays s !! el).

Definition update (el : Node) (f : Overlay → Overlay) (s : State) : State :=
  set_overlays (alter f el (overlays s)) s.

Definition dispatchEvent (el : Node) (e : EventName) (s : State) : State :=
  set_dispatched ((el, e) :: dispatched s) s.

(** ** Child-list surgery on [<body>] *)

Definition list_remove (x : Node) (l : list Node) : list Node :=
  filter (λ y, y ≠ x) l.

(** [insertBefore(x, ref)] on a list from which [x] has been taken out; a
    [ref] that is not a child raises in the DOM, here the node is appended
    (the callers only pass children). *)
Fixpoint list_insert_before (x ref : Node) (l : list Node) : list Node :=
  match l with
  | [] => [x]
  | y :: l' => if decide (y = ref) then x :: y :: l'
               else y :: list_insert_before x ref l'
  end.

(** [parent.insertBefore(x, ref)] *)
Definition insertBefore (parent x ref : Node) (s : State) : State :=
  let l := list_remove x (body_childNodes s) in
  let l' := if decide (parent = body) then list_insert_before x ref l else l in
  set_parentNode (<[x := parent]> (parentNode s)) (set_body_childNodes l' s).

(** [document.body.appendChild(x)] *)
Definition body_appendChild (x : Node) (s : State) : State :=
  set_parentNode (<[x := body]> (parentNode s))
    (set_body_childNodes (list_remove x (body_childNodes s) ++ [x]) s).

(** [parent.removeChild(x)] for a child [x] of [parent] *)
Definition removeChild (x : Node) (s : State) : State :=
  set_parentNode (delete x (parentNode s))
    (set_body_childNodes (list_remove x (body_childNodes s)) s).

(** ** The derived stack *)

(** The comparator handed to [Array.prototype.sort]:
    [(a, b) => a.__zIndex - b.__zIndex || 0]. *)
Definition compareFn (s : State) (a b : Node) : Z :=
  match __zIndex (ov s a), __zIndex (ov s b) with
  | Some x, Some y => x - y
  | _, _ => 0                       (* NaN || 0 *)
  end.

(** [Array.prototype.sort] is stable; with a consistent comparator its
    result is determined by that, and insertion sort computes it.  The
    comparator is not consistent when an element has no [__zIndex]: such
    an element compares equal to everything.  This happens when
    [_attachOverlay] calls [bringToFront] on an overlay that has never
    been opened; that overlay is then the last element of the array, and a
    stable insertion or merge sort leaves it there, the others sorted
    before it, as this one does.  It also happens on pages that keep
    closed overlays under [<body>], or whose style sheets say
    [z-index: auto]; there an insertion sort, as engines run on short
    arrays, leaves an array in place when every element compares equal
    to its neighbour, as this one does. *)
Fixpoint sort_insert (cmp : Node → Node → Z) (x : Node) (l : list Node)
  : list Node :=
  match l with
  | [] => [x]
  | y :: l' => if decide (cmp x y ≤ 0) then x :: y :: l'
               else y :: sort_insert cmp x l'
  end.

Fixpoint sort (cmp : Node → Node → Z) (l : list Node) : list Node :=
  match l with
  | [] => []
  | x :: l' => sort_insert cmp x (sort cmp l')
  end.

(** [el instanceof Overlay && !el.hasAttribute('closing')] *)
Definition attached (s : State) (el : Node) : bool :=
  match overlays s !! el with
  | Some o => negb (attr_closing o)
  | None => false
  end.

(** [Array.from(document.body.children).filter(...)] *)
Definition attached_children (s : State) : list Node :=
  filter (λ el, attached s el = true) (body_childNodes s).

Definition __attachedInstances (s : State) : list Node :=
  sort (compareFn s) (attached_children s).

(** [this === Overlay.__attachedInstances.pop()] *)
Definition _last (s : State) (this : Node) : bool :=
  bool_decide (last (__attachedInstances s) = Some this).

(** ** Stacking order *)

(** The values the local variable [zIndex] of [bringToFront] takes. *)
Inductive zIndexValue :=
| zEmpty                 (* '' *)
| zNumber (z : Z)
| zNaN.

(** [frontmost.__zIndex + 1] *)
Definition plus_one (z : option Z) : zIndexValue :=
  match z with
  | Some z => zNumber (z + 1)
  | None => zNaN
  end.

(** A style declaration keeps a z-index as a 32-bit integer: a number out
    of range is replaced by the nearest one in range. *)
Definition css_integer (z : Z) : Z :=
  Z.max (-2147483648) (Z.min z 2147483647).

(** [this.style.zIndex = v]: the empty string removes the declaration and a
    value that does not parse as a z-index leaves it as it was. *)
Definition assign_style_zIndex (v : zIndexValue) (o : Overlay) : Overlay :=
  match v with
  | zEmpty => set_style_zIndex None o
  | zNumber z => set_style_zIndex (Some (css_integer z)) o
  | zNaN => o
  end.

(** [parseFloat(getComputedStyle(this).zIndex)]: the inline declaration
    wins over the style sheets, and [auto] gives [NaN]. *)
Definition computed_zIndex (o : Overlay) : option Z :=
  match style_zIndex o with
  | Some z => Some z
  | None => sheet_zIndex o
  end.

(** [zIndex || parseFloat(getComputedStyle(this).zIndex)] *)
Definition zIndex_or_computed (v : zIndexValue) (o : Overlay) : option Z :=
  match v with
  | zNumber z => if decide (z = 0) then computed_zIndex o else Some z
  | zEmpty | zNaN => computed_zIndex o
  end.

Definition frontmost (s : State) (this : Node) : option Node :=
  last (filter (λ o, o ≠ this) (__attachedInstances s)).

Definition bringToFront (this : Node) (s : State) : State :=
  let zIndex :=
    match frontmost s this with
    | Some f => plus_one (__zIndex (ov s f))
    | None => zEmpty
    end in
  let s := update this (assign_style_zIndex zIndex) s in
  update this (λ o, set___zIndex (zIndex_or_computed zIndex o) o) s.

(** ** Modal state *)

Definition pointerEvents_none (el : Node) (s : State) : State :=
  update el (set_part_pointerEvents (Some "none"%string)) s.

Definition pointerEvents_remove (el : Node) (s : State) : State :=
  update el (set_part_pointerEvents None) s.

Definition _enterModalState (this : Node) (s : State) : State :=
  let s :=
    if decide (body_pointerEvents s ≠ "none"%string) then
      set_body_pointerEvents "none"%string
        (update this
           (set__previousDocumentPointerEvents (Some (body_pointerEvents s))) s)
    else s in
  foldl (λ s el, if decide (el ≠ this) then pointerEvents_none el s else s)
    s (__attachedInstances s).

(** The loop [while ((el = instances.pop()))] of [_exitModalState], over the
    instances from the last one down. *)
Fixpoint exit_walk (this : Node) (instances : list Node) (s : State) : State :=
  match instances with
  | [] => s
  | el :: rest =>
      if decide (el = this) then exit_walk this rest s
      else
        let s := pointerEvents_remove el s in
        if modeless (ov s el) then exit_walk this rest s else s
  end.

Definition _exitModalState (this : Node) (s : State) : State :=
  let s :=
    match _previousDocumentPointerEvents (ov s this) with
    | Some previous =>
        update this (set__previousDocumentPointerEvents None)
          (set_body_pointerEvents previous s)
    | None => s
    end in
  exit_walk this (reverse (__attachedInstances s)) s.

(** ** Focus *)

Fixpoint deepest_active (active : Node) (chain : list Node) : Node :=
  match chain with
  | [] => active
  | a :: chain' => deepest_active a chain'
  end.

Definition _getActiveElement (s : State) : Node :=
  deepest_active (default body (activeElement s)) (shadow_activeElements s).

(** [this.contains(node)], by parent links. *)
Fixpoint contains (fuel : nat) (s : State) (this node : Node) : option bool :=
  match fuel with
  | O => None
  | S fuel =>
      if decide (node = this) then Some true
      else match parentNode s !! node with
           | Some p => contains fuel s this p
           | None => Some false
           end
  end.

(** [n.parentNode || n.host] *)
Definition parentNode_or_host (s : State) (n : Node) : option Node :=
  match parentNode s !! n with
  | Some p => Some p
  | None => host s !! n
  end.

(** The loop [while (n && n !== doc && n !== this)] followed by
    [return n === this]. *)
Fixpoint walk_to (fuel : nat) (s : State) (this : Node) (n : option Node)
  : option bool :=
  match fuel with
  | O => None
  | S fuel =>
      match n with
      | None => Some false
      | Some m =>
          if decide (m ≠ document ∧ m ≠ this)
          then walk_to fuel s this (parentNode_or_host s m)
          else Some (bool_decide (m = this))
      end
  end.

Definition _deepContains_fuel (fuel : nat) (s : State) (this node : Node)
  : option bool :=
  match contains fuel s this node with
  | Some true => Some true
  | Some false => walk_to fuel s this (Some node)
  | None => None
  end.

(** Every step of either loop leaves a node that has a parent or a host, so
    on a document without cycles this many steps suffice. *)
Definition dom_fuel (s : State) : nat :=
  (size (parentNode s) + size (host s) + 2)%nat.

Definition _deepContains (s : State) (this node : Node) : option bool :=
  _deepContains_fuel (dom_fuel s) s this node.

(** ** Attaching and detaching *)

(** [None] stands for a call that does not return: a [TypeError] on a
    [null] parent, or a walk on a document with a cycle. *)

Definition _attachOverlay (this : Node) (s : State) : option State :=
  let placeholder := next_node s in       (* document.createComment(...) *)
  let s := set_next_node (S placeholder) s in
  let s := update this (set__placeholder (Some placeholder)) s in
  parent ← parentNode s !! this;
  let s := insertBefore parent placeholder this s in
  let s := body_appendChild this s in
  Some (bringToFront this s).

Definition _detachOverlay (this : Node) (s : State) : option State :=
  placeholder ← _placeholder (ov s this);
  parent ← parentNode s !! placeholder;
  let s := insertBefore parent this placeholder s in
  parent' ← parentNode s !! placeholder;
  Some (removeChild placeholder s).

Definition _finishOpening (this : Node) (s : State) : State :=
  update this (set_attr_opening false) s.

Definition _finishClosing (this : Node) (s : State) : option State :=
  s ← _detachOverlay this s;
  let s := pointerEvents_remove this s in
  Some (update this (set_attr_closing false) s).

(** ** Animations *)

Inductive AnimationType := opening | closing.

(** The callback handed to [_enqueueAnimation] by the two callers. *)
Definition callback (type : AnimationType) (this : Node) (s : State)
  : option State :=
  match type with
  | opening => Some (_finishOpening this s)
  | closing => _finishClosing this s
  end.

Definition handler (type : AnimationType) (o : Overlay) : bool :=
  match type with
  | opening => __openingHandler o
  | closing => __closingHandler o
  end.

Definition set_handler (type : AnimationType) (v : bool) (o : Overlay)
  : Overlay :=
  match type with
  | opening => set___openingHandler v o
  | closing => set___closingHandler v o
  end.

Definition _enqueueAnimation (type : AnimationType) (this : Node) (s : State)
  : State :=
  update this (set_handler type true) s.

(** The listener installed by [_enqueueAnimation], called with an event
    whose target is [this] or with no event at all. *)
Definition listener (type : AnimationType) (this : Node) (s : State)
  : option State :=
  s ← callback type this s;
  Some (update this (set_handler type false) s).

Definition _flushAnimation (type : AnimationType) (this : Node) (s : State)
  : option State :=
  if handler type (ov s this) then listener type this s else Some s.

(** An [animationend] event whose target is [this]: the installed listeners
    run in the order in which they were added. *)
Definition animationend (this : Node) (s : State) : option State :=
  s ← _flushAnimation opening this s;
  _flushAnimation closing this s.

(** ** Opening and closing *)

Definition _animatedOpening (shouldAnimate : bool) (this : Node) (s : State)
  : option State :=
  s ← (if bool_decide (parentNode s !! this = Some body)
          && attr_closing (ov s this)
       then _flushAnimation closing this s else Some s);
  s ← _attachOverlay this s;
  let s := if negb (modeless (ov s this)) then _enterModalState this s
           else s in
  let s := update this (set_attr_opening true) s in
  if shouldAnimate then Some (_enqueueAnimation opening this s)
  else Some (_finishOpening this s).

(** [this.restoreFocusNode || this.__restoreFocusNode] *)
Definition restoreFocusNode_or_stored (o : Overlay) : option Node :=
  match restoreFocusNode o with
  | Some n => Some n
  | None => __restoreFocusNode o
  end.

Definition restore_focus (this : Node) (s : State) : option State :=
  match restoreFocusNode_or_stored (ov s this) with
  | Some restoreFocusNode =>
      if restoreFocusOnClose (ov s this) then
        let active := _getActiveElement s in
        inside ← (if decide (active = body) then Some true
                   else _deepContains s this active);
        let s := if inside : bool
                 then set_timers (timers s ++ [restoreFocusNode]) s
                 else s in
        Some (update this (set___restoreFocusNode None) s)
      else Some s
  | None => Some s
  end.

Definition _animatedClosing (shouldAnimate : bool) (this : Node) (s : State)
  : option State :=
  s ← (if attr_opening (ov s this) then _flushAnimation opening this s
       else Some s);
  match _placeholder (ov s this) with
  | Some _ =>
      let s := _exitModalState this s in
      s ← restore_focus this s;
      let s := update this (set_attr_closing true) s in
      let s := dispatchEvent this vaadin_overlay_closing s in
      if shouldAnimate then Some (_enqueueAnimation closing this s)
      else _finishClosing this s
  | None => Some s
  end.

Definition _openedChanged (shouldAnimate : bool) (this : Node)
    (opened wasOpened : bool) (s : State) : option State :=
  if opened then
    let s := update this (set___restoreFocusNode (Some (_getActiveElement s))) s in
    _animatedOpening shouldAnimate this s
  else if wasOpened then _animatedClosing shouldAnimate this s
  else Some s.

(** The assignment [this.opened = v]; the observer runs when the value
    changes. *)
Definition set_opened_property (shouldAnimate : bool) (this : Node) (v : bool)
    (s : State) : option State :=
  let wasOpened := opened (ov s this) in
  if decide (wasOpened = v) then Some s
  else _openedChanged shouldAnimate this v wasOpened (update this (set_opened v) s).

Definition _modelessChanged (this : Node) (modeless : bool) (s : State)
  : State :=
  if negb modeless then
    if opened (ov s this) then _enterModalState this s else s
  else _exitModalState this s.

Definition set_modeless_property (this : Node) (v : bool) (s : State) : State :=
  if decide (modeless (ov s this) = v) then s
  else _modelessChanged this v (update this (set_modeless v) s).

(** ** Dismissal *)

(** Whether some listener calls [preventDefault] on a notification. *)
Definition Veto := Node → EventName → bool.

Definition close (veto : Veto) (shouldAnimate : bool) (this : Node)
    (s : State) : option State :=
  let s := dispatchEvent this vaadin_overlay_close s in
  if negb (veto this vaadin_overlay_close)
  then set_opened_property shouldAnimate this false s
  else Some s.

Definition includes (path : list Node) (n : Node) : bool :=
  bool_decide (n ∈ path).

Definition _mouseDownListener (this : Node) (event : DomEvent) (s : State)
  : State :=
  update this
    (set__mouseDownInside (includes (composedPath event) (part_overlay (ov s this))))
    s.

Definition _mouseUpListener (this : Node) (event : DomEvent) (s : State)
  : State :=
  update this
    (set__mouseUpInside (includes (composedPath event) (part_overlay (ov s this))))
    s.

Definition _outsideClickListener (veto : Veto) (shouldAnimate : bool)
    (this : Node) (event : DomEvent) (s : State) : option State :=
  if includes (composedPath event) (part_overlay (ov s this))
     || _mouseDownInside (ov s this) || _mouseUpInside (ov s this)
  then
    Some (update this (set__mouseUpInside false)
            (update this (set__mouseDownInside false) s))
  else if negb (_last s this) then Some s
  else
    let s := dispatchEvent this vaadin_overlay_outside_click s in
    if opened (ov s this) && negb (veto this vaadin_overlay_outside_click)
    then close veto shouldAnimate this s
    else Some s.

Definition _keydownListener (veto : Veto) (shouldAnimate : bool)
    (this : Node) (event : DomEvent) (s : State) : option State :=
  if negb (_last s this) then Some s
  else if modeless (ov s this)
          && negb (includes (composedPath event) (part_overlay (ov s this)))
  then Some s
  else if decide (key event = "Escape"%string) then
    let s := dispatchEvent this vaadin_overlay_escape_press s in
    if opened (ov s this) && negb (veto this vaadin_overlay_escape_press)
    then close veto shouldAnimate this s
    else Some s
  else Some s.

(** ** Runs *)

(** What the page and the user can do to an overlay.  The two booleans are
    the value of [_shouldAnimate()] at that moment. *)
Inductive Op :=
| Open (this : Node) (shouldAnimate : bool)       (* this.opened = true *)
| Close (this : Node) (shouldAnimate : bool)      (* this.opened = false *)
| AnimationEnd (this : Node)
| BringToFront (this : Node)
| SetModeless (this : Node) (v : bool)
| MouseDown (this : Node) (event : DomEvent)
| MouseUp (this : Node) (event : DomEvent)
| Click (this : Node) (event : DomEvent) (veto : Veto) (shouldAnimate : bool)
| Keydown (this : Node) (event : DomEvent) (veto : Veto) (shouldAnimate : bool).

Definition target (op : Op) : Node :=
  match op with
  | Open this _ | Close this _ | AnimationEnd this | BringToFront this
  | SetModeless this _ | MouseDown this _ | MouseUp this _
  | Click this _ _ _ | Keydown this _ _ _ => this
  end.

Definition perform (op : Op) (s : State) : option State :=
  match op with
  | Open this a => set_opened_property a this true s
  | Close this a => set_opened_property a this false s
  | AnimationEnd this => animationend this s
  | BringToFront this => Some (bringToFront this s)
  | SetModeless this v => Some (set_modeless_property this v s)
  | MouseDown this e => Some (_mouseDownListener this e s)
  | MouseUp this e => Some (_mouseUpListener this e s)
  | Click this e veto a => _outsideClickListener veto a this e s
  | Keydown this e veto a => _keydownListener veto a this e s
  end.

(** Only an [Overlay] has these methods. *)
Definition step (op : Op) (s : State) : option State :=
  if decide (is_Some (overlays s !! target op)) then perform op s else None.

Fixpoint run (ops : list Op) (s : State) : option State :=
  match ops with
  | [] => Some s
  | op :: ops' => s' ← step op s; run ops' s'
  end.

(** A page on which no overlay has been opened yet, and on which the
    overlays are declared where the class expects them: every overlay
    sits, closed, somewhere in the document outside the child list of
    [<body>], so that it is a child of [<body>] only between
    [_attachOverlay] and [_detachOverlay].  The class itself does not check
    this: a page may write an overlay directly under [<body>], and such an
    overlay is an element of [__attachedInstances] while it is closed. *)
Definition fresh_overlay (s : State) (el : Node) (o : Overlay) : Prop :=
  opened o = false ∧ attr_opening o = false ∧ attr_closing o = false ∧
  __openingHandler o = false ∧ __closingHandler o = false ∧
  _placeholder o = None ∧ __zIndex o = None ∧
  _previousDocumentPointerEvents o = None ∧
  (el < next_node s)%nat ∧ (el ∉ body_childNodes s) ∧
  is_Some (parentNode s !! el) ∧ parentNode s !! el ≠ Some body.

#[global] Instance fresh_overlay_dec s el o : Decision (fresh_overlay s el o).
Proof. unfold fresh_overlay. apply _. Defined.

Definition initial (s : State) : Prop :=
  map_Forall (fresh_overlay s) (overlays s) ∧
  map_Forall (λ n p, (n < next_node s)%nat) (parentNode s) ∧
  Forall (λ n, (n < next_node s)%nat) (body_childNodes s) ∧
  NoDup (body_childNodes s).

#[global] Instance initial_dec s : Decision (initial s).
Proof. unfold initial. apply _. Defined.

Inductive reachable : State → Prop :=
| reachable_initial s : initial s → reachable s
| reachable_step s op s' :
    reachable s → step op s = Some s' → reachable s'.

(** ** Vocabulary of the statements *)

(** Ordering nodes by an integer key, and a comparator that is the
    difference of the keys on the elements of a list. *)
Definition by_key (k : Node → Z) (x y : Node) : Prop := k x ≤ k y.

Definition keyed (cmp : Node → Node → Z) (k : Node → Z) (l : list Node)
  : Prop :=
  ∀ x y, x ∈ l → y ∈ l → cmp x y = k x - k y.

(** The stacking order of an element that has one. *)
Definition stackingOrder (s : State) (el : Node) : Z :=
  default 0 (__zIndex (ov s el)).

(** Every instance on the stack has a number for [__zIndex]. *)
Definition numeric (s : State) : Prop :=
  ∀ el, el ∈ __attachedInstances s → is_Some (__zIndex (ov s el)).

(** The style sheets give every overlay of the page a number for its
    z-index, as the style sheet of the class does; no rule of the page
    resets it to [auto]. *)
Definition numeric_sheets (s : State) : Prop :=
  map_Forall (λ _ o, is_Some (sheet_zIndex o)) (overlays s).

#[global] Instance numeric_sheets_dec s : Decision (numeric_sheets s).
Proof. unfold numeric_sheets. apply _. Defined.

(** The stack without [this]. *)
Definition others (s : State) (this : Node) : list Node :=
  filter (λ o, o ≠ this) (__attachedInstances s).

(** The states in which the class calls [bringToFront] on [this], on a
    page that keeps closed overlays out of [<body>]: every other instance
    on the stack has a number for [__zIndex], and [this] has one too, or
    is not on the stack, or has just been appended to [<body>]. *)
Definition ready (s : State) (this : Node) : Prop :=
  (∀ el, el ∈ attached_children s → el ≠ this →
         is_Some (__zIndex (ov s el))) ∧
  (is_Some (__zIndex (ov s this)) ∨ this ∉ attached_children s ∨
   ∃ l, attached_children s = l ++ [this] ∧ this ∉ l).

(** An overlay with what the modal bookkeeping writes blanked out. *)
Definition erase_pointerEvents (o : Overlay) : Overlay :=
  set_part_pointerEvents None (set__previousDocumentPointerEvents None o).

(** [s'] differs from [s] at most in pointer-events bookkeeping: the
    inline [pointer-events] of [<body>] and of the overlay parts, and the
    recorded previous value. *)
Definition modal_frame (s s' : State) : Prop :=
  body_childNodes s' = body_childNodes s ∧
  parentNode s' = parentNode s ∧
  host s' = host s ∧
  next_node s' = next_node s ∧
  activeElement s' = activeElement s ∧
  shadow_activeElements s' = shadow_activeElements s ∧
  timers s' = timers s ∧
  dispatched s' = dispatched s ∧
  (∀ el, is_Some (overlays s' !! el) ↔ is_Some (overlays s !! el)) ∧
  (∀ el, erase_pointerEvents (ov s' el) = erase_pointerEvents (ov s el)).

(** Removing the inline [pointer-events] of the parts of [els], in turn. *)
Definition reenable (els : list Node) (s : State) : State :=
  foldl (λ s el, pointerEvents_remove el s) s els.

(** The first statement of [_exitModalState]. *)
Definition restore_body (this : Node) (s : State) : State :=
  match _previousDocumentPointerEvents (ov s this) with
  | Some previous =>
      update this (set__previousDocumentPointerEvents None)
        (set_body_pointerEvents previous s)
  | None => s
  end.

(** [s'] has the document of [s] and the same overlays, and every overlay
    looks the same through [V]. *)
Definition frame {T} (V : Overlay → T) (s s' : State) : Prop :=
  body_childNodes s' = body_childNodes s ∧
  parentNode s' = parentNode s ∧
  next_node s' = next_node s ∧
  (∀ el, is_Some (overlays s' !! el) ↔ is_Some (overlays s !! el)) ∧
  (∀ el, V (ov s' el) = V (ov s el)).

(** The same, with nothing said about the overlay [this]. *)
Definition frame_but {T} (this : Node) (V : Overlay → T) (s s' : State)
  : Prop :=
  body_childNodes s' = body_childNodes s ∧
  parentNode s' = parentNode s ∧
  next_node s' = next_node s ∧
  (∀ el, is_Some (overlays s' !! el) ↔ is_Some (overlays s !! el)) ∧
  (∀ el, el ≠ this → V (ov s' el) = V (ov s el)).

(** What the stack and the attach/detach cycle read of an overlay. *)
Definition stack_view (o : Overlay)
  : bool * bool * option Node * option Z * option Z :=
  (attr_closing o, __closingHandler o, _placeholder o, __zIndex o,
   sheet_zIndex o).

(** The phases of an overlay.  Detached: where the page put it, outside
    [<body>]'s child list.  In the body: appended to [<body>], with a
    placeholder left where it came from; it is either on the stack or in
    its closing animation, with the handler of that animation pending.  An
    overlay in the body has a number for [__zIndex] if the style sheets
    give it one. *)
Definition detached (s : State) (el : Node) (o : Overlay) : Prop :=
  attr_closing o = false ∧ __closingHandler o = false ∧
  (el ∉ body_childNodes s) ∧
  (∃ p, parentNode s !! el = Some p ∧ p ≠ body).

Definition placeholder_ok (s : State) (o : Overlay) : Prop :=
  ∃ ph p, _placeholder o = Some ph ∧ parentNode s !! ph = Some p ∧
    p ≠ body ∧ overlays s !! ph = None ∧ (ph < next_node s)%nat.

Definition in_body (s : State) (el : Node) (o : Overlay) : Prop :=
  el ∈ body_childNodes s ∧ parentNode s !! el = Some body ∧
  (is_Some (sheet_zIndex o) → is_Some (__zIndex o)) ∧ placeholder_ok s o.

Record stack_inv (s : State) : Prop := {
  inv_fresh : ∀ el, is_Some (overlays s !! el) → (el < next_node s)%nat;
  inv_phase : ∀ el o, overlays s !! el = Some o →
    detached s el o ∨ (in_body s el o ∧ __closingHandler o = attr_closing o);
  inv_nodup : NoDup (body_childNodes s);
  inv_placeholders : ∀ el1 el2 ph,
    is_Some (overlays s !! el1) → is_Some (overlays s !! el2) →
    el1 ∈ body_childNodes s → el2 ∈ body_childNodes s →
    _placeholder (ov s el1) = Some ph → _placeholder (ov s el2) = Some ph →
    el1 = el2;
  inv_distinct : numeric_sheets s → ∀ el1 el2,
    el1 ∈ attached_children s → el2 ∈ attached_children s →
    __zIndex (ov s el1) = __zIndex (ov s el2) → el1 = el2;
}.

(** [opened] is true exactly of the overlays on the stack. *)
Definition opened_inv (s : State) : Prop :=
  ∀ el, is_Some (overlays s !! el) →
    (opened (ov s el) = true ↔ el ∈ attached_children s).

(** The state after [_finishClosing], with [placeholder] and its parent
    [p] as they were before. *)
Definition finished_closing (this ph p : Node) (s : State) : State :=
  update this (set_attr_closing false)
    (pointerEvents_remove this (removeChild ph (insertBefore p this ph s))).

(** The state in which [_attachOverlay] calls [bringToFront], with [p]
    the parent the overlay had. *)
Definition appended (this p : Node) (s : State) : State :=
  let placeholder := next_node s in
  body_appendChild this
    (insertBefore p placeholder this
       (update this (set__placeholder (Some placeholder))
          (set_next_node (S placeholder) s))).

(** The states that agree on the inline [pointer-events] of [<body>] and
    on the value every overlay has recorded for it. *)
Definition pe_same (s s' : State) : Prop :=
  body_pointerEvents s' = body_pointerEvents s ∧
  ∀ el, _previousDocumentPointerEvents (ov s' el)
        = _previousDocumentPointerEvents (ov s el).

(** What an operation on [this] can do to them: nothing; or disable the
    body, [this] recording the value it had; or write the value [this]
    had recorded back, [this] forgetting it.  The record of no other
    overlay changes. *)
Definition pe_step (this : Node) (s s' : State) : Prop :=
  (∀ el, el ≠ this →
     _previousDocumentPointerEvents (ov s' el)
     = _previousDocumentPointerEvents (ov s el)) ∧
  ((body_pointerEvents s' = body_pointerEvents s ∧
    _previousDocumentPointerEvents (ov s' this)
    = _previousDocumentPointerEvents (ov s this)) ∨
   (body_pointerEvents s ≠ "none"%string ∧
    body_pointerEvents s' = "none"%string ∧
    _previousDocumentPointerEvents (ov s' this)
    = Some (body_pointerEvents s)) ∨
   (∃ v, _previousDocumentPointerEvents (ov s this) = Some v ∧
         body_pointerEvents s' = v ∧
         _previousDocumentPointerEvents (ov s' this) = None)).

(** What [_animatedOpening] does after [_attachOverlay]. *)
Definition opening_tail (shouldAnimate : bool) (this : Node) (s : State)
  : State :=
  let s := if negb (modeless (ov s this)) then _enterModalState this s
           else s in
  let s := update this (set_attr_opening true) s in
  if shouldAnimate then _enqueueAnimation opening this s
  else _finishOpening this s.

(** The state in which [_animatedClosing] starts or skips the animation. *)
Definition closing_marked (this : Node) (s : State) : State :=
  dispatchEvent this vaadin_overlay_closing
    (update this (set_attr_closing true) s).

(** A projection of an overlay that an assignment leaves alone. *)
Definition ignores {A B} (π : Overlay → A) (set : B → Overlay → Overlay)
  : Prop :=
  ∀ v o, π (set v o) = π o.

(** A document without cycles: some rank decreases along every parent and
    host link. *)
Definition acyclic (rank : Node → nat) (s : State) : Prop :=
  map_Forall (λ n m, (rank m < rank n)%nat) (parentNode s) ∧
  map_Forall (λ n m, (rank m < rank n)%nat) (host s).

#[global] Instance acyclic_dec rank s : Decision (acyclic rank s).
Proof. unfold acyclic. apply _. Defined.

(** [a] is [n] or lies above it, shadow boundaries crossed through
    [host]. *)
Inductive deep_ancestor (s : State) : Node → Node → Prop :=
| deep_ancestor_refl n : deep_ancestor s n n
| deep_ancestor_step n m a :
    parentNode_or_host s n = Some m → deep_ancestor s m a →
    deep_ancestor s n a.

(** Where the focus is when the overlay closes: on [<body>], or inside the
    overlay. *)
Definition focus_inside (s : State) (this : Node) : Prop :=
  _getActiveElement s = body ∨ deep_ancestor s (_getActiveElement s) this.

(** [s'] has the links, the focus and the timers of [s]. *)
Definition focus_frame (s s' : State) : Prop :=
  parentNode s' = parentNode s ∧ host s' = host s ∧
  activeElement s' = activeElement s ∧
  shadow_activeElements s' = shadow_activeElements s ∧
  timers s' = timers s.

(** The nodes that have a parent or a host. *)
Definition linked (s : State) : list Node :=
  (map_to_list (parentNode s)).*1 ++ (map_to_list (host s)).*1.

(** ** An example page *)

(** The user moves the focus: [document.activeElement] becomes [n], and
    [chain] lists the active elements of the shadow roots below it. *)
Definition focus_moved (n : Node) (chain : list Node) (s : State) : State :=
  mkState (overlays s) (parentNode s) (host s) (body_childNodes s)
    (body_pointerEvents s) (Some n) chain (timers s) (dispatched s)
    (next_node s).

(** The state a run ends in. *)
Definition after (ops : list Op) (s : State) : State :=
  default s (run ops s).

Definition example_overlay (modeless restore : bool) (node : option Node)
    (part : Node) : Overlay :=
  mkOverlay false modeless restore node None false false false false false
    false None None None (Some 200) None None part.

(** [<html>] is node 1 and [<body>] node 2.  The body holds a container 5
    and two buttons 6 and 7; the first button has the focus.  The
    container holds three overlays: 10 and 11 are modal, 12 is modeless.
    Overlay 10 has a shadow root 16 with the overlay part 17 and a button
    18 in it, and a slotted input 19; it restores the focus on close.
    Overlay 11 restores the focus too, and the page has set its
    [restoreFocusNode] to the second button. *)
Definition page : State :=
  mkState
    (list_to_map
       [(10%nat, example_overlay false true None 17%nat);
        (11%nat, example_overlay false true (Some 7%nat) 21%nat);
        (12%nat, example_overlay true false None 22%nat)])
    (list_to_map
       [(1%nat, 0%nat); (2%nat, 1%nat); (5%nat, 2%nat); (6%nat, 2%nat);
        (7%nat, 2%nat); (10%nat, 5%nat); (11%nat, 5%nat); (12%nat, 5%nat);
        (17%nat, 16%nat); (18%nat, 17%nat); (19%nat, 10%nat)])
    (list_to_map [(16%nat, 10%nat)])
    [5%nat; 6%nat; 7%nat] EmptyString (Some 6%nat) [] [] [] 30%nat.

(** Escape, pressed with the focus on the first button. *)
Definition escape : DomEvent :=
  mkDomEvent [6%nat; body; documentElement; document] "Escape".

(** A click on the second button. *)
Definition click_outside : DomEvent :=
  mkDomEvent [7%nat; body; documentElement; document] EmptyString.

(** A mousedown on the button in the shadow root of overlay 10. *)
Definition press_inside : DomEvent :=
  mkDomEvent [18%nat; 17%nat; 16%nat; 10%nat; body; documentElement; document]
    EmptyString.

(** No listener cancels anything. *)
Definition no_veto : Veto := λ _ _, false.

(** A listener of [vaadin-overlay-close] cancels it. *)
Definition veto_close : Veto :=
  λ _ e, bool_decide (e = vaadin_overlay_close).

(** Every node of the example page has a greater number than its parent
    or host. *)
Definition node_rank : Node → nat := λ n, n.

(** Facts about the example page are settled by evaluation. *)
Ltac evaluated := vm_compute; reflexivity.
Ltac decided := apply (bool_decide_unpack _); vm_compute; exact I.

(** ** Vocabulary of the further properties *)

(** The operations that never make an overlay modal. *)
Definition keeps_modeless (op : Op) : Prop :=
  match op with
  | SetModeless _ false => False
  | _ => True
  end.

(** A page all of whose overlays are modeless and hold no record, with
    [pe0] as the inline [pointer-events] of [<body>]. *)
Definition modeless_inv (pe0 : string) (s : State) : Prop :=
  (∀ el, is_Some (overlays s !! el) → modeless (ov s el) = true) ∧
  (∀ el, _previousDocumentPointerEvents (ov s el) = None) ∧
  body_pointerEvents s = pe0.


(** The observer of the [hidden] property. *)
Definition _hiddenChanged (this : Node) (hidden : bool) (s : State)
  : option State :=
  if hidden && attr_closing (ov s this) then _flushAnimation closing this s
  else Some s.


(** ** Listeners on the document *)

(** The listeners the class adds to [document] (for clicks: to [<html>],
    in the capture phase), each named by the overlay whose bound method it
    is.  [addEventListener] ignores a listener that is already there and
    [removeEventListener] one that is not, so each kind is a set. *)
Record Listeners := mkListeners {
  keydown_listeners : gset Node;
  mousedown_listeners : gset Node;
  mouseup_listeners : gset Node;
  click_listeners : gset Node;
}.

Definition no_listeners : Listeners := mkListeners ∅ ∅ ∅ ∅.

Definition _addGlobalListeners (this : Node) (l : Listeners) : Listeners :=
  mkListeners (keydown_listeners l)
    ({[this]} ∪ mousedown_listeners l)
    ({[this]} ∪ mouseup_listeners l)
    ({[this]} ∪ click_listeners l).

Definition _removeGlobalListeners (this : Node) (l : Listeners)
  : Listeners :=
  mkListeners (keydown_listeners l)
    (mousedown_listeners l ∖ {[this]})
    (mouseup_listeners l ∖ {[this]})
    (click_listeners l ∖ {[this]}).

(** What [_openedChanged] does to the listeners, after the opening or the
    closing; [modeless] is [this.modeless]. *)
Definition _openedChanged_listeners (this : Node)
    (opened wasOpened modeless : bool) (l : Listeners) : Listeners :=
  if opened then
    let l := mkListeners ({[this]} ∪ keydown_listeners l)
               (mousedown_listeners l) (mouseup_listeners l)
               (click_listeners l) in
    if negb modeless then _addGlobalListeners this l else l
  else if wasOpened then
    let l := mkListeners (keydown_listeners l ∖ {[this]})
               (mousedown_listeners l) (mouseup_listeners l)
               (click_listeners l) in
    if negb modeless then _removeGlobalListeners this l else l
  else l.

(** What [_modelessChanged] does to them; [opened] is [this.opened]. *)
Definition _modelessChanged_listeners (this : Node)
    (modeless opened : bool) (l : Listeners) : Listeners :=
  if negb modeless then
    if opened then _addGlobalListeners this l else l
  else _removeGlobalListeners this l.

(** The class never reads the listeners back, so what an operation on
    [this] does to them is determined by the observers that ran: the one
    of [opened] when that property went from its value in [s] to its value
    in [s'], the one of [modeless] likewise. *)
Definition observed (this : Node) (s s' : State) (l : Listeners)
  : Listeners :=
  let l := if decide (opened (ov s' this) = opened (ov s this)) then l
           else _openedChanged_listeners this (opened (ov s' this))
                  (opened (ov s this)) (modeless (ov s' this)) l in
  if decide (modeless (ov s' this) = modeless (ov s this)) then l
  else _modelessChanged_listeners this (modeless (ov s' this))
         (opened (ov s' this)) l.

Definition step_listeners (op : Op) (sl : State * Listeners)
  : option (State * Listeners) :=
  s' ← step op sl.1; Some (s', observed (target op) sl.1 s' sl.2).

Fixpoint run_listeners (ops : list Op) (sl : State * Listeners)
  : option (State * Listeners) :=
  match ops with
  | [] => Some sl
  | op :: ops' => sl' ← step_listeners op sl; run_listeners ops' sl'
  end.

(** The listeners of every overlay are those of its state: the keydown
    listener is there while it is open, the mouse and click listeners
    while it is open and modal. *)
Definition listeners_inv (s : State) (l : Listeners) : Prop :=
  ∀ el,
    (el ∈ keydown_listeners l ↔ opened (ov s el) = true) ∧
    (el ∈ mousedown_listeners l ↔
     opened (ov s el) = true ∧ modeless (ov s el) = false) ∧
    (el ∈ mouseup_listeners l ↔
     opened (ov s el) = true ∧ modeless (ov s el) = false) ∧
    (el ∈ click_listeners l ↔
     opened (ov s el) = true ∧ modeless (ov s el) = false).


(** ** The renderer *)

(** The values of the properties [renderer], [owner] and [model]: objects
    are compared by identity. *)
Inductive Value :=
| undefined
| null
| object (id : nat).

#[global] Instance Value_eq_dec : EqDecision Value.
Proof. solve_decision. Defined.

Definition truthy (v : Value) : bool :=
  match v with
  | object _ => true
  | undefined | null => false
  end.

(** What happens to the children of the overlay. *)
Inductive ContentEvent :=
| emptied                                      (* this.innerHTML = '' *)
| rendered (renderer owner model : Value).     (* one call of the renderer *)

#[global] Instance ContentEvent_eq_dec : EqDecision ContentEvent.
Proof. solve_decision. Defined.

Record Content := mkContent {
  renderer : Value;
  owner : Value;
  model : Value;
  _oldOwner : Value;
  _oldModel : Value;
  _oldRenderer : Value;
  _oldOpened : option bool;             (* None: undefined *)
  content_log : list ContentEvent;      (* latest first *)
}.

Definition content_event (e : ContentEvent) (c : Content) : Content :=
  mkContent (renderer c) (owner c) (model c) (_oldOwner c) (_oldModel c)
    (_oldRenderer c) (_oldOpened c) (e :: content_log c).

Definition requestContentUpdate (c : Content) : Content :=
  if truthy (renderer c)
  then content_event (rendered (renderer c) (owner c) (model c)) c
  else c.

(** The observer [_rendererOrDataChanged(renderer, owner, model, opened)];
    the arguments are written [r], [o] and [m] here. *)
Definition _rendererOrDataChanged (r o m : Value)
    (opened : option bool) (c : Content) : Content :=
  let ownerOrModelChanged :=
    bool_decide (_oldOwner c ≠ o) || bool_decide (_oldModel c ≠ m) in
  let rendererChanged := bool_decide (_oldRenderer c ≠ r) in
  let openedChanged := bool_decide (_oldOpened c ≠ opened) in
  let c := mkContent (renderer c) (owner c) (model c) o m r opened
             (content_log c) in
  let c := if rendererChanged then content_event emptied c else c in
  if bool_decide (opened = Some true) && truthy r
     && (rendererChanged || openedChanged || ownerOrModelChanged)
  then requestContentUpdate c
  else c.

(** The properties take new values and the observer runs with them. *)
Definition properties_changed (r o m : Value) (opened : option bool)
    (c : Content) : Content :=
  _rendererOrDataChanged r o m opened
    (mkContent r o m (_oldOwner c) (_oldModel c) (_oldRenderer c)
       (_oldOpened c) (content_log c)).

(** A new element: nothing is set and the overlay has no children. *)
Definition new_content : Content :=
  mkContent undefined undefined undefined undefined undefined undefined
    None [].

Inductive ContentOp :=
| PropertiesChanged (r o m : Value) (opened : option bool)
| RequestContentUpdate.

Definition content_step (c : Content) (op : ContentOp) : Content :=
  match op with
  | PropertiesChanged r o m opened => properties_changed r o m opened c
  | RequestContentUpdate => requestContentUpdate c
  end.


(** ** Well-formed documents *)

(** Every node in use was created before [next_node]. *)
Definition bounded (s : State) : Prop :=
  map_Forall (λ n m, (n < next_node s)%nat ∧ (m < next_node s)%nat)
    (parentNode s) ∧
  map_Forall (λ n m, (n < next_node s)%nat ∧ (m < next_node s)%nat)
    (host s) ∧
  Forall (λ n, (n < next_node s)%nat) (body_childNodes s) ∧
  (body < next_node s)%nat ∧
  map_Forall (λ el _, (el < next_node s)%nat) (overlays s).

(** [document] is the root, and it is not an overlay. *)
Definition rooted (s : State) : Prop :=
  parentNode s !! document = None ∧ host s !! document = None ∧
  overlays s !! document = None.

(** [rank] decreases along every link, every overlay ranks above [<body>],
    and an overlay that is a child of [<body>] ranks above the parent of
    its placeholder, the node it goes back to. *)
Definition ranked (rank : Node → nat) (s : State) : Prop :=
  acyclic rank s ∧
  (∀ el, is_Some (overlays s !! el) → (rank body < rank el)%nat) ∧
  (∀ el ph p, is_Some (overlays s !! el) → el ∈ body_childNodes s →
     _placeholder (ov s el) = Some ph → parentNode s !! ph = Some p →
     (rank p < rank el)%nat).

(** The placeholder of a child of [<body>] is an older node that is not an
    overlay. *)
Definition placeholders_fresh (s : State) : Prop :=
  ∀ el ph, is_Some (overlays s !! el) → el ∈ body_childNodes s →
    _placeholder (ov s el) = Some ph →
    overlays s !! ph = None ∧ (ph < next_node s)%nat.

Definition dom_inv (s : State) : Prop :=
  bounded s ∧ rooted s ∧ placeholders_fresh s ∧ ∃ rank, ranked rank s.

(** A page on which no overlay has been opened yet, with a document that
    is a forest below [document], every overlay below [<body>]. *)
Definition well_formed (rank : Node → nat) (s : State) : Prop :=
  initial s ∧ bounded s ∧ rooted s ∧ acyclic rank s ∧
  map_Forall (λ el _, (rank body < rank el)%nat) (overlays s).

#[global] Instance well_formed_dec rank s : Decision (well_formed rank s).
Proof. unfold well_formed, bounded, rooted. apply _. Defined.


(** Only an open modal overlay holds a record of the [pointer-events] of
    [<body>]. *)
Definition record_inv (s : State) : Prop :=
  ∀ el, is_Some (_previousDocumentPointerEvents (ov s el)) →
        opened (ov s el) = true ∧ modeless (ov s el) = false.


(** The overlay that disabled the body, on a page whose body started with
    [pointer-events: pe0]: at most one overlay holds a record; while one
    does, the record is [pe0], which is not ['none'], and the body is
    ['none']; while none does, the body has the value [pe0]. *)
Definition owner_inv (pe0 : string) (s : State) : Prop :=
  (∀ el v, _previousDocumentPointerEvents (ov s el) = Some v →
     v = pe0 ∧ pe0 ≠ "none"%string ∧
     body_pointerEvents s = "none"%string ∧
     ∀ el', is_Some (_previousDocumentPointerEvents (ov s el')) →
            el' = el) ∧
  ((∀ el, _previousDocumentPointerEvents (ov s el) = None) →
   body_pointerEvents s = pe0).

(** The example page with the two modal overlays taken out and overlay 10
    put back as a modeless one. *)
Definition modeless_page : State :=
  set_overlays
    (list_to_map
       [(10%nat, example_overlay true true None 17%nat);
        (12%nat, example_overlay true false None 22%nat)])
    page.

(** A page that declares its overlays where the class does not expect
    them: the body holds the container, the two buttons and three modal
    overlays 13, 14 and 15, written directly under [<body>]. *)
Definition body_page : State :=
  mkState
    (list_to_map
       [(13%nat, example_overlay false false None 23%nat);
        (14%nat, example_overlay false false None 24%nat);
        (15%nat, example_overlay false false None 25%nat)])
    (list_to_map
       [(1%nat, 0%nat); (2%nat, 1%nat); (5%nat, 2%nat); (6%nat, 2%nat);
        (7%nat, 2%nat); (13%nat, 2%nat); (14%nat, 2%nat); (15%nat, 2%nat)])
    ∅ [5%nat; 6%nat; 7%nat; 13%nat; 14%nat; 15%nat] EmptyString
    (Some 6%nat) [] [] [] 30%nat.

(** Overlay 13 is opened and closed, then overlay 15, then overlay 13
    again; none of them is animated. *)
Definition body_page_ops : list Op :=
  [Open 13%nat false; Close 13%nat false; Open 15%nat false;
   Close 15%nat false; Open 13%nat false; Close 13%nat false].

(** The example page with a rule [vaadin-overlay { z-index: auto }]: the
    two modal overlays 10 and 11, in the container. *)
Definition auto_page : State :=
  set_overlays
    (list_to_map
       [(10%nat, mkOverlay false false false None None false false false
                   false false false None None None None None None 17%nat);
        (11%nat, mkOverlay false false false None None false false false
                   false false false None None None None None None 21%nat)])
    page.

(** The state and the listeners a run ends with. *)
Definition after_listeners (ops : list Op) (sl : State * Listeners)
  : State * Listeners :=
  default sl (run_listeners ops sl).

(** * Properties *)

(** ** The overlay store *)

Lemma ov_lookup s el o : overlays s !! el = Some o → ov s el = o.
Proof. unfold ov. by intros ->. Qed.

Lemma overlays_update el f s j :
  overlays (update el f s) !! j =
  if decide (el = j) then f <$> overlays s !! el else overlays s !! j.
Proof. unfold update. simpl. apply lookup_alter. Qed.

Lemma update_is_Some el f s j :
  is_Some (overlays (update el f s) !! j) ↔ is_Some (overlays s !! j).
Proof.
  rewrite overlays_update. case_decide; [subst|done].
  by rewrite fmap_is_Some.
Qed.

Lemma ov_update_eq el f s :
  is_Some (overlays s !! el) → ov (update el f s) el = f (ov s el).
Proof.
  intros [o Ho]. unfold ov. rewrite overlays_update, decide_True by done.
  by rewrite Ho.
Qed.

Lemma ov_update_ne el f s j : el ≠ j → ov (update el f s) j = ov s j.
Proof.
  intros. unfold ov. by rewrite overlays_update, decide_False by done.
Qed.

(** A field that the assigned function leaves alone reads the same. *)
Lemma ov_update_field {A} (π : Overlay → A) el f s j :
  (∀ o, π (f o) = π o) → π (ov (update el f s) j) = π (ov s j).
Proof.
  intros Hf. unfold ov. rewrite overlays_update.
  case_decide; [subst|done]. destruct (overlays s !! j); simpl; auto.
Qed.

Lemma attached_true s el :
  attached s el = true ↔
  is_Some (overlays s !! el) ∧ attr_closing (ov s el) = false.
Proof.
  unfold attached, ov. destruct (overlays s !! el) as [o|]; simpl.
  - rewrite negb_true_iff. split; [by eauto|by intros [_ ?]].
  - split; [done|]. by intros [[? ?] _].
Qed.

(** ** Sorting *)

Section sorting.
Variable cmp : Node → Node → Z.

Lemma sort_insert_Permutation x l : sort_insert cmp x l ≡ₚ x :: l.
Proof.
  induction l as [|y l IH]; simpl; [done|].
  case_decide; [done|]. rewrite IH. apply Permutation_swap.
Qed.

Lemma sort_Permutation l : sort cmp l ≡ₚ l.
Proof.
  induction l as [|x l IH]; simpl; [done|].
  by rewrite sort_insert_Permutation, IH.
Qed.

Lemma elem_of_sort x l : x ∈ sort cmp l ↔ x ∈ l.
Proof. by rewrite sort_Permutation. Qed.

(** An element that compares at or below the last one is inserted
    before it. *)
Lemma sort_insert_snoc y l x :
  cmp y x ≤ 0 → sort_insert cmp y (l ++ [x]) = sort_insert cmp y l ++ [x].
Proof.
  intros Hyx. induction l as [|z l IH]; simpl.
  - by rewrite decide_True.
  - case_decide; [done|]. by rewrite IH.
Qed.

Lemma sort_snoc l x :
  (∀ y, y ∈ l → cmp y x ≤ 0) → sort cmp (l ++ [x]) = sort cmp l ++ [x].
Proof.
  induction l as [|y l IH]; intros Hx; simpl; [done|].
  rewrite IH by (intros; apply Hx; by right).
  apply sort_insert_snoc, Hx. by left.
Qed.

(** The comparator is the difference of a key on the elements at hand. *)
Variable k : Node → Z.

Lemma sort_insert_sorted x l :
  keyed cmp k (x :: l) →
  StronglySorted (by_key k) l → StronglySorted (by_key k) (sort_insert cmp x l).
Proof.
  intros Hk Hl. induction Hl as [|y l Hl IH Hy]; simpl.
  - repeat constructor.
  - assert (cmp x y = k x - k y) as Hxy
      by (apply Hk; [by left | by right; left]).
    case_decide as Hc.
    + constructor; [by constructor|].
      constructor; [unfold by_key; lia|].
      eapply Forall_impl; [exact Hy|]. unfold by_key. intros; lia.
    + constructor.
      * apply IH. intros a b Ha Hb. apply Hk.
        -- apply elem_of_cons in Ha as [->|Ha]; [by left|by right; right].
        -- apply elem_of_cons in Hb as [->|Hb]; [by left|by right; right].
      * rewrite Forall_forall. intros z Hz.
        rewrite sort_insert_Permutation in Hz.
        apply elem_of_cons in Hz as [->|Hz].
        -- unfold by_key; lia.
        -- rewrite Forall_forall in Hy. by apply Hy.
Qed.

Lemma sort_sorted l : keyed cmp k l → StronglySorted (by_key k) (sort cmp l).
Proof.
  induction l as [|x l IH]; intros Hk; simpl; [constructor|].
  apply sort_insert_sorted.
  - intros a b Ha Hb. apply Hk.
    + apply elem_of_cons in Ha as [->|Ha]; [by left|].
      right. by rewrite elem_of_sort in Ha.
    + apply elem_of_cons in Hb as [->|Hb]; [by left|].
      right. by rewrite elem_of_sort in Hb.
  - apply IH. intros a b Ha Hb. apply Hk; by right.
Qed.

Lemma StronglySorted_filter (P : Node → Prop) `{∀ x, Decision (P x)} l :
  StronglySorted (by_key k) l → StronglySorted (by_key k) (filter P l).
Proof.
  induction 1 as [|x l Hl IH Hx]; [constructor|].
  rewrite filter_cons. case_decide; [|done].
  constructor; [done|].
  rewrite Forall_forall in Hx |- *.
  intros y [_ Hy]%list_elem_of_filter. by apply Hx.
Qed.

(** The last element of a sorted list carries the greatest key. *)
Lemma sorted_last_greatest l x y :
  StronglySorted (by_key k) l → last l = Some x → y ∈ l → k y ≤ k x.
Proof.
  intros Hl [l' ->]%last_Some Hy.
  apply elem_of_app in Hy as [Hy|Hy].
  - eapply (StronglySorted_app_1_elem_of (by_key k)); [done..|by left].
  - apply list_elem_of_singleton in Hy as ->. lia.
Qed.

Lemma keyed_sub l l' : (∀ x, x ∈ l' → x ∈ l) → keyed cmp k l → keyed cmp k l'.
Proof. intros Hsub Hk x y Hx Hy. apply Hk; auto. Qed.

(** Filtering commutes with sorting. *)
Lemma filter_sort_insert (P : Node → Prop) `{∀ x, Decision (P x)} x m :
  keyed cmp k (x :: m) → StronglySorted (by_key k) m →
  filter P (sort_insert cmp x m) =
  if decide (P x) then sort_insert cmp x (filter P m) else filter P m.
Proof.
  intros Hk Hm. induction Hm as [|y m Hm IH Hy]; simpl.
  - rewrite filter_cons, filter_nil. by case_decide.
  - assert (keyed cmp k (x :: m)) as Hk'.
    { eapply keyed_sub; [|exact Hk]. intros z Hz.
      apply elem_of_cons in Hz as [->|Hz]; [by left|by right; right]. }
    specialize (IH Hk').
    destruct (decide (cmp x y ≤ 0)) as [Hc|Hc].
    + rewrite (filter_cons _ x). destruct (decide (P x)) as [HP|HP]; [|done].
      f_equal. destruct (filter P (y :: m)) as [|w ws] eqn:Hf; [done|].
      simpl. rewrite decide_True; [done|].
      assert (w ∈ y :: m) as Hw.
      { eapply list_elem_of_filter. rewrite Hf. by left. }
      assert (cmp x y = k x - k y)
        by (apply Hk; [by left|by right; left]).
      assert (cmp x w = k x - k w) as ->
        by (apply Hk; [by left|by right]).
      apply elem_of_cons in Hw as [->|Hw]; [lia|].
      rewrite Forall_forall in Hy. specialize (Hy _ Hw).
      unfold by_key in Hy. lia.
    + rewrite !(filter_cons P y), IH.
      destruct (decide (P x)), (decide (P y)); try done.
      simpl. by rewrite decide_False.
Qed.

Lemma filter_sort (P : Node → Prop) `{∀ x, Decision (P x)} l :
  keyed cmp k l → filter P (sort cmp l) = sort cmp (filter P l).
Proof.
  induction l as [|x l IH]; intros Hk; simpl; [done|].
  assert (keyed cmp k l) as Hl by (eapply keyed_sub; [|exact Hk]; by right).
  rewrite filter_sort_insert.
  - rewrite filter_cons, IH by done. by case_decide.
  - eapply keyed_sub; [|exact Hk]. intros z Hz.
    apply elem_of_cons in Hz as [->|Hz]; [by left|].
    right. by rewrite elem_of_sort in Hz.
  - by apply sort_sorted.
Qed.
End sorting.

Lemma sort_insert_ext cmp cmp' x l :
  (∀ y, y ∈ l → cmp x y = cmp' x y) →
  sort_insert cmp x l = sort_insert cmp' x l.
Proof.
  induction l as [|y l IH]; intros Hc; simpl; [done|].
  rewrite (Hc y) by (by left). case_decide; [done|].
  rewrite IH; [done|]. intros; apply Hc; by right.
Qed.

Lemma sort_ext cmp cmp' l :
  (∀ x y, x ∈ l → y ∈ l → cmp x y = cmp' x y) → sort cmp l = sort cmp' l.
Proof.
  induction l as [|x l IH]; intros Hc; simpl; [done|].
  rewrite IH by (intros; apply Hc; by right).
  apply sort_insert_ext. intros y Hy. apply Hc; [by left|].
  right. by rewrite elem_of_sort in Hy.
Qed.

(** ** The derived stack *)

Lemma elem_of_attached_children s el :
  el ∈ attached_children s ↔
  el ∈ body_childNodes s ∧ attached s el = true.
Proof. unfold attached_children. rewrite list_elem_of_filter. tauto. Qed.

Lemma elem_of_attachedInstances s el :
  el ∈ __attachedInstances s ↔
  el ∈ body_childNodes s ∧ attached s el = true.
Proof.
  unfold __attachedInstances.
  by rewrite elem_of_sort, elem_of_attached_children.
Qed.

Lemma elem_of_others s this el :
  el ∈ others s this ↔
  el ∈ body_childNodes s ∧ attached s el = true ∧ el ≠ this.
Proof.
  unfold others. rewrite list_elem_of_filter, elem_of_attachedInstances.
  tauto.
Qed.

Lemma compareFn_numeric s a b :
  is_Some (__zIndex (ov s a)) → is_Some (__zIndex (ov s b)) →
  compareFn s a b = stackingOrder s a - stackingOrder s b.
Proof.
  intros [x Hx] [y Hy]. unfold compareFn, stackingOrder.
  by rewrite Hx, Hy.
Qed.

Lemma compareFn_undefined s a b :
  __zIndex (ov s b) = None → compareFn s a b = 0.
Proof.
  intros Hb. unfold compareFn. rewrite Hb.
  by destruct (__zIndex (ov s a)).
Qed.

Lemma numeric_keyed s :
  numeric s → keyed (compareFn s) (stackingOrder s) (attached_children s).
Proof.
  intros Hn x y Hx Hy.
  apply compareFn_numeric; apply Hn; unfold __attachedInstances;
    by rewrite elem_of_sort.
Qed.

Lemma attachedInstances_sorted s :
  numeric s →
  StronglySorted (by_key (stackingOrder s)) (__attachedInstances s).
Proof. intros. by apply sort_sorted, numeric_keyed. Qed.

Lemma _last_true s this :
  _last s this = true ↔ last (__attachedInstances s) = Some this.
Proof. unfold _last. by rewrite bool_decide_eq_true. Qed.

Lemma numeric_ready s this : numeric s → ready s this.
Proof.
  intros Hn. split.
  - intros el Hel _. apply Hn. unfold __attachedInstances.
    by rewrite elem_of_sort.
  - destruct (decide (this ∈ attached_children s)) as [Hin|Hnin]; [|tauto].
    left. apply Hn. unfold __attachedInstances. by rewrite elem_of_sort.
Qed.

Lemma filter_id `{∀ x : Node, Decision (P x)} (l : list Node) :
  Forall P l → filter P l = l.
Proof.
  induction 1 as [|x l Hx Hl IH]; [done|].
  by rewrite filter_cons, decide_True, IH.
Qed.

(** The overlays [bringToFront] looks at are the other attached children,
    sorted. *)
Lemma others_ready s this :
  ready s this →
  others s this
  = sort (compareFn s) (filter (λ o, o ≠ this) (attached_children s)).
Proof.
  intros [Hothers Hthis]. unfold others, __attachedInstances.
  assert (is_Some (__zIndex (ov s this)) ∨ this ∉ attached_children s →
          numeric s) as Hnum.
  { intros Hcase el Hel. unfold __attachedInstances in Hel.
    rewrite elem_of_sort in Hel.
    destruct (decide (el = this)) as [->|Hne]; [|by apply Hothers].
    destruct Hcase; done. }
  destruct (__zIndex (ov s this)) as [z|] eqn:Hz.
  { apply (filter_sort _ (stackingOrder s)), numeric_keyed, Hnum.
    left. eauto. }
  destruct Hthis as [[? ?]|[Hnin|(l & Hl & Hnin)]]; [done| |].
  { apply (filter_sort _ (stackingOrder s)), numeric_keyed, Hnum. tauto. }
  rewrite Hl, sort_snoc by (intros; by rewrite compareFn_undefined).
  rewrite !filter_app, !filter_cons, decide_False by (intros ?; done).
  rewrite filter_nil, !app_nil_r.
  rewrite (filter_id l)
    by (rewrite Forall_forall; intros x Hx ->; done).
  apply filter_id. rewrite Forall_forall. intros x Hx%elem_of_sort ->. done.
Qed.

Lemma others_numeric s this el :
  ready s this → el ∈ others s this → is_Some (__zIndex (ov s el)).
Proof.
  intros [Hothers _] (Hb & Ha & Hne)%elem_of_others.
  apply Hothers; [|done]. by apply elem_of_attached_children.
Qed.

Lemma others_sorted s this :
  ready s this → StronglySorted (by_key (stackingOrder s)) (others s this).
Proof.
  intros Hr. rewrite others_ready by done. apply sort_sorted.
  intros x y Hx Hy. apply compareFn_numeric.
  - apply (others_numeric s this); [done|].
    rewrite others_ready by done. by rewrite elem_of_sort.
  - apply (others_numeric s this); [done|].
    rewrite others_ready by done. by rewrite elem_of_sort.
Qed.

(** ** [bringToFront] *)

Lemma bringToFront_other this s j :
  this ≠ j → ov (bringToFront this s) j = ov s j.
Proof. intros. unfold bringToFront. by rewrite !ov_update_ne by done. Qed.

Lemma assign_style_zIndex_field {A} (π : Overlay → A) v :
  (∀ z o, π (set_style_zIndex z o) = π o) →
  ∀ o, π (assign_style_zIndex v o) = π o.
Proof. intros Hπ o. destruct v; simpl; auto. Qed.

(** [bringToFront] writes [style.zIndex] and [__zIndex] and nothing else. *)
Lemma bringToFront_field {A} (π : Overlay → A) this s j :
  (∀ z o, π (set_style_zIndex z o) = π o) →
  (∀ z o, π (set___zIndex z o) = π o) →
  π (ov (bringToFront this s) j) = π (ov s j).
Proof.
  intros H1 H2. unfold bringToFront.
  rewrite ov_update_field by (intros; apply H2).
  apply ov_update_field. by apply assign_style_zIndex_field.
Qed.

Lemma bringToFront_is_Some this s j :
  is_Some (overlays (bringToFront this s) !! j) ↔ is_Some (overlays s !! j).
Proof. unfold bringToFront. by rewrite !update_is_Some. Qed.

Lemma bringToFront_attached this s j :
  attached (bringToFront this s) j = attached s j.
Proof.
  apply eq_true_iff_eq. rewrite !attached_true, bringToFront_is_Some.
  by rewrite (bringToFront_field attr_closing).
Qed.

Lemma zIndex_or_computed_assigned v o :
  zIndex_or_computed v (assign_style_zIndex v o) =
  match v with
  | zEmpty => sheet_zIndex o
  | zNumber z => Some z
  | zNaN => computed_zIndex o
  end.
Proof.
  destruct v as [|z|]; simpl; try done.
  case_decide; [subst|]; done.
Qed.

Lemma bringToFront_zIndex this s :
  is_Some (overlays s !! this) →
  __zIndex (ov (bringToFront this s) this) =
  match frontmost s this with
  | Some f => match __zIndex (ov s f) with
              | Some z => Some (z + 1)
              | None => computed_zIndex (ov s this)
              end
  | None => sheet_zIndex (ov s this)
  end.
Proof.
  intros Hthis. unfold bringToFront.
  rewrite ov_update_eq by (by rewrite update_is_Some).
  rewrite ov_update_eq by done. simpl.
  rewrite zIndex_or_computed_assigned.
  destruct (frontmost s this) as [f|]; [|done].
  by destruct (__zIndex (ov s f)).
Qed.

Lemma bringToFront_style_zIndex this s :
  is_Some (overlays s !! this) →
  style_zIndex (ov (bringToFront this s) this) =
  match frontmost s this with
  | Some f => match __zIndex (ov s f) with
              | Some z => Some (css_integer (z + 1))
              | None => style_zIndex (ov s this)
              end
  | None => None
  end.
Proof.
  intros Hthis. unfold bringToFront.
  rewrite (ov_update_field style_zIndex) by done.
  rewrite ov_update_eq by done.
  destruct (frontmost s this) as [f|]; [|done].
  by destruct (__zIndex (ov s f)).
Qed.

(** An overlay that the style sheets give a number has one for its
    stacking order after [bringToFront], whatever the stack looks like. *)
Lemma bringToFront_numeric this s :
  is_Some (overlays s !! this) →
  is_Some (sheet_zIndex (ov s this)) →
  is_Some (__zIndex (ov (bringToFront this s) this)).
Proof.
  intros Hthis Hsheet. rewrite bringToFront_zIndex by done.
  destruct (frontmost s this) as [f|]; [|done].
  destruct (__zIndex (ov s f)); [by eauto|].
  unfold computed_zIndex. by destruct (style_zIndex (ov s this)); eauto.
Qed.

(** ** Stacking-order assignment *)

(** In the states in which the class calls [bringToFront], the last of
    the other instances carries the greatest stacking order among them. *)
Lemma frontmost_greatest s this :
  ready s this → others s this ≠ [] →
  ∃ f m, last (others s this) = Some f ∧ __zIndex (ov s f) = Some m ∧
    ∀ el, el ∈ others s this → ∃ z, __zIndex (ov s el) = Some z ∧ z ≤ m.
Proof.
  intros Hr Hne. destruct (last (others s this)) as [f|] eqn:Hlast.
  2:{ apply last_None in Hlast. done. }
  assert (f ∈ others s this) as Hf by (by apply last_Some_elem_of).
  destruct (others_numeric s this f Hr Hf) as [m Hm].
  exists f, m. split_and!; try done.
  intros el Hel.
  destruct (others_numeric s this el Hr Hel) as [z Hz].
  exists z. split; [done|].
  pose proof (sorted_last_greatest (stackingOrder s) _ f el
                (others_sorted s this Hr) Hlast Hel) as Hle.
  unfold stackingOrder in Hle. by rewrite Hz, Hm in Hle.
Qed.

(** C2, as the code has it.  Every call of [bringToFront] on an overlay:
    the overlays it looks at are the children of [<body>] that are
    overlays without the [closing] attribute, other than the one it is
    called on, in the order of the derived stack.  When there is none,
    the stacking order becomes the z-index the style sheets give the
    overlay (the inline value having been cleared).  When there is one,
    it becomes the stacking order of the last of them plus one, and, if
    that one has no stacking order, the computed z-index of the overlay
    as it stands.  In the states in which the class itself calls
    [bringToFront] ([ready]: the others carry numbers, and the overlay
    carries one, or is not on the stack, or is the last child of
    [<body>]) the last of the others carries the greatest stacking order
    found among them, so that the overlay gets that maximum plus one.
    (Outside these states the overlay can get less than that.) *)
Theorem bringToFront_assigns s this :
  is_Some (overlays s !! this) →
  (∀ el, el ∈ others s this ↔
         el ∈ body_childNodes s ∧ attached s el = true ∧ el ≠ this) ∧
  (others s this = [] →
   __zIndex (ov (bringToFront this s) this) = sheet_zIndex (ov s this)) ∧
  (∀ f, last (others s this) = Some f →
        __zIndex (ov (bringToFront this s) this)
        = match __zIndex (ov s f) with
          | Some m => Some (m + 1)
          | None => computed_zIndex (ov s this)
          end) ∧
  (ready s this → others s this ≠ [] →
   ∃ f m, last (others s this) = Some f ∧ __zIndex (ov s f) = Some m ∧
     (∀ el, el ∈ others s this →
            ∃ z, __zIndex (ov s el) = Some z ∧ z ≤ m) ∧
     __zIndex (ov (bringToFront this s) this) = Some (m + 1)).
Proof.
  intros Hthis. split; [apply elem_of_others|].
  rewrite bringToFront_zIndex by done. unfold frontmost. fold (others s this).
  split_and!.
  - by intros ->.
  - by intros f ->.
  - intros Hr Hne.
    destruct (frontmost_greatest s this Hr Hne) as (f&m&Hlast&Hm&Hle).
    exists f, m. by rewrite Hlast, Hm.
Qed.

Lemma bringToFront_attached_children this s :
  attached_children (bringToFront this s) = attached_children s.
Proof.
  unfold attached_children.
  change (body_childNodes (bringToFront this s)) with (body_childNodes s).
  apply list_filter_iff. intros el. by rewrite bringToFront_attached.
Qed.

Lemma others_nil s this :
  others s this = [] ↔ ∀ el, el ∈ attached_children s → el = this.
Proof.
  split.
  - intros Hnil el Hel. destruct (decide (el = this)) as [|Hne]; [done|].
    assert (el ∈ others s this) as Hin.
    { apply elem_of_others. by apply elem_of_attached_children in Hel as [? ?]. }
    rewrite Hnil in Hin. by apply elem_of_nil in Hin.
  - intros Hall. destruct (others s this) as [|x l] eqn:Ho; [done|].
    assert (x ∈ others s this) as Hx by (rewrite Ho; by left).
    apply elem_of_others in Hx as (Hb&Ha&Hne).
    destruct Hne. apply Hall. by apply elem_of_attached_children.
Qed.

Lemma bringToFront_ready this s :
  is_Some (overlays s !! this) → ready s this → others s this ≠ [] →
  ready (bringToFront this s) this.
Proof.
  intros Hthis Hr Hne. pose proof Hr as [Hothers _]. split.
  - intros el Hel Hne'. rewrite bringToFront_other by done.
    apply Hothers; [|done]. by rewrite bringToFront_attached_children in Hel.
  - left. rewrite bringToFront_zIndex by done.
    unfold frontmost. fold (others s this).
    destruct (frontmost_greatest s this Hr Hne) as (f&m&->&->&_). eauto.
Qed.

Lemma compareFn_bringToFront this s x y :
  x ≠ this → y ≠ this →
  compareFn (bringToFront this s) x y = compareFn s x y.
Proof.
  intros. unfold compareFn. by rewrite !bringToFront_other by done.
Qed.

(** The overlays that [bringToFront] looks at, and their order, do not
    depend on the stacking order of the overlay it is called on. *)
Lemma others_bringToFront this s :
  is_Some (overlays s !! this) → ready s this →
  others (bringToFront this s) this = others s this.
Proof.
  intros Hthis Hr.
  destruct (decide (others s this = [])) as [Hnil|Hne].
  { rewrite Hnil. apply others_nil. intros el.
    rewrite bringToFront_attached_children. by apply others_nil. }
  rewrite !others_ready by (done || by apply bringToFront_ready).
  rewrite bringToFront_attached_children. apply sort_ext.
  intros x y [Hx _]%list_elem_of_filter [Hy _]%list_elem_of_filter.
  by apply compareFn_bringToFront.
Qed.

(** C9, as the code has it.  In a state in which the class itself calls
    [bringToFront] ([ready]: the other instances on the stack carry
    numbers, and the overlay carries one, or is not on the stack, or is
    the last child of [<body>]), calling it a second time, right after
    the first, assigns the same stacking order (and the same inline
    z-index) again.  (Outside these states the second call can find
    another instance last of the others and assign more.) *)
Theorem bringToFront_idempotent s this :
  is_Some (overlays s !! this) → ready s this →
  let s1 := bringToFront this s in
  let s2 := bringToFront this s1 in
  __zIndex (ov s2 this) = __zIndex (ov s1 this) ∧
  style_zIndex (ov s2 this) = style_zIndex (ov s1 this).
Proof.
  intros Hthis Hr s1 s2.
  assert (is_Some (overlays s1 !! this)) as Hthis1
    by (by apply bringToFront_is_Some).
  assert (frontmost s1 this = frontmost s this) as Hfront.
  { unfold frontmost. fold (others s1 this) (others s this).
    unfold s1. by rewrite others_bringToFront. }
  assert (∀ f, frontmost s this = Some f → ov s1 f = ov s f) as Hf.
  { intros f Hlast. apply bringToFront_other.
    apply last_Some_elem_of, list_elem_of_filter in Hlast as [? _]. done. }
  assert (∀ f, frontmost s this = Some f → is_Some (__zIndex (ov s f))) as Hz.
  { intros f Hlast. apply (others_numeric s this); [done|].
    by apply last_Some_elem_of. }
  pose proof (bringToFront_zIndex this s Hthis) as E1. fold s1 in E1.
  pose proof (bringToFront_zIndex this s1 Hthis1) as E2. fold s2 in E2.
  pose proof (bringToFront_style_zIndex this s Hthis) as E3. fold s1 in E3.
  pose proof (bringToFront_style_zIndex this s1 Hthis1) as E4. fold s2 in E4.
  rewrite E1, E2, E3, E4, Hfront.
  destruct (frontmost s this) as [f|] eqn:Hfr.
  - rewrite (Hf f) by done. destruct (Hz f) as [z ->]; done.
  - split; [|done]. unfold s1. by rewrite (bringToFront_field sheet_zIndex).
Qed.

(** ** What the stack depends on *)

Lemma attachedInstances_ext s s' :
  body_childNodes s' = body_childNodes s →
  (∀ el, is_Some (overlays s' !! el) ↔ is_Some (overlays s !! el)) →
  (∀ el, attr_closing (ov s' el) = attr_closing (ov s el)) →
  (∀ el, __zIndex (ov s' el) = __zIndex (ov s el)) →
  __attachedInstances s' = __attachedInstances s.
Proof.
  intros Hb Hd Hc Hz. unfold __attachedInstances, attached_children.
  rewrite Hb. erewrite list_filter_iff.
  - apply sort_ext. intros x y _ _. unfold compareFn. by rewrite !Hz.
  - intros el. by rewrite !attached_true, Hd, Hc.
Qed.

Lemma modal_frame_refl s : modal_frame s s.
Proof. unfold modal_frame. by split_and!. Qed.

Lemma modal_frame_trans s1 s2 s3 :
  modal_frame s1 s2 → modal_frame s2 s3 → modal_frame s1 s3.
Proof.
  intros (?&?&?&?&?&?&?&?&Hd&He) (?&?&?&?&?&?&?&?&Hd'&He').
  unfold modal_frame. split_and!; try congruence.
  all: intros el; first [by rewrite Hd', Hd | by rewrite He', He].
Qed.

Lemma modal_frame_field {A} (π : Overlay → A) s s' el :
  (∀ o, π (erase_pointerEvents o) = π o) →
  modal_frame s s' → π (ov s' el) = π (ov s el).
Proof.
  intros Hπ (_&_&_&_&_&_&_&_&_&He).
  by rewrite <- (Hπ (ov s' el)), He, Hπ.
Qed.

Lemma modal_frame_attachedInstances s s' :
  modal_frame s s' → __attachedInstances s' = __attachedInstances s.
Proof.
  intros Hf. apply attachedInstances_ext.
  - apply Hf.
  - apply Hf.
  - intros el. by apply (modal_frame_field attr_closing).
  - intros el. by apply (modal_frame_field __zIndex).
Qed.

Lemma modal_frame_update el f s :
  (∀ o, erase_pointerEvents (f o) = erase_pointerEvents o) →
  modal_frame s (update el f s).
Proof.
  intros Hf. unfold modal_frame. split_and!; try done.
  - intros j. apply update_is_Some.
  - intros j. by apply (ov_update_field erase_pointerEvents).
Qed.

Lemma modal_frame_body v s : modal_frame s (set_body_pointerEvents v s).
Proof. unfold modal_frame. by split_and!. Qed.

Lemma modal_frame_foldl (f : State → Node → State) l s :
  (∀ s el, modal_frame s (f s el)) → modal_frame s (foldl f s l).
Proof.
  intros Hf. revert s. induction l as [|x l IH]; intros s; simpl.
  - apply modal_frame_refl.
  - eapply modal_frame_trans; [apply Hf|apply IH].
Qed.

Lemma modal_frame_enter this s : modal_frame s (_enterModalState this s).
Proof.
  unfold _enterModalState.
  eapply modal_frame_trans; [|apply modal_frame_foldl].
  - case_decide; [|apply modal_frame_refl].
    eapply modal_frame_trans; [|apply modal_frame_body].
    by apply modal_frame_update.
  - intros s' el. case_decide; [|apply modal_frame_refl].
    by apply modal_frame_update.
Qed.

Lemma modal_frame_restore_body this s : modal_frame s (restore_body this s).
Proof.
  unfold restore_body.
  destruct (_previousDocumentPointerEvents (ov s this)) as [v|];
    [|apply modal_frame_refl].
  eapply modal_frame_trans; [apply modal_frame_body|].
  by apply modal_frame_update.
Qed.

Lemma modal_frame_exit_walk this l s : modal_frame s (exit_walk this l s).
Proof.
  revert s. induction l as [|x l IH]; intros s; simpl.
  - apply modal_frame_refl.
  - case_decide; [apply IH|].
    assert (modal_frame s (pointerEvents_remove x s))
      by (by apply modal_frame_update).
    destruct (modeless _); [|done].
    eapply modal_frame_trans; [done|apply IH].
Qed.

Lemma _exitModalState_unfold this s :
  _exitModalState this s =
  exit_walk this (reverse (__attachedInstances s)) (restore_body this s).
Proof.
  unfold _exitModalState. fold (restore_body this s).
  by rewrite (modal_frame_attachedInstances s (restore_body this s))
    by apply modal_frame_restore_body.
Qed.

Lemma modal_frame_exit this s : modal_frame s (_exitModalState this s).
Proof.
  rewrite _exitModalState_unfold.
  eapply modal_frame_trans;
    [apply modal_frame_restore_body|apply modal_frame_exit_walk].
Qed.

(** ** Leaving modal state: the walk *)

Lemma reenable_field {A} (π : Overlay → A) els s el :
  (∀ v o, π (set_part_pointerEvents v o) = π o) →
  π (ov (reenable els s) el) = π (ov s el).
Proof.
  intros Hπ. unfold reenable. revert s.
  induction els as [|x els IH]; intros s; simpl; [done|].
  rewrite IH. unfold pointerEvents_remove. by apply ov_update_field.
Qed.

Lemma reenable_notin els s el : el ∉ els → ov (reenable els s) el = ov s el.
Proof.
  unfold reenable. revert s.
  induction els as [|x els IH]; intros s Hel; simpl; [done|].
  apply not_elem_of_cons in Hel as [Hne Hel].
  rewrite IH by done.
  unfold pointerEvents_remove. by rewrite ov_update_ne.
Qed.

Lemma pointerEvents_remove_cleared el s :
  part_pointerEvents (ov (pointerEvents_remove el s) el) = None.
Proof.
  unfold pointerEvents_remove, ov. rewrite overlays_update, decide_True by done.
  by destruct (overlays s !! el).
Qed.

Lemma reenable_in els s el :
  el ∈ els → part_pointerEvents (ov (reenable els s) el) = None.
Proof.
  revert s. induction els as [|x els IH]; intros s Hel.
  - by apply elem_of_nil in Hel.
  - change (reenable (x :: els) s)
      with (reenable els (pointerEvents_remove x s)).
    destruct (decide (el ∈ els)) as [Hin|Hnin].
    + by apply IH.
    + apply elem_of_cons in Hel as [->|Hel]; [|done].
      rewrite reenable_notin by done. apply pointerEvents_remove_cleared.
Qed.

Lemma pointerEvents_remove_field {A} (π : Overlay → A) x s el :
  (∀ v o, π (set_part_pointerEvents v o) = π o) →
  π (ov (pointerEvents_remove x s) el) = π (ov s el).
Proof. intros. unfold pointerEvents_remove. by apply ov_update_field. Qed.

(** [continue] on the instance itself: the walk is the walk over the
    others. *)
Lemma exit_walk_filter this l s :
  exit_walk this l s = exit_walk this (filter (λ o, o ≠ this) l) s.
Proof.
  revert s. induction l as [|x l IH]; intros s; simpl; [done|].
  rewrite filter_cons. destruct (decide (x = this)) as [->|Hne].
  - rewrite decide_False by (intros ?; done). apply IH.
  - rewrite decide_True by done. simpl. rewrite decide_False by done.
    rewrite (pointerEvents_remove_field modeless) by done.
    destruct (modeless _); [apply IH|done].
Qed.

Lemma exit_walk_modal this pre m post s :
  Forall (λ el, el ≠ this) (pre ++ [m]) →
  Forall (λ el, modeless (ov s el) = true) pre →
  modeless (ov s m) = false →
  exit_walk this (pre ++ m :: post) s = reenable (pre ++ [m]) s.
Proof.
  revert s. induction pre as [|x pre IH]; intros s Hthis Hpre Hm; simpl.
  - apply Forall_cons in Hthis as [Hne _]. rewrite decide_False by done.
    by rewrite (pointerEvents_remove_field modeless), Hm.
  - apply Forall_cons in Hthis as [Hne Hthis].
    apply Forall_cons in Hpre as [Hx Hpre].
    rewrite decide_False by done.
    rewrite (pointerEvents_remove_field modeless), Hx by done.
    apply IH; [done| |].
    + eapply Forall_impl; [exact Hpre|]. simpl. intros el Hel.
      by rewrite (pointerEvents_remove_field modeless).
    + by rewrite (pointerEvents_remove_field modeless).
Qed.

Lemma exit_walk_modeless this l s :
  Forall (λ el, el ≠ this) l →
  Forall (λ el, modeless (ov s el) = true) l →
  exit_walk this l s = reenable l s.
Proof.
  revert s. induction l as [|x l IH]; intros s Hthis Hl; simpl; [done|].
  apply Forall_cons in Hthis as [Hne Hthis].
  apply Forall_cons in Hl as [Hx Hl].
  rewrite decide_False by done.
  rewrite (pointerEvents_remove_field modeless), Hx by done.
  apply IH; [done|].
  eapply Forall_impl; [exact Hl|]. simpl. intros el Hel.
  by rewrite (pointerEvents_remove_field modeless).
Qed.

Lemma _exitModalState_others this s :
  _exitModalState this s =
  exit_walk this (reverse (others s this)) (restore_body this s).
Proof.
  rewrite _exitModalState_unfold, exit_walk_filter.
  unfold others. by rewrite filter_reverse.
Qed.

Lemma others_not_this this s :
  Forall (λ el, el ≠ this) (reverse (others s this)).
Proof.
  rewrite Forall_forall. intros el Hel. rewrite elem_of_reverse in Hel.
  unfold others in Hel. by apply list_elem_of_filter in Hel as [? _].
Qed.

Lemma restore_body_field {A} (π : Overlay → A) this s el :
  (∀ v o, π (set__previousDocumentPointerEvents v o) = π o) →
  π (ov (restore_body this s) el) = π (ov s el).
Proof.
  intros Hπ. unfold restore_body.
  destruct (_previousDocumentPointerEvents (ov s this)); [|done].
  rewrite ov_update_field by done. done.
Qed.

(** C4.  [_exitModalState] walks the other instances on the stack from
    the topmost down.  When one of them is not modeless, let [m] be the
    topmost such and [pre] the (modeless) instances above it: the inline
    [pointer-events] is removed from the parts of [pre] and of [m], and
    the part of every other element, the instances below [m] and the
    overlay itself included, is left as it was; [m] is the only modal
    instance among those re-enabled.  When all of them are modeless, the
    inline [pointer-events] is removed from all of them.  Where the overlay
    itself sits on the stack plays no role. *)
Theorem exitModalState_walk this s :
  let top_down := reverse (others s this) in
  let s' := _exitModalState this s in
  (∀ pre m post,
     top_down = pre ++ m :: post →
     Forall (λ el, modeless (ov s el) = true) pre →
     modeless (ov s m) = false →
     s' = reenable (pre ++ [m]) (restore_body this s) ∧
     (∀ el, el ∈ pre ++ [m] → part_pointerEvents (ov s' el) = None) ∧
     (∀ el, el ∉ pre ++ [m] →
            part_pointerEvents (ov s' el) = part_pointerEvents (ov s el)) ∧
     (∀ el, el ∈ pre ++ [m] → modeless (ov s el) = false → el = m)) ∧
  (Forall (λ el, modeless (ov s el) = true) top_down →
     s' = reenable top_down (restore_body this s) ∧
     (∀ el, el ∈ top_down → part_pointerEvents (ov s' el) = None) ∧
     (∀ el, el ∉ top_down →
            part_pointerEvents (ov s' el) = part_pointerEvents (ov s el))).
Proof.
  intros top_down s'. pose proof (others_not_this this s) as Hthis.
  fold top_down in Hthis.
  assert (∀ l, Forall (λ el, modeless (ov s el) = true) l →
    Forall (λ el, modeless (ov (restore_body this s) el) = true) l) as Hmod.
  { intros l Hl. eapply Forall_impl; [exact Hl|]. intros el. simpl.
    by rewrite (restore_body_field modeless). }
  split.
  - intros pre m post Hsplit Hpre Hm.
    assert (s' = reenable (pre ++ [m]) (restore_body this s)) as Hs'.
    { unfold s'. rewrite _exitModalState_others. fold top_down.
      rewrite Hsplit. apply exit_walk_modal.
      - rewrite Hsplit in Hthis.
        apply Forall_app in Hthis as [H1 [H2 _]%Forall_cons].
        apply Forall_app. split; [done|]. by constructor.
      - by apply Hmod.
      - by rewrite (restore_body_field modeless). }
    split_and!; [done| | |].
    + intros el Hel. rewrite Hs'. by apply reenable_in.
    + intros el Hel. rewrite Hs', reenable_notin by done.
      by apply (restore_body_field part_pointerEvents).
    + intros el Hel Hmodal. apply elem_of_app in Hel as [Hel|Hel].
      * rewrite Forall_forall in Hpre. rewrite Hpre in Hmodal; done.
      * by apply list_elem_of_singleton in Hel.
  - intros Hall.
    assert (s' = reenable top_down (restore_body this s)) as Hs'.
    { unfold s'. rewrite _exitModalState_others. fold top_down.
      apply exit_walk_modeless; [done|by apply Hmod]. }
    split_and!; [done| |].
    + intros el Hel. rewrite Hs'. by apply reenable_in.
    + intros el Hel. rewrite Hs', reenable_notin by done.
      by apply (restore_body_field part_pointerEvents).
Qed.

(** ** Dismissal routing *)


(** ** Frames *)

Lemma frame_refl {T} (V : Overlay → T) s : frame V s s.
Proof. unfold frame. by split_and!. Qed.

Lemma frame_trans {T} (V : Overlay → T) s1 s2 s3 :
  frame V s1 s2 → frame V s2 s3 → frame V s1 s3.
Proof.
  intros (?&?&?&Hd&Hv) (?&?&?&Hd'&Hv').
  unfold frame. split_and!; try congruence.
  all: intros el; first [by rewrite Hd', Hd | by rewrite Hv', Hv].
Qed.

Lemma frame_frame_but {T} this (V : Overlay → T) s s' :
  frame V s s' → frame_but this V s s'.
Proof. intros (?&?&?&?&Hv). unfold frame_but. split_and!; auto. Qed.

Lemma frame_but_trans {T} this (V : Overlay → T) s1 s2 s3 :
  frame_but this V s1 s2 → frame_but this V s2 s3 → frame_but this V s1 s3.
Proof.
  intros (?&?&?&Hd&Hv) (?&?&?&Hd'&Hv').
  unfold frame_but. split_and!; try congruence.
  - intros el. by rewrite Hd', Hd.
  - intros el Hne. by rewrite Hv', Hv.
Qed.

Lemma frame_update {T} (V : Overlay → T) el f s :
  (∀ o, V (f o) = V o) → frame V s (update el f s).
Proof.
  intros Hf. unfold frame. split_and!; try done.
  - intros j. apply update_is_Some.
  - intros j. by apply ov_update_field.
Qed.

Lemma frame_but_update {T} (V : Overlay → T) this f s :
  frame_but this V s (update this f s).
Proof.
  unfold frame_but. split_and!; try done.
  - intros j. apply update_is_Some.
  - intros j Hne. by rewrite ov_update_ne.
Qed.

Lemma frame_but_bringToFront {T} (V : Overlay → T) this s :
  frame_but this V s (bringToFront this s).
Proof.
  unfold frame_but. split_and!; try done.
  - intros j. apply bringToFront_is_Some.
  - intros j Hne. by rewrite bringToFront_other.
Qed.

Lemma modal_frame_frame {T} (V : Overlay → T) s s' :
  (∀ o, V (erase_pointerEvents o) = V o) →
  modal_frame s s' → frame V s s'.
Proof.
  intros HV Hm. pose proof Hm as (?&?&?&?&?&?&?&?&Hd&He).
  unfold frame. split_and!; try done.
  intros el. by apply (modal_frame_field V).
Qed.

Lemma frame_dispatchEvent {T} (V : Overlay → T) el e s :
  frame V s (dispatchEvent el e s).
Proof. unfold frame. by split_and!. Qed.

Lemma frame_set_timers {T} (V : Overlay → T) v s :
  frame V s (set_timers v s).
Proof. unfold frame. by split_and!. Qed.

Lemma frame_attached_children s s' :
  frame attr_closing s s' → attached_children s' = attached_children s.
Proof.
  intros (Hb&_&_&Hd&Hv). unfold attached_children. rewrite Hb.
  apply list_filter_iff. intros el. by rewrite !attached_true, Hd, Hv.
Qed.

Lemma frame_weaken {T U} (V : Overlay → T) (W : Overlay → U) s s' :
  (∀ o o', V o' = V o → W o' = W o) → frame V s s' → frame W s s'.
Proof.
  intros HVW (?&?&?&?&Hv). unfold frame. split_and!; auto.
Qed.

Lemma frame_but_weaken {T U} this (V : Overlay → T) (W : Overlay → U) s s' :
  (∀ o o', V o' = V o → W o' = W o) →
  frame_but this V s s' → frame_but this W s s'.
Proof.
  intros HVW (?&?&?&?&Hv). unfold frame_but. split_and!; auto.
Qed.

Lemma stack_view_inv o o' :
  stack_view o' = stack_view o →
  attr_closing o' = attr_closing o ∧
  __closingHandler o' = __closingHandler o ∧
  _placeholder o' = _placeholder o ∧ __zIndex o' = __zIndex o.
Proof. unfold stack_view. intros [= -> -> -> -> ?]. done. Qed.

Lemma stack_view_sheet o o' :
  stack_view o' = stack_view o → sheet_zIndex o' = sheet_zIndex o.
Proof. unfold stack_view. by intros [= ? ? ? ? ->]. Qed.

Lemma numeric_sheets_ov s el :
  numeric_sheets s → is_Some (overlays s !! el) →
  is_Some (sheet_zIndex (ov s el)).
Proof.
  intros Hn [o Ho]. rewrite (ov_lookup s el o Ho). by apply (Hn el o).
Qed.

(** No method of the class touches the style sheets. *)
Lemma numeric_sheets_ext s s' :
  (∀ j, is_Some (overlays s' !! j) ↔ is_Some (overlays s !! j)) →
  (∀ j, is_Some (overlays s !! j) →
        sheet_zIndex (ov s' j) = sheet_zIndex (ov s j)) →
  numeric_sheets s → numeric_sheets s'.
Proof.
  intros Hd Hv Hn j o' Ho'. cbv beta.
  assert (is_Some (overlays s !! j)) as Hj by (apply Hd; eauto).
  rewrite <- (ov_lookup s' j o' Ho'), Hv by done.
  by apply numeric_sheets_ov.
Qed.

Lemma numeric_sheets_ext_inv s s' :
  (∀ j, is_Some (overlays s' !! j) ↔ is_Some (overlays s !! j)) →
  (∀ j, is_Some (overlays s !! j) →
        sheet_zIndex (ov s' j) = sheet_zIndex (ov s j)) →
  numeric_sheets s' → numeric_sheets s.
Proof.
  intros Hd Hv Hn j o Ho. cbv beta.
  assert (is_Some (overlays s' !! j)) as Hj by (apply Hd; eauto).
  rewrite <- (ov_lookup s j o Ho), <- Hv by eauto.
  by apply numeric_sheets_ov.
Qed.

Lemma numeric_sheets_frame s s' :
  frame stack_view s s' → numeric_sheets s ↔ numeric_sheets s'.
Proof.
  intros (_&_&_&Hd&Hv). split.
  - apply numeric_sheets_ext; [done|]. intros j _. by apply stack_view_sheet.
  - apply numeric_sheets_ext_inv; [done|].
    intros j _. by apply stack_view_sheet.
Qed.

Lemma frame_lookup_None {T} (V : Overlay → T) s s' el :
  frame V s s' → overlays s !! el = None → overlays s' !! el = None.
Proof.
  intros (_&_&_&Hd&_) Hn. apply eq_None_not_Some. rewrite Hd.
  by rewrite Hn; intros [? ?].
Qed.

(** The invariant of the attach/detach cycle reads overlays through
    [stack_view] only. *)
Lemma stack_inv_frame s s' :
  frame stack_view s s' → stack_inv s → stack_inv s'.
Proof.
  intros Hf Hinv. pose proof Hf as (Hb&Hp&Hn&Hd&Hv).
  assert (attached_children s' = attached_children s) as HA.
  { apply frame_attached_children. eapply frame_weaken; [|exact Hf].
    by intros o o' (?&_)%stack_view_inv. }
  split.
  - intros el Hel. rewrite Hn. apply Hinv. by apply Hd.
  - intros el o' Ho'.
    assert (is_Some (overlays s !! el)) as [o Ho] by (apply Hd; eauto).
    pose proof (Hv el) as Hvel.
    rewrite (ov_lookup s' el o'), (ov_lookup s el o) in Hvel by done.
    pose proof (stack_view_sheet _ _ Hvel) as Hsh.
    apply stack_view_inv in Hvel as (Hc&Hh&Hph&Hz).
    destruct (inv_phase s Hinv el o Ho) as [(?&?&?&?)|[(?&?&?&Hok) ?]].
    + left. unfold detached. rewrite Hc, Hh, Hb, Hp. done.
    + right. unfold in_body. rewrite Hc, Hh, Hb, Hp, Hz, Hsh.
      split_and!; try done.
      destruct Hok as (ph&p&?&?&?&Hnone&?). exists ph, p.
      rewrite Hph, Hp, Hn. split_and!; try done.
      by eapply frame_lookup_None.
  - rewrite Hb. apply Hinv.
  - intros el1 el2 ph H1 H2. rewrite Hb.
    pose proof (Hv el1) as (_&_&->&_)%stack_view_inv.
    pose proof (Hv el2) as (_&_&->&_)%stack_view_inv.
    apply Hinv; by apply Hd.
  - intros Hns%(numeric_sheets_frame s s' Hf) el1 el2. rewrite HA.
    pose proof (Hv el1) as (_&_&_&->)%stack_view_inv.
    pose proof (Hv el2) as (_&_&_&->)%stack_view_inv.
    by apply (inv_distinct s Hinv).
Qed.

(** ** The attach/detach cycle *)

Lemma elem_of_list_remove x l j : j ∈ list_remove x l ↔ j ∈ l ∧ j ≠ x.
Proof. unfold list_remove. rewrite list_elem_of_filter. tauto. Qed.

Lemma filter_ext_in {A} (P Q : A → Prop)
    `{∀ x, Decision (P x)} `{∀ x, Decision (Q x)} (l : list A) :
  (∀ x, x ∈ l → (P x ↔ Q x)) → filter P l = filter Q l.
Proof.
  induction l as [|x l IH]; intros HPQ; [done|].
  rewrite !filter_cons, IH by (intros; apply HPQ; by right).
  destruct (decide (P x)) as [HP|HP], (decide (Q x)) as [HQ|HQ]; try done.
  - destruct HQ. apply HPQ; [by left|done].
  - destruct HP. apply HPQ; [by left|done].
Qed.

Lemma attached_children_overlay s el :
  el ∈ attached_children s →
  el ∈ body_childNodes s ∧ is_Some (overlays s !! el) ∧
  attr_closing (ov s el) = false.
Proof.
  intros [Hb Ha]%elem_of_attached_children.
  apply attached_true in Ha as [? ?]. done.
Qed.

Lemma stack_inv_in_body s el :
  stack_inv s → is_Some (overlays s !! el) → el ∈ body_childNodes s →
  in_body s el (ov s el) ∧
  __closingHandler (ov s el) = attr_closing (ov s el).
Proof.
  intros Hinv [o Ho] Hb. rewrite (ov_lookup s el o) by done.
  destruct (inv_phase s Hinv el o Ho) as [(?&?&?&?)|?]; done.
Qed.

Lemma stack_inv_numeric s : stack_inv s → numeric_sheets s → numeric s.
Proof.
  intros Hinv Hns el Hel. unfold __attachedInstances in Hel.
  rewrite elem_of_sort in Hel.
  apply attached_children_overlay in Hel as (Hb&Ho&_).
  destruct (stack_inv_in_body s el Hinv Ho Hb) as [(_&_&Hz&_) _].
  by apply Hz, numeric_sheets_ov.
Qed.

Lemma placeholder_not_overlay s el ph :
  stack_inv s → is_Some (overlays s !! el) → el ∈ body_childNodes s →
  _placeholder (ov s el) = Some ph →
  overlays s !! ph = None ∧ (ph < next_node s)%nat ∧
  ∃ p, parentNode s !! ph = Some p ∧ p ≠ body.
Proof.
  intros Hinv Ho Hb Hph.
  destruct (stack_inv_in_body s el Hinv Ho Hb)
    as [(_&_&_&(ph'&p&Hph'&?&?&?&?)) _].
  rewrite Hph in Hph'. injection Hph' as <-. eauto.
Qed.

(** An overlay in the body goes back to where its placeholder is. *)
Lemma stack_inv_detach s s' el ph p :
  stack_inv s → is_Some (overlays s !! el) → el ∈ body_childNodes s →
  _placeholder (ov s el) = Some ph → parentNode s !! ph = Some p →
  body_childNodes s' = list_remove ph (list_remove el (body_childNodes s)) →
  parentNode s' = delete ph (<[el := p]> (parentNode s)) →
  next_node s' = next_node s →
  (∀ j, is_Some (overlays s' !! j) ↔ is_Some (overlays s !! j)) →
  (∀ j, j ≠ el → stack_view (ov s' j) = stack_view (ov s j)) →
  attr_closing (ov s' el) = false → __closingHandler (ov s' el) = false →
  sheet_zIndex (ov s' el) = sheet_zIndex (ov s el) →
  stack_inv s' ∧
  attached_children s' = filter (λ o, o ≠ el) (attached_children s).
Proof.
  intros Hinv Hel Hbody Hph Hp Hb' Hp' Hn' Hd' Hv' Hc' Hh' Hsh'.
  assert (numeric_sheets s' → numeric_sheets s) as Hnsheets.
  { apply numeric_sheets_ext_inv; [done|]. intros j _.
    destruct (decide (j = el)) as [->|Hne]; [done|].
    by apply stack_view_sheet, Hv'. }
  destruct (placeholder_not_overlay s el ph Hinv Hel Hbody Hph)
    as (Hphov & Hphlt & p0 & Hp0 & Hpbody).
  rewrite Hp in Hp0. injection Hp0 as <-.
  assert (∀ j, is_Some (overlays s !! j) → j ≠ ph) as Hne_ph.
  { intros j [? Hj] ->. by rewrite Hphov in Hj. }
  assert (attached_children s'
          = filter (λ o, o ≠ el) (attached_children s)) as HA.
  { unfold attached_children. rewrite Hb'. unfold list_remove.
    rewrite !list_filter_filter. apply filter_ext_in. intros j Hj.
    rewrite !attached_true, Hd'. split.
    - intros (((Ho & Hc) & _) & Hne).
      pose proof (Hv' j Hne) as (Hcj&_)%stack_view_inv.
      rewrite <- Hcj. done.
    - intros (Hne & Ho & Hc).
      pose proof (Hv' j Hne) as (Hcj&_)%stack_view_inv.
      rewrite Hcj. split_and!; try done. by apply Hne_ph. }
  split; [|done]. split.
  - intros j Hj. rewrite Hn'. apply Hinv. by apply Hd'.
  - intros j o' Ho'. rewrite <- (ov_lookup s' j o') by done.
    assert (is_Some (overlays s !! j)) as Hj by (apply Hd'; eauto).
    destruct (decide (j = el)) as [->|Hne].
    + left. unfold detached. split_and!; try done.
      * rewrite Hb'. rewrite !elem_of_list_remove. tauto.
      * exists p. split; [|done].
        rewrite Hp', lookup_delete_ne by (by apply not_eq_sym, Hne_ph).
        by rewrite lookup_insert_eq.
    + pose proof (stack_view_sheet _ _ (Hv' j Hne)) as Hshj.
      pose proof (Hv' j Hne) as (Hcj&Hhj&Hphj&Hzj)%stack_view_inv.
      destruct Hj as [o Ho].
      assert (parentNode s' !! j = parentNode s !! j) as Hpj.
      { rewrite Hp', lookup_delete_ne by (apply not_eq_sym, Hne_ph; eauto).
        by rewrite lookup_insert_ne. }
      destruct (inv_phase s Hinv j o Ho)
        as [(?&?&Hnb&Hpar)|[(Hjb&?&?&Hok) ?]];
        rewrite <- (ov_lookup s j o) in * by done.
      * left. unfold detached. rewrite Hcj, Hhj, Hpj, Hb'.
        split_and!; try done. rewrite !elem_of_list_remove. tauto.
      * right. unfold in_body. rewrite Hcj, Hhj, Hzj, Hshj, Hpj, Hb'.
        split_and!; try done.
        -- rewrite !elem_of_list_remove. split_and!; try done.
           apply Hne_ph; eauto.
        -- destruct Hok as (phj&pj&Hphj'&Hpj'&?&Hnone&?). exists phj, pj.
           rewrite Hphj, Hn'. split_and!; try done.
           ++ rewrite Hp', lookup_delete_ne, lookup_insert_ne; [done| |].
              ** intros ->. by rewrite Hnone in Hel; destruct Hel.
              ** intros ->. apply Hne.
                 apply (inv_placeholders s Hinv j el phj); eauto.
           ++ apply eq_None_not_Some. rewrite Hd', Hnone. by intros [? ?].
  - rewrite Hb'. unfold list_remove. by apply NoDup_filter, NoDup_filter, Hinv.
  - intros j1 j2 ph0 H1 H2. rewrite Hb', !elem_of_list_remove.
    intros ((Hb1&Hne1)&_) ((Hb2&Hne2)&_).
    pose proof (Hv' j1 Hne1) as (_&_&->&_)%stack_view_inv.
    pose proof (Hv' j2 Hne2) as (_&_&->&_)%stack_view_inv.
    apply Hinv; try done; by apply Hd'.
  - intros Hns%Hnsheets j1 j2. rewrite HA, !list_elem_of_filter.
    intros (Hne1&Hj1) (Hne2&Hj2).
    pose proof (Hv' j1 Hne1) as (_&_&_&->)%stack_view_inv.
    pose proof (Hv' j2 Hne2) as (_&_&_&->)%stack_view_inv.
    by apply (inv_distinct s Hinv).
Qed.

(** A detached overlay is appended to [<body>], above everything on the
    stack, and leaves a fresh placeholder behind. *)
Lemma stack_inv_attach s s' el p :
  stack_inv s → is_Some (overlays s !! el) → el ∉ body_childNodes s →
  attr_closing (ov s el) = false → __closingHandler (ov s el) = false →
  parentNode s !! el = Some p → p ≠ body →
  body_childNodes s'
  = list_remove el (list_remove (next_node s) (body_childNodes s)) ++ [el] →
  parentNode s' = <[el := body]> (<[next_node s := p]> (parentNode s)) →
  next_node s' = S (next_node s) →
  (∀ j, is_Some (overlays s' !! j) ↔ is_Some (overlays s !! j)) →
  (∀ j, j ≠ el → stack_view (ov s' j) = stack_view (ov s j)) →
  attr_closing (ov s' el) = false → __closingHandler (ov s' el) = false →
  _placeholder (ov s' el) = Some (next_node s) →
  sheet_zIndex (ov s' el) = sheet_zIndex (ov s el) →
  (is_Some (sheet_zIndex (ov s el)) → is_Some (__zIndex (ov s' el))) →
  (numeric_sheets s → ∀ j, j ∈ attached_children s →
     ∃ z z', __zIndex (ov s j) = Some z ∧
             __zIndex (ov s' el) = Some z' ∧ z < z') →
  stack_inv s' ∧ attached_children s' = attached_children s ++ [el].
Proof.
  intros Hinv Hel Hnb Hc Hh Hp Hpb Hb' Hp' Hn' Hd' Hv' Hc' Hh' Hph' Hsh'
    Hzel Hz'.
  set (ph := next_node s) in *.
  assert (∀ j, is_Some (overlays s !! j) → j ≠ ph) as Hne_ph.
  { intros j Hj ->. apply (inv_fresh s Hinv) in Hj. unfold ph in Hj. lia. }
  assert (overlays s !! ph = None) as Hphov.
  { apply eq_None_not_Some. intros Hs. by apply (Hne_ph ph). }
  assert (numeric_sheets s' → numeric_sheets s) as Hnsheets.
  { apply numeric_sheets_ext_inv; [done|]. intros j _.
    destruct (decide (j = el)) as [->|Hne]; [done|].
    by apply stack_view_sheet, Hv'. }
  assert (attached_children s' = attached_children s ++ [el]) as HA.
  { unfold attached_children. rewrite Hb', filter_app, filter_cons.
    rewrite decide_True by (apply attached_true; by rewrite Hd').
    rewrite filter_nil. f_equal. unfold list_remove.
    rewrite !list_filter_filter. apply filter_ext_in. intros j Hj.
    rewrite !attached_true, Hd'.
    assert (j ≠ el) as Hne by (by intros ->).
    pose proof (Hv' j Hne) as (->&_)%stack_view_inv.
    split; [tauto|]. intros (Ho&?). split_and!; try done. by apply Hne_ph. }
  split; [|done]. split.
  - intros j Hj. rewrite Hn'. apply Hd', (inv_fresh s Hinv) in Hj. lia.
  - intros j o' Ho'. rewrite <- (ov_lookup s' j o') by done.
    assert (is_Some (overlays s !! j)) as Hj by (apply Hd'; eauto).
    destruct (decide (j = el)) as [->|Hne].
    + right. split; [|congruence]. unfold in_body. split_and!.
      * rewrite Hb'. apply elem_of_app. right. by left.
      * rewrite Hp'. by rewrite lookup_insert_eq.
      * by rewrite Hsh'.
      * exists ph, p. rewrite Hn'. split_and!; try done.
        -- rewrite Hp', lookup_insert_ne by (by apply Hne_ph).
           by rewrite lookup_insert_eq.
        -- apply eq_None_not_Some. rewrite Hd', Hphov. by intros [? ?].
        -- unfold ph. lia.
    + pose proof (stack_view_sheet _ _ (Hv' j Hne)) as Hshj.
      pose proof (Hv' j Hne) as (Hcj&Hhj&Hphj&Hzj)%stack_view_inv.
      destruct Hj as [o Ho].
      assert (parentNode s' !! j = parentNode s !! j) as Hpj.
      { rewrite Hp', lookup_insert_ne by done.
        rewrite lookup_insert_ne; [done|]. apply not_eq_sym, Hne_ph. eauto. }
      destruct (inv_phase s Hinv j o Ho)
        as [(?&?&Hnbj&Hpar)|[(Hjb&?&?&Hok) ?]];
        rewrite <- (ov_lookup s j o) in * by done.
      * left. unfold detached. rewrite Hcj, Hhj, Hpj, Hb'.
        split_and!; try done.
        rewrite elem_of_app, !elem_of_list_remove, list_elem_of_singleton.
        tauto.
      * right. unfold in_body. rewrite Hcj, Hhj, Hzj, Hshj, Hpj, Hb'.
        split_and!; try done.
        -- rewrite elem_of_app, !elem_of_list_remove. left.
           split_and!; try done. apply Hne_ph; eauto.
        -- destruct Hok as (phj&pj&Hphj'&Hpj'&?&Hnone&?). exists phj, pj.
           rewrite Hphj, Hn'. split_and!; try done.
           ++ rewrite Hp', !lookup_insert_ne; [done| |].
              ** unfold ph. lia.
              ** intros ->. by rewrite Hnone in Hel; destruct Hel.
           ++ apply eq_None_not_Some. rewrite Hd', Hnone. by intros [? ?].
           ++ lia.
  - rewrite Hb'. apply NoDup_app. split_and!.
    + unfold list_remove. by apply NoDup_filter, NoDup_filter, Hinv.
    + intros j Hj ->%list_elem_of_singleton.
      apply elem_of_list_remove in Hj as [_ ?]. done.
    + apply NoDup_singleton.
  - assert (∀ j phj, is_Some (overlays s' !! j) → j ∈ body_childNodes s' →
              _placeholder (ov s' j) = Some phj → j ≠ el →
              j ∈ body_childNodes s ∧ _placeholder (ov s j) = Some phj ∧
              phj ≠ ph) as Hold.
    { intros j phj Hj Hjb Hphj Hne. rewrite Hb' in Hjb.
      apply elem_of_app in Hjb as [Hjb|Hjb%list_elem_of_singleton]; [|done].
      rewrite !elem_of_list_remove in Hjb. destruct Hjb as ((Hjb&_)&_).
      pose proof (Hv' j Hne) as (_&_&Hphj'&_)%stack_view_inv.
      rewrite Hphj' in Hphj. split_and!; try done.
      apply Hd' in Hj.
      destruct (placeholder_not_overlay s j phj Hinv Hj Hjb Hphj)
        as (_&?&_).
      unfold ph. lia. }
    intros j1 j2 ph0 H1 H2 Hb1 Hb2 Hph1 Hph2.
    destruct (decide (j1 = el)) as [->|Hne1],
             (decide (j2 = el)) as [->|Hne2]; try done.
    + rewrite Hph' in Hph1. injection Hph1 as <-.
      by destruct (Hold j2 ph H2 Hb2 Hph2 Hne2) as (_&_&?).
    + rewrite Hph' in Hph2. injection Hph2 as <-.
      by destruct (Hold j1 ph H1 Hb1 Hph1 Hne1) as (_&_&?).
    + destruct (Hold j1 ph0 H1 Hb1 Hph1 Hne1) as (?&?&_).
      destruct (Hold j2 ph0 H2 Hb2 Hph2 Hne2) as (?&?&_).
      apply (inv_placeholders s Hinv j1 j2 ph0); try done; by apply Hd'.
  - intros Hns%Hnsheets.
    assert (∀ j, j ∈ attached_children s →
              j ≠ el ∧ __zIndex (ov s' j) = __zIndex (ov s j) ∧
              ∃ z z', __zIndex (ov s j) = Some z ∧
                      __zIndex (ov s' el) = Some z' ∧ z < z') as Hold.
    { intros j Hj. assert (j ≠ el) as Hne.
      { intros ->. by apply attached_children_overlay in Hj as (?&_). }
      pose proof (Hv' j Hne) as (_&_&_&Hzj)%stack_view_inv.
      split_and!; try done. by apply Hz'. }
    intros j1 j2. rewrite HA, !elem_of_app, !list_elem_of_singleton.
    intros [H1| ->] [H2| ->]; try done.
    + destruct (Hold j1 H1) as (_&->&_), (Hold j2 H2) as (_&->&_).
      by apply (inv_distinct s Hinv).
    + destruct (Hold j1 H1) as (_&->&z&z'&->&->&?).
      intros [= ->]. lia.
    + destruct (Hold j2 H2) as (_&->&z&z'&->&->&?).
      intros [= ->]. lia.
Qed.

Lemma frame_but_lookup_None {T} this (V : Overlay → T) s s' el :
  frame_but this V s s' → overlays s !! el = None → overlays s' !! el = None.
Proof.
  intros (_&_&_&Hd&_) Hn. apply eq_None_not_Some. rewrite Hd.
  by rewrite Hn; intros [? ?].
Qed.

(** An overlay changes its stacking order, to one that no other instance
    on the stack has. *)
Lemma stack_inv_restack s s' el :
  stack_inv s → is_Some (overlays s !! el) →
  frame_but el stack_view s s' →
  attr_closing (ov s' el) = attr_closing (ov s el) →
  __closingHandler (ov s' el) = __closingHandler (ov s el) →
  _placeholder (ov s' el) = _placeholder (ov s el) →
  sheet_zIndex (ov s' el) = sheet_zIndex (ov s el) →
  (is_Some (sheet_zIndex (ov s el)) → is_Some (__zIndex (ov s' el))) →
  (numeric_sheets s → ∀ j, j ∈ attached_children s → j ≠ el →
        __zIndex (ov s j) ≠ __zIndex (ov s' el)) →
  stack_inv s' ∧ attached_children s' = attached_children s.
Proof.
  intros Hinv Hel Hf Hc Hh Hph Hsh Hz Hfresh.
  pose proof Hf as (Hb&Hp&Hn&Hd&Hv).
  assert (∀ j, attr_closing (ov s' j) = attr_closing (ov s j) ∧
               __closingHandler (ov s' j) = __closingHandler (ov s j) ∧
               _placeholder (ov s' j) = _placeholder (ov s j) ∧
               sheet_zIndex (ov s' j) = sheet_zIndex (ov s j)) as Hflags.
  { intros j. destruct (decide (j = el)) as [->|Hne]; [done|].
    pose proof (stack_view_sheet _ _ (Hv j Hne)).
    by pose proof (Hv j Hne) as (?&?&?&_)%stack_view_inv. }
  assert (numeric_sheets s' → numeric_sheets s) as Hnsheets.
  { apply numeric_sheets_ext_inv; [done|]. intros j _.
    by destruct (Hflags j) as (_&_&_&?). }
  assert (attached_children s' = attached_children s) as HA.
  { unfold attached_children. rewrite Hb. apply list_filter_iff. intros j.
    rewrite !attached_true, Hd. by destruct (Hflags j) as (->&_). }
  split; [|done]. split.
  - intros j Hj. rewrite Hn. apply Hinv. by apply Hd.
  - intros j o' Ho'. rewrite <- (ov_lookup s' j o') by done.
    assert (is_Some (overlays s !! j)) as [o Ho] by (apply Hd; eauto).
    destruct (Hflags j) as (Hcj&Hhj&Hphj&Hshj).
    assert ((is_Some (sheet_zIndex (ov s j)) → is_Some (__zIndex (ov s j))) →
            is_Some (sheet_zIndex (ov s j)) → is_Some (__zIndex (ov s' j)))
      as Hzj.
    { destruct (decide (j = el)) as [->|Hne]; [by intros _|].
      by pose proof (Hv j Hne) as (_&_&_&->)%stack_view_inv. }
    destruct (inv_phase s Hinv j o Ho) as [(?&?&?&?)|[(?&?&?&Hok) ?]];
      rewrite <- (ov_lookup s j o) in * by done.
    + left. unfold detached. rewrite Hcj, Hhj, Hb, Hp. done.
    + right. unfold in_body. rewrite Hcj, Hhj, Hshj, Hb, Hp.
      split_and!; try done; [by apply Hzj|].
      destruct Hok as (ph&p&?&?&?&Hnone&?). exists ph, p.
      rewrite Hphj, Hp, Hn. split_and!; try done.
      by eapply frame_but_lookup_None.
  - rewrite Hb. apply Hinv.
  - intros j1 j2 ph H1 H2. rewrite Hb.
    destruct (Hflags j1) as (_&_&->&_), (Hflags j2) as (_&_&->&_).
    apply Hinv; by apply Hd.
  - intros Hns%Hnsheets j1 j2. rewrite HA. intros H1 H2.
    destruct (decide (j1 = el)) as [->|Hne1],
             (decide (j2 = el)) as [->|Hne2]; try done.
    + pose proof (Hv j2 Hne2) as (_&_&_&->)%stack_view_inv.
      intros Heq. by destruct (Hfresh Hns j2 H2 Hne2).
    + pose proof (Hv j1 Hne1) as (_&_&_&->)%stack_view_inv.
      intros Heq. by destruct (Hfresh Hns j1 H1 Hne1).
    + pose proof (Hv j1 Hne1) as (_&_&_&->)%stack_view_inv.
      pose proof (Hv j2 Hne2) as (_&_&_&->)%stack_view_inv.
      by apply (inv_distinct s Hinv).
Qed.

Lemma numeric_attached_children s el :
  numeric s → el ∈ attached_children s → is_Some (__zIndex (ov s el)).
Proof.
  intros Hn Hel. apply Hn. unfold __attachedInstances.
  by rewrite elem_of_sort.
Qed.

(** What [bringToFront] assigns lies above every other instance. *)
Lemma bringToFront_above s this j z :
  is_Some (overlays s !! this) → ready s this →
  j ∈ attached_children s → j ≠ this → __zIndex (ov s j) = Some z →
  ∃ z', __zIndex (ov (bringToFront this s) this) = Some z' ∧ z < z'.
Proof.
  intros Hthis Hr Hj Hne Hz.
  assert (j ∈ others s this) as Hjo.
  { apply elem_of_others. by apply elem_of_attached_children in Hj as [? ?]. }
  destruct (frontmost_greatest s this Hr) as (f & m & Hlast & Hm & Hle).
  { intros Hnil. rewrite Hnil in Hjo. by apply elem_of_nil in Hjo. }
  destruct (Hle j Hjo) as (zj & Hzj & ?).
  rewrite Hz in Hzj. injection Hzj as <-. exists (m + 1).
  rewrite bringToFront_zIndex by done. unfold frontmost.
  fold (others s this). rewrite Hlast, Hm. split; [done|lia].
Qed.

Lemma stack_inv_bringToFront s el :
  stack_inv s → is_Some (overlays s !! el) →
  stack_inv (bringToFront el s) ∧
  attached_children (bringToFront el s) = attached_children s.
Proof.
  intros Hinv Hel. apply (stack_inv_restack s _ el); try done.
  - apply frame_but_bringToFront.
  - by apply (bringToFront_field attr_closing).
  - by apply (bringToFront_field __closingHandler).
  - by apply (bringToFront_field _placeholder).
  - by apply (bringToFront_field sheet_zIndex).
  - by apply bringToFront_numeric.
  - intros Hns j Hj Hne Heq.
    pose proof (stack_inv_numeric s Hinv Hns) as Hnum.
    destruct (numeric_attached_children s j Hnum Hj) as [z Hz].
    destruct (bringToFront_above s el j z) as (z' & Hz' & ?); try done.
    + by apply numeric_ready.
    + rewrite Hz, Hz' in Heq. injection Heq as ->. lia.
Qed.

(** *** [_finishClosing] *)

Lemma _detachOverlay_Some this s s' :
  _detachOverlay this s = Some s' →
  ∃ ph p, _placeholder (ov s this) = Some ph ∧
    parentNode s !! ph = Some p ∧
    s' = removeChild ph (insertBefore p this ph s).
Proof.
  unfold _detachOverlay. intros H.
  destruct (_placeholder (ov s this)) as [ph|]; simpl in H; [|done].
  destruct (parentNode s !! ph) as [p|] eqn:Hp; simpl in H; [|done].
  destruct (<[this:=p]> (parentNode s) !! ph); simpl in H; [|done].
  injection H as <-. eauto.
Qed.

Lemma _finishClosing_Some this s s' :
  _finishClosing this s = Some s' →
  ∃ ph p, _placeholder (ov s this) = Some ph ∧
    parentNode s !! ph = Some p ∧ s' = finished_closing this ph p s.
Proof.
  unfold _finishClosing. intros H.
  destruct (_detachOverlay this s) as [s1|] eqn:Hd; simpl in H; [|done].
  injection H as <-.
  apply _detachOverlay_Some in Hd as (ph&p&?&?&->). eauto.
Qed.

Lemma finished_closing_field {A} (π : Overlay → A) this ph p s j :
  (∀ v o, π (set_attr_closing v o) = π o) →
  (∀ v o, π (set_part_pointerEvents v o) = π o) →
  π (ov (finished_closing this ph p s) j) = π (ov s j).
Proof.
  intros H1 H2. unfold finished_closing.
  rewrite ov_update_field by done.
  by rewrite pointerEvents_remove_field.
Qed.

Lemma finished_closing_other this ph p s j :
  j ≠ this → ov (finished_closing this ph p s) j = ov s j.
Proof.
  intros. unfold finished_closing, pointerEvents_remove.
  by rewrite !ov_update_ne by done.
Qed.

Lemma finished_closing_is_Some this ph p s j :
  is_Some (overlays (finished_closing this ph p s) !! j) ↔
  is_Some (overlays s !! j).
Proof.
  unfold finished_closing, pointerEvents_remove.
  by rewrite !update_is_Some.
Qed.

Lemma finished_closing_attr_closing this ph p s :
  attr_closing (ov (finished_closing this ph p s) this) = false.
Proof.
  unfold finished_closing, ov. rewrite overlays_update, decide_True by done.
  by destruct (overlays _ !! this).
Qed.

Lemma finished_closing_body this ph p s :
  p ≠ body →
  body_childNodes (finished_closing this ph p s)
  = list_remove ph (list_remove this (body_childNodes s)).
Proof.
  intros. unfold finished_closing. cbn. by rewrite decide_False.
Qed.

Lemma finished_closing_parentNode this ph p s :
  parentNode (finished_closing this ph p s)
  = delete ph (<[this := p]> (parentNode s)).
Proof. done. Qed.

(** [_finishClosing] in a state that differs from one satisfying the
    invariant in the attributes of the overlay only. *)
Lemma stack_inv_finished_closing s s1 s' el ph p :
  stack_inv s → is_Some (overlays s !! el) → el ∈ body_childNodes s →
  frame_but el stack_view s s1 →
  _placeholder (ov s1 el) = _placeholder (ov s el) →
  _placeholder (ov s1 el) = Some ph → parentNode s1 !! ph = Some p →
  frame_but el stack_view (finished_closing el ph p s1) s' →
  attr_closing (ov s' el) = false → __closingHandler (ov s' el) = false →
  sheet_zIndex (ov s' el) = sheet_zIndex (ov s el) →
  stack_inv s' ∧
  attached_children s' = filter (λ o, o ≠ el) (attached_children s).
Proof.
  intros Hinv Hel Hbody (Hb1&Hp1&Hn1&Hd1&Hv1) Hph1 Hph Hp
    (Hb'&Hp'&Hn'&Hd'&Hv') Hc' Hh' Hsh'.
  rewrite Hph1 in Hph. rewrite Hp1 in Hp.
  destruct (placeholder_not_overlay s el ph Hinv Hel Hbody Hph)
    as (_ & _ & p0 & Hp0 & Hpbody).
  rewrite Hp in Hp0. injection Hp0 as <-.
  apply (stack_inv_detach s s' el ph p); try done.
  - by rewrite Hb', finished_closing_body, Hb1.
  - by rewrite Hp', finished_closing_parentNode, Hp1.
  - by rewrite Hn'.
  - intros j. by rewrite Hd', finished_closing_is_Some, Hd1.
  - intros j Hne. rewrite Hv', finished_closing_other by done. by apply Hv1.
Qed.

(** *** [_attachOverlay] *)

Lemma _attachOverlay_Some this s s' :
  _attachOverlay this s = Some s' →
  ∃ p, parentNode s !! this = Some p ∧
       s' = bringToFront this (appended this p s).
Proof.
  unfold _attachOverlay. cbn. intros H.
  destruct (parentNode s !! this) as [p|]; simpl in H; [|done].
  injection H as <-. eauto.
Qed.

Lemma appended_other this p s j : j ≠ this → ov (appended this p s) j = ov s j.
Proof.
  intros. unfold appended.
  change (ov (update this (set__placeholder (Some (next_node s))) s) j
          = ov s j).
  by rewrite ov_update_ne.
Qed.

Lemma appended_field {A} (π : Overlay → A) this p s j :
  (∀ v o, π (set__placeholder v o) = π o) →
  π (ov (appended this p s) j) = π (ov s j).
Proof.
  intros. unfold appended.
  change (π (ov (update this (set__placeholder (Some (next_node s))) s) j)
          = π (ov s j)).
  by apply ov_update_field.
Qed.

Lemma appended_is_Some this p s j :
  is_Some (overlays (appended this p s) !! j) ↔ is_Some (overlays s !! j).
Proof.
  unfold appended.
  change (is_Some (overlays
            (update this (set__placeholder (Some (next_node s))) s) !! j)
          ↔ is_Some (overlays s !! j)).
  apply update_is_Some.
Qed.

Lemma appended_placeholder this p s :
  is_Some (overlays s !! this) →
  _placeholder (ov (appended this p s) this) = Some (next_node s).
Proof.
  intros. unfold appended.
  change (_placeholder
            (ov (update this (set__placeholder (Some (next_node s))) s) this)
          = Some (next_node s)).
  by rewrite ov_update_eq.
Qed.

Lemma appended_body this p s :
  p ≠ body →
  body_childNodes (appended this p s)
  = list_remove this (list_remove (next_node s) (body_childNodes s))
    ++ [this].
Proof. intros. unfold appended. cbn. by rewrite decide_False. Qed.

Lemma appended_parentNode this p s :
  parentNode (appended this p s)
  = <[this := body]> (<[next_node s := p]> (parentNode s)).
Proof. done. Qed.

Lemma appended_attached_children this p s :
  stack_inv s → is_Some (overlays s !! this) →
  this ∉ body_childNodes s → attr_closing (ov s this) = false → p ≠ body →
  attached_children (appended this p s) = attached_children s ++ [this].
Proof.
  intros Hinv Hthis Hnb Hc Hp. unfold attached_children.
  rewrite appended_body, filter_app, filter_cons by done.
  rewrite decide_True.
  2:{ apply attached_true. rewrite appended_is_Some.
      by rewrite (appended_field attr_closing). }
  rewrite filter_nil. f_equal. unfold list_remove.
  rewrite !list_filter_filter. apply filter_ext_in. intros j Hj.
  rewrite !attached_true, appended_is_Some.
  rewrite (appended_field attr_closing) by done.
  split; [tauto|]. intros (Ho&?). split_and!; try done.
  - by intros ->.
  - intros ->. apply (inv_fresh s Hinv) in Ho. lia.
Qed.

Lemma appended_ready this p s :
  stack_inv s → numeric_sheets s → is_Some (overlays s !! this) →
  this ∉ body_childNodes s → attr_closing (ov s this) = false → p ≠ body →
  ready (appended this p s) this.
Proof.
  intros Hinv Hns Hthis Hnb Hc Hp.
  pose proof (appended_attached_children this p s Hinv Hthis Hnb Hc Hp)
    as HA.
  assert (this ∉ attached_children s) as Hnin.
  { by intros (?&_)%attached_children_overlay. }
  split.
  - intros el Hel Hne. rewrite appended_other by done.
    apply numeric_attached_children; [by apply stack_inv_numeric|].
    rewrite HA, elem_of_app, list_elem_of_singleton in Hel. tauto.
  - right. right. eauto.
Qed.

(** [_attachOverlay] on a detached overlay. *)
Lemma stack_inv_attachOverlay s s' el :
  stack_inv s → is_Some (overlays s !! el) → detached s el (ov s el) →
  _attachOverlay el s = Some s' →
  stack_inv s' ∧ attached_children s' = attached_children s ++ [el] ∧
  (∀ j, j ≠ el → ov s' j = ov s j) ∧
  sheet_zIndex (ov s' el) = sheet_zIndex (ov s el) ∧
  (numeric_sheets s →
   ∃ z', __zIndex (ov s' el) = Some z' ∧
         ∀ j, j ∈ attached_children s → stackingOrder s j < z').
Proof.
  intros Hinv Hel (Hc&Hh&Hnb&p&Hp&Hpb) Hatt.
  apply _attachOverlay_Some in Hatt as (p'&Hp'&->).
  rewrite Hp in Hp'. injection Hp' as <-.
  assert (is_Some (overlays (appended el p s) !! el)) as Hel'
    by (by apply appended_is_Some).
  assert (sheet_zIndex (ov (bringToFront el (appended el p s)) el)
          = sheet_zIndex (ov s el)) as Hsh.
  { by rewrite (bringToFront_field sheet_zIndex),
      (appended_field sheet_zIndex). }
  assert (is_Some (sheet_zIndex (ov s el)) →
          is_Some (__zIndex (ov (bringToFront el (appended el p s)) el)))
    as Hnumeric.
  { intros Hs. apply bringToFront_numeric; [done|].
    by rewrite (appended_field sheet_zIndex). }
  assert (numeric_sheets s → ∀ j, j ∈ attached_children s →
            ∃ z z', __zIndex (ov s j) = Some z ∧
              __zIndex (ov (bringToFront el (appended el p s)) el) = Some z' ∧
              z < z') as Habove.
  { intros Hns j Hj.
    pose proof (appended_ready el p s Hinv Hns Hel Hnb Hc Hpb) as Hr.
    assert (j ≠ el) as Hne
      by (intros ->; by apply attached_children_overlay in Hj as (?&_)).
    destruct (numeric_attached_children s j (stack_inv_numeric s Hinv Hns) Hj)
      as [z Hz].
    destruct (bringToFront_above (appended el p s) el j z)
      as (z''&Hz''&?); try done.
    - rewrite appended_attached_children by done.
      apply elem_of_app. by left.
    - by rewrite appended_other.
    - eauto. }
  assert (∀ j, j ≠ el → ov (bringToFront el (appended el p s)) j = ov s j)
    as Hother.
  { intros j Hne. rewrite bringToFront_other by done.
    by apply appended_other. }
  destruct (stack_inv_attach s (bringToFront el (appended el p s)) el p)
    as [Hinv' HA']; try done.
  - change (body_childNodes (appended el p s) = list_remove el
      (list_remove (next_node s) (body_childNodes s)) ++ [el]).
    by apply appended_body.
  - intros j. by rewrite bringToFront_is_Some, appended_is_Some.
  - intros j Hne. by rewrite Hother.
  - by rewrite (bringToFront_field attr_closing),
      (appended_field attr_closing).
  - by rewrite (bringToFront_field __closingHandler),
      (appended_field __closingHandler).
  - by rewrite (bringToFront_field _placeholder), appended_placeholder.
  - split_and!; try done. intros Hns.
    destruct (decide (attached_children s = [])) as [Hnil|Hne].
    + destruct (Hnumeric (numeric_sheets_ov s el Hns Hel)) as [z' Hz'].
      exists z'. split; [done|]. intros j Hj. rewrite Hnil in Hj.
      by apply elem_of_nil in Hj.
    + destruct (attached_children s) as [|j0 l] eqn:Hl; [done|].
      destruct (Habove Hns j0) as (z0&z'&_&Hz'&_); [by left|].
      exists z'. split; [done|]. intros j Hj.
      destruct (Habove Hns j Hj) as (z&z''&Hz&Hz''&?).
      unfold stackingOrder. rewrite Hz. simpl.
      rewrite Hz' in Hz''. injection Hz'' as <-. done.
Qed.

(** *** Frames of the remaining methods *)

Lemma _flushAnimation_opening_Some this s :
  ∃ s', _flushAnimation opening this s = Some s' ∧
    ∀ T (V : Overlay → T),
      (∀ v o, V (set_attr_opening v o) = V o) →
      (∀ v o, V (set___openingHandler v o) = V o) →
      frame V s s' ∧ body_pointerEvents s' = body_pointerEvents s.
Proof.
  unfold _flushAnimation, listener, callback, _finishOpening. simpl.
  destruct (__openingHandler (ov s this)); eexists; (split; [done|]).
  - intros T V H1 H2. split; [|done].
    eapply frame_trans; by apply frame_update.
  - intros T V _ _. split; [apply frame_refl|done].
Qed.

Lemma restore_focus_frame {T} (V : Overlay → T) this s s' :
  (∀ v o, V (set___restoreFocusNode v o) = V o) →
  restore_focus this s = Some s' →
  frame V s s' ∧ body_pointerEvents s' = body_pointerEvents s.
Proof.
  intros HV. unfold restore_focus.
  destruct (restoreFocusNode_or_stored (ov s this)) as [n|];
    [|intros [= <-]; split; [apply frame_refl|done]].
  destruct (restoreFocusOnClose (ov s this));
    [|intros [= <-]; split; [apply frame_refl|done]].
  destruct (if decide (_getActiveElement s = body) then Some true
            else _deepContains s this (_getActiveElement s)) as [inside|];
    simpl; [|done].
  intros [= <-]. split.
  - eapply frame_trans; [|by apply frame_update].
    destruct inside; [apply frame_set_timers|apply frame_refl].
  - by destruct inside.
Qed.

Lemma frame_enter {T} (V : Overlay → T) this s :
  (∀ o, V (erase_pointerEvents o) = V o) →
  frame V s (_enterModalState this s).
Proof. intros. by apply modal_frame_frame, modal_frame_enter. Qed.

Lemma frame_exit {T} (V : Overlay → T) this s :
  (∀ o, V (erase_pointerEvents o) = V o) →
  frame V s (_exitModalState this s).
Proof. intros. by apply modal_frame_frame, modal_frame_exit. Qed.

Lemma frame_stack_view_closing s s' :
  frame stack_view s s' → frame attr_closing s s'.
Proof. apply frame_weaken. by intros o o' (?&_)%stack_view_inv. Qed.

Lemma opened_inv_frame s s' :
  frame (λ o, (opened o, attr_closing o)) s s' →
  opened_inv s → opened_inv s'.
Proof.
  intros Hf Hop el Hel. pose proof Hf as (_&_&_&Hd&Hv).
  rewrite (frame_attached_children s s').
  - specialize (Hv el). simpl in Hv. injection Hv as -> _.
    apply Hop. by apply Hd.
  - eapply frame_weaken; [|exact Hf]. by intros o o' [= _ ->].
Qed.

(** ** Entering and leaving modal state: [<body>] and the record *)

Lemma exit_walk_field {A} (π : Overlay → A) this l s j :
  (∀ v o, π (set_part_pointerEvents v o) = π o) →
  π (ov (exit_walk this l s) j) = π (ov s j).
Proof.
  intros Hπ. revert s. induction l as [|x l IH]; intros s; simpl; [done|].
  case_decide; [apply IH|].
  destruct (modeless _).
  - by rewrite IH, pointerEvents_remove_field.
  - by rewrite pointerEvents_remove_field.
Qed.

Lemma exit_walk_body this l s :
  body_pointerEvents (exit_walk this l s) = body_pointerEvents s.
Proof.
  revert s. induction l as [|x l IH]; intros s; simpl; [done|].
  case_decide; [apply IH|]. destruct (modeless _); [|done]. by rewrite IH.
Qed.

Lemma disable_others_field {A} (π : Overlay → A) this l s j :
  (∀ v o, π (set_part_pointerEvents v o) = π o) →
  π (ov (foldl (λ s el, if decide (el ≠ this) then pointerEvents_none el s
                        else s) s l) j)
  = π (ov s j).
Proof.
  intros Hπ. revert s. induction l as [|x l IH]; intros s; simpl; [done|].
  rewrite IH. case_decide; [|done]. unfold pointerEvents_none.
  by apply ov_update_field.
Qed.

Lemma disable_others_body this l s :
  body_pointerEvents
    (foldl (λ s el, if decide (el ≠ this) then pointerEvents_none el s
                    else s) s l)
  = body_pointerEvents s.
Proof.
  revert s. induction l as [|x l IH]; intros s; simpl; [done|].
  rewrite IH. by case_decide.
Qed.

(** After [_enterModalState] the inline [pointer-events] of [<body>] is
    ['none']. *)
Lemma _enterModalState_body this s :
  body_pointerEvents (_enterModalState this s) = "none"%string.
Proof.
  unfold _enterModalState. rewrite disable_others_body.
  case_decide as Hb; done.
Qed.

Lemma _enterModalState_previous this s j :
  _previousDocumentPointerEvents (ov (_enterModalState this s) j) =
  if decide (body_pointerEvents s ≠ "none"%string) then
    _previousDocumentPointerEvents
      (ov (update this (set__previousDocumentPointerEvents
                          (Some (body_pointerEvents s))) s) j)
  else _previousDocumentPointerEvents (ov s j).
Proof.
  unfold _enterModalState. rewrite disable_others_field by done.
  by case_decide.
Qed.

Lemma _enterModalState_field {A} (π : Overlay → A) this s j :
  (∀ v o, π (set_part_pointerEvents v o) = π o) →
  (∀ v o, π (set__previousDocumentPointerEvents v o) = π o) →
  π (ov (_enterModalState this s) j) = π (ov s j).
Proof.
  intros H1 H2. unfold _enterModalState. rewrite disable_others_field by done.
  case_decide; [|done].
  change (π (ov (update this (set__previousDocumentPointerEvents
                                (Some (body_pointerEvents s))) s) j)
          = π (ov s j)).
  by apply ov_update_field.
Qed.

Lemma restore_body_body this s :
  body_pointerEvents (restore_body this s)
  = default (body_pointerEvents s)
      (_previousDocumentPointerEvents (ov s this)).
Proof.
  unfold restore_body.
  by destruct (_previousDocumentPointerEvents (ov s this)).
Qed.

Lemma restore_body_previous this s j :
  _previousDocumentPointerEvents (ov (restore_body this s) j) =
  if decide (j = this) then None
  else _previousDocumentPointerEvents (ov s j).
Proof.
  unfold restore_body.
  destruct (_previousDocumentPointerEvents (ov s this)) as [v|] eqn:Hv.
  - change (ov (update this (set__previousDocumentPointerEvents None)
                  (set_body_pointerEvents v s)) j)
      with (ov (update this (set__previousDocumentPointerEvents None) s) j).
    case_decide as Hj; [subst|by rewrite ov_update_ne].
    unfold ov. rewrite overlays_update, decide_True by done.
    by destruct (overlays s !! this).
  - case_decide; [by subst|done].
Qed.

Lemma _exitModalState_body this s :
  body_pointerEvents (_exitModalState this s)
  = default (body_pointerEvents s)
      (_previousDocumentPointerEvents (ov s this)).
Proof.
  by rewrite _exitModalState_unfold, exit_walk_body, restore_body_body.
Qed.

Lemma _exitModalState_previous this s j :
  _previousDocumentPointerEvents (ov (_exitModalState this s) j) =
  if decide (j = this) then None
  else _previousDocumentPointerEvents (ov s j).
Proof.
  rewrite _exitModalState_unfold, exit_walk_field by done.
  apply restore_body_previous.
Qed.

Lemma _exitModalState_field {A} (π : Overlay → A) this s j :
  (∀ v o, π (set_part_pointerEvents v o) = π o) →
  (∀ v o, π (set__previousDocumentPointerEvents v o) = π o) →
  π (ov (_exitModalState this s) j) = π (ov s j).
Proof.
  intros H1 H2. rewrite _exitModalState_unfold, exit_walk_field by done.
  by apply restore_body_field.
Qed.

(** ** The opening and closing procedures, step by step *)

Lemma _flushAnimation_closing_Some this s s' :
  _flushAnimation closing this s = Some s' →
  (__closingHandler (ov s this) = false ∧ s' = s) ∨
  (__closingHandler (ov s this) = true ∧
   ∃ ph q, _placeholder (ov s this) = Some ph ∧
     parentNode s !! ph = Some q ∧
     s' = update this (set___closingHandler false)
            (finished_closing this ph q s)).
Proof.
  unfold _flushAnimation, listener, callback. simpl.
  destruct (__closingHandler (ov s this)); [|intros [= <-]; by left].
  intros H. right. split; [done|].
  destruct (_finishClosing this s) as [s1|] eqn:Hf; simpl in H; [|done].
  injection H as <-.
  apply _finishClosing_Some in Hf as (ph&q&?&?&->). eauto.
Qed.

Lemma _animatedOpening_Some a this s s' :
  _animatedOpening a this s = Some s' →
  ∃ s1 p,
    (if bool_decide (parentNode s !! this = Some body)
        && attr_closing (ov s this)
     then _flushAnimation closing this s else Some s) = Some s1 ∧
    parentNode s1 !! this = Some p ∧
    s' = opening_tail a this (bringToFront this (appended this p s1)).
Proof.
  unfold _animatedOpening. intros H.
  destruct (if bool_decide (parentNode s !! this = Some body)
               && attr_closing (ov s this)
            then _flushAnimation closing this s else Some s)
    as [s1|]; simpl in H; [|done].
  destruct (_attachOverlay this s1) as [s2|] eqn:Ha; simpl in H; [|done].
  apply _attachOverlay_Some in Ha as (p&?&->).
  exists s1, p. split_and!; try done.
  unfold opening_tail. by destruct a; injection H as <-.
Qed.

Lemma opening_tail_field {A} (π : Overlay → A) a this s j :
  ignores π set_part_pointerEvents →
  ignores π set__previousDocumentPointerEvents →
  ignores π set_attr_opening → ignores π set___openingHandler →
  π (ov (opening_tail a this s) j) = π (ov s j).
Proof.
  intros H1 H2 H3 H4. unfold opening_tail, _enqueueAnimation, _finishOpening.
  assert (π (ov (if negb (modeless (ov s this))
                 then _enterModalState this s else s) j) = π (ov s j)) as He.
  { destruct (negb _); [|done]. by apply _enterModalState_field. }
  destruct a; simpl; by rewrite !ov_update_field.
Qed.

Lemma opening_tail_is_Some a this s j :
  is_Some (overlays (opening_tail a this s) !! j) ↔ is_Some (overlays s !! j).
Proof.
  unfold opening_tail, _enqueueAnimation, _finishOpening.
  assert (is_Some (overlays (if negb (modeless (ov s this))
                             then _enterModalState this s else s) !! j)
          ↔ is_Some (overlays s !! j)) as He.
  { destruct (negb _); [|done].
    by destruct (modal_frame_enter this s) as (_&_&_&_&_&_&_&_&Hd&_). }
  destruct a; cbv zeta; by rewrite !update_is_Some.
Qed.

Lemma frame_opening_tail {T} (V : Overlay → T) a this s :
  ignores V set_part_pointerEvents →
  ignores V set__previousDocumentPointerEvents →
  ignores V set_attr_opening → ignores V set___openingHandler →
  frame V s (opening_tail a this s).
Proof.
  intros H1 H2 H3 H4. unfold frame. split_and!.
  - unfold opening_tail, _enqueueAnimation, _finishOpening.
    destruct a, (negb _); simpl; try done;
      by destruct (modal_frame_enter this s) as (?&_).
  - unfold opening_tail, _enqueueAnimation, _finishOpening.
    destruct a, (negb _); simpl; try done;
      by destruct (modal_frame_enter this s) as (_&?&_).
  - unfold opening_tail, _enqueueAnimation, _finishOpening.
    destruct a, (negb _); simpl; try done;
      by destruct (modal_frame_enter this s) as (_&_&_&?&_).
  - apply opening_tail_is_Some.
  - intros j. by apply opening_tail_field.
Qed.

Lemma _animatedClosing_Some a this s s' :
  _animatedClosing a this s = Some s' →
  ∃ s0,
    (∀ T (V : Overlay → T),
       ignores V set_attr_opening → ignores V set___openingHandler →
       frame V s s0 ∧ body_pointerEvents s0 = body_pointerEvents s) ∧
    match _placeholder (ov s this) with
    | Some _ =>
        ∃ s2, restore_focus this (_exitModalState this s0) = Some s2 ∧
          if a
          then s' = _enqueueAnimation closing this (closing_marked this s2)
          else _finishClosing this (closing_marked this s2) = Some s'
    | None => s' = s0
    end.
Proof.
  unfold _animatedClosing. intros H.
  destruct (_flushAnimation_opening_Some this s) as (s1&Hs1&Hf1).
  exists (if attr_opening (ov s this) then s1 else s).
  assert (∀ T (V : Overlay → T),
    ignores V set_attr_opening → ignores V set___openingHandler →
    frame V s (if attr_opening (ov s this) then s1 else s) ∧
    body_pointerEvents (if attr_opening (ov s this) then s1 else s)
    = body_pointerEvents s) as Hfr.
  { intros T V H1 H2. destruct (attr_opening (ov s this)).
    - by apply Hf1.
    - split; [apply frame_refl|done]. }
  split; [done|].
  assert (_placeholder (ov (if attr_opening (ov s this) then s1 else s) this)
          = _placeholder (ov s this)) as Hph.
  { by destruct (Hfr _ _placeholder) as [(_&_&_&_&->) _]. }
  assert ((if attr_opening (ov s this)
           then _flushAnimation opening this s else Some s)
          = Some (if attr_opening (ov s this) then s1 else s)) as Hfl
    by (by destruct (attr_opening (ov s this))).
  rewrite Hfl in H. simpl in H. rewrite Hph in H.
  destruct (_placeholder (ov s this)); [|by injection H as <-].
  destruct (restore_focus this _) as [s2|]; simpl in H; [|done].
  exists s2. split; [done|]. unfold closing_marked.
  destruct a; [by injection H as <-|done].
Qed.

Lemma flush_closing_field {A} (π : Overlay → A) this s s' j :
  _flushAnimation closing this s = Some s' →
  ignores π set_attr_closing → ignores π set_part_pointerEvents →
  ignores π set___closingHandler →
  π (ov s' j) = π (ov s j).
Proof.
  intros H H1 H2 H3.
  apply _flushAnimation_closing_Some in H as [[_ ->]|(_&ph&q&_&_&->)];
    [done|].
  rewrite ov_update_field by done. by apply finished_closing_field.
Qed.

Lemma flush_closing_body this s s' :
  _flushAnimation closing this s = Some s' →
  body_pointerEvents s' = body_pointerEvents s.
Proof.
  intros H.
  by apply _flushAnimation_closing_Some in H as [[_ ->]|(_&ph&q&_&_&->)].
Qed.

Lemma flush_closing_is_Some this s s' j :
  _flushAnimation closing this s = Some s' →
  is_Some (overlays s' !! j) ↔ is_Some (overlays s !! j).
Proof.
  intros H.
  apply _flushAnimation_closing_Some in H as [[_ ->]|(_&ph&q&_&_&->)];
    [done|].
  by rewrite update_is_Some, finished_closing_is_Some.
Qed.

Lemma attached_field {A} (π : Overlay → A) this p s j :
  ignores π set__placeholder → ignores π set_style_zIndex →
  ignores π set___zIndex →
  π (ov (bringToFront this (appended this p s)) j) = π (ov s j).
Proof.
  intros H1 H2 H3. rewrite bringToFront_field by done.
  by apply appended_field.
Qed.

Lemma _attachOverlay_eq this p s :
  parentNode s !! this = Some p →
  _attachOverlay this s = Some (bringToFront this (appended this p s)).
Proof. intros Hp. unfold _attachOverlay. cbn. by rewrite Hp. Qed.

(** The fields [_animatedOpening] writes. *)
Lemma _animatedOpening_field {A} (π : Overlay → A) a this s s' j :
  _animatedOpening a this s = Some s' →
  ignores π set_attr_closing → ignores π set_part_pointerEvents →
  ignores π set___closingHandler → ignores π set__placeholder →
  ignores π set_style_zIndex → ignores π set___zIndex →
  ignores π set__previousDocumentPointerEvents →
  ignores π set_attr_opening → ignores π set___openingHandler →
  π (ov s' j) = π (ov s j).
Proof.
  intros H ? ? ? ? ? ? ? ? ?.
  apply _animatedOpening_Some in H as (s1&p&Hfl&Hp&->).
  rewrite opening_tail_field, attached_field by done.
  destruct (_ && _); [|by injection Hfl as <-].
  by apply (flush_closing_field π this s s1).
Qed.

Lemma _animatedOpening_is_Some a this s s' j :
  _animatedOpening a this s = Some s' →
  is_Some (overlays s' !! j) ↔ is_Some (overlays s !! j).
Proof.
  intros H. apply _animatedOpening_Some in H as (s1&p&Hfl&Hp&->).
  rewrite opening_tail_is_Some, bringToFront_is_Some, appended_is_Some.
  destruct (_ && _); [|by injection Hfl as <-].
  by apply (flush_closing_is_Some this s s1).
Qed.

(** The fields [_animatedClosing] writes. *)
Lemma _animatedClosing_field {A} (π : Overlay → A) a this s s' j :
  _animatedClosing a this s = Some s' →
  ignores π set_attr_closing → ignores π set_part_pointerEvents →
  ignores π set___closingHandler → ignores π set___restoreFocusNode →
  ignores π set__previousDocumentPointerEvents →
  ignores π set_attr_opening → ignores π set___openingHandler →
  π (ov s' j) = π (ov s j).
Proof.
  intros H ? ? ? ? ? ? ?.
  apply _animatedClosing_Some in H as (s0&Hs0&Hrest).
  destruct (Hs0 _ π) as [(_&_&_&_&Hπ0) _]; try done.
  destruct (_placeholder (ov s this)); [|subst; by apply Hπ0].
  destruct Hrest as (s2&Hrf&Hs').
  destruct (restore_focus_frame π this (_exitModalState this s0) s2)
    as [(_&_&_&_&Hπ2) _]; try done.
  assert (π (ov (closing_marked this s2) j) = π (ov s j)) as Hm.
  { unfold closing_marked.
    change (π (ov (update this (set_attr_closing true) s2) j) = π (ov s j)).
    rewrite ov_update_field, Hπ2, _exitModalState_field by done.
    apply Hπ0. }
  destruct a.
  - subst. unfold _enqueueAnimation. simpl. by rewrite ov_update_field.
  - apply _finishClosing_Some in Hs' as (ph&q&_&_&->).
    by rewrite finished_closing_field.
Qed.

Lemma _animatedClosing_is_Some a this s s' j :
  _animatedClosing a this s = Some s' →
  is_Some (overlays s' !! j) ↔ is_Some (overlays s !! j).
Proof.
  intros H. apply _animatedClosing_Some in H as (s0&Hs0&Hrest).
  destruct (Hs0 _ opened) as [(_&_&_&Hd0&_) _]; try done.
  destruct (_placeholder (ov s this)); [|subst; by apply Hd0].
  destruct Hrest as (s2&Hrf&Hs').
  destruct (restore_focus_frame opened this (_exitModalState this s0) s2)
    as [(_&_&_&Hd2&_) _]; try done.
  destruct (modal_frame_exit this s0) as (_&_&_&_&_&_&_&_&Hde&_).
  assert (is_Some (overlays (closing_marked this s2) !! j)
          ↔ is_Some (overlays s !! j)) as Hm.
  { unfold closing_marked.
    change (is_Some (overlays (update this (set_attr_closing true) s2) !! j)
            ↔ is_Some (overlays s !! j)).
    by rewrite update_is_Some, Hd2, Hde. }
  destruct a.
  - subst. unfold _enqueueAnimation. by rewrite update_is_Some.
  - apply _finishClosing_Some in Hs' as (ph&q&_&_&->).
    by rewrite finished_closing_is_Some.
Qed.

(** ** The invariant along the operations *)

Lemma not_attached_phase s el :
  stack_inv s → is_Some (overlays s !! el) → el ∉ attached_children s →
  detached s el (ov s el) ∨
  (in_body s el (ov s el) ∧ attr_closing (ov s el) = true ∧
   __closingHandler (ov s el) = true).
Proof.
  intros Hinv Hel Hnin. destruct Hel as [o Ho].
  rewrite (ov_lookup s el o) by done.
  destruct (inv_phase s Hinv el o Ho) as [?|[Hin Hh]]; [by left|right].
  split; [done|]. rewrite Hh.
  destruct (attr_closing o) eqn:Hc; [done|]. destruct Hnin.
  apply elem_of_attached_children. split; [apply Hin|].
  apply attached_true. rewrite (ov_lookup s el o) by done. eauto.
Qed.

Lemma attached_phase s el :
  stack_inv s → el ∈ attached_children s →
  in_body s el (ov s el) ∧ attr_closing (ov s el) = false ∧
  __closingHandler (ov s el) = false.
Proof.
  intros Hinv (Hb&Ho&Hc)%attached_children_overlay.
  destruct (stack_inv_in_body s el Hinv Ho Hb) as [? Hh].
  rewrite Hh. done.
Qed.

Lemma filter_not_elem (el : Node) (l : list Node) :
  el ∉ l → filter (λ o, o ≠ el) l = l.
Proof.
  intros Hnin. apply filter_id. rewrite Forall_forall. by intros x Hx ->.
Qed.

(** Flushing a pending closing animation detaches the overlay. *)
Lemma stack_inv_flush_closing s s' el :
  stack_inv s → is_Some (overlays s !! el) →
  __closingHandler (ov s el) = true →
  _flushAnimation closing el s = Some s' →
  stack_inv s' ∧ attached_children s' = attached_children s ∧
  detached s' el (ov s' el) ∧ (∀ j, j ≠ el → ov s' j = ov s j).
Proof.
  intros Hinv Hel Hh Hfl.
  apply _flushAnimation_closing_Some in Hfl
    as [[Hh' _]|(_&ph&q&Hph&Hq&->)]; [congruence|].
  destruct Hel as [o Ho].
  destruct (inv_phase s Hinv el o Ho) as [(_&Hh'&_)|[Hin Hc]];
    rewrite <- (ov_lookup s el o) in * by done; [congruence|].
  destruct Hin as (Hb&_).
  set (s' := update el (set___closingHandler false)
               (finished_closing el ph q s)).
  assert (is_Some (overlays s' !! el)) as Hel'.
  { unfold s'. rewrite update_is_Some, finished_closing_is_Some. eauto. }
  assert (attr_closing (ov s' el) = false) as Hc'.
  { unfold s'. rewrite (ov_update_field attr_closing) by done.
    apply finished_closing_attr_closing. }
  assert (__closingHandler (ov s' el) = false) as Hh'.
  { unfold s'. rewrite ov_update_eq; [done|].
    rewrite finished_closing_is_Some. eauto. }
  assert (sheet_zIndex (ov s' el) = sheet_zIndex (ov s el)) as Hsh'.
  { unfold s'. rewrite (ov_update_field sheet_zIndex) by done.
    by apply finished_closing_field. }
  destruct (stack_inv_finished_closing s s s' el ph q Hinv
              (mk_is_Some _ _ Ho) Hb
              (frame_frame_but el stack_view s s (frame_refl _ s))
              eq_refl Hph Hq
              (frame_but_update stack_view el _ _) Hc' Hh' Hsh')
    as [Hinv' HA].
  - assert (el ∉ body_childNodes s') as Hnb.
    { destruct (placeholder_not_overlay s el ph Hinv) as (_&_&q'&Hq'&?);
        eauto.
      rewrite Hq in Hq'. injection Hq' as <-.
      change (el ∉ body_childNodes (finished_closing el ph q s)).
      rewrite finished_closing_body, !elem_of_list_remove by done. tauto. }
    split_and!; try done.
    + rewrite HA. apply filter_not_elem.
      intros (_&_&Hc0)%attached_children_overlay. congruence.
    + destruct Hel' as [o' Ho']. rewrite (ov_lookup s' el o') by done.
      destruct (inv_phase s' Hinv' el o' Ho') as [?|[(?&_) _]]; done.
    + intros j Hne. unfold s'. rewrite ov_update_ne by done.
      by apply finished_closing_other.
Qed.

(** [this.opened = true] on a closed overlay. *)
Lemma open_stack s s' el a :
  stack_inv s → opened_inv s → is_Some (overlays s !! el) →
  opened (ov s el) = false →
  set_opened_property a el true s = Some s' →
  stack_inv s' ∧ opened_inv s' ∧
  attached_children s' = attached_children s ++ [el] ∧
  (∀ j, j ≠ el → __zIndex (ov s' j) = __zIndex (ov s j)) ∧
  (numeric_sheets s →
   ∃ z', __zIndex (ov s' el) = Some z' ∧
         ∀ j, j ∈ attached_children s → stackingOrder s j < z').
Proof.
  intros Hinv Hop Hel Hclosed Hset.
  unfold set_opened_property in Hset. rewrite Hclosed in Hset.
  rewrite decide_False in Hset by done. unfold _openedChanged in Hset.
  set (s0 := update el (set___restoreFocusNode _)
               (update el (set_opened true) s)) in Hset.
  assert (∀ T (V : Overlay → T), ignores V set___restoreFocusNode →
            ignores V set_opened → frame V s s0) as Hf0.
  { intros T V H1 H2. unfold s0.
    eapply frame_trans; by apply frame_update. }
  assert (stack_inv s0) as Hinv0
    by (apply (stack_inv_frame s); [by apply Hf0|done]).
  assert (attached_children s0 = attached_children s) as HA0
    by (by apply frame_attached_children, Hf0).
  assert (is_Some (overlays s0 !! el)) as Hel0.
  { destruct (Hf0 _ modeless) as (_&_&_&Hd&_); [done..|]. by apply Hd. }
  assert (el ∉ attached_children s) as Hnin.
  { intros Hin. apply Hop in Hin; [congruence|done]. }
  pose proof Hset as Hfields.
  apply _animatedOpening_Some in Hset as (s1&p&Hfl&Hp&->).
  (* the overlay is detached when [_attachOverlay] runs *)
  assert (stack_inv s1 ∧ attached_children s1 = attached_children s0 ∧
          detached s1 el (ov s1 el) ∧ (∀ j, j ≠ el → ov s1 j = ov s0 j) ∧
          is_Some (overlays s1 !! el) ∧
          (numeric_sheets s0 → numeric_sheets s1))
    as (Hinv1&HA1&Hdet&Hoth1&Hel1&Hns1).
  { destruct (not_attached_phase s0 el Hinv0 Hel0) as
      [Hdet|(Hin&Hc&Hh)]; [by rewrite HA0| |].
    - destruct Hdet as (Hc&Hh&Hnb&q&Hq&Hqb).
      rewrite Hq, bool_decide_eq_false_2 in Hfl by congruence.
      simpl in Hfl. injection Hfl as <-.
      split_and!; try done. unfold detached. eauto 10.
    - destruct Hin as (_&Hpar&_).
      rewrite Hpar, bool_decide_eq_true_2, Hc in Hfl by done.
      simpl in Hfl.
      destruct (stack_inv_flush_closing s0 s1 el) as (?&?&?&?); try done.
      split_and!; try done.
      + by rewrite (flush_closing_is_Some el s0 s1).
      + apply numeric_sheets_ext.
        * intros j. exact (flush_closing_is_Some el s0 s1 j Hfl).
        * intros j _. by apply (flush_closing_field sheet_zIndex el s0 s1). }
  destruct (stack_inv_attachOverlay s1
              (bringToFront el (appended el p s1)) el)
    as (Hinv2&HA2&Hoth2&Hsh2&Habove); try done.
  { by apply _attachOverlay_eq. }
  set (s2 := bringToFront el (appended el p s1)) in *.
  assert (frame stack_view s2 (opening_tail a el s2)) as Hft
    by (by apply frame_opening_tail).
  assert (attached_children (opening_tail a el s2)
          = attached_children s ++ [el]) as HA'.
  { rewrite (frame_attached_children s2)
      by (by apply frame_stack_view_closing).
    by rewrite HA2, HA1, HA0. }
  assert (∀ j, j ≠ el →
            __zIndex (ov (opening_tail a el s2) j) = __zIndex (ov s j))
    as Hz.
  { intros j Hne. rewrite (opening_tail_field __zIndex) by done.
    rewrite Hoth2, Hoth1 by done. by destruct (Hf0 _ __zIndex) as (_&_&_&_&->). }
  split_and!; try done.
  - by apply (stack_inv_frame s2).
  - intros j Hj. rewrite HA', elem_of_app, list_elem_of_singleton.
    rewrite (_animatedOpening_field opened a el s0 _ j Hfields) by done.
    rewrite (_animatedOpening_is_Some a el s0 _ j Hfields) in Hj.
    destruct (decide (j = el)) as [->|Hne].
    + unfold s0. rewrite (ov_update_field opened) by done.
      rewrite ov_update_eq by done. simpl. tauto.
    + unfold s0. rewrite !ov_update_ne by done.
      destruct (Hf0 _ modeless) as (_&_&_&Hd&_); try done.
      rewrite (Hop j) by (by apply Hd). tauto.
  - intros Hns.
    assert (numeric_sheets s1) as Hns1'.
    { apply Hns1. by apply (numeric_sheets_frame s s0); [apply Hf0|]. }
    destruct (Habove Hns1') as (z'&Hz'&Hab). exists z'. split.
    + by rewrite (opening_tail_field __zIndex).
    + intros j Hj. assert (j ≠ el) as Hne by (by intros ->).
      specialize (Hab j). rewrite HA1, HA0 in Hab.
      specialize (Hab Hj). unfold stackingOrder in *.
      rewrite Hoth1 in Hab by done.
      by destruct (Hf0 _ __zIndex) as (_&_&_&_&<-).
Qed.

Lemma closing_marked_field {A} (π : Overlay → A) this s j :
  ignores π set_attr_closing →
  π (ov (closing_marked this s) j) = π (ov s j).
Proof.
  intros. unfold closing_marked.
  change (π (ov (update this (set_attr_closing true) s) j) = π (ov s j)).
  by apply ov_update_field.
Qed.

Lemma closing_marked_is_Some this s j :
  is_Some (overlays (closing_marked this s) !! j) ↔ is_Some (overlays s !! j).
Proof.
  unfold closing_marked.
  change (is_Some (overlays (update this (set_attr_closing true) s) !! j)
          ↔ is_Some (overlays s !! j)).
  apply update_is_Some.
Qed.

Lemma closing_marked_attr_closing this s :
  is_Some (overlays s !! this) →
  attr_closing (ov (closing_marked this s) this) = true.
Proof.
  intros. unfold closing_marked.
  change (attr_closing (ov (update this (set_attr_closing true) s) this)
          = true).
  by rewrite ov_update_eq.
Qed.

(** An instance on the stack starts its closing animation. *)
Lemma stack_inv_mark_closing s s' el :
  stack_inv s → el ∈ attached_children s →
  frame_but el stack_view s s' →
  _placeholder (ov s' el) = _placeholder (ov s el) →
  __zIndex (ov s' el) = __zIndex (ov s el) →
  sheet_zIndex (ov s' el) = sheet_zIndex (ov s el) →
  attr_closing (ov s' el) = true → __closingHandler (ov s' el) = true →
  stack_inv s' ∧
  attached_children s' = filter (λ o, o ≠ el) (attached_children s).
Proof.
  intros Hinv Hin Hf Hph Hz Hsh Hc Hh.
  pose proof Hf as (Hb&Hp&Hn&Hd&Hv).
  assert (numeric_sheets s' → numeric_sheets s) as Hnsheets.
  { apply numeric_sheets_ext_inv; [done|]. intros j _.
    destruct (decide (j = el)) as [->|Hne]; [done|].
    by apply stack_view_sheet, Hv. }
  destruct (attached_phase s el Hinv Hin) as (Hbody&Hc0&Hh0).
  apply attached_children_overlay in Hin as (Hinb&Hel&_).
  assert (attached_children s'
          = filter (λ o, o ≠ el) (attached_children s)) as HA.
  { unfold attached_children. rewrite Hb, list_filter_filter.
    apply list_filter_iff. intros j. rewrite !attached_true, Hd.
    destruct (decide (j = el)) as [->|Hne].
    - rewrite Hc. split; [by intros [_ ?]|by intros [? _]].
    - pose proof (Hv j Hne) as (->&_)%stack_view_inv. tauto. }
  split; [|done]. split.
  - intros j Hj. rewrite Hn. apply Hinv. by apply Hd.
  - intros j o' Ho'. rewrite <- (ov_lookup s' j o') by done.
    assert (is_Some (overlays s !! j)) as [o Ho] by (apply Hd; eauto).
    destruct (decide (j = el)) as [->|Hne].
    + right. split; [|congruence]. destruct Hbody as (?&?&?&Hok).
      unfold in_body. rewrite Hb, Hp, Hz, Hsh. split_and!; try done.
      destruct Hok as (ph&p&?&?&?&Hnone&?). exists ph, p.
      rewrite Hph, Hp, Hn. split_and!; try done.
      by eapply frame_but_lookup_None.
    + pose proof (stack_view_sheet _ _ (Hv j Hne)) as Hshj.
      pose proof (Hv j Hne) as (Hcj&Hhj&Hphj&Hzj)%stack_view_inv.
      destruct (inv_phase s Hinv j o Ho) as [(?&?&?&?)|[(?&?&?&Hok) ?]];
        rewrite <- (ov_lookup s j o) in * by done.
      * left. unfold detached. rewrite Hcj, Hhj, Hb, Hp. done.
      * right. unfold in_body. rewrite Hcj, Hhj, Hb, Hp, Hzj, Hshj.
        split_and!; try done.
        destruct Hok as (ph&p&?&?&?&Hnone&?). exists ph, p.
        rewrite Hphj, Hp, Hn. split_and!; try done.
        by eapply frame_but_lookup_None.
  - rewrite Hb. apply Hinv.
  - intros j1 j2 ph H1 H2. rewrite Hb.
    assert (∀ j, _placeholder (ov s' j) = _placeholder (ov s j)) as Hall.
    { intros j. destruct (decide (j = el)) as [->|Hne]; [done|].
      by pose proof (Hv j Hne) as (_&_&?&_)%stack_view_inv. }
    rewrite !Hall. apply Hinv; by apply Hd.
  - intros Hns%Hnsheets j1 j2. rewrite HA, !list_elem_of_filter.
    intros (Hne1&Hj1) (Hne2&Hj2).
    pose proof (Hv j1 Hne1) as (_&_&_&->)%stack_view_inv.
    pose proof (Hv j2 Hne2) as (_&_&_&->)%stack_view_inv.
    by apply (inv_distinct s Hinv).
Qed.

(** [this.opened = false] on an open overlay. *)
Lemma close_stack s s' el a :
  stack_inv s → opened_inv s → is_Some (overlays s !! el) →
  opened (ov s el) = true →
  set_opened_property a el false s = Some s' →
  stack_inv s' ∧ opened_inv s' ∧
  attached_children s' = filter (λ o, o ≠ el) (attached_children s) ∧
  (∀ j, __zIndex (ov s' j) = __zIndex (ov s j)).
Proof.
  intros Hinv Hop Hel Hopen Hset.
  unfold set_opened_property in Hset. rewrite Hopen in Hset.
  rewrite decide_False in Hset by done. unfold _openedChanged in Hset.
  set (s0 := update el (set_opened false) s) in Hset.
  assert (∀ T (V : Overlay → T), ignores V set_opened → frame V s s0) as Hf0.
  { intros T V H1. by apply frame_update. }
  assert (stack_inv s0) as Hinv0
    by (apply (stack_inv_frame s); [by apply Hf0|done]).
  assert (attached_children s0 = attached_children s) as HA0
    by (by apply frame_attached_children, Hf0).
  assert (el ∈ attached_children s0) as Hin0
    by (rewrite HA0; by apply Hop).
  pose proof Hset as Hfields.
  assert (∀ j, is_Some (overlays s' !! j) ↔ is_Some (overlays s !! j))
    as Hdom.
  { intros j. rewrite (_animatedClosing_is_Some a el s0 s' j Hfields).
    unfold s0. apply update_is_Some. }
  assert (∀ j, __zIndex (ov s' j) = __zIndex (ov s j)) as Hz.
  { intros j. rewrite (_animatedClosing_field __zIndex a el s0 s' j Hfields)
      by done.
    unfold s0. by apply ov_update_field. }
  apply _animatedClosing_Some in Hset as (s00&Hs00&Hrest).
  destruct (attached_phase s0 el Hinv0 Hin0) as (Hbody&Hc0&Hh0).
  destruct Hbody as (Hb0&_&_&ph&q&Hph&Hq&_).
  rewrite Hph in Hrest. destruct Hrest as (s2&Hrf&Hs').
  assert (frame stack_view s0 s2) as Hf2.
  { eapply frame_trans; [by apply Hs00|].
    eapply frame_trans; [by apply frame_exit|].
    by apply (restore_focus_frame stack_view el _ s2). }
  assert (stack_inv s2) as Hinv2 by (by apply (stack_inv_frame s0)).
  assert (attached_children s2 = attached_children s0) as HA2
    by (by apply frame_attached_children, frame_stack_view_closing).
  assert (frame_but el stack_view s2 (closing_marked el s2)) as Hfm.
  { unfold closing_marked. eapply frame_but_trans; [apply frame_but_update|].
    apply frame_frame_but, frame_dispatchEvent. }
  assert (is_Some (overlays s2 !! el)) as Hel2.
  { destruct Hf2 as (_&_&_&Hd2&_). apply Hd2. unfold s0.
    by apply update_is_Some. }
  pose proof Hf2 as (_&_&_&_&Hv2).
  pose proof (Hv2 el) as (Hc2&Hh2&Hph2&Hz2)%stack_view_inv.
  assert (el ∈ attached_children s2) as Hin2 by (by rewrite HA2).
  assert (el ∈ body_childNodes s2) as Hb2
    by (by apply attached_children_overlay in Hin2 as (?&_)).
  assert (stack_inv s' ∧
          attached_children s' = filter (λ o, o ≠ el) (attached_children s2))
    as [Hinv' HA'].
  { destruct a.
    - subst s'. unfold _enqueueAnimation. simpl.
      apply stack_inv_mark_closing; try done.
      + eapply frame_but_trans; [exact Hfm|apply frame_but_update].
      + rewrite (ov_update_field _placeholder) by done.
        by apply closing_marked_field.
      + rewrite (ov_update_field __zIndex) by done.
        by apply closing_marked_field.
      + rewrite (ov_update_field sheet_zIndex) by done.
        by apply closing_marked_field.
      + rewrite (ov_update_field attr_closing) by done.
        by apply closing_marked_attr_closing.
      + rewrite ov_update_eq; [done|].
        by rewrite closing_marked_is_Some.
    - apply _finishClosing_Some in Hs' as (ph'&q'&Hph'&Hq'&->).
      assert (__closingHandler
                (ov (finished_closing el ph' q' (closing_marked el s2)) el)
              = false) as Hh'.
      { rewrite (finished_closing_field __closingHandler) by done.
        rewrite (closing_marked_field __closingHandler) by done.
        by rewrite Hh2. }
      assert (sheet_zIndex
                (ov (finished_closing el ph' q' (closing_marked el s2)) el)
              = sheet_zIndex (ov s2 el)) as Hsh'.
      { rewrite (finished_closing_field sheet_zIndex) by done.
        by apply closing_marked_field. }
      exact (stack_inv_finished_closing s2 (closing_marked el s2) _
               el ph' q' Hinv2 Hel2 Hb2 Hfm
               (closing_marked_field _placeholder el s2 el
                  (λ _ _, eq_refl))
               Hph' Hq'
               (frame_frame_but el stack_view _ _ (frame_refl _ _))
               (finished_closing_attr_closing el ph' q' _) Hh' Hsh'). }
  split_and!; try done.
  - intros j Hj. rewrite HA', HA2, HA0, list_elem_of_filter.
    rewrite (_animatedClosing_field opened a el s0 s' j Hfields) by done.
    apply Hdom in Hj.
    destruct (decide (j = el)) as [->|Hne].
    + unfold s0. rewrite ov_update_eq by done. simpl.
      split; [done|by intros [? _]].
    + unfold s0. rewrite ov_update_ne by done. rewrite (Hop j) by done.
      tauto.
  - by rewrite HA', HA2, HA0.
Qed.

Lemma inv_frame s s' :
  frame (λ o, (opened o, stack_view o)) s s' →
  stack_inv s → opened_inv s →
  stack_inv s' ∧ opened_inv s' ∧
  attached_children s' = attached_children s ∧
  (∀ j, __zIndex (ov s' j) = __zIndex (ov s j)).
Proof.
  intros Hf Hinv Hop.
  assert (frame stack_view s s') as Hfs.
  { eapply frame_weaken; [|exact Hf].
    intros o o' H. unfold stack_view in *. congruence. }
  split_and!.
  - by apply (stack_inv_frame s).
  - apply (opened_inv_frame s); [|done].
    eapply frame_weaken; [|exact Hf].
    intros o o' H. unfold stack_view in *. congruence.
  - by apply frame_attached_children, frame_stack_view_closing.
  - intros j. destruct Hfs as (_&_&_&_&Hv).
    by pose proof (Hv j) as (_&_&_&?)%stack_view_inv.
Qed.

Lemma close_stack_any s s' el a :
  stack_inv s → opened_inv s → is_Some (overlays s !! el) →
  set_opened_property a el false s = Some s' →
  stack_inv s' ∧ opened_inv s' ∧
  attached_children s' = filter (λ o, o ≠ el) (attached_children s) ∧
  (∀ j, __zIndex (ov s' j) = __zIndex (ov s j)).
Proof.
  intros Hinv Hop Hel Hset.
  destruct (opened (ov s el)) eqn:Hopen; [by eapply close_stack|].
  unfold set_opened_property in Hset.
  rewrite Hopen, decide_True in Hset by done. injection Hset as <-.
  split_and!; try done. symmetry. apply filter_not_elem.
  intros Hin. apply Hop in Hin; [congruence|done].
Qed.

Lemma animationend_stack s s' el :
  stack_inv s → opened_inv s → is_Some (overlays s !! el) →
  animationend el s = Some s' →
  stack_inv s' ∧ opened_inv s' ∧
  attached_children s' = attached_children s ∧
  (∀ j, __zIndex (ov s' j) = __zIndex (ov s j)).
Proof.
  intros Hinv Hop Hel Hend. unfold animationend in Hend.
  destruct (_flushAnimation_opening_Some el s) as (s1&Hs1&Hf1).
  rewrite Hs1 in Hend. simpl in Hend.
  destruct (Hf1 _ (λ o, (opened o, stack_view o))) as [Hf _]; [done..|].
  destruct (inv_frame s s1 Hf Hinv Hop) as (Hinv1&Hop1&HA1&Hz1).
  assert (is_Some (overlays s1 !! el)) as Hel1
    by (destruct Hf as (_&_&_&Hd&_); by apply Hd).
  destruct (__closingHandler (ov s1 el)) eqn:Hh.
  - destruct (stack_inv_flush_closing s1 s' el) as (Hinv'&HA'&_&Hoth);
      try done.
    assert (∀ j, opened (ov s' j) = opened (ov s1 j)) as Hopened.
    { intros j. by apply (flush_closing_field opened el s1 s' j). }
    split_and!; try done.
    + intros j Hj. rewrite HA', Hopened. apply Hop1.
      by rewrite <- (flush_closing_is_Some el s1 s' j).
    + by rewrite HA'.
    + intros j. rewrite <- Hz1.
      by apply (flush_closing_field __zIndex el s1 s' j).
  - apply _flushAnimation_closing_Some in Hend as [[_ ->]|(?&_)];
      [done|congruence].
Qed.

Lemma bringToFront_stack s el :
  stack_inv s → opened_inv s → is_Some (overlays s !! el) →
  stack_inv (bringToFront el s) ∧ opened_inv (bringToFront el s) ∧
  attached_children (bringToFront el s) = attached_children s.
Proof.
  intros Hinv Hop Hel.
  destruct (stack_inv_bringToFront s el Hinv Hel) as [Hinv' HA].
  split_and!; try done.
  intros j Hj. rewrite HA, (bringToFront_field opened) by done.
  apply Hop. by apply bringToFront_is_Some in Hj.
Qed.

Lemma frame_set_modeless {T} (V : Overlay → T) el v s :
  ignores V set_modeless → (∀ o, V (erase_pointerEvents o) = V o) →
  frame V s (set_modeless_property el v s).
Proof.
  intros H1 H2. unfold set_modeless_property, _modelessChanged.
  case_decide; [apply frame_refl|].
  eapply frame_trans; [exact (frame_update V el _ s (H1 v))|].
  destruct (negb v).
  - destruct (opened _); [by apply frame_enter|apply frame_refl].
  - by apply frame_exit.
Qed.

Lemma frame_mouseDown {T} (V : Overlay → T) el e s :
  ignores V set__mouseDownInside → frame V s (_mouseDownListener el e s).
Proof. intros. by apply frame_update. Qed.

Lemma frame_mouseUp {T} (V : Overlay → T) el e s :
  ignores V set__mouseUpInside → frame V s (_mouseUpListener el e s).
Proof. intros. by apply frame_update. Qed.

Lemma close_stack_veto s s' el veto a :
  stack_inv s → opened_inv s → is_Some (overlays s !! el) →
  close veto a el s = Some s' →
  stack_inv s' ∧ opened_inv s' ∧
  (attached_children s' = attached_children s ∨
   attached_children s' = filter (λ o, o ≠ el) (attached_children s)) ∧
  (∀ j, __zIndex (ov s' j) = __zIndex (ov s j)).
Proof.
  intros Hinv Hop Hel Hclose. unfold close in Hclose.
  set (s1 := dispatchEvent el vaadin_overlay_close s) in *.
  assert (frame (λ o, (opened o, stack_view o)) s s1) as Hf
    by apply frame_dispatchEvent.
  destruct (inv_frame s s1 Hf Hinv Hop) as (Hinv1&Hop1&HA1&Hz1).
  destruct (negb _).
  - destruct (close_stack_any s1 s' el a) as (?&?&HA'&Hz'); try done.
    split; [done|]. split; [done|]. split.
    + right. by rewrite HA', HA1.
    + intros j. by rewrite Hz', Hz1.
  - injection Hclose as <-. split; [done|]. split; [done|]. split; [|done].
    by left.
Qed.

Lemma click_stack s s' el veto a e :
  stack_inv s → opened_inv s → is_Some (overlays s !! el) →
  _outsideClickListener veto a el e s = Some s' →
  stack_inv s' ∧ opened_inv s'.
Proof.
  intros Hinv Hop Hel Hclick. unfold _outsideClickListener in Hclick.
  destruct (_ || _).
  { injection Hclick as <-.
    destruct (inv_frame s
      (update el (set__mouseUpInside false)
         (update el (set__mouseDownInside false) s))) as (?&?&_); try done.
    eapply frame_trans; by apply frame_update. }
  destruct (negb (_last s el)); [by injection Hclick as <-|].
  set (s1 := dispatchEvent el vaadin_overlay_outside_click s) in *.
  destruct (inv_frame s s1 (frame_dispatchEvent _ _ _ _) Hinv Hop)
    as (Hinv1&Hop1&_).
  destruct (_ && _).
  - by destruct (close_stack_veto s1 s' el veto a) as (?&?&_).
  - by injection Hclick as <-.
Qed.

Lemma keydown_stack s s' el veto a e :
  stack_inv s → opened_inv s → is_Some (overlays s !! el) →
  _keydownListener veto a el e s = Some s' →
  stack_inv s' ∧ opened_inv s'.
Proof.
  intros Hinv Hop Hel Hkey. unfold _keydownListener in Hkey.
  destruct (negb (_last s el)); [by injection Hkey as <-|].
  destruct (_ && _); [by injection Hkey as <-|].
  case_decide; [|by injection Hkey as <-].
  set (s1 := dispatchEvent el vaadin_overlay_escape_press s) in *.
  destruct (inv_frame s s1 (frame_dispatchEvent _ _ _ _) Hinv Hop)
    as (Hinv1&Hop1&_).
  destruct (_ && _).
  - by destruct (close_stack_veto s1 s' el veto a) as (?&?&_).
  - by injection Hkey as <-.
Qed.

Lemma step_Some op s s' :
  step op s = Some s' →
  is_Some (overlays s !! target op) ∧ perform op s = Some s'.
Proof. unfold step. by case_decide. Qed.

(** Every operation keeps the invariants. *)
Lemma step_inv op s s' :
  stack_inv s → opened_inv s → step op s = Some s' →
  stack_inv s' ∧ opened_inv s'.
Proof.
  intros Hinv Hop [Hel Hperf]%step_Some.
  destruct op as [el a|el a|el|el|el v|el e|el e|el e veto a|el e veto a];
    simpl in Hel, Hperf.
  - destruct (opened (ov s el)) eqn:Hopen.
    + unfold set_opened_property in Hperf.
      rewrite Hopen, decide_True in Hperf by done. by injection Hperf as <-.
    + by destruct (open_stack s s' el a) as (?&?&_).
  - by destruct (close_stack_any s s' el a) as (?&?&_).
  - by destruct (animationend_stack s s' el) as (?&?&_).
  - injection Hperf as <-. by destruct (bringToFront_stack s el) as (?&?&_).
  - injection Hperf as <-.
    destruct (inv_frame s (set_modeless_property el v s)) as (?&?&_);
      try done.
    by apply frame_set_modeless.
  - injection Hperf as <-.
    destruct (inv_frame s (_mouseDownListener el e s)) as (?&?&_); try done.
    by apply frame_mouseDown.
  - injection Hperf as <-.
    destruct (inv_frame s (_mouseUpListener el e s)) as (?&?&_); try done.
    by apply frame_mouseUp.
  - by eapply click_stack.
  - by eapply keydown_stack.
Qed.

Lemma initial_inv s : initial s → stack_inv s ∧ opened_inv s.
Proof.
  intros (Hov&_&_&Hnd).
  assert (∀ el, is_Some (overlays s !! el) →
            fresh_overlay s el (ov s el)) as Hfresh.
  { intros el [o Ho]. rewrite (ov_lookup s el o) by done.
    by apply (Hov el o). }
  assert (∀ el, el ∉ attached_children s) as Hempty.
  { intros el (Hb&Ho&_)%attached_children_overlay.
    by destruct (Hfresh el Ho) as (_&_&_&_&_&_&_&_&_&?&_). }
  split; [split|].
  - intros el Hel. by destruct (Hfresh el Hel) as (_&_&_&_&_&_&_&_&?&_).
  - intros el o Ho. left. rewrite <- (ov_lookup s el o) by done.
    destruct (Hfresh el) as (_&_&?&_&?&_&_&_&_&?&[p Hp]&?); [eauto|].
    unfold detached. split_and!; try done. exists p. split; [done|].
    intros ->. done.
  - done.
  - intros el1 el2 ph H1 _ Hb _. 
    by destruct (Hfresh el1 H1) as (_&_&_&_&_&_&_&_&_&?&_).
  - intros _ el1 el2 H1. by destruct (Hempty el1).
  - intros el Hel. destruct (Hfresh el Hel) as (Hopen&_).
    rewrite Hopen. split; [done|]. intros Hin. by destruct (Hempty el).
Qed.

Lemma reachable_inv s : reachable s → stack_inv s ∧ opened_inv s.
Proof.
  induction 1 as [s Hinit|s op s' _ [Hinv Hop] Hstep].
  - by apply initial_inv.
  - by apply (step_inv op s s').
Qed.

Lemma run_reachable ops s0 s :
  reachable s0 → run ops s0 = Some s → reachable s.
Proof.
  revert s0. induction ops as [|op ops IH]; intros s0 Hr Hrun; simpl in Hrun.
  - by injection Hrun as <-.
  - destruct (step op s0) as [s1|] eqn:Hstep; simpl in Hrun; [|done].
    apply (IH s1); [|done]. by eapply reachable_step.
Qed.

(** ** What the operations leave alone *)

Lemma close_field {A} (π : Overlay → A) veto a this s s' j :
  close veto a this s = Some s' →
  ignores π set_opened →
  ignores π set_attr_closing → ignores π set_part_pointerEvents →
  ignores π set___closingHandler → ignores π set___restoreFocusNode →
  ignores π set__previousDocumentPointerEvents →
  ignores π set_attr_opening → ignores π set___openingHandler →
  π (ov s' j) = π (ov s j).
Proof.
  intros Hclose ? ? ? ? ? ? ? ?. unfold close in Hclose.
  destruct (negb _); [|by injection Hclose as <-].
  unfold set_opened_property in Hclose.
  case_decide; [by injection Hclose as <-|].
  unfold _openedChanged in Hclose.
  destruct (opened (ov (dispatchEvent _ _ s) this));
    [|by injection Hclose as <-].
  rewrite (_animatedClosing_field π _ _ _ s' j Hclose) by done.
  by rewrite ov_update_field.
Qed.

Lemma set_opened_is_Some a el v s s' j :
  set_opened_property a el v s = Some s' →
  is_Some (overlays s' !! j) ↔ is_Some (overlays s !! j).
Proof.
  unfold set_opened_property. case_decide; [by intros [= <-]|].
  unfold _openedChanged. destruct v.
  - intros H'. rewrite (_animatedOpening_is_Some _ _ _ _ j H').
    by rewrite !update_is_Some.
  - destruct (opened (ov s el)).
    + intros H'. rewrite (_animatedClosing_is_Some _ _ _ _ j H').
      by rewrite update_is_Some.
    + intros [= <-]. by rewrite update_is_Some.
Qed.

Lemma close_is_Some veto a el s s' j :
  close veto a el s = Some s' →
  is_Some (overlays s' !! j) ↔ is_Some (overlays s !! j).
Proof.
  unfold close. destruct (negb _); [|by intros [= <-]].
  intros H'. by rewrite (set_opened_is_Some _ _ _ _ _ j H').
Qed.

Lemma animationend_is_Some el s s' j :
  animationend el s = Some s' →
  is_Some (overlays s' !! j) ↔ is_Some (overlays s !! j).
Proof.
  unfold animationend. intros H'.
  destruct (_flushAnimation_opening_Some el s) as (s1&Hs1&Hf1).
  rewrite Hs1 in H'. simpl in H'.
  rewrite (flush_closing_is_Some el s1 s' j H').
  destruct (Hf1 _ modeless) as [(_&_&_&Hd&_) _]; [done..|]. apply Hd.
Qed.

Lemma animationend_field {A} (π : Overlay → A) el s s' j :
  animationend el s = Some s' →
  ignores π set_attr_opening → ignores π set___openingHandler →
  ignores π set_attr_closing → ignores π set_part_pointerEvents →
  ignores π set___closingHandler →
  π (ov s' j) = π (ov s j).
Proof.
  unfold animationend. intros H' ? ? ? ? ?.
  destruct (_flushAnimation_opening_Some el s) as (s1&Hs1&Hf1).
  rewrite Hs1 in H'. simpl in H'.
  rewrite (flush_closing_field π el s1 s' j H') by done.
  by destruct (Hf1 _ π) as [(_&_&_&_&->) _].
Qed.

Lemma step_is_Some op s s' j :
  step op s = Some s' →
  is_Some (overlays s' !! j) ↔ is_Some (overlays s !! j).
Proof.
  intros [_ Hperf]%step_Some.
  destruct op as [el a|el a|el|el|el v|el e|el e|el e veto a|el e veto a];
    simpl in Hperf.
  - by apply (set_opened_is_Some a el true).
  - by apply (set_opened_is_Some a el false).
  - by apply (animationend_is_Some el).
  - injection Hperf as <-. apply bringToFront_is_Some.
  - injection Hperf as <-.
    by destruct (frame_set_modeless part_overlay el v s) as (_&_&_&Hd&_).
  - injection Hperf as <-. apply update_is_Some.
  - injection Hperf as <-. apply update_is_Some.
  - revert Hperf. unfold _outsideClickListener.
    destruct (_ || _); [intros [= <-]; by rewrite !update_is_Some|].
    destruct (negb _); [by intros [= <-]|].
    destruct (_ && _); [|by intros [= <-]].
    intros H'. by rewrite (close_is_Some _ _ _ _ _ j H').
  - revert Hperf. unfold _keydownListener.
    destruct (negb _); [by intros [= <-]|].
    destruct (_ && _); [by intros [= <-]|].
    case_decide; [|by intros [= <-]].
    destruct (_ && _); [|by intros [= <-]].
    intros H'. by rewrite (close_is_Some _ _ _ _ _ j H').
Qed.

Lemma set_opened_sheet a el v s s' j :
  set_opened_property a el v s = Some s' →
  sheet_zIndex (ov s' j) = sheet_zIndex (ov s j).
Proof.
  unfold set_opened_property. case_decide; [by intros [= <-]|].
  unfold _openedChanged. destruct v.
  - intros H'.
    rewrite (_animatedOpening_field sheet_zIndex _ _ _ s' j H') by done.
    by rewrite !(ov_update_field sheet_zIndex).
  - destruct (opened (ov s el)).
    + intros H'.
      rewrite (_animatedClosing_field sheet_zIndex _ _ _ s' j H') by done.
      by rewrite (ov_update_field sheet_zIndex).
    + intros [= <-]. by rewrite (ov_update_field sheet_zIndex).
Qed.

(** No operation touches what the style sheets say. *)
Lemma step_sheet op s s' j :
  step op s = Some s' → sheet_zIndex (ov s' j) = sheet_zIndex (ov s j).
Proof.
  intros [_ Hperf]%step_Some.
  destruct op as [el a|el a|el|el|el v|el e|el e|el e veto a|el e veto a];
    simpl in Hperf.
  - by apply (set_opened_sheet a el true).
  - by apply (set_opened_sheet a el false).
  - by apply (animationend_field sheet_zIndex el s s' j Hperf).
  - injection Hperf as <-. by apply bringToFront_field.
  - injection Hperf as <-.
    by destruct (frame_set_modeless sheet_zIndex el v s) as (_&_&_&_&Hv).
  - injection Hperf as <-. by apply ov_update_field.
  - injection Hperf as <-. by apply ov_update_field.
  - revert Hperf. unfold _outsideClickListener.
    destruct (_ || _);
      [intros [= <-]; by rewrite !(ov_update_field sheet_zIndex)|].
    destruct (negb _); [by intros [= <-]|].
    destruct (_ && _); [|by intros [= <-]].
    intros H'. by rewrite (close_field sheet_zIndex _ _ _ _ _ j H').
  - revert Hperf. unfold _keydownListener.
    destruct (negb _); [by intros [= <-]|].
    destruct (_ && _); [by intros [= <-]|].
    case_decide; [|by intros [= <-]].
    destruct (_ && _); [|by intros [= <-]].
    intros H'. by rewrite (close_field sheet_zIndex _ _ _ _ _ j H').
Qed.

Lemma step_numeric_sheets op s s' :
  step op s = Some s' → numeric_sheets s → numeric_sheets s'.
Proof.
  intros Hstep. apply numeric_sheets_ext.
  - intros j. by apply (step_is_Some op).
  - intros j _. by apply (step_sheet op).
Qed.

Lemma run_numeric_sheets ops s s' :
  run ops s = Some s' → numeric_sheets s → numeric_sheets s'.
Proof.
  revert s. induction ops as [|op ops IH]; intros s Hrun Hns;
    simpl in Hrun.
  - by injection Hrun as <-.
  - destruct (step op s) as [s1|] eqn:Hstep; simpl in Hrun; [|done].
    apply (IH s1); [done|]. by apply (step_numeric_sheets op s).
Qed.

(** ** The topmost instance *)

(** C1, as the code has it.  The derived stack holds exactly the
    overlay children of [<body>] without the [closing] attribute, and its
    last element is the one overlay for which [_last] holds (with an
    empty stack [_last] holds for none).  In a state in which every
    instance on the stack has a number for its stacking order, the stack
    is in ascending stacking order and no instance has a greater stacking
    order than the last one.  Take a page on which no overlay has been
    opened, whose overlays are declared outside the child list of
    [<body>] and are given a number for their z-index by the style
    sheets: after any sequence of operations on it every instance on the
    stack has a number, and the last one has a stacking order strictly
    greater than that of every other one.  (Without the numbers this
    fails: a closed overlay written directly under [<body>] is on the
    stack with no stacking order, and with [z-index: auto] no overlay
    gets one.) *)
Theorem topmost_greatest s :
  let stack := __attachedInstances s in
  (∀ el, el ∈ stack ↔ el ∈ body_childNodes s ∧ attached s el = true) ∧
  (∀ top, last stack = Some top → ∀ el, _last s el = true ↔ el = top) ∧
  (stack = [] → ∀ el, _last s el = false) ∧
  (numeric s →
   StronglySorted (by_key (stackingOrder s)) stack ∧
   ∀ top, last stack = Some top →
     ∀ el, el ∈ stack → stackingOrder s el ≤ stackingOrder s top) ∧
  (∀ ops s0, initial s0 → numeric_sheets s0 → run ops s0 = Some s →
     numeric s ∧
     ∀ top, last stack = Some top →
       ∀ el, el ∈ stack → el ≠ top →
         stackingOrder s el < stackingOrder s top).
Proof.
  intros stack. split_and!.
  - apply elem_of_attachedInstances.
  - intros top Htop el. rewrite _last_true. fold stack. rewrite Htop.
    split; [by intros [= ->]|by intros ->].
  - intros Hnil el. unfold _last. fold stack. by rewrite Hnil.
  - intros Hnum.
    pose proof (attachedInstances_sorted s Hnum) as Hsorted.
    split; [done|]. intros top Htop el Hel.
    exact (sorted_last_greatest (stackingOrder s) _ top el Hsorted Htop Hel).
  - intros ops s0 Hinit Hsheets Hrun.
    assert (reachable s) as Hreach
      by (eapply run_reachable; [by apply reachable_initial|done]).
    destruct (reachable_inv s Hreach) as [Hinv _].
    pose proof (run_numeric_sheets ops s0 s Hrun Hsheets) as Hns.
    pose proof (stack_inv_numeric s Hinv Hns) as Hnum.
    pose proof (attachedInstances_sorted s Hnum) as Hsorted.
    split; [done|]. intros top Htop el Hel Hne.
    pose proof (sorted_last_greatest (stackingOrder s) _ top el
                  Hsorted Htop Hel) as Hle.
    assert (top ∈ stack) as Htopin by (by apply last_Some_elem_of).
    destruct (Hnum el Hel) as [z Hz], (Hnum top Htopin) as [zt Hzt].
    unfold stack, __attachedInstances in Hel, Htopin.
    rewrite elem_of_sort in Hel, Htopin.
    assert (__zIndex (ov s el) ≠ __zIndex (ov s top)) as Hdiff.
    { intros Heq. by apply Hne, (inv_distinct s Hinv Hns). }
    unfold stackingOrder in *. rewrite Hz, Hzt in *. simpl in *.
    assert (z ≠ zt) by congruence. unfold by_key in Hle. lia.
Qed.

(** On such a page every state is one in which [bringToFront] can be
    called on any overlay. *)
Lemma run_ready ops s0 s this :
  initial s0 → numeric_sheets s0 → run ops s0 = Some s → ready s this.
Proof.
  intros Hinit Hsheets Hrun.
  assert (reachable s) as Hreach
    by (eapply run_reachable; [by apply reachable_initial|done]).
  destruct (reachable_inv s Hreach) as [Hinv _].
  apply numeric_ready, stack_inv_numeric; [done|].
  by apply (run_numeric_sheets ops s0).
Qed.

(** ** Who writes the body's [pointer-events] *)

Lemma pe_same_refl s : pe_same s s.
Proof. by split. Qed.

Lemma pe_same_trans s1 s2 s3 : pe_same s1 s2 → pe_same s2 s3 → pe_same s1 s3.
Proof.
  intros [Hb Hp] [Hb' Hp']. split; [congruence|].
  intros el. by rewrite Hp', Hp.
Qed.

Lemma pe_same_step this s s' : pe_same s s' → pe_step this s s'.
Proof. intros [Hb Hp]. split; [by intros|]. left. by rewrite Hp. Qed.

Lemma pe_step_same_l this s1 s2 s3 :
  pe_same s1 s2 → pe_step this s2 s3 → pe_step this s1 s3.
Proof.
  intros [Hb Hp] [Hoth Hcase]. split.
  - intros el Hne. by rewrite Hoth, Hp.
  - rewrite <- Hb, <- (Hp this). exact Hcase.
Qed.

Lemma pe_step_same_r this s1 s2 s3 :
  pe_step this s1 s2 → pe_same s2 s3 → pe_step this s1 s3.
Proof.
  intros [Hoth Hcase] [Hb Hp]. split.
  - intros el Hne. by rewrite Hp, Hoth.
  - rewrite Hb, (Hp this). exact Hcase.
Qed.

Lemma pe_same_update el f s :
  (∀ o, _previousDocumentPointerEvents (f o)
        = _previousDocumentPointerEvents o) →
  pe_same s (update el f s).
Proof. intros Hf. split; [done|]. intros j. by apply ov_update_field. Qed.

Lemma pe_same_frame s s' :
  frame _previousDocumentPointerEvents s s' →
  body_pointerEvents s' = body_pointerEvents s → pe_same s s'.
Proof. intros (_&_&_&_&Hv) Hb. by split. Qed.

Lemma pe_step_enter this s :
  is_Some (overlays s !! this) → pe_step this s (_enterModalState this s).
Proof.
  intros Hthis. split.
  - intros el Hne. rewrite _enterModalState_previous.
    case_decide; [|done]. by rewrite ov_update_ne.
  - rewrite _enterModalState_body, _enterModalState_previous.
    destruct (decide (body_pointerEvents s ≠ "none"%string)) as [Hb|Hb].
    + right. left. by rewrite ov_update_eq.
    + left. split; [|done]. symmetry. by apply dec_stable in Hb.
Qed.

Lemma pe_step_exit this s : pe_step this s (_exitModalState this s).
Proof.
  split.
  - intros el Hne. rewrite _exitModalState_previous. by rewrite decide_False.
  - rewrite _exitModalState_body, _exitModalState_previous.
    rewrite decide_True by done.
    destruct (_previousDocumentPointerEvents (ov s this)) as [v|].
    + right. right. eauto.
    + by left.
Qed.

Lemma pe_step_opening_tail a this s :
  is_Some (overlays s !! this) → pe_step this s (opening_tail a this s).
Proof.
  intros Hthis. unfold opening_tail.
  set (s1 := if negb (modeless (ov s this)) then _enterModalState this s
             else s).
  assert (pe_step this s s1) as H1.
  { unfold s1. destruct (negb _); [by apply pe_step_enter|].
    apply pe_same_step, pe_same_refl. }
  eapply pe_step_same_r; [exact H1|].
  unfold _enqueueAnimation, _finishOpening.
  destruct a; simpl.
  - eapply pe_same_trans;
      [apply (pe_same_update this (set_attr_opening true))
      |apply pe_same_update]; done.
  - eapply pe_same_trans;
      [apply (pe_same_update this (set_attr_opening true))
      |apply pe_same_update]; done.
Qed.

Lemma pe_step_animatedOpening a this s s' :
  is_Some (overlays s !! this) →
  _animatedOpening a this s = Some s' → pe_step this s s'.
Proof.
  intros Hthis H. pose proof H as Hfields.
  apply _animatedOpening_Some in H as (s1&p&Hfl&Hp&->).
  assert (pe_same s s1) as H1.
  { destruct (_ && _); [|injection Hfl as <-; apply pe_same_refl]. split.
    - by apply (flush_closing_body this).
    - intros el.
      by apply (flush_closing_field _previousDocumentPointerEvents this). }
  assert (is_Some (overlays s1 !! this)) as Hthis1.
  { destruct (_ && _); [|by injection Hfl as <-].
    by rewrite (flush_closing_is_Some this s s1). }
  eapply pe_step_same_l; [exact H1|].
  eapply pe_step_same_l; [|apply pe_step_opening_tail].
  - split; [done|]. intros el. by apply attached_field.
  - by rewrite bringToFront_is_Some, appended_is_Some.
Qed.

Lemma pe_step_animatedClosing a this s s' :
  _animatedClosing a this s = Some s' → pe_step this s s'.
Proof.
  intros H. apply _animatedClosing_Some in H as (s0&Hs0&Hrest).
  assert (pe_same s s0) as Hsame0.
  { destruct (Hs0 _ _previousDocumentPointerEvents) as [Hf Hb]; [done..|].
    by apply pe_same_frame. }
  destruct (_placeholder (ov s this));
    [|subst; by apply pe_same_step].
  destruct Hrest as (s2&Hrf&Hs').
  eapply pe_step_same_l; [exact Hsame0|].
  eapply pe_step_same_r; [apply pe_step_exit|].
  assert (pe_same (_exitModalState this s0) s2) as H2.
  { destruct (restore_focus_frame _previousDocumentPointerEvents this
                (_exitModalState this s0) s2) as [Hf Hb]; [done..|].
    by apply pe_same_frame. }
  eapply pe_same_trans; [exact H2|].
  assert (pe_same s2 (closing_marked this s2)) as Hm.
  { split; [done|]. intros el. by apply closing_marked_field. }
  eapply pe_same_trans; [exact Hm|].
  destruct a.
  - subst. unfold _enqueueAnimation. simpl. by apply pe_same_update.
  - apply _finishClosing_Some in Hs' as (ph&q&_&_&->).
    split; [done|]. intros el. by apply finished_closing_field.
Qed.

Lemma pe_step_set_opened a this v s s' :
  is_Some (overlays s !! this) →
  set_opened_property a this v s = Some s' → pe_step this s s'.
Proof.
  intros Hthis H. unfold set_opened_property in H.
  case_decide; [injection H as <-; apply pe_same_step, pe_same_refl|].
  assert (pe_same s (update this (set_opened v) s)) as Hsame0
    by (by apply pe_same_update).
  eapply pe_step_same_l; [exact Hsame0|].
  unfold _openedChanged in H. destruct v.
  - eapply pe_step_same_l; [|eapply pe_step_animatedOpening; [|exact H]].
    + by apply pe_same_update.
    + by rewrite !update_is_Some.
  - destruct (opened (ov s this));
      [by eapply pe_step_animatedClosing|].
    injection H as <-. apply pe_same_step, pe_same_refl.
Qed.

Lemma pe_step_close veto a this s s' :
  is_Some (overlays s !! this) →
  close veto a this s = Some s' → pe_step this s s'.
Proof.
  intros Hthis H. unfold close in H.
  destruct (negb _).
  - eapply pe_step_same_l; [|eapply pe_step_set_opened; [|exact H]]; done.
  - injection H as <-. by apply pe_same_step.
Qed.

Lemma pe_same_animationend this s s' :
  animationend this s = Some s' → pe_same s s'.
Proof.
  unfold animationend. intros H.
  destruct (_flushAnimation_opening_Some this s) as (s1&Hs1&Hf1).
  rewrite Hs1 in H. simpl in H.
  destruct (Hf1 _ _previousDocumentPointerEvents) as [Hf Hb]; [done..|].
  eapply pe_same_trans; [by apply pe_same_frame|]. split.
  - by apply (flush_closing_body this).
  - intros el.
    by apply (flush_closing_field _previousDocumentPointerEvents this).
Qed.

Lemma pe_step_set_modeless this v s :
  is_Some (overlays s !! this) →
  pe_step this s (set_modeless_property this v s).
Proof.
  intros Hthis. unfold set_modeless_property, _modelessChanged.
  case_decide; [apply pe_same_step, pe_same_refl|].
  eapply pe_step_same_l; [by apply (pe_same_update this (set_modeless v))|].
  destruct (negb v).
  - destruct (opened _); [|apply pe_same_step, pe_same_refl].
    apply pe_step_enter. by rewrite update_is_Some.
  - apply pe_step_exit.
Qed.

Lemma pe_step_click veto a this e s s' :
  is_Some (overlays s !! this) →
  _outsideClickListener veto a this e s = Some s' → pe_step this s s'.
Proof.
  intros Hthis H. unfold _outsideClickListener in H.
  destruct (_ || _).
  { injection H as <-. apply pe_same_step.
    eapply pe_same_trans; by apply pe_same_update. }
  destruct (negb (_last s this));
    [injection H as <-; apply pe_same_step, pe_same_refl|].
  destruct (_ && _).
  - eapply pe_step_same_l; [|eapply pe_step_close; [|exact H]]; done.
  - injection H as <-. by apply pe_same_step.
Qed.

Lemma pe_step_keydown veto a this e s s' :
  is_Some (overlays s !! this) →
  _keydownListener veto a this e s = Some s' → pe_step this s s'.
Proof.
  intros Hthis H. unfold _keydownListener in H.
  destruct (negb (_last s this));
    [injection H as <-; apply pe_same_step, pe_same_refl|].
  destruct (_ && _); [injection H as <-; apply pe_same_step, pe_same_refl|].
  case_decide; [|injection H as <-; apply pe_same_step, pe_same_refl].
  destruct (_ && _).
  - eapply pe_step_same_l; [|eapply pe_step_close; [|exact H]]; done.
  - injection H as <-. by apply pe_same_step.
Qed.

Lemma pe_step_step op s s' :
  step op s = Some s' → pe_step (target op) s s'.
Proof.
  intros [Hel Hperf]%step_Some.
  destruct op as [el a|el a|el|el|el v|el e|el e|el e veto a|el e veto a];
    simpl in *.
  - by eapply pe_step_set_opened.
  - by eapply pe_step_set_opened.
  - by apply pe_same_step, (pe_same_animationend el).
  - injection Hperf as <-. apply pe_same_step. split; [done|].
    intros j. by apply bringToFront_field.
  - injection Hperf as <-. by apply pe_step_set_modeless.
  - injection Hperf as <-. by apply pe_same_step, pe_same_update.
  - injection Hperf as <-. by apply pe_same_step, pe_same_update.
  - by eapply pe_step_click.
  - by eapply pe_step_keydown.
Qed.

(** C10.  The inline [pointer-events] of [<body>] and the values the
    overlays have recorded for it, along every operation: the record of
    an overlay other than the one operated on never changes, and the
    operation does one of three things: it leaves the body's value and
    the overlay's record alone; it sets the body to ['none'], the body not
    being ['none'] before, and the overlay records the value it found; or
    it writes to the body the value that the overlay had recorded, and
    the overlay forgets it.  So the body's value is written back only by
    the overlay that recorded it.  In particular [_enterModalState] with
    the body already at ['none'] records nothing and leaves the body
    alone, and [_exitModalState] of an overlay that has recorded nothing
    leaves the body alone. *)
Theorem body_pointerEvents_owner :
  (∀ op s s', step op s = Some s' → pe_step (target op) s s') ∧
  (∀ this s, body_pointerEvents s = "none"%string →
     pe_same s (_enterModalState this s)) ∧
  (∀ this s, _previousDocumentPointerEvents (ov s this) = None →
     pe_same s (_exitModalState this s)) ∧
  (∀ this s v, _previousDocumentPointerEvents (ov s this) = Some v →
     body_pointerEvents (_exitModalState this s) = v ∧
     _previousDocumentPointerEvents (ov (_exitModalState this s) this)
     = None).
Proof.
  split_and!.
  - apply pe_step_step.
  - intros this s Hb. split.
    + by rewrite _enterModalState_body.
    + intros el. rewrite _enterModalState_previous.
      by rewrite decide_False by (by intros ?).
  - intros this s Hp. split.
    + by rewrite _exitModalState_body, Hp.
    + intros el. rewrite _exitModalState_previous.
      case_decide; [by subst|done].
  - intros this s v Hp. split.
    + by rewrite _exitModalState_body, Hp.
    + by rewrite _exitModalState_previous, decide_True.
Qed.

(** ** How the derived stack moves *)

Lemma attachedInstances_same s s' :
  attached_children s' = attached_children s →
  (∀ j, __zIndex (ov s' j) = __zIndex (ov s j)) →
  __attachedInstances s' = __attachedInstances s.
Proof.
  intros HA Hz. unfold __attachedInstances. rewrite HA.
  apply sort_ext. intros x y _ _. unfold compareFn. by rewrite !Hz.
Qed.

Lemma attachedInstances_removed s s' el :
  numeric s →
  attached_children s' = filter (λ o, o ≠ el) (attached_children s) →
  (∀ j, __zIndex (ov s' j) = __zIndex (ov s j)) →
  __attachedInstances s' = filter (λ o, o ≠ el) (__attachedInstances s).
Proof.
  intros Hn HA Hz. unfold __attachedInstances. rewrite HA.
  rewrite (filter_sort _ (stackingOrder s)) by (by apply numeric_keyed).
  apply sort_ext. intros x y _ _. unfold compareFn. by rewrite !Hz.
Qed.

Lemma attachedInstances_pushed s s' el z' :
  numeric s →
  attached_children s' = attached_children s ++ [el] →
  el ∉ attached_children s →
  (∀ j, j ≠ el → __zIndex (ov s' j) = __zIndex (ov s j)) →
  __zIndex (ov s' el) = Some z' →
  (∀ j, j ∈ attached_children s → stackingOrder s j < z') →
  __attachedInstances s' = __attachedInstances s ++ [el].
Proof.
  intros Hn HA Hnin Hz Hzel Habove. unfold __attachedInstances. rewrite HA.
  assert (∀ j, j ∈ attached_children s → j ≠ el) as Hne
    by (by intros j Hj ->).
  rewrite sort_snoc.
  - f_equal. apply sort_ext. intros x y Hx Hy. unfold compareFn.
    by rewrite !Hz by (by apply Hne).
  - intros y Hy. unfold compareFn. rewrite Hzel, Hz by (by apply Hne).
    destruct (numeric_attached_children s y Hn Hy) as [z Hzy].
    specialize (Habove y Hy). unfold stackingOrder in Habove.
    rewrite Hzy in *. simpl in Habove. lia.
Qed.

Lemma NoDup_attachedInstances s :
  NoDup (body_childNodes s) → NoDup (__attachedInstances s).
Proof.
  intros Hnd. unfold __attachedInstances, attached_children.
  rewrite sort_Permutation. by apply NoDup_filter.
Qed.

Lemma filter_last_NoDup (l : list Node) el :
  NoDup l → last l = Some el →
  ∃ l0, l = l0 ++ [el] ∧ (el ∉ l0) ∧ filter (λ o, o ≠ el) l = l0.
Proof.
  intros Hnd [l0 ->]%last_Some. exists l0.
  apply NoDup_app in Hnd as (_&Hdis&_).
  assert (el ∉ l0) as Hnin.
  { intros Hin. apply (Hdis el Hin). by left. }
  split_and!; try done.
  rewrite filter_app, filter_cons, decide_False by (by intros ?).
  rewrite filter_nil, app_nil_r. by apply filter_not_elem.
Qed.

(** ** Opening and closing: the exact effect on the body *)

Lemma opening_tail_effect a this s :
  is_Some (overlays s !! this) →
  (∀ j, j ≠ this →
     _previousDocumentPointerEvents (ov (opening_tail a this s) j)
     = _previousDocumentPointerEvents (ov s j)) ∧
  (if modeless (ov s this)
   then body_pointerEvents (opening_tail a this s) = body_pointerEvents s ∧
        _previousDocumentPointerEvents (ov (opening_tail a this s) this)
        = _previousDocumentPointerEvents (ov s this)
   else body_pointerEvents (opening_tail a this s) = "none"%string ∧
        _previousDocumentPointerEvents (ov (opening_tail a this s) this)
        = if decide (body_pointerEvents s ≠ "none"%string)
          then Some (body_pointerEvents s)
          else _previousDocumentPointerEvents (ov s this)).
Proof.
  intros Hthis.
  destruct (pe_step_opening_tail a this s Hthis) as [Hoth _].
  split; [done|]. unfold opening_tail.
  set (s1 := if negb (modeless (ov s this)) then _enterModalState this s
             else s).
  assert (pe_same s1
    (let s2 := update this (set_attr_opening true) s1 in
     if a then _enqueueAnimation opening this s2
     else _finishOpening this s2)) as [Hb Hp].
  { unfold _enqueueAnimation, _finishOpening. destruct a; simpl.
    - eapply pe_same_trans;
        [apply (pe_same_update this (set_attr_opening true))
        |apply pe_same_update]; done.
    - eapply pe_same_trans;
        [apply (pe_same_update this (set_attr_opening true))
        |apply pe_same_update]; done. }
  cbv zeta in Hb, Hp. rewrite Hb, Hp. unfold s1.
  destruct (modeless (ov s this)); simpl; [done|].
  rewrite _enterModalState_body, _enterModalState_previous.
  split; [done|]. case_decide; [|done]. by rewrite ov_update_eq.
Qed.

Lemma open_modal_effect s s' el a :
  is_Some (overlays s !! el) → opened (ov s el) = false →
  set_opened_property a el true s = Some s' →
  (∀ j, modeless (ov s' j) = modeless (ov s j)) ∧
  (∀ j, j ≠ el →
     _previousDocumentPointerEvents (ov s' j)
     = _previousDocumentPointerEvents (ov s j)) ∧
  (if modeless (ov s el)
   then body_pointerEvents s' = body_pointerEvents s ∧
        _previousDocumentPointerEvents (ov s' el)
        = _previousDocumentPointerEvents (ov s el)
   else body_pointerEvents s' = "none"%string ∧
        _previousDocumentPointerEvents (ov s' el)
        = if decide (body_pointerEvents s ≠ "none"%string)
          then Some (body_pointerEvents s)
          else _previousDocumentPointerEvents (ov s el)).
Proof.
  intros Hel Hclosed Hset.
  destruct (pe_step_set_opened a el true s s' Hel Hset) as [Hoth _].
  unfold set_opened_property in Hset. rewrite Hclosed in Hset.
  rewrite decide_False in Hset by done. unfold _openedChanged in Hset.
  set (s0 := update el (set___restoreFocusNode _)
               (update el (set_opened true) s)) in Hset.
  assert (∀ {A} (π : Overlay → A), ignores π set___restoreFocusNode →
            ignores π set_opened → ∀ j, π (ov s0 j) = π (ov s j)) as H0.
  { intros A π H1 H2 j. unfold s0. by rewrite !ov_update_field. }
  assert (is_Some (overlays s0 !! el)) as Hel0
    by (unfold s0; by rewrite !update_is_Some).
  split_and!; try done.
  - intros j. rewrite (_animatedOpening_field modeless a el s0 s' j Hset)
      by done. by apply H0.
  - apply _animatedOpening_Some in Hset as (s1&p&Hfl&Hp&->).
    set (s2 := bringToFront el (appended el p s1)).
    assert (is_Some (overlays s1 !! el)) as Hel1.
    { destruct (_ && _); [|by injection Hfl as <-].
      by rewrite (flush_closing_is_Some el s0 s1). }
    assert (∀ {A} (π : Overlay → A),
      ignores π set_attr_closing → ignores π set_part_pointerEvents →
      ignores π set___closingHandler → ignores π set__placeholder →
      ignores π set_style_zIndex → ignores π set___zIndex →
      ignores π set___restoreFocusNode → ignores π set_opened →
      ∀ j, π (ov s2 j) = π (ov s j)) as H2.
    { intros A π ? ? ? ? ? ? ? ? j. unfold s2.
      rewrite attached_field by done. rewrite <- H0 by done.
      destruct (_ && _); [|by injection Hfl as <-].
      by apply (flush_closing_field π el s0 s1). }
    assert (body_pointerEvents s2 = body_pointerEvents s) as Hb2.
    { change (body_pointerEvents s1 = body_pointerEvents s0).
      destruct (_ && _); [|by injection Hfl as <-].
      by apply (flush_closing_body el). }
    assert (is_Some (overlays s2 !! el)) as Hel2
      by (unfold s2; by rewrite bringToFront_is_Some, appended_is_Some).
    destruct (opening_tail_effect a el s2 Hel2) as [_ Heff].
    rewrite (H2 _ modeless) in Heff by done.
    rewrite Hb2, (H2 _ _previousDocumentPointerEvents) in Heff by done.
    exact Heff.
Qed.

Lemma close_modal_effect s s' el a :
  opened (ov s el) = true → is_Some (_placeholder (ov s el)) →
  set_opened_property a el false s = Some s' →
  (∀ j, modeless (ov s' j) = modeless (ov s j)) ∧
  (∀ j, j ≠ el →
     _previousDocumentPointerEvents (ov s' j)
     = _previousDocumentPointerEvents (ov s j)) ∧
  body_pointerEvents s'
  = default (body_pointerEvents s)
      (_previousDocumentPointerEvents (ov s el)) ∧
  _previousDocumentPointerEvents (ov s' el) = None.
Proof.
  intros Hopen [ph Hph] Hset.
  unfold set_opened_property in Hset. rewrite Hopen in Hset.
  rewrite decide_False in Hset by done. unfold _openedChanged in Hset.
  set (s0 := update el (set_opened false) s) in Hset.
  assert (∀ {A} (π : Overlay → A), ignores π set_opened →
            ∀ j, π (ov s0 j) = π (ov s j)) as H0.
  { intros A π H1 j. unfold s0. by rewrite !ov_update_field. }
  assert (∀ j, modeless (ov s' j) = modeless (ov s j)) as Hmod.
  { intros j. rewrite (_animatedClosing_field modeless a el s0 s' j Hset)
      by done. by apply H0. }
  split; [done|].
  apply _animatedClosing_Some in Hset as (s00&Hs00&Hrest).
  rewrite (H0 _ _placeholder), Hph in Hrest by done.
  destruct Hrest as (s2&Hrf&Hs').
  destruct (Hs00 _ _previousDocumentPointerEvents) as [(_&_&_&_&Hp00) Hb00];
    [done..|].
  destruct (restore_focus_frame _previousDocumentPointerEvents el
              (_exitModalState el s00) s2) as [(_&_&_&_&Hp2) Hb2]; [done..|].
  assert (pe_same s2 s') as [Hb' Hp'].
  { eapply (pe_same_trans _ (closing_marked el s2)).
    - split; [done|]. intros j. by apply closing_marked_field.
    - destruct a.
      + subst. unfold _enqueueAnimation. simpl. by apply pe_same_update.
      + apply _finishClosing_Some in Hs' as (ph'&q&_&_&->).
        split; [done|]. intros j. by apply finished_closing_field. }
  split_and!.
  - intros j Hne. rewrite Hp', Hp2, _exitModalState_previous.
    rewrite decide_False by done. rewrite Hp00. by apply H0.
  - rewrite Hb', Hb2, _exitModalState_body, Hb00, Hp00.
    by rewrite (H0 _ _previousDocumentPointerEvents).
  - rewrite Hp', Hp2, _exitModalState_previous. by rewrite decide_True.
Qed.

(** ** Containment through shadow boundaries *)

Lemma filter_length_lt {A} (P Q : A → Prop)
    `{∀ x, Decision (P x)} `{∀ x, Decision (Q x)} (l : list A) x :
  (∀ y, P y → Q y) → x ∈ l → Q x → ¬ P x →
  (length (filter P l) < length (filter Q l))%nat.
Proof.
  intros HPQ Hx HQ HP.
  assert (∀ l', length (filter P l') ≤ length (filter Q l'))%nat as Hle.
  { induction l' as [|y l' IH]; [done|]. rewrite !filter_cons.
    destruct (decide (P y)) as [Hy|Hy].
    - rewrite decide_True by auto. simpl. lia.
    - destruct (decide (Q y)); simpl; lia. }
  induction l as [|y l IH]; [by apply elem_of_nil in Hx|].
  rewrite !filter_cons. apply elem_of_cons in Hx as [<-|Hx].
  - rewrite decide_False, decide_True by done. simpl.
    specialize (Hle l). lia.
  - specialize (IH Hx). destruct (decide (P y)) as [Hy|Hy].
    + rewrite decide_True by auto. simpl. lia.
    + destruct (decide (Q y)); simpl; lia.
Qed.

Lemma linked_length s :
  length (linked s) = (size (parentNode s) + size (host s))%nat.
Proof.
  unfold linked. by rewrite length_app, !length_fmap, !length_map_to_list.
Qed.

Lemma parentNode_or_host_linked s n m :
  parentNode_or_host s n = Some m → n ∈ linked s.
Proof.
  unfold parentNode_or_host, linked. intros H. apply elem_of_app.
  destruct (parentNode s !! n) as [p|] eqn:Hp.
  - left. apply list_elem_of_fmap. exists (n, p). split; [done|].
    by apply elem_of_map_to_list.
  - right. apply list_elem_of_fmap. exists (n, m). split; [done|].
    by apply elem_of_map_to_list.
Qed.

Lemma acyclic_rank rank s n m :
  acyclic rank s → parentNode_or_host s n = Some m →
  (rank m < rank n)%nat.
Proof.
  intros [Hp Hh]. unfold parentNode_or_host.
  destruct (parentNode s !! n) as [p|] eqn:Hpn.
  - intros [= <-]. by apply (Hp n p).
  - intros Hm. by apply (Hh n m).
Qed.

Section walks.
Variable rank : Node → nat.
Variable s : State.
Hypothesis Hacyclic : acyclic rank s.

(** How many linked nodes rank no higher than [n]. *)
Let below (n : Node) : nat :=
  length (filter (λ m, (rank m ≤ rank n)%nat) (linked s)).

Lemma below_step n m :
  parentNode_or_host s n = Some m → (below m < below n)%nat.
Proof.
  intros Hm. pose proof (acyclic_rank rank s n m Hacyclic Hm) as Hlt.
  unfold below. apply (filter_length_lt _ _ _ n).
  - intros y ?. lia.
  - by eapply parentNode_or_host_linked.
  - lia.
  - lia.
Qed.

Lemma below_fuel n : (below n + 2 ≤ dom_fuel s)%nat.
Proof.
  unfold below, dom_fuel. rewrite <- linked_length.
  pose proof (length_filter (λ m, (rank m ≤ rank n)%nat) (linked s)). lia.
Qed.

Lemma walk_to_terminates this fuel n :
  (below n + 2 ≤ fuel)%nat → is_Some (walk_to fuel s this (Some n)).
Proof.
  revert n. induction fuel as [|fuel IH]; intros n Hfuel; [lia|].
  simpl. case_decide; [|eauto].
  destruct (parentNode_or_host s n) as [m|] eqn:Hm.
  - apply IH. pose proof (below_step n m Hm). lia.
  - destruct fuel; [lia|]. simpl. eauto.
Qed.

Lemma contains_terminates this fuel n :
  (below n + 2 ≤ fuel)%nat → is_Some (contains fuel s this n).
Proof.
  revert n. induction fuel as [|fuel IH]; intros n Hfuel; [lia|].
  simpl. case_decide; [eauto|].
  destruct (parentNode s !! n) as [p|] eqn:Hp; [|eauto].
  apply IH.
  assert (parentNode_or_host s n = Some p) as Hm
    by (unfold parentNode_or_host; by rewrite Hp).
  pose proof (below_step n p Hm). lia.
Qed.

(** What the two loops compute, when they return. *)
Lemma walk_to_spec this fuel n b :
  parentNode_or_host s document = None →
  walk_to fuel s this (Some n) = Some b →
  b = true ↔ deep_ancestor s n this.
Proof.
  intros Hroot. revert n. induction fuel as [|fuel IH]; intros n; [done|].
  simpl. case_decide as Hc.
  - destruct Hc as [Hdoc Hthis].
    destruct (parentNode_or_host s n) as [m|] eqn:Hm.
    + intros Hw. rewrite (IH m Hw). split.
      * intros Hanc. by eapply deep_ancestor_step.
      * intros Hanc. inversion Hanc; subst; [done|]. congruence.
    + destruct fuel; [done|]. simpl. intros [= <-]. split; [done|].
      intros Hanc. inversion Hanc; subst; [done|]. congruence.
  - intros [= <-]. rewrite bool_decide_eq_true. split.
    + intros ->. constructor.
    + intros Hanc. apply not_and_l in Hc as [Hdoc|Hthis].
      * apply dec_stable in Hdoc. subst n.
        inversion Hanc; subst; [done|]. congruence.
      * by apply dec_stable in Hthis.
Qed.

Lemma contains_true this fuel n :
  contains fuel s this n = Some true → deep_ancestor s n this.
Proof.
  revert n. induction fuel as [|fuel IH]; intros n; [done|].
  simpl. case_decide; [intros _; subst; constructor|].
  destruct (parentNode s !! n) as [p|] eqn:Hp; [|done].
  intros Hc. apply (deep_ancestor_step s n p); [|by apply IH].
  unfold parentNode_or_host. by rewrite Hp.
Qed.

(** [_deepContains] returns, and decides containment. *)
Lemma _deepContains_spec this n :
  parentNode_or_host s document = None →
  ∃ b, _deepContains s this n = Some b ∧
       (b = true ↔ deep_ancestor s n this).
Proof.
  intros Hroot. unfold _deepContains, _deepContains_fuel.
  destruct (contains_terminates this (dom_fuel s) n (below_fuel n))
    as [c Hc].
  destruct (walk_to_terminates this (dom_fuel s) n (below_fuel n))
    as [w Hw].
  rewrite Hc. destruct c.
  - exists true. split; [done|]. split; [|done].
    intros _. by eapply contains_true.
  - exists w. split; [done|]. by eapply walk_to_spec.
Qed.
End walks.

(** ** Focus restoration *)

Lemma contains_ext s s' fuel this n :
  parentNode s' = parentNode s →
  contains fuel s' this n = contains fuel s this n.
Proof.
  intros Hp. revert n. induction fuel as [|fuel IH]; intros n; [done|].
  simpl. rewrite Hp. case_decide; [done|].
  destruct (parentNode s !! n); [apply IH|done].
Qed.

Lemma walk_to_ext s s' fuel this n :
  parentNode s' = parentNode s → host s' = host s →
  walk_to fuel s' this n = walk_to fuel s this n.
Proof.
  intros Hp Hh. revert n. induction fuel as [|fuel IH]; intros n; [done|].
  simpl. destruct n as [m|]; [|done]. case_decide; [|done].
  unfold parentNode_or_host. rewrite Hp, Hh. apply IH.
Qed.

Lemma _deepContains_ext s s' this n :
  parentNode s' = parentNode s → host s' = host s →
  _deepContains s' this n = _deepContains s this n.
Proof.
  intros Hp Hh. unfold _deepContains, _deepContains_fuel, dom_fuel.
  rewrite Hp, Hh, (contains_ext s s') by done.
  by rewrite (walk_to_ext s s').
Qed.

Lemma focus_frame_refl s : focus_frame s s.
Proof. by repeat split. Qed.

Lemma focus_frame_trans s1 s2 s3 :
  focus_frame s1 s2 → focus_frame s2 s3 → focus_frame s1 s3.
Proof.
  intros (?&?&?&?&?) (?&?&?&?&?). unfold focus_frame.
  split_and!; congruence.
Qed.

Lemma focus_frame_update el f s : focus_frame s (update el f s).
Proof. by repeat split. Qed.

Lemma focus_frame_exit this s : focus_frame s (_exitModalState this s).
Proof.
  destruct (modal_frame_exit this s) as (_&?&?&_&?&?&?&_).
  by repeat split.
Qed.

Lemma focus_frame_flush_opening this s s' :
  _flushAnimation opening this s = Some s' → focus_frame s s'.
Proof.
  unfold _flushAnimation, listener, callback, _finishOpening. simpl.
  destruct (__openingHandler (ov s this)); intros [= <-];
    by repeat split.
Qed.

Lemma focus_frame_getActiveElement s s' :
  focus_frame s s' → _getActiveElement s' = _getActiveElement s.
Proof.
  intros (_&_&Ha&Hs&_). unfold _getActiveElement. by rewrite Ha, Hs.
Qed.

Lemma deep_ancestor_ext s s' n a :
  parentNode s' = parentNode s → host s' = host s →
  deep_ancestor s n a → deep_ancestor s' n a.
Proof.
  intros Hp Hh. induction 1 as [|n m a Hm _ IH]; [constructor|].
  apply (deep_ancestor_step s' n m); [|done].
  unfold parentNode_or_host in *. by rewrite Hp, Hh.
Qed.

(** What [restore_focus] schedules. *)
Lemma restore_focus_timers rank this s target :
  acyclic rank s → parentNode_or_host s document = None →
  restoreFocusOnClose (ov s this) = true →
  restoreFocusNode_or_stored (ov s this) = Some target →
  ∃ s', restore_focus this s = Some s' ∧
    parentNode s' = parentNode s ∧
    (∀ A (π : Overlay → A), ignores π set___restoreFocusNode →
       ∀ j, π (ov s' j) = π (ov s j)) ∧
    ((focus_inside s this ∧ timers s' = timers s ++ [target]) ∨
     (¬ focus_inside s this ∧ timers s' = timers s)).
Proof.
  intros Hacyclic Hroot Hon Htarget. unfold restore_focus.
  rewrite Htarget, Hon.
  destruct (_deepContains_spec rank s Hacyclic this (_getActiveElement s)
              Hroot) as (b&Hb&Hspec).
  assert (∃ inside : bool,
    (if decide (_getActiveElement s = body) then Some true
     else _deepContains s this (_getActiveElement s)) = Some inside ∧
    (inside = true ↔ focus_inside s this)) as (inside&->&Hinside).
  { unfold focus_inside. case_decide as Hbody.
    - exists true. split; [done|]. split; [by left|done].
    - exists b. split; [done|]. rewrite Hspec. split; [by right|].
      by intros [?|?]. }
  simpl. eexists. split; [done|]. split_and!.
  - by destruct inside.
  - intros A π Hπ j. rewrite ov_update_field by done.
    by destruct inside.
  - destruct inside.
    + left. split; [by apply Hinside|done].
    + right. split; [|done]. intros Hin. by apply Hinside in Hin.
Qed.

Lemma acyclic_ext rank s s' :
  parentNode s' = parentNode s → host s' = host s →
  acyclic rank s → acyclic rank s'.
Proof. intros Hp Hh. unfold acyclic. by rewrite Hp, Hh. Qed.

Lemma focus_inside_frame s s' this :
  focus_frame s s' → focus_inside s' this ↔ focus_inside s this.
Proof.
  intros Hf. pose proof Hf as (Hp&Hh&_). unfold focus_inside.
  rewrite (focus_frame_getActiveElement s s') by done.
  split; (intros [?|Hanc]; [by left|right]).
  - by apply (deep_ancestor_ext s' s).
  - by apply (deep_ancestor_ext s s').
Qed.

Lemma _finishClosing_succeeds this s ph p :
  _placeholder (ov s this) = Some ph → parentNode s !! ph = Some p →
  _finishClosing this s = Some (finished_closing this ph p s).
Proof.
  intros Hph Hp. unfold _finishClosing, _detachOverlay.
  rewrite Hph. simpl. rewrite Hp. simpl.
  assert (is_Some (<[this:=p]> (parentNode s) !! ph)) as [q ->].
  { rewrite lookup_insert. case_decide; eauto. }
  done.
Qed.

(** C7, as the code has it.  An overlay that has been attached closes,
    with [restoreFocusOnClose] set, on a document without cycles.  The
    node to refocus is [restoreFocusNode] when the page has set it, and
    otherwise the node that was recorded when the overlay opened.  The
    closing procedure returns, and it schedules a [focus()] on that node
    exactly when the focused element is [<body>] or lies inside the
    overlay, shadow boundaries crossed through [host]; otherwise it
    schedules nothing and the focus stays where it is. *)
Theorem focus_restored_on_close rank a this s target ph p :
  acyclic rank s → parentNode_or_host s document = None →
  _placeholder (ov s this) = Some ph → parentNode s !! ph = Some p →
  restoreFocusOnClose (ov s this) = true →
  (restoreFocusNode (ov s this) = Some target ∨
   restoreFocusNode (ov s this) = None ∧
   __restoreFocusNode (ov s this) = Some target) →
  ∃ s', _animatedClosing a this s = Some s' ∧
    ((focus_inside s this ∧ timers s' = timers s ++ [target]) ∨
     (¬ focus_inside s this ∧ timers s' = timers s)).
Proof.
  intros Hacyclic Hroot Hph Hp Hon Htarget.
  assert (restoreFocusNode_or_stored (ov s this) = Some target) as Hnode.
  { unfold restoreFocusNode_or_stored.
    by destruct Htarget as [->|[-> ->]]. }
  unfold _animatedClosing.
  assert (∃ s0,
    (if attr_opening (ov s this) then _flushAnimation opening this s
     else Some s) = Some s0 ∧ focus_frame s s0 ∧
    ∀ A (π : Overlay → A), ignores π set_attr_opening →
      ignores π set___openingHandler → ∀ j, π (ov s0 j) = π (ov s j))
    as (s0&->&Hf0&Hπ0).
  { destruct (attr_opening (ov s this)).
    - destruct (_flushAnimation_opening_Some this s) as (s1&Hs1&Hf1).
      exists s1. split_and!; [done|by apply (focus_frame_flush_opening this)|].
      intros A π H1 H2 j. by destruct (Hf1 _ π) as [(_&_&_&_&?) _].
    - exists s. split_and!; [done|apply focus_frame_refl|done]. }
  simpl. rewrite (Hπ0 _ _placeholder), Hph by done.
  set (s1 := _exitModalState this s0).
  assert (focus_frame s s1) as Hf1.
  { eapply focus_frame_trans; [exact Hf0|apply focus_frame_exit]. }
  assert (∀ A (π : Overlay → A), ignores π set_attr_opening →
    ignores π set___openingHandler → ignores π set_part_pointerEvents →
    ignores π set__previousDocumentPointerEvents →
    ∀ j, π (ov s1 j) = π (ov s j)) as Hπ1.
  { intros A π ? ? ? ? j. unfold s1.
    rewrite _exitModalState_field by done. by apply Hπ0. }
  pose proof Hf1 as (Hp1&Hh1&_&_&Ht1).
  destruct (restore_focus_timers rank this s1 target)
    as (s2&->&Hp2&Hπ2&Htimers).
  - by apply (acyclic_ext rank s).
  - unfold parentNode_or_host in *. by rewrite Hp1, Hh1.
  - by rewrite (Hπ1 _ restoreFocusOnClose).
  - by rewrite (Hπ1 _ restoreFocusNode_or_stored).
  - simpl. rewrite (focus_inside_frame s s1), Ht1 in Htimers by done.
    destruct a.
    + eexists. split; [done|]. exact Htimers.
    + erewrite (_finishClosing_succeeds _ _ ph p).
      * eexists. split; [done|]. exact Htimers.
      * change (_placeholder
                  (ov (update this (set_attr_closing true) s2) this)
                = Some ph).
        rewrite (ov_update_field _placeholder) by done.
        rewrite (Hπ2 _ _placeholder) by done.
        by rewrite (Hπ1 _ _placeholder).
      * change (parentNode s2 !! ph = Some p). by rewrite Hp2, Hp1.
Qed.

(** ** Dismissal by Escape *)

Lemma restore_focus_total rank this s :
  acyclic rank s → parentNode_or_host s document = None →
  ∃ s', restore_focus this s = Some s' ∧ dispatched s' = dispatched s.
Proof.
  intros Hacyclic Hroot. unfold restore_focus.
  destruct (restoreFocusNode_or_stored (ov s this)) as [n|]; [|by eauto].
  destruct (restoreFocusOnClose (ov s this)); [|by eauto].
  destruct (_deepContains_spec rank s Hacyclic this (_getActiveElement s)
              Hroot) as (b&Hb&_).
  case_decide; [|rewrite Hb]; simpl; eexists; (split; [done|]).
  - done.
  - by destruct b.
Qed.

(** The closing procedure of an attached overlay returns, and it
    dispatches [vaadin-overlay-closing] and nothing else. *)
Lemma _animatedClosing_total rank a this s ph p :
  acyclic rank s → parentNode_or_host s document = None →
  _placeholder (ov s this) = Some ph → parentNode s !! ph = Some p →
  ∃ s', _animatedClosing a this s = Some s' ∧
    dispatched s' = (this, vaadin_overlay_closing) :: dispatched s.
Proof.
  intros Hacyclic Hroot Hph Hp. unfold _animatedClosing.
  assert (∃ s0,
    (if attr_opening (ov s this) then _flushAnimation opening this s
     else Some s) = Some s0 ∧ focus_frame s s0 ∧
    dispatched s0 = dispatched s ∧
    _placeholder (ov s0 this) = Some ph) as (s0&->&Hf0&Hd0&Hph0).
  { destruct (attr_opening (ov s this)).
    - destruct (_flushAnimation_opening_Some this s) as (s1&Hs1&Hf1).
      exists s1. split_and!; [done|by apply (focus_frame_flush_opening this)| |].
      + revert Hs1. unfold _flushAnimation, listener, callback, _finishOpening.
        simpl. by destruct (__openingHandler (ov s this)); intros [= <-].
      + destruct (Hf1 _ _placeholder) as [(_&_&_&_&->) _]; done.
    - exists s. split_and!; [done|apply focus_frame_refl|done|done]. }
  simpl. rewrite Hph0.
  set (s1 := _exitModalState this s0).
  destruct (modal_frame_exit this s0) as (_&Hp1&Hh1&_&_&_&_&Hd1&_&_).
  fold s1 in Hp1, Hh1, Hd1.
  pose proof Hf0 as (Hp0&Hh0&_).
  destruct (restore_focus_total rank this s1) as (s2&Hs2&Hd2).
  { apply (acyclic_ext rank s); [congruence|congruence|done]. }
  { unfold parentNode_or_host in *. by rewrite Hp1, Hh1, Hp0, Hh0. }
  rewrite Hs2. simpl.
  destruct (restore_focus_frame _placeholder this s1 s2)
    as [(_&Hp2&_&_&Hph2) _]; [done|done|].
  assert (dispatched (closing_marked this s2)
          = (this, vaadin_overlay_closing) :: dispatched s) as Hd.
  { simpl. by rewrite Hd2, Hd1, Hd0. }
  destruct a.
  - eexists. split; [done|]. exact Hd.
  - erewrite (_finishClosing_succeeds _ _ ph p).
    + eexists. split; [done|]. exact Hd.
    + change (_placeholder
                (ov (update this (set_attr_closing true) s2) this)
              = Some ph).
      rewrite (ov_update_field _placeholder) by done.
      rewrite Hph2. unfold s1.
      by rewrite (_exitModalState_field _placeholder).
    + change (parentNode s2 !! ph = Some p). by rewrite Hp2, Hp1, Hp0.
Qed.

(** [this.opened = false] on an open, attached overlay. *)
Lemma set_opened_false rank a this s ph p :
  acyclic rank s → parentNode_or_host s document = None →
  _placeholder (ov s this) = Some ph → parentNode s !! ph = Some p →
  is_Some (overlays s !! this) → opened (ov s this) = true →
  ∃ s', set_opened_property a this false s = Some s' ∧
    opened (ov s' this) = false ∧
    dispatched s' = (this, vaadin_overlay_closing) :: dispatched s.
Proof.
  intros Hacyclic Hroot Hph Hp Hov Hopen.
  unfold set_opened_property. rewrite Hopen.
  rewrite decide_False by done. unfold _openedChanged.
  destruct (_animatedClosing_total rank a this
              (update this (set_opened false) s) ph p)
    as (s'&Hs'&Hd); try done.
  { by rewrite (ov_update_field _placeholder). }
  exists s'. split_and!; [done| |done].
  rewrite (_animatedClosing_field opened a this _ s' this Hs') by done.
  by rewrite ov_update_eq.
Qed.

Lemma ov_dispatchEvent el e s j : ov (dispatchEvent el e s) j = ov s j.
Proof. done. Qed.

Lemma _last_is_Some s this :
  _last s this = true → is_Some (overlays s !! this).
Proof.
  rewrite _last_true. intros Hlast.
  assert (this ∈ __attachedInstances s) as Hin.
  { apply list_elem_of_lookup. exists (pred (length (__attachedInstances s))).
    by rewrite <- last_lookup. }
  apply elem_of_attachedInstances in Hin as [_ Hatt].
  by apply attached_true in Hatt as [? _].
Qed.

(** C6, as the code has it.  An Escape keydown reaches the listener of an
    open modal overlay that is the last of the stack.  Whatever the path
    of the event and wherever the focus is, the listener returns and
    dispatches [vaadin-overlay-escape-press].  The overlay is closed
    exactly when no listener cancels that notification and no listener
    cancels the [vaadin-overlay-close] notification that [close()]
    dispatches next; a cancelled notification leaves nothing but the
    dispatched events behind. *)
Theorem escape_on_topmost_modal rank veto a this event s ph p :
  acyclic rank s → parentNode_or_host s document = None →
  _placeholder (ov s this) = Some ph → parentNode s !! ph = Some p →
  _last s this = true → modeless (ov s this) = false →
  opened (ov s this) = true → key event = "Escape"%string →
  ∃ s' log, _keydownListener veto a this event s = Some s' ∧
    dispatched s'
    = log ++ (this, vaadin_overlay_escape_press) :: dispatched s ∧
    (opened (ov s' this) = false ↔
     veto this vaadin_overlay_escape_press = false ∧
     veto this vaadin_overlay_close = false) ∧
    (veto this vaadin_overlay_escape_press = true →
     s' = dispatchEvent this vaadin_overlay_escape_press s) ∧
    (veto this vaadin_overlay_escape_press = false →
     veto this vaadin_overlay_close = true →
     s' = dispatchEvent this vaadin_overlay_close
            (dispatchEvent this vaadin_overlay_escape_press s)).
Proof.
  intros Hacyclic Hroot Hph Hp Hlast Hmodal Hopen Hkey.
  pose proof (_last_is_Some s this Hlast) as Hov.
  unfold _keydownListener. rewrite Hlast, Hmodal. simpl.
  rewrite decide_True by done.
  change (opened (ov (dispatchEvent this vaadin_overlay_escape_press s) this))
    with (opened (ov s this)).
  rewrite Hopen. simpl.
  destruct (veto this vaadin_overlay_escape_press) eqn:Hesc; simpl.
  { exists (dispatchEvent this vaadin_overlay_escape_press s), [].
    split_and!; try done.
    rewrite ov_dispatchEvent, Hopen. split; [done|by intros [? _]]. }
  unfold close.
  destruct (veto this vaadin_overlay_close) eqn:Hclose; simpl.
  { eexists _, [(this, vaadin_overlay_close)].
    split_and!; try done.
    rewrite !ov_dispatchEvent, Hopen. split; [done|by intros [_ ?]]. }
  destruct (set_opened_false rank a this
              (dispatchEvent this vaadin_overlay_close
                 (dispatchEvent this vaadin_overlay_escape_press s)) ph p)
    as (s'&Hs'&Hclosed&Hd); try done.
  exists s', [(this, vaadin_overlay_closing); (this, vaadin_overlay_close)].
  split_and!; try done.
Qed.

(** ** Reopening during the exit animation *)

(** The state in which the observer of [opened] calls
    [_animatedOpening]. *)
Lemma reopening_frame {T} (V : Overlay → T) this n s :
  ignores V set___restoreFocusNode → ignores V set_opened →
  frame V s (update this (set___restoreFocusNode n)
               (update this (set_opened true) s)).
Proof. intros. eapply frame_trans; by apply frame_update. Qed.

(** An overlay with the [closing] attribute is a child of [<body>] whose
    closing handler is pending, and the handler runs to completion. *)
Lemma closing_in_flight s this :
  stack_inv s → is_Some (overlays s !! this) →
  attr_closing (ov s this) = true →
  ∃ ph p, _placeholder (ov s this) = Some ph ∧
    parentNode s !! ph = Some p ∧ p ≠ body ∧ ph ≠ this ∧
    (ph < next_node s)%nat ∧
    this ∈ body_childNodes s ∧ parentNode s !! this = Some body ∧
    __closingHandler (ov s this) = true ∧
    listener closing this s
    = Some (update this (set___closingHandler false)
              (finished_closing this ph p s)).
Proof.
  intros Hinv [o Ho] Hc. rewrite (ov_lookup s this o) in * by done.
  destruct (inv_phase s Hinv this o Ho)
    as [(Hc'&_)|[(Hb&Hpar&_&ph&p&Hph&Hp&Hpb&Hnov&Hlt) Hh]];
    [congruence|].
  exists ph, p. split_and!; try done.
  - intros ->. by rewrite Ho in Hnov.
  - congruence.
  - unfold listener, callback.
    rewrite (_finishClosing_succeeds this s ph p); [done| |done].
    by rewrite (ov_lookup s this o).
Qed.

(** C8.  On a page reached by any sequence of operations, an overlay that
    still has the [closing] attribute is asked to open again.  Its exit
    is in flight: it is closed, a child of [<body>], and its closing
    handler is pending.  The assignment [opened = true] returns.  The
    pending handler runs first and to completion, on the state in which
    the observer was called: it leaves the overlay outside [<body>], back
    where its placeholder was, the placeholder gone from the document and
    the attribute and the handler cleared.  [_attachOverlay] runs on that
    state, and the call ends as an ordinary opening does.  Afterwards the
    overlay is open, the last child of [<body>] and there only once, with
    one new placeholder where the old one was. *)
Theorem reopen_flushes_exit ops s0 a this s :
  initial s0 → run ops s0 = Some s →
  is_Some (overlays s !! this) → attr_closing (ov s this) = true →
  let pre := update this (set___restoreFocusNode (Some (_getActiveElement s)))
               (update this (set_opened true) s) in
  ∃ ph p s1 s2 s',
    (opened (ov s this) = false ∧ this ∈ body_childNodes s ∧
     __closingHandler (ov s this) = true ∧
     _placeholder (ov s this) = Some ph ∧ parentNode s !! ph = Some p) ∧
    (listener closing this pre = Some s1 ∧
     (this ∉ body_childNodes s1) ∧ parentNode s1 !! this = Some p ∧
     parentNode s1 !! ph = None ∧ attr_closing (ov s1 this) = false ∧
     __closingHandler (ov s1 this) = false) ∧
    (_attachOverlay this s1 = Some s2 ∧
     set_opened_property a this true s = Some s' ∧
     s' = opening_tail a this s2) ∧
    (opened (ov s' this) = true ∧ attr_closing (ov s' this) = false ∧
     __closingHandler (ov s' this) = false ∧
     _placeholder (ov s' this) = Some (next_node s) ∧
     parentNode s' !! next_node s = Some p ∧ parentNode s' !! ph = None ∧
     parentNode s' !! this = Some body ∧
     NoDup (body_childNodes s') ∧ last (body_childNodes s') = Some this).
Proof.
  intros Hinit Hrun Hel Hc pre.
  destruct (reachable_inv s) as [Hinv Hop].
  { apply (run_reachable ops s0); [by apply reachable_initial|done]. }
  assert (opened (ov s this) = false) as Hclosed.
  { destruct (opened (ov s this)) eqn:Hopen; [|done].
    apply Hop in Hopen; [|done].
    apply elem_of_attached_children in Hopen as [_ Hatt].
    apply attached_true in Hatt as [_ ?]. congruence. }
  assert (∀ T (V : Overlay → T), ignores V set___restoreFocusNode →
            ignores V set_opened → frame V s pre) as Hf0
    by (intros; by apply reopening_frame).
  assert (stack_inv pre) as Hinv0
    by (apply (stack_inv_frame s); [by apply Hf0|done]).
  destruct (Hf0 _ attr_closing) as (Hb0&Hp0&Hn0&Hd0&Hc0); [done..|].
  assert (is_Some (overlays pre !! this)) as Hel0 by (by apply Hd0).
  destruct (closing_in_flight pre this)
    as (ph&p&Hph&Hp&Hpb&Hne&Hlt&Hbody&Hpar&Hh&Hlistener); try done.
  { by rewrite Hc0. }
  set (s1 := update this (set___closingHandler false)
               (finished_closing this ph p pre)) in *.
  assert (_flushAnimation closing this pre = Some s1) as Hflush.
  { unfold _flushAnimation. simpl. by rewrite Hh. }
  destruct (stack_inv_flush_closing pre s1 this)
    as (Hinv1&HA1&(Hc1&Hh1&Hnb1&_)&_); try done.
  assert (parentNode s1 = delete ph (<[this:=p]> (parentNode pre))) as Hp1
    by done.
  assert (parentNode s1 !! this = Some p) as Hthis1.
  { rewrite Hp1, lookup_delete_ne, lookup_insert_eq; done. }
  assert (parentNode s1 !! ph = None) as Hph1
    by (by rewrite Hp1, lookup_delete_eq).
  assert (is_Some (overlays s1 !! this)) as Hel1
    by (by rewrite (flush_closing_is_Some this pre s1)).
  set (s2 := bringToFront this (appended this p s1)).
  assert (_attachOverlay this s1 = Some s2) as Hattach
    by (by apply _attachOverlay_eq).
  assert (set_opened_property a this true s = Some (opening_tail a this s2))
    as Hset.
  { unfold set_opened_property. rewrite Hclosed.
    rewrite decide_False by done.
    change (_animatedOpening a this pre = Some (opening_tail a this s2)).
    unfold _animatedOpening.
    rewrite Hpar, bool_decide_eq_true_2, Hc0, Hc by done. simpl.
    rewrite Hflush. simpl. rewrite Hattach. simpl.
    unfold opening_tail. by destruct a. }
  destruct (open_stack s (opening_tail a this s2) this a)
    as (Hinv'&Hop'&HA'&_); try done.
  assert (this ∈ attached_children (opening_tail a this s2)) as Hin'.
  { rewrite HA', elem_of_app, list_elem_of_singleton. by right. }
  destruct (attached_phase _ this Hinv' Hin') as ((_&Hpar'&_)&Hc'&Hh').
  destruct (frame_opening_tail _placeholder a this s2)
    as (Hb2&Hp2&_&Hd2&Hph2); [done..|].
  assert (this ≠ next_node s1) as Hfresh.
  { pose proof (inv_fresh s1 Hinv1 this Hel1). lia. }
  assert (next_node s1 = next_node s) as Hn1 by done.
  exists ph, p, s1, s2, (opening_tail a this s2).
  split_and!; try done.
  - revert Hh. unfold pre.
    by rewrite !(ov_update_field __closingHandler).
  - revert Hph. unfold pre. by rewrite !(ov_update_field _placeholder).
  - apply Hop'; [|done]. apply Hd2. by apply bringToFront_is_Some,
      appended_is_Some.
  - rewrite Hph2. unfold s2.
    rewrite (bringToFront_field _placeholder) by done.
    by rewrite appended_placeholder, Hn1.
  - rewrite Hp2. change (parentNode (appended this p s1) !! next_node s
                         = Some p).
    rewrite appended_parentNode, <- Hn1.
    rewrite lookup_insert_ne, lookup_insert_eq; done.
  - rewrite Hp2. change (parentNode (appended this p s1) !! ph = None).
    rewrite appended_parentNode.
    rewrite !lookup_insert_ne; [done| |done].
    rewrite Hn1, <- Hn0. lia.
  - apply (inv_nodup _ Hinv').
  - rewrite Hb2. change (last (body_childNodes (appended this p s1))
                         = Some this).
    by rewrite appended_body, last_snoc.
Qed.

(** * The example page *)

Lemma page_initial : initial page.
Proof. decided. Qed.

Lemma two_open_ready :
  ready (after [Open 10%nat false; Open 11%nat false] page) 10%nat.
Proof.
  split.
  - intros el Hel Hne.
    assert (attached_children
              (after [Open 10%nat false; Open 11%nat false] page)
            = [10%nat; 11%nat]) as HA by evaluated.
    rewrite HA in Hel. apply elem_of_cons in Hel as [->|Hel]; [done|].
    apply list_elem_of_singleton in Hel as ->. vm_compute. eauto.
  - left. vm_compute. eauto.
Qed.

(** Two modal overlays are opened one after the other: the second is the
    last of the stack, above the first, and the only one for which
    [_last] holds. *)
Lemma topmost_greatest_witness :
  let ops := [Open 10%nat false; Open 11%nat false] in
  let s := after ops page in
  initial page ∧ numeric_sheets page ∧ run ops page = Some s ∧
  last (__attachedInstances s) = Some 11%nat ∧
  (∀ el, el ∈ __attachedInstances s → el ≠ 11%nat →
         stackingOrder s el < stackingOrder s 11%nat) ∧
  (∀ el, _last s el = true ↔ el = 11%nat).
Proof.
  intros ops s.
  assert (initial page) as Hinit by decided.
  assert (numeric_sheets page) as Hsheets by decided.
  assert (run ops page = Some s) as Hrun by evaluated.
  assert (last (__attachedInstances s) = Some 11%nat) as Hlast by evaluated.
  destruct (topmost_greatest s) as (_&Honly&_&_&Hreached).
  destruct (Hreached ops page Hinit Hsheets Hrun) as [_ Habove].
  split_and!; [exact Hinit|exact Hsheets|exact Hrun|exact Hlast|
               exact (Habove 11%nat Hlast)|exact (Honly 11%nat Hlast)].
Defined.

(** C1 as stated fails.  On a page with three overlays directly under
    [<body>], overlay 13 is opened and closed, then overlay 15, then
    overlay 13 again.  All three are children of [<body>] without the
    [closing] attribute, so all three are on the stack, in document
    order: overlay 13 with stacking order 201, overlay 14 with none, and
    last overlay 15 with 200.  [_last] holds for overlay 15, which does
    not have the greatest stacking order.  And on a page whose style
    sheets say [z-index: auto], two overlays opened one after the other
    are on the stack without any stacking order. *)
Lemma topmost_not_greatest :
  let s := after body_page_ops body_page in
  let s' := after [Open 10%nat false; Open 11%nat false] auto_page in
  (numeric_sheets body_page ∧ run body_page_ops body_page = Some s ∧
   __attachedInstances s = [13%nat; 14%nat; 15%nat] ∧
   _last s 15%nat = true ∧
   __zIndex (ov s 13%nat) = Some 201 ∧ __zIndex (ov s 14%nat) = None ∧
   __zIndex (ov s 15%nat) = Some 200 ∧
   ¬ stackingOrder s 13%nat < stackingOrder s 15%nat) ∧
  (initial auto_page ∧
   run [Open 10%nat false; Open 11%nat false] auto_page = Some s' ∧
   __attachedInstances s' = [10%nat; 11%nat] ∧ _last s' 11%nat = true ∧
   __zIndex (ov s' 10%nat) = None ∧ __zIndex (ov s' 11%nat) = None ∧
   ¬ stackingOrder s' 10%nat < stackingOrder s' 11%nat).
Proof.
  intros s s'. split.
  - split_and!; try evaluated; [decided|by vm_compute].
  - split_and!; try evaluated; [decided|by vm_compute].
Qed.

(** With overlays 10 and 11 open at stacking orders 200 and 201, bringing
    10 to the front gives it 202. *)
Lemma bringToFront_assigns_witness :
  let s := after [Open 10%nat false; Open 11%nat false] page in
  is_Some (overlays s !! 10%nat) ∧ ready s 10%nat ∧
  others s 10%nat = [11%nat] ∧
  __zIndex (ov (bringToFront 10%nat s) 10%nat) = Some 202.
Proof.
  intros s.
  assert (is_Some (overlays s !! 10%nat)) as Hel by (vm_compute; eauto).
  assert (others s 10%nat = [11%nat]) as Hothers by evaluated.
  destruct (bringToFront_assigns s 10%nat Hel) as (_&_&_&Hmax).
  destruct (Hmax two_open_ready) as (f&m&Hf&Hm&_&Hz).
  { rewrite Hothers. discriminate. }
  rewrite Hothers in Hf. injection Hf as <-.
  assert (__zIndex (ov s 11%nat) = Some 201) as Hm' by evaluated.
  assert (Some m = Some 201) as Hm201.
  { transitivity (__zIndex (ov s 11%nat)); [symmetry; exact Hm|exact Hm']. }
  injection Hm201 as ->.
  split_and!; [exact Hel|apply two_open_ready|exact Hothers|exact Hz].
Defined.

(** C2 as stated fails.  On the page with three overlays directly under
    [<body>], after overlay 13 has been opened and closed, then overlay
    15, then overlay 13 again, the stack is 13, 14, 15 with stacking
    orders 201, none and 200.  [bringToFront] on overlay 14 looks at the
    last of the others, overlay 15, and assigns 201, which is not the
    maximum over the others plus one (202).  And after overlay 13 alone
    has been opened and closed, [bringToFront] on overlay 15 finds
    overlay 14, which has no stacking order, last of the others, and
    assigns the overlay its own default 200, although overlay 13 is
    attached at 200. *)
Lemma bringToFront_not_maximum :
  let s := after body_page_ops body_page in
  let s' := after [Open 13%nat false; Close 13%nat false] body_page in
  (run body_page_ops body_page = Some s ∧
   others s 14%nat = [13%nat; 15%nat] ∧
   __zIndex (ov s 13%nat) = Some 201 ∧ __zIndex (ov s 15%nat) = Some 200 ∧
   __zIndex (ov (bringToFront 14%nat s) 14%nat) = Some 201) ∧
  (run [Open 13%nat false; Close 13%nat false] body_page = Some s' ∧
   others s' 15%nat = [13%nat; 14%nat] ∧
   __zIndex (ov s' 13%nat) = Some 200 ∧ __zIndex (ov s' 14%nat) = None ∧
   sheet_zIndex (ov s' 15%nat) = Some 200 ∧
   __zIndex (ov (bringToFront 15%nat s') 15%nat) = Some 200).
Proof. intros s s'. split; split_and!; evaluated. Qed.

(** And bringing it to the front once more leaves it at that value. *)
Lemma bringToFront_idempotent_witness :
  let s := after [Open 10%nat false; Open 11%nat false] page in
  let s1 := bringToFront 10%nat s in
  let s2 := bringToFront 10%nat s1 in
  __zIndex (ov s2 10%nat) = __zIndex (ov s1 10%nat) ∧
  style_zIndex (ov s2 10%nat) = style_zIndex (ov s1 10%nat).
Proof.
  intros s. apply bringToFront_idempotent; [|apply two_open_ready].
  vm_compute. eauto.
Defined.

(** C9 as stated fails.  In the state of the page with three overlays
    directly under [<body>] in which the stack is 13, 14, 15 with stacking
    orders 201, none and 200, [bringToFront] on overlay 14 assigns 201;
    with its new stacking order overlay 14 is sorted behind overlay 13,
    and a second call, right after the first, assigns 202. *)
Lemma bringToFront_not_idempotent :
  let s := after body_page_ops body_page in
  let s1 := bringToFront 14%nat s in
  let s2 := bringToFront 14%nat s1 in
  run body_page_ops body_page = Some s ∧
  __attachedInstances s = [13%nat; 14%nat; 15%nat] ∧
  __zIndex (ov s1 14%nat) = Some 201 ∧
  __attachedInstances s1 = [15%nat; 13%nat; 14%nat] ∧
  __zIndex (ov s2 14%nat) = Some 202 ∧
  __zIndex (ov s2 14%nat) ≠ __zIndex (ov s1 14%nat).
Proof. intros s s1 s2. split_and!; try evaluated. by vm_compute. Qed.


(** C3 as stated fails.  Overlays 10 and 11 are opened, both modal, and
    the body is disabled; then 10, which recorded the previous value, is
    closed first.  Overlay 11 is still open, modal and the last of the
    stack, and the body has its previous value back. *)
Lemma body_restored_under_open_modal :
  let opens := [Open 10%nat false; Open 11%nat false] in
  let s := after (opens ++ [Close 10%nat false]) page in
  initial page ∧
  body_pointerEvents (after opens page) = "none"%string ∧
  run (opens ++ [Close 10%nat false]) page = Some s ∧
  opened (ov s 11%nat) = true ∧ modeless (ov s 11%nat) = false ∧
  _last s 11%nat = true ∧
  body_pointerEvents s = body_pointerEvents page ∧
  body_pointerEvents s ≠ "none"%string.
Proof.
  intros opens s. split_and!; try evaluated; [decided|].
  by vm_compute.
Qed.

(** Escape on overlay 10, open and alone on the stack, with no listener
    cancelling anything: the notification is dispatched and the overlay
    is closed. *)
Lemma escape_on_topmost_modal_witness :
  let s := after [Open 10%nat false] page in
  ∃ s', _keydownListener no_veto false 10%nat escape s = Some s' ∧
    (10%nat, vaadin_overlay_escape_press) ∈ dispatched s' ∧
    opened (ov s' 10%nat) = false.
Proof.
  intros s.
  destruct (escape_on_topmost_modal node_rank no_veto false 10%nat escape s
              30%nat 5%nat) as (s'&log&Hs'&Hd&Hclosed&_);
    [decided|evaluated..|].
  exists s'. split_and!; [done| |by apply Hclosed].
  rewrite Hd. apply elem_of_app. right. left.
Defined.

(** C6 as stated fails.  Escape on overlay 10, open, modal and alone on
    the stack: no listener cancels [vaadin-overlay-escape-press], a
    listener cancels the [vaadin-overlay-close] that [close()] dispatches,
    and the overlay stays open. *)
Lemma escape_not_cancelled_close_cancelled :
  let s := after [Open 10%nat false] page in
  _last s 10%nat = true ∧ modeless (ov s 10%nat) = false ∧
  opened (ov s 10%nat) = true ∧
  veto_close 10%nat vaadin_overlay_escape_press = false ∧
  ∃ s', _keydownListener veto_close false 10%nat escape s = Some s' ∧
    dispatched s' = [(10%nat, vaadin_overlay_close);
                     (10%nat, vaadin_overlay_escape_press)] ∧
    opened (ov s' 10%nat) = true.
Proof.
  intros s. split_and!; try evaluated.
  exists (dispatchEvent 10%nat vaadin_overlay_close
            (dispatchEvent 10%nat vaadin_overlay_escape_press s)).
  split_and!; evaluated.
Qed.

(** Overlay 10 was opened with the focus on the first button; the focus
    has moved to the button in its shadow root; on close a [focus()] on
    the first button is scheduled. *)
Lemma focus_restored_on_close_witness :
  let s := focus_moved 10%nat [18%nat] (after [Open 10%nat false] page) in
  _getActiveElement s = 18%nat ∧
  __restoreFocusNode (ov s 10%nat) = Some 6%nat ∧
  ∃ s', _animatedClosing false 10%nat s = Some s' ∧ timers s' = [6%nat].
Proof.
  intros s. split_and!; try evaluated.
  destruct (focus_restored_on_close node_rank false 10%nat s 6%nat
              30%nat 5%nat) as (s'&Hs'&[[_ Ht]|[Hout _]]);
    [decided|evaluated..| | |].
  - right. split; evaluated.
  - exists s'. split; [done|]. rewrite Ht. evaluated.
  - destruct Hout. right.
    apply (deep_ancestor_step s _ 17%nat); [evaluated|].
    apply (deep_ancestor_step s _ 16%nat); [evaluated|].
    apply (deep_ancestor_step s _ 10%nat); [evaluated|].
    apply deep_ancestor_refl.
Defined.

(** C7 as stated fails.  Overlay 11 was opened with the focus on the
    first button, which is the node recorded; the page has set its
    [restoreFocusNode] to the second button.  It is closed with the focus
    on [<body>]: the [focus()] scheduled is on the second button, and none
    is scheduled on the node recorded at open time. *)
Lemma focus_restored_to_configured_node :
  let s := focus_moved body [] (after [Open 11%nat false] page) in
  restoreFocusOnClose (ov s 11%nat) = true ∧
  __restoreFocusNode (ov s 11%nat) = Some 6%nat ∧
  restoreFocusNode (ov s 11%nat) = Some 7%nat ∧
  _getActiveElement s = body ∧
  ∃ s', step (Close 11%nat false) s = Some s' ∧
    timers s' = [7%nat] ∧ (6%nat ∉ timers s').
Proof.
  intros s. split_and!; try evaluated.
  exists (after [Close 11%nat false] s). split_and!; try evaluated.
  assert (timers (after [Close 11%nat false] s) = [7%nat]) as -> by evaluated.
  intros Hin%list_elem_of_singleton. discriminate Hin.
Qed.

(** Overlay 10 is opened with an animation, the animation ends, and it is
    closed with an animation that has not ended when it is opened again:
    the call returns, and the overlay is open, the last child of
    [<body>], with a new placeholder. *)
Lemma reopen_flushes_exit_witness :
  let ops := [Open 10%nat true; AnimationEnd 10%nat; Close 10%nat true] in
  let s := after ops page in
  attr_closing (ov s 10%nat) = true ∧
  ∃ s', set_opened_property true 10%nat true s = Some s' ∧
    opened (ov s' 10%nat) = true ∧ attr_closing (ov s' 10%nat) = false ∧
    _placeholder (ov s' 10%nat) = Some 31%nat ∧
    NoDup (body_childNodes s') ∧
    last (body_childNodes s') = Some 10%nat.
Proof.
  intros ops s. split; [evaluated|].
  destruct (reopen_flushes_exit ops page true 10%nat s)
    as (ph&p&s1&s2&s'&_&_&(_&Hset&_)&(Ho&Hc&_&Hph&_&_&_&Hnd&Hl));
    [decided|evaluated|vm_compute; eauto|evaluated|].
  exists s'. split_and!; try done.
Defined.

(** Overlays 10 and 11, modal, and 12, modeless, are open, and 11 leaves
    the modal state from the middle of the stack: the walk re-enables 12
    and then 10, the topmost modal overlay among those that remain. *)
Lemma exitModalState_walk_witness :
  let s := after [Open 10%nat false; Open 11%nat false; Open 12%nat false]
             page in
  let s' := _exitModalState 11%nat s in
  reverse (others s 11%nat) = [12%nat; 10%nat] ∧
  part_pointerEvents (ov s 10%nat) = Some "none"%string ∧
  s' = reenable [12%nat; 10%nat] (restore_body 11%nat s) ∧
  part_pointerEvents (ov s' 12%nat) = None ∧
  part_pointerEvents (ov s' 10%nat) = None.
Proof.
  intros s s'.
  pose proof (exitModalState_walk 11%nat s) as Hwalk. cbv zeta in Hwalk.
  destruct Hwalk as [Hmodal _].
  destruct (Hmodal [12%nat] 10%nat []) as (Hs'&Hin&_).
  - evaluated.
  - constructor; [evaluated|constructor].
  - evaluated.
  - split_and!; [evaluated|evaluated|exact Hs'| |].
    + apply Hin. apply elem_of_app. left. left.
    + apply Hin. apply elem_of_app. right. left.
Defined.

(** Overlay 10 is open and holds the record.  Opening 11 finds the body
    disabled and records nothing; when 11 leaves the modal state the body
    stays as it is; when 10 does, the body gets its previous value back. *)
Lemma body_pointerEvents_owner_witness :
  let s := after [Open 10%nat false] page in
  let s' := after [Open 10%nat false; Open 11%nat false] page in
  pe_step 11%nat s s' ∧
  _previousDocumentPointerEvents (ov s' 11%nat) = None ∧
  pe_same s' (_exitModalState 11%nat s') ∧
  body_pointerEvents (_exitModalState 10%nat s') = body_pointerEvents page.
Proof.
  intros s s'.
  destruct body_pointerEvents_owner as (Hstep&_&Hexit&Hback).
  split_and!.
  - apply (Hstep (Open 11%nat false)). evaluated.
  - evaluated.
  - apply Hexit. evaluated.
  - destruct (Hback 10%nat s' (body_pointerEvents page)) as [Hbody _];
      [evaluated|exact Hbody].
Defined.

(** * Further properties of the class *)

(** ** The stack and the life cycle of an overlay *)

Lemma StronglySorted_strict (k : Node → Z) (l : list Node) :
  StronglySorted (by_key k) l → NoDup l →
  (∀ x y, x ∈ l → y ∈ l → k x = k y → x = y) →
  StronglySorted (λ x y, k x < k y) l.
Proof.
  induction 1 as [|x l Hsorted IH Hall]; intros Hnd Hinj; [constructor|].
  apply NoDup_cons in Hnd as [Hx Hnd]. constructor.
  - apply IH; [done|]. intros y z Hy Hz. apply Hinj; by right.
  - rewrite Forall_forall in Hall |- *. intros y Hy.
    specialize (Hall y Hy). unfold by_key in Hall.
    destruct (decide (k x = k y)) as [Heq|Hne]; [|lia].
    apply Hinj in Heq; [by subst|by left|by right].
Qed.

Lemma reachable_run ops s0 s :
  initial s0 → run ops s0 = Some s → stack_inv s ∧ opened_inv s.
Proof.
  intros Hinit Hrun. apply reachable_inv.
  apply (run_reachable ops s0); [by apply reachable_initial|done].
Qed.

(** X1.  Take a page on which no overlay has been opened, whose overlays
    are declared outside the child list of [<body>] and are given a
    number for their z-index by the style sheets.  After any sequence of
    operations on it, no instance occurs twice on the stack, every
    instance on it has a number for [__zIndex], and these numbers
    increase strictly from the first instance to the last: no two
    instances of the stack share a stacking order. *)
Theorem stack_strictly_ascending ops s0 s :
  initial s0 → numeric_sheets s0 → run ops s0 = Some s →
  NoDup (__attachedInstances s) ∧
  (∀ el, el ∈ __attachedInstances s → is_Some (__zIndex (ov s el))) ∧
  StronglySorted (λ x y, stackingOrder s x < stackingOrder s y)
    (__attachedInstances s).
Proof.
  intros Hinit Hsheets Hrun.
  destruct (reachable_run ops s0 s Hinit Hrun) as [Hinv _].
  pose proof (run_numeric_sheets ops s0 s Hrun Hsheets) as Hns.
  pose proof (stack_inv_numeric s Hinv Hns) as Hnum.
  pose proof (NoDup_attachedInstances s (inv_nodup s Hinv)) as Hnd.
  split_and!; [done|done|].
  apply StronglySorted_strict; [by apply attachedInstances_sorted|done|].
  intros x y Hx Hy Heq. apply (inv_distinct s Hinv Hns).
  - unfold __attachedInstances in Hx. by rewrite elem_of_sort in Hx.
  - unfold __attachedInstances in Hy. by rewrite elem_of_sort in Hy.
  - destruct (Hnum x Hx) as [zx Hzx], (Hnum y Hy) as [zy Hzy].
    unfold stackingOrder in Heq. rewrite Hzx, Hzy in *. simpl in Heq.
    by subst.
Qed.

(** X2.  Take a page on which no overlay has been opened and whose
    overlays are declared outside the child list of [<body>].  After any
    sequence of operations on it, every overlay of the page is in one of
    three phases.  Open: [opened] is true, it is on the stack, a
    child of [<body>], without the [closing] attribute.  Closing: [opened]
    is false, it is still a child of [<body>] but no longer on the stack,
    it has the [closing] attribute and the handler of the closing
    animation is pending.  Closed: [opened] is false, it is not a child of
    [<body>], and it has neither the attribute nor a pending handler. *)
Theorem overlay_phases ops s0 s el :
  initial s0 → run ops s0 = Some s → is_Some (overlays s !! el) →
  (opened (ov s el) = true ∧ el ∈ __attachedInstances s ∧
   parentNode s !! el = Some body ∧ attr_closing (ov s el) = false ∧
   __closingHandler (ov s el) = false) ∨
  (opened (ov s el) = false ∧ (el ∉ __attachedInstances s) ∧
   el ∈ body_childNodes s ∧ attr_closing (ov s el) = true ∧
   __closingHandler (ov s el) = true) ∨
  (opened (ov s el) = false ∧ (el ∉ body_childNodes s) ∧
   attr_closing (ov s el) = false ∧ __closingHandler (ov s el) = false ∧
   ∃ p, parentNode s !! el = Some p ∧ p ≠ body).
Proof.
  intros Hinit Hrun Hel.
  destruct (reachable_run ops s0 s Hinit Hrun) as [Hinv Hop].
  assert (∀ j, j ∈ __attachedInstances s ↔ j ∈ attached_children s) as Hst.
  { intros j. unfold __attachedInstances. by rewrite elem_of_sort. }
  destruct (decide (el ∈ attached_children s)) as [Hin|Hnin].
  - left. destruct (attached_phase s el Hinv Hin) as ((_&Hp&_)&Hc&Hh).
    split_and!; try done; [by apply Hop|by apply Hst].
  - right.
    assert (opened (ov s el) = false) as Hclosed.
    { destruct (opened (ov s el)) eqn:Ho; [|done]. by apply Hop in Ho. }
    destruct (not_attached_phase s el Hinv Hel Hnin)
      as [(Hc&Hh&Hnb&Hp)|((Hb&_)&Hc&Hh)].
    + right. by split_and!.
    + left. split_and!; try done. by rewrite Hst.
Qed.

(** Opening never fails on a state that satisfies the invariant. *)
Lemma open_total s this a :
  stack_inv s → opened_inv s → is_Some (overlays s !! this) →
  opened (ov s this) = false →
  is_Some (set_opened_property a this true s).
Proof.
  intros Hinv Hop Hel Hclosed.
  unfold set_opened_property. rewrite Hclosed, decide_False by done.
  set (pre := update this (set___restoreFocusNode
                             (Some (_getActiveElement s)))
                (update this (set_opened true) s)).
  change (is_Some (_animatedOpening a this pre)).
  assert (∀ T (V : Overlay → T), ignores V set___restoreFocusNode →
            ignores V set_opened → frame V s pre) as Hf0
    by (intros; by apply reopening_frame).
  assert (stack_inv pre) as Hinv0
    by (apply (stack_inv_frame s); [by apply Hf0|done]).
  destruct (Hf0 _ attr_closing) as (Hb0&Hp0&Hn0&Hd0&Hc0); [done..|].
  assert (is_Some (overlays pre !! this)) as Hel0 by (by apply Hd0).
  assert (∃ s1 p, (if bool_decide (parentNode pre !! this = Some body)
                      && attr_closing (ov pre this)
                   then _flushAnimation closing this pre else Some pre)
                  = Some s1 ∧ parentNode s1 !! this = Some p)
    as (s1&p&Hflush&Hp).
  { destruct Hel0 as [o Ho].
    destruct (inv_phase pre Hinv0 this o Ho)
      as [(Hc&_&_&p&Hp&Hpb)|[(_&Hpar&_) Hh]];
      rewrite <- (ov_lookup pre this o Ho) in *.
    - exists pre, p. rewrite Hc, andb_false_r. done.
    - rewrite Hpar, bool_decide_eq_true_2 by done. simpl.
      destruct (attr_closing (ov pre this)) eqn:Hc.
      + destruct (closing_in_flight pre this)
          as (ph&q&_&_&_&Hne&_&_&_&Hh'&Hl); [done|eauto|done|].
        eexists _, q. unfold _flushAnimation. simpl. rewrite Hh'.
        split; [exact Hl|].
        change (delete ph (<[this:=q]> (parentNode pre)) !! this = Some q).
        rewrite lookup_delete_ne, lookup_insert_eq; done.
      + by exists pre, body. }
  unfold _animatedOpening. rewrite Hflush. simpl.
  rewrite (_attachOverlay_eq this p s1 Hp). simpl. by destruct a.
Qed.

(** X3.  Take a page on which no overlay has been opened, whose overlays
    are declared outside the child list of [<body>] and are given a
    number for their z-index by the style sheets.  After any sequence of
    operations on it, opening an overlay that is not open returns,
    whether or not its closing animation is still running.  The overlay
    is appended to the stack: it becomes the last instance, with a
    stacking order strictly greater than that of every instance that was
    on the stack, and the instances that were on the stack keep their
    order and their stacking orders. *)
Theorem open_puts_on_top ops s0 s a this :
  initial s0 → numeric_sheets s0 → run ops s0 = Some s →
  is_Some (overlays s !! this) → opened (ov s this) = false →
  ∃ s', set_opened_property a this true s = Some s' ∧
    opened (ov s' this) = true ∧
    __attachedInstances s' = __attachedInstances s ++ [this] ∧
    _last s' this = true ∧
    ∀ j, j ∈ __attachedInstances s →
      stackingOrder s' j = stackingOrder s j ∧
      stackingOrder s j < stackingOrder s' this.
Proof.
  intros Hinit Hsheets Hrun Hel Hclosed.
  destruct (reachable_run ops s0 s Hinit Hrun) as [Hinv Hop].
  pose proof (run_numeric_sheets ops s0 s Hrun Hsheets) as Hns.
  destruct (open_total s this a Hinv Hop Hel Hclosed) as [s' Hs'].
  destruct (open_stack s s' this a Hinv Hop Hel Hclosed Hs')
    as (Hinv'&Hop'&HA&Hz&Hnew).
  destruct (Hnew Hns) as (z'&Hz'&Habove).
  assert (this ∉ attached_children s) as Hnin.
  { intros Hin. apply Hop in Hin; [congruence|done]. }
  assert (__attachedInstances s' = __attachedInstances s ++ [this]) as Hst.
  { apply (attachedInstances_pushed s s' this z'); try done.
    by apply stack_inv_numeric. }
  exists s'. split_and!; try done.
  - apply Hop'.
    + assert (this ∈ attached_children s') as Hin
        by (rewrite HA, elem_of_app, list_elem_of_singleton; by right).
      by apply attached_children_overlay in Hin as (_&?&_).
    + rewrite HA, elem_of_app, list_elem_of_singleton. by right.
  - apply _last_true. by rewrite Hst, last_snoc.
  - intros j Hj. unfold __attachedInstances in Hj.
    rewrite elem_of_sort in Hj.
    assert (j ≠ this) as Hne by (by intros ->).
    split.
    + unfold stackingOrder. by rewrite Hz.
    + unfold stackingOrder at 2. rewrite Hz'. simpl. by apply Habove.
Qed.

Lemma sorted_greatest_last (k : Node → Z) (l : list Node) x :
  StronglySorted (by_key k) l → NoDup l → x ∈ l →
  (∀ y, y ∈ l → y ≠ x → k y < k x) →
  l = filter (λ o, o ≠ x) l ++ [x].
Proof.
  induction 1 as [|a l Hsorted IH Hall]; intros Hnd Hx Hmax.
  { by apply elem_of_nil in Hx. }
  apply NoDup_cons in Hnd as [Ha Hnd]. rewrite filter_cons.
  destruct (decide (a = x)) as [->|Hne].
  - rewrite decide_False by (by intros ?).
    destruct l as [|y l]; [done|].
    assert (y ≠ x) as Hy by (intros ->; apply Ha; by left).
    apply Forall_cons in Hall as [Hxy _]. unfold by_key in Hxy.
    assert (k y < k x); [|lia].
    apply Hmax; [right; by left|done].
  - rewrite decide_True by done. simpl. f_equal.
    apply IH; [done| |].
    + by apply elem_of_cons in Hx as [->|Hx].
    + intros y Hy. apply Hmax. by right.
Qed.

(** X4.  Take a page on which no overlay has been opened, whose overlays
    are declared outside the child list of [<body>] and are given a
    number for their z-index by the style sheets.  After any sequence of
    operations on it, [bringToFront] on an instance of the stack makes it
    the last one, that is, the one that outside clicks and Escape are
    routed to, and leaves the other instances in the order they were
    in. *)
Theorem bringToFront_makes_last ops s0 s this :
  initial s0 → numeric_sheets s0 → run ops s0 = Some s →
  this ∈ __attachedInstances s →
  __attachedInstances (bringToFront this s) = others s this ++ [this] ∧
  _last (bringToFront this s) this = true.
Proof.
  intros Hinit Hsheets Hrun Hin.
  destruct (reachable_run ops s0 s Hinit Hrun) as [Hinv Hop].
  pose proof (run_numeric_sheets ops s0 s Hrun Hsheets) as Hns.
  pose proof (stack_inv_numeric s Hinv Hns) as Hnum.
  pose proof (numeric_ready s this Hnum) as Hready.
  unfold __attachedInstances in Hin. rewrite elem_of_sort in Hin.
  pose proof Hin as (_&Hel&_)%attached_children_overlay.
  destruct (bringToFront_stack s this Hinv Hop Hel) as (Hinv'&_&HA).
  assert (numeric_sheets (bringToFront this s)) as Hns'.
  { apply (numeric_sheets_ext s); [|by intros; apply bringToFront_field|done].
    intros j. apply bringToFront_is_Some. }
  set (s' := bringToFront this s) in *.
  pose proof (stack_inv_numeric s' Hinv' Hns') as Hnum'.
  assert (__attachedInstances s' = others s' this ++ [this]) as Hst.
  { apply (sorted_greatest_last (stackingOrder s')).
    - by apply attachedInstances_sorted.
    - apply NoDup_attachedInstances, (inv_nodup s' Hinv').
    - unfold __attachedInstances. by rewrite elem_of_sort, HA.
    - intros j Hj Hne. unfold __attachedInstances in Hj.
      rewrite elem_of_sort, HA in Hj.
      destruct (numeric_attached_children s j Hnum Hj) as [z Hz].
      destruct (bringToFront_above s this j z) as (z'&Hz'&Hlt); try done.
      unfold stackingOrder. fold s' in Hz'. rewrite Hz'.
      unfold s'. rewrite bringToFront_other, Hz by done. done. }
  unfold s' in Hst at 2. rewrite others_bringToFront in Hst by done.
  split; [done|]. apply _last_true. by rewrite Hst, last_snoc.
Qed.

(** ** Dismissal *)

(** [close()] on an open, attached overlay. *)
Lemma close_outcome rank veto a this s ph p :
  acyclic rank s → parentNode_or_host s document = None →
  _placeholder (ov s this) = Some ph → parentNode s !! ph = Some p →
  is_Some (overlays s !! this) → opened (ov s this) = true →
  ∃ s' log, close veto a this s = Some s' ∧
    dispatched s' = log ++ dispatched s ∧
    (opened (ov s' this) = false ↔ veto this vaadin_overlay_close = false) ∧
    (veto this vaadin_overlay_close = true →
     s' = dispatchEvent this vaadin_overlay_close s).
Proof.
  intros Hacyclic Hroot Hph Hp Hel Hopen. unfold close.
  destruct (veto this vaadin_overlay_close) eqn:Hveto; simpl.
  - eexists _, [(this, vaadin_overlay_close)]. split_and!; try done.
    rewrite ov_dispatchEvent, Hopen. done.
  - destruct (set_opened_false rank a this
                (dispatchEvent this vaadin_overlay_close s) ph p)
      as (s'&Hs'&Hclosed&Hd); try done.
    exists s', [(this, vaadin_overlay_closing); (this, vaadin_overlay_close)].
    split_and!; try done.
Qed.

(** X5.  A click reaches the listener of an open overlay that is the last
    of the stack; its path misses the overlay part and neither the
    mousedown nor the mouseup before it started inside.  The listener
    returns and dispatches [vaadin-overlay-outside-click].  The overlay is
    closed exactly when no listener cancels that notification and no
    listener cancels the [vaadin-overlay-close] notification dispatched
    next; a cancelled notification leaves nothing behind but the
    dispatched events. *)
Theorem outside_click_on_last rank veto a this event s ph p :
  acyclic rank s → parentNode_or_host s document = None →
  _placeholder (ov s this) = Some ph → parentNode s !! ph = Some p →
  includes (composedPath event) (part_overlay (ov s this)) = false →
  _mouseDownInside (ov s this) = false →
  _mouseUpInside (ov s this) = false →
  _last s this = true → opened (ov s this) = true →
  ∃ s' log, _outsideClickListener veto a this event s = Some s' ∧
    dispatched s'
    = log ++ (this, vaadin_overlay_outside_click) :: dispatched s ∧
    (opened (ov s' this) = false ↔
     veto this vaadin_overlay_outside_click = false ∧
     veto this vaadin_overlay_close = false) ∧
    (veto this vaadin_overlay_outside_click = true →
     s' = dispatchEvent this vaadin_overlay_outside_click s) ∧
    (veto this vaadin_overlay_outside_click = false →
     veto this vaadin_overlay_close = true →
     s' = dispatchEvent this vaadin_overlay_close
            (dispatchEvent this vaadin_overlay_outside_click s)).
Proof.
  intros Hacyclic Hroot Hph Hp Hpath Hdown Hup Hlast Hopen.
  pose proof (_last_is_Some s this Hlast) as Hel.
  unfold _outsideClickListener. rewrite Hpath, Hdown, Hup, Hlast. simpl.
  rewrite ov_dispatchEvent, Hopen. simpl.
  destruct (veto this vaadin_overlay_outside_click) eqn:Hveto; simpl.
  { eexists _, []. split_and!; try done.
    rewrite ov_dispatchEvent, Hopen. split; [done|by intros [? _]]. }
  destruct (close_outcome rank veto a this
              (dispatchEvent this vaadin_overlay_outside_click s) ph p)
    as (s'&log&Hs'&Hd&Hclosed&Hkept); try done.
  exists s', log. split_and!; try done.
  rewrite Hclosed. tauto.
Qed.

(** X6.  An Escape keydown reaches the listener of an open modeless
    overlay that is the last of the stack.  A key other than Escape does
    nothing.  Escape with the overlay part off the path of the event (the
    focus is outside) does nothing either: nothing is dispatched and the
    state is as it was.  Escape with the part on the path dispatches
    [vaadin-overlay-escape-press], and the overlay is closed exactly when
    neither that notification nor [vaadin-overlay-close] is cancelled. *)
Theorem escape_on_modeless rank veto a this event s ph p :
  acyclic rank s → parentNode_or_host s document = None →
  _placeholder (ov s this) = Some ph → parentNode s !! ph = Some p →
  _last s this = true → modeless (ov s this) = true →
  opened (ov s this) = true →
  (key event ≠ "Escape"%string →
   _keydownListener veto a this event s = Some s) ∧
  (includes (composedPath event) (part_overlay (ov s this)) = false →
   _keydownListener veto a this event s = Some s) ∧
  (key event = "Escape"%string →
   includes (composedPath event) (part_overlay (ov s this)) = true →
   ∃ s' log, _keydownListener veto a this event s = Some s' ∧
     dispatched s'
     = log ++ (this, vaadin_overlay_escape_press) :: dispatched s ∧
     (opened (ov s' this) = false ↔
      veto this vaadin_overlay_escape_press = false ∧
      veto this vaadin_overlay_close = false)).
Proof.
  intros Hacyclic Hroot Hph Hp Hlast Hmodeless Hopen.
  pose proof (_last_is_Some s this Hlast) as Hel.
  unfold _keydownListener. rewrite Hlast, Hmodeless. simpl. split_and!.
  - intros Hkey. rewrite decide_False by done. by destruct (negb _).
  - by intros ->.
  - intros Hkey ->. simpl. rewrite decide_True by done.
    rewrite ov_dispatchEvent, Hopen. simpl.
    destruct (veto this vaadin_overlay_escape_press) eqn:Hveto; simpl.
    { eexists _, []. split_and!; try done.
      rewrite ov_dispatchEvent, Hopen. split; [done|by intros [? _]]. }
    destruct (close_outcome rank veto a this
                (dispatchEvent this vaadin_overlay_escape_press s) ph p)
      as (s'&log&Hs'&Hd&Hclosed&_); try done.
    exists s', log. split_and!; try done. rewrite Hclosed. tauto.
Qed.

(** The fields [close()] leaves alone. *)
(** X7.  A gesture that starts or ends inside the overlay part (the
    mousedown or the mouseup has the part on its path) and whose click
    lands outside does not dismiss the overlay: the click listener
    dispatches nothing, leaves [opened] as it was, and clears both
    flags. *)
Theorem drag_across_the_edge veto a this down up click s :
  is_Some (overlays s !! this) →
  includes (composedPath down) (part_overlay (ov s this)) = true ∨
  includes (composedPath up) (part_overlay (ov s this)) = true →
  let s1 := _mouseUpListener this up (_mouseDownListener this down s) in
  ∃ s2, _outsideClickListener veto a this click s1 = Some s2 ∧
    dispatched s2 = dispatched s ∧
    opened (ov s2 this) = opened (ov s this) ∧
    _mouseDownInside (ov s2 this) = false ∧
    _mouseUpInside (ov s2 this) = false.
Proof.
  intros Hel Hinside s1.
  assert (is_Some (overlays (_mouseDownListener this down s) !! this))
    as Hel0 by (by apply update_is_Some).
  assert (is_Some (overlays s1 !! this)) as Hel1
    by (by apply update_is_Some).
  assert (part_overlay (ov (_mouseDownListener this down s) this)
          = part_overlay (ov s this)) as Hpart
    by (by apply (ov_update_field part_overlay)).
  assert (_mouseDownInside (ov s1 this)
          = includes (composedPath down) (part_overlay (ov s this)))
    as Hdown.
  { unfold s1, _mouseUpListener.
    rewrite (ov_update_field _mouseDownInside) by done.
    unfold _mouseDownListener. by rewrite ov_update_eq. }
  assert (_mouseUpInside (ov s1 this)
          = includes (composedPath up) (part_overlay (ov s this))) as Hup.
  { unfold s1, _mouseUpListener. rewrite ov_update_eq by done. simpl.
    by rewrite Hpart. }
  unfold _outsideClickListener. rewrite Hdown, Hup.
  assert (includes (composedPath click) (part_overlay (ov s1 this))
          || includes (composedPath down) (part_overlay (ov s this))
          || includes (composedPath up) (part_overlay (ov s this)) = true)
    as ->.
  { destruct Hinside as [->| ->]; by rewrite ?orb_true_r. }
  eexists. split; [done|]. split_and!.
  - done.
  - unfold s1, _mouseUpListener, _mouseDownListener.
    by rewrite !(ov_update_field opened).
  - rewrite (ov_update_field _mouseDownInside) by done.
    rewrite ov_update_eq by done. done.
  - rewrite ov_update_eq; [done|]. by apply update_is_Some.
Qed.

(** X8.  Whatever the click listener does, when it returns both flags of
    the gesture are false: a mousedown or mouseup inside the overlay
    shields it from one click only. *)
Theorem click_clears_flags veto a this event s s' :
  is_Some (overlays s !! this) →
  _outsideClickListener veto a this event s = Some s' →
  _mouseDownInside (ov s' this) = false ∧
  _mouseUpInside (ov s' this) = false.
Proof.
  intros Hel. unfold _outsideClickListener.
  destruct (includes _ _ || _mouseDownInside (ov s this)
            || _mouseUpInside (ov s this)) eqn:Hguard.
  { intros [= <-]. split.
    - rewrite (ov_update_field _mouseDownInside) by done.
      by rewrite ov_update_eq.
    - rewrite ov_update_eq; [done|]. by apply update_is_Some. }
  apply orb_false_iff in Hguard as [[_ Hdown]%orb_false_iff Hup].
  destruct (negb (_last s this)); [by intros [= <-]|].
  destruct (_ && _); [|by intros [= <-]].
  intros Hclose. split.
  - by rewrite (close_field _mouseDownInside _ _ _ _ s' this Hclose).
  - by rewrite (close_field _mouseUpInside _ _ _ _ s' this Hclose).
Qed.

(** ** Modal state *)

Lemma disable_others_is_Some this l s j :
  is_Some (overlays
             (foldl (λ s el, if decide (el ≠ this)
                             then pointerEvents_none el s else s) s l) !! j)
  ↔ is_Some (overlays s !! j).
Proof.
  revert s. induction l as [|x l IH]; intros s; [done|]. simpl.
  rewrite IH. case_decide; [|done]. apply update_is_Some.
Qed.

Lemma disable_others_out this l s j :
  j ∉ l ∨ j = this →
  part_pointerEvents
    (ov (foldl (λ s el, if decide (el ≠ this)
                        then pointerEvents_none el s else s) s l) j)
  = part_pointerEvents (ov s j).
Proof.
  revert s. induction l as [|x l IH]; intros s Hout; [done|]. simpl.
  rewrite IH.
  - case_decide as Hx; [|done]. unfold pointerEvents_none.
    rewrite ov_update_ne; [done|].
    intros ->. destruct Hout as [Hout|Hout]; [|done].
    apply Hout. by left.
  - destruct Hout as [Hout|Hout]; [left|by right].
    intros Hin. apply Hout. by right.
Qed.

Lemma disable_others_in this l s j :
  j ∈ l → j ≠ this → is_Some (overlays s !! j) →
  part_pointerEvents
    (ov (foldl (λ s el, if decide (el ≠ this)
                        then pointerEvents_none el s else s) s l) j)
  = Some "none"%string.
Proof.
  revert s. induction l as [|x l IH]; intros s Hin Hne Hel.
  { by apply elem_of_nil in Hin. }
  simpl. destruct (decide (j ∈ l)) as [Hl|Hl].
  - apply IH; try done. case_decide; [|done]. by apply update_is_Some.
  - apply elem_of_cons in Hin as [->|Hin]; [|done].
    rewrite disable_others_out by (by left).
    rewrite decide_True by done. unfold pointerEvents_none.
    by rewrite ov_update_eq.
Qed.

Lemma enter_record_frame this s :
  modal_frame s
    (if decide (body_pointerEvents s ≠ "none"%string) then
       set_body_pointerEvents "none"%string
         (update this
            (set__previousDocumentPointerEvents (Some (body_pointerEvents s)))
            s)
     else s).
Proof.
  case_decide; [|apply modal_frame_refl].
  eapply modal_frame_trans; [|apply modal_frame_body].
  by apply (modal_frame_update this
              (set__previousDocumentPointerEvents
                 (Some (body_pointerEvents s)))).
Qed.

(** X9.  [_enterModalState] on an overlay: afterwards the inline
    [pointer-events] of [<body>] is ['none']; the overlay has recorded the
    value the body had when that was not ['none'], and otherwise keeps
    whatever record it had; every other instance of the stack has
    ['none'] on its overlay part; and the part of the overlay itself and
    of every overlay off the stack is as it was. *)
Theorem enterModalState_disables_others this s :
  is_Some (overlays s !! this) →
  let s' := _enterModalState this s in
  body_pointerEvents s' = "none"%string ∧
  _previousDocumentPointerEvents (ov s' this)
  = (if decide (body_pointerEvents s = "none"%string)
     then _previousDocumentPointerEvents (ov s this)
     else Some (body_pointerEvents s)) ∧
  (∀ el, el ∈ __attachedInstances s → el ≠ this →
         part_pointerEvents (ov s' el) = Some "none"%string) ∧
  (∀ el, el ∉ __attachedInstances s ∨ el = this →
         part_pointerEvents (ov s' el) = part_pointerEvents (ov s el)).
Proof.
  intros Hel s'. split_and!.
  - apply _enterModalState_body.
  - unfold s'. rewrite _enterModalState_previous.
    destruct (decide (body_pointerEvents s = "none"%string)) as [Hb|Hb].
    + by rewrite decide_False by (by intros ?).
    + rewrite decide_True by done. by rewrite ov_update_eq.
  - intros el Hin Hne. unfold s', _enterModalState.
    set (s1 := if decide (body_pointerEvents s ≠ "none"%string)
               then _ else s).
    assert (modal_frame s s1) as Hf1 by apply enter_record_frame.
    rewrite (modal_frame_attachedInstances s s1 Hf1).
    apply disable_others_in; try done.
    destruct Hf1 as (_&_&_&_&_&_&_&_&Hd&_). apply Hd.
    apply elem_of_attachedInstances in Hin as [_ Hatt].
    by apply attached_true in Hatt as [? _].
  - intros el Hout. unfold s', _enterModalState.
    set (s1 := if decide (body_pointerEvents s ≠ "none"%string)
               then _ else s).
    assert (modal_frame s s1) as Hf1 by apply enter_record_frame.
    rewrite (modal_frame_attachedInstances s s1 Hf1).
    rewrite disable_others_out by done.
    unfold s1. case_decide; [|done].
    transitivity
      (part_pointerEvents
         (ov (update this
                (set__previousDocumentPointerEvents
                   (Some (body_pointerEvents s))) s) el)); [done|].
    by rewrite (ov_update_field part_pointerEvents).
Qed.

(** X10.  Entering the modal state and leaving it again, on an overlay
    that holds no record, puts the inline [pointer-events] of [<body>]
    back to what it was, and the overlay holds no record afterwards. *)
Theorem enter_exit_restores_body this s :
  is_Some (overlays s !! this) →
  _previousDocumentPointerEvents (ov s this) = None →
  let s' := _exitModalState this (_enterModalState this s) in
  body_pointerEvents s' = body_pointerEvents s ∧
  _previousDocumentPointerEvents (ov s' this) = None.
Proof.
  intros Hel Hnone s'. unfold s'. split.
  - rewrite _exitModalState_body, _enterModalState_body.
    rewrite _enterModalState_previous.
    case_decide as Hb.
    + by rewrite ov_update_eq.
    + rewrite Hnone. simpl. symmetry.
      by destruct (decide (body_pointerEvents s = "none"%string)).
  - by rewrite _exitModalState_previous, decide_True.
Qed.

(** What [opened = false] and [close()] do to the body and the records. *)
Lemma set_opened_false_effect s s' el a :
  (opened (ov s el) = true → is_Some (_placeholder (ov s el))) →
  set_opened_property a el false s = Some s' →
  (∀ j, modeless (ov s' j) = modeless (ov s j)) ∧
  (∀ j, j ≠ el →
     _previousDocumentPointerEvents (ov s' j)
     = _previousDocumentPointerEvents (ov s j)) ∧
  ((body_pointerEvents s' = body_pointerEvents s ∧
    _previousDocumentPointerEvents (ov s' el)
    = _previousDocumentPointerEvents (ov s el)) ∨
   (body_pointerEvents s'
    = default (body_pointerEvents s)
        (_previousDocumentPointerEvents (ov s el)) ∧
    _previousDocumentPointerEvents (ov s' el) = None)).
Proof.
  intros Hph Hset. destruct (opened (ov s el)) eqn:Hopen.
  - destruct (close_modal_effect s s' el a) as (?&?&?&?); auto.
  - unfold set_opened_property in Hset.
    rewrite Hopen, decide_True in Hset by done. injection Hset as <-.
    split_and!; try done. by left.
Qed.

Lemma close_effect s s' el veto a :
  (opened (ov s el) = true → is_Some (_placeholder (ov s el))) →
  close veto a el s = Some s' →
  (∀ j, modeless (ov s' j) = modeless (ov s j)) ∧
  (∀ j, j ≠ el →
     _previousDocumentPointerEvents (ov s' j)
     = _previousDocumentPointerEvents (ov s j)) ∧
  ((body_pointerEvents s' = body_pointerEvents s ∧
    _previousDocumentPointerEvents (ov s' el)
    = _previousDocumentPointerEvents (ov s el)) ∨
   (body_pointerEvents s'
    = default (body_pointerEvents s)
        (_previousDocumentPointerEvents (ov s el)) ∧
    _previousDocumentPointerEvents (ov s' el) = None)).
Proof.
  intros Hph. unfold close.
  destruct (negb _).
  - intros Hset.
    by apply (set_opened_false_effect
                (dispatchEvent el vaadin_overlay_close s) s' el a).
  - intros [= <-]. split_and!; try done. by left.
Qed.

Lemma open_placeholder s el :
  stack_inv s → opened_inv s → is_Some (overlays s !! el) →
  opened (ov s el) = true → is_Some (_placeholder (ov s el)).
Proof.
  intros Hinv Hop Hel Hopen. apply Hop in Hopen; [|done].
  destruct (attached_phase s el Hinv Hopen)
    as ((_&_&_&ph&p&Hph&_)&_). eauto.
Qed.

(** The overlays of the page stay the same. *)
Lemma modeless_inv_step pe0 op s s' :
  stack_inv s → opened_inv s → modeless_inv pe0 s → keeps_modeless op →
  step op s = Some s' → modeless_inv pe0 s'.
Proof.
  intros Hinv Hop (Hmod&Hrec&Hbody) Hkeep [Hel Hperf]%step_Some.
  assert (∀ s1, (∀ j, is_Some (overlays s1 !! j) ↔ is_Some (overlays s !! j)) →
    (∀ j, modeless (ov s1 j) = modeless (ov s j)) →
    (∀ j, _previousDocumentPointerEvents (ov s1 j)
          = _previousDocumentPointerEvents (ov s j)) →
    body_pointerEvents s1 = body_pointerEvents s →
    modeless_inv pe0 s1) as Hsame.
  { intros s1 Hd Hm Hr Hb. split_and!.
    - intros j Hj. rewrite Hm. apply Hmod. by apply Hd.
    - intros j. by rewrite Hr.
    - by rewrite Hb. }
  assert (∀ el s1,
    (∀ j, is_Some (overlays s1 !! j) ↔ is_Some (overlays s !! j)) →
    (∀ j, modeless (ov s1 j) = modeless (ov s j)) ∧
    (∀ j, j ≠ el →
       _previousDocumentPointerEvents (ov s1 j)
       = _previousDocumentPointerEvents (ov s j)) ∧
    ((body_pointerEvents s1 = body_pointerEvents s ∧
      _previousDocumentPointerEvents (ov s1 el)
      = _previousDocumentPointerEvents (ov s el)) ∨
     (body_pointerEvents s1
      = default (body_pointerEvents s)
          (_previousDocumentPointerEvents (ov s el)) ∧
      _previousDocumentPointerEvents (ov s1 el) = None)) →
    modeless_inv pe0 s1) as Hclosed.
  { intros el s1 Hd (Hm&Hr&Hcase). apply Hsame; try done.
    - intros j. destruct (decide (j = el)) as [->|Hne]; [|by apply Hr].
      rewrite Hrec. by destruct Hcase as [[_ ->]|[_ ->]].
    - destruct Hcase as [[-> _]|[-> _]]; [done|]. by rewrite Hrec. }
  destruct op as [el a|el a|el|el|el v|el e|el e|el e veto a|el e veto a];
    simpl in Hel, Hperf, Hkeep.
  - destruct (opened (ov s el)) eqn:Hopen.
    { unfold set_opened_property in Hperf.
      rewrite Hopen, decide_True in Hperf by done.
      injection Hperf as <-. by split_and!. }
    destruct (open_modal_effect s s' el a Hel Hopen Hperf) as (Hm&Hr&Hcase).
    rewrite (Hmod el Hel) in Hcase. destruct Hcase as [Hb Hrel].
    apply Hsame; try done.
    + intros j. unfold set_opened_property in Hperf.
      rewrite Hopen, decide_False in Hperf by done.
      rewrite (_animatedOpening_is_Some _ _ _ _ j Hperf).
      by rewrite !update_is_Some.
    + intros j. destruct (decide (j = el)) as [->|Hne]; [done|by apply Hr].
  - apply (Hclosed el).
    + intros j. by apply (set_opened_is_Some a el false s s' j).
    + apply (set_opened_false_effect s s' el a); [|done].
      by apply open_placeholder.
  - destruct (pe_same_animationend el s s' Hperf) as [Hb Hr].
    apply Hsame; try done.
    + intros j. by apply (animationend_is_Some el s s' j).
    + intros j. by apply (animationend_field modeless el s s' j).
  - injection Hperf as <-. apply Hsame; try done.
    + intros j. apply bringToFront_is_Some.
    + intros j. by apply (bringToFront_field modeless).
    + intros j. by apply (bringToFront_field _previousDocumentPointerEvents).
  - injection Hperf as <-. destruct v; [|done].
    unfold set_modeless_property. rewrite (Hmod el Hel).
    rewrite decide_True by done. by split_and!.
  - injection Hperf as <-. unfold _mouseDownListener.
    apply Hsame; [intros j; apply update_is_Some|..|done];
      intros j; by rewrite ov_update_field.
  - injection Hperf as <-. unfold _mouseUpListener.
    apply Hsame; [intros j; apply update_is_Some|..|done];
      intros j; by rewrite ov_update_field.
  - revert Hperf. unfold _outsideClickListener.
    destruct (_ || _).
    { intros [= <-].
      apply Hsame; [intros j; by rewrite !update_is_Some|..|done];
        intros j; by rewrite !ov_update_field. }
    destruct (negb _); [intros [= <-]; by split_and!|].
    destruct (_ && _); [|intros [= <-]; by split_and!].
    intros Hclose. apply (Hclosed el).
    + intros j. by rewrite (close_is_Some _ _ _ _ _ j Hclose).
    + apply (close_effect _ s' el veto a) in Hclose; [done|].
      exact (open_placeholder s el Hinv Hop Hel).
  - revert Hperf. unfold _keydownListener.
    destruct (negb _); [intros [= <-]; by split_and!|].
    destruct (_ && _); [intros [= <-]; by split_and!|].
    case_decide; [|intros [= <-]; by split_and!].
    destruct (_ && _); [|intros [= <-]; by split_and!].
    intros Hclose. apply (Hclosed el).
    + intros j. by rewrite (close_is_Some _ _ _ _ _ j Hclose).
    + apply (close_effect _ s' el veto a) in Hclose; [done|].
      exact (open_placeholder s el Hinv Hop Hel).
Qed.

Lemma modeless_inv_run pe0 ops s0 s :
  reachable s0 → modeless_inv pe0 s0 → Forall keeps_modeless ops →
  run ops s0 = Some s → modeless_inv pe0 s.
Proof.
  revert s0. induction ops as [|op ops IH]; intros s0 Hreach HI Hkeep Hrun;
    simpl in Hrun.
  - by injection Hrun as <-.
  - destruct (step op s0) as [s1|] eqn:Hstep; simpl in Hrun; [|done].
    apply Forall_cons in Hkeep as [Hop Hkeep].
    destruct (reachable_inv s0 Hreach) as [Hinv Hopen].
    apply (IH s1); try done.
    + by apply (reachable_step s0 op).
    + by apply (modeless_inv_step pe0 op s0).
Qed.

(** X11.  On a page all of whose overlays are modeless, and as long as
    none of them is switched to modal, no sequence of operations touches
    the inline [pointer-events] of [<body>], and no overlay ever records a
    value for it. *)
Theorem modeless_never_disables_body ops s0 s :
  initial s0 →
  (∀ el, is_Some (overlays s0 !! el) → modeless (ov s0 el) = true) →
  Forall keeps_modeless ops → run ops s0 = Some s →
  body_pointerEvents s = body_pointerEvents s0 ∧
  ∀ el, _previousDocumentPointerEvents (ov s el) = None.
Proof.
  intros Hinit Hmod Hkeep Hrun.
  destruct (modeless_inv_run (body_pointerEvents s0) ops s0 s)
    as (_&Hrec&Hbody); try done.
  - by apply reachable_initial.
  - split_and!; [done| |done].
    intros el. destruct (overlays s0 !! el) as [o|] eqn:Ho.
    + rewrite (ov_lookup s0 el o Ho).
      destruct Hinit as (Hfresh&_).
      by destruct (Hfresh el o Ho) as (_&_&_&_&_&_&_&?&_).
    + unfold ov. by rewrite Ho.
Qed.

(** ** Hiding an overlay *)

(** X12.  Take a page on which no overlay has been opened and whose
    overlays are declared outside the child list of [<body>].  After any
    sequence of operations on it, setting [hidden] on an overlay whose
    closing animation is running finishes the closing at once: the
    observer returns, the overlay is no longer a child of [<body>] but
    back under the parent of its placeholder, the placeholder is gone, the
    [closing] attribute and the pending handler are cleared, so that the
    closing is not finished a second time when the animation ends; the
    stack is as it was.  On an overlay without the [closing] attribute the
    observer does nothing. *)
Theorem hidden_finishes_closing ops s0 s this :
  initial s0 → run ops s0 = Some s → is_Some (overlays s !! this) →
  (attr_closing (ov s this) = false → _hiddenChanged this true s = Some s) ∧
  (attr_closing (ov s this) = true →
   ∃ s' ph p, _hiddenChanged this true s = Some s' ∧
     _placeholder (ov s this) = Some ph ∧ parentNode s !! ph = Some p ∧
     (this ∉ body_childNodes s') ∧ parentNode s' !! this = Some p ∧
     parentNode s' !! ph = None ∧
     attr_closing (ov s' this) = false ∧
     __closingHandler (ov s' this) = false ∧
     _flushAnimation closing this s' = Some s' ∧
     __attachedInstances s' = __attachedInstances s).
Proof.
  intros Hinit Hrun Hel.
  destruct (reachable_run ops s0 s Hinit Hrun) as [Hinv Hop].
  unfold _hiddenChanged. simpl. split; [by intros ->|]. intros Hc.
  rewrite Hc.
  destruct (closing_in_flight s this Hinv Hel Hc)
    as (ph&p&Hph&Hp&Hpb&Hne&Hlt&Hbody&Hpar&Hh&Hlistener).
  set (s' := update this (set___closingHandler false)
               (finished_closing this ph p s)) in *.
  assert (_flushAnimation closing this s = Some s') as Hflush.
  { unfold _flushAnimation. simpl. by rewrite Hh. }
  destruct (stack_inv_flush_closing s s' this Hinv Hel Hh Hflush)
    as (Hinv'&HA&(Hc'&Hh'&Hnb&_)&Hoth).
  exists s', ph, p. split_and!; try done.
  - change (delete ph (<[this:=p]> (parentNode s)) !! this = Some p).
    rewrite lookup_delete_ne, lookup_insert_eq; done.
  - change (delete ph (<[this:=p]> (parentNode s)) !! ph = None).
    by rewrite lookup_delete_eq.
  - unfold _flushAnimation. simpl. by rewrite Hh'.
  - apply attachedInstances_same; [done|].
    intros j. destruct (decide (j = this)) as [->|Hj]; [|by rewrite Hoth].
    unfold s'. rewrite (ov_update_field __zIndex) by done.
    by rewrite (finished_closing_field __zIndex).
Qed.

(** ** Listeners on the document *)

(** [opened] and [modeless] of the overlays an operation is not about. *)
Lemma set_opened_other {A} (π : Overlay → A) a el v s s' j :
  set_opened_property a el v s = Some s' → j ≠ el →
  ignores π set_attr_closing → ignores π set_part_pointerEvents →
  ignores π set___closingHandler → ignores π set__placeholder →
  ignores π set_style_zIndex → ignores π set___zIndex →
  ignores π set__previousDocumentPointerEvents →
  ignores π set_attr_opening → ignores π set___openingHandler →
  ignores π set___restoreFocusNode →
  π (ov s' j) = π (ov s j).
Proof.
  intros Hset Hne ? ? ? ? ? ? ? ? ? ?. unfold set_opened_property in Hset.
  case_decide; [by injection Hset as <-|].
  unfold _openedChanged in Hset. destruct v.
  - rewrite (_animatedOpening_field π _ _ _ s' j Hset) by done.
    by rewrite !ov_update_ne.
  - destruct (opened (ov s el)).
    + rewrite (_animatedClosing_field π _ _ _ s' j Hset) by done.
      by rewrite ov_update_ne.
    + injection Hset as <-. by rewrite ov_update_ne.
Qed.

Lemma close_other {A} (π : Overlay → A) veto a el s s' j :
  close veto a el s = Some s' → j ≠ el →
  ignores π set_attr_closing → ignores π set_part_pointerEvents →
  ignores π set___closingHandler → ignores π set__placeholder →
  ignores π set_style_zIndex → ignores π set___zIndex →
  ignores π set__previousDocumentPointerEvents →
  ignores π set_attr_opening → ignores π set___openingHandler →
  ignores π set___restoreFocusNode →
  π (ov s' j) = π (ov s j).
Proof.
  unfold close. destruct (negb _); [|by intros [= <-]].
  intros Hset ? ? ? ? ? ? ? ? ? ? ?.
  by rewrite (set_opened_other π _ _ _ _ s' j Hset).
Qed.

Lemma step_other op s s' j :
  step op s = Some s' → j ≠ target op →
  opened (ov s' j) = opened (ov s j) ∧
  modeless (ov s' j) = modeless (ov s j).
Proof.
  intros [_ Hperf]%step_Some Hne.
  destruct op as [el a|el a|el|el|el v|el e|el e|el e veto a|el e veto a];
    simpl in Hperf, Hne.
  - split; by apply (set_opened_other _ a el true s s' j).
  - split; by apply (set_opened_other _ a el false s s' j).
  - split; by apply (animationend_field _ el s s' j).
  - injection Hperf as <-. split; by apply bringToFront_field.
  - injection Hperf as <-. split.
    + by destruct (frame_set_modeless opened el v s) as (_&_&_&_&?).
    + unfold set_modeless_property. case_decide; [done|].
      unfold _modelessChanged.
      destruct (negb v); [destruct (opened _)|];
        rewrite ?(_enterModalState_field modeless),
          ?(_exitModalState_field modeless) by done;
        by rewrite ov_update_ne.
  - injection Hperf as <-. split; by apply ov_update_field.
  - injection Hperf as <-. split; by apply ov_update_field.
  - revert Hperf. unfold _outsideClickListener.
    destruct (_ || _);
      [intros [= <-]; split; by rewrite !ov_update_field|].
    destruct (negb _); [by intros [= <-]|].
    destruct (_ && _); [|by intros [= <-]].
    intros H'. split; by rewrite (close_other _ _ _ _ _ s' j H').
  - revert Hperf. unfold _keydownListener.
    destruct (negb _); [by intros [= <-]|].
    destruct (_ && _); [by intros [= <-]|].
    case_decide; [|by intros [= <-]].
    destruct (_ && _); [|by intros [= <-]].
    intros H'. split; by rewrite (close_other _ _ _ _ _ s' j H').
Qed.

Lemma observed_inv this s s' l :
  (∀ j, j ≠ this → opened (ov s' j) = opened (ov s j) ∧
                   modeless (ov s' j) = modeless (ov s j)) →
  listeners_inv s l → listeners_inv s' (observed this s s' l).
Proof.
  intros Hother Hinv el. specialize (Hinv el).
  unfold observed, _openedChanged_listeners, _modelessChanged_listeners,
    _addGlobalListeners, _removeGlobalListeners.
  destruct Hinv as (Hk&Hd&Hu&Hc).
  destruct (decide (el = this)) as [->|Hne].
  - clear Hother.
    destruct (opened (ov s this)), (opened (ov s' this)),
      (modeless (ov s this)), (modeless (ov s' this));
      simpl; rewrite ?decide_True, ?decide_False by done; simpl;
      rewrite ?elem_of_union, ?elem_of_difference, ?elem_of_singleton;
      intuition congruence.
  - destruct (Hother el Hne) as [-> ->]. clear Hother.
    destruct (opened (ov s this)), (opened (ov s' this)),
      (modeless (ov s this)), (modeless (ov s' this));
      simpl; rewrite ?decide_True, ?decide_False by done; simpl;
      rewrite ?elem_of_union, ?elem_of_difference, ?elem_of_singleton;
      intuition congruence.
Qed.

Lemma run_listeners_run ops s l s' l' :
  run_listeners ops (s, l) = Some (s', l') → run ops s = Some s'.
Proof.
  revert s l. induction ops as [|op ops IH]; intros s l Hrun; simpl in *.
  - by injection Hrun as <- _.
  - unfold step_listeners in Hrun. simpl in Hrun.
    destruct (step op s) as [s1|]; simpl in *; [|done]. by apply (IH _ _ Hrun).
Qed.

(** X13.  Start from a page on which no overlay has been opened and no
    listener is registered.  After any sequence of operations, the keydown
    listener of an overlay is on the document exactly when the overlay is
    open, and its mousedown, mouseup and click listeners are there exactly
    when it is open and not modeless.  A closed overlay leaves no listener
    behind. *)
Theorem listeners_follow_state ops s0 s l :
  initial s0 → run_listeners ops (s0, no_listeners) = Some (s, l) →
  listeners_inv s l.
Proof.
  intros Hinit.
  assert (listeners_inv s0 no_listeners) as Hinv0.
  { intros el.
    assert (opened (ov s0 el) = false) as ->.
    { destruct (overlays s0 !! el) as [o|] eqn:Ho.
      - rewrite (ov_lookup s0 el o Ho). destruct Hinit as (Hfresh&_).
        by destruct (Hfresh el o Ho) as (?&_).
      - unfold ov. by rewrite Ho. }
    unfold no_listeners. simpl. rewrite !elem_of_empty.
    intuition congruence. }
  clear Hinit. revert Hinv0. generalize no_listeners. revert s0.
  induction ops as [|op ops IH]; intros s0 l0 Hinv0 Hrun; simpl in Hrun.
  - by injection Hrun as <- <-.
  - unfold step_listeners in Hrun. simpl in Hrun.
    destruct (step op s0) as [s1|] eqn:Hstep; simpl in Hrun; [|done].
    apply (IH s1 (observed (target op) s0 s1 l0)); [|done].
    apply observed_inv; [|done].
    intros j Hne. by apply (step_other op s0 s1 j).
Qed.

(** ** The renderer *)

Lemma properties_changed_seen r o m opened c :
  let c' := properties_changed r o m opened c in
  renderer c' = r ∧ owner c' = o ∧ model c' = m ∧
  _oldOwner c' = o ∧ _oldModel c' = m ∧ _oldRenderer c' = r ∧
  _oldOpened c' = opened.
Proof.
  unfold properties_changed, _rendererOrDataChanged, requestContentUpdate,
    content_event. simpl.
  destruct (truthy r), (bool_decide (opened = Some true)),
    (bool_decide (_oldRenderer c ≠ r)); simpl;
    repeat case_match; by split_and!.
Qed.

Lemma properties_unchanged c :
  _oldOwner c = owner c → _oldModel c = model c →
  _oldRenderer c = renderer c →
  properties_changed (renderer c) (owner c) (model c) (_oldOpened c) c = c.
Proof.
  intros Ho Hm Hr.
  unfold properties_changed, _rendererOrDataChanged. simpl.
  rewrite (bool_decide_eq_false_2 (_oldOwner c ≠ owner c)),
    (bool_decide_eq_false_2 (_oldModel c ≠ model c)),
    (bool_decide_eq_false_2 (_oldRenderer c ≠ renderer c)),
    (bool_decide_eq_false_2 (_oldOpened c ≠ _oldOpened c))
    by (intros Hne; by destruct Hne).
  simpl. rewrite andb_false_r. destruct c. simpl in *. by subst.
Qed.

(** X14.  When the observer of [renderer], [owner], [model] and [opened]
    runs a second time with the values it has just seen, nothing happens:
    the content is not emptied, the renderer is not called, and the
    element is exactly as the first run left it. *)
Theorem properties_changed_idempotent r o m opened c :
  properties_changed r o m opened (properties_changed r o m opened c)
  = properties_changed r o m opened c.
Proof.
  destruct (properties_changed_seen r o m opened c)
    as (Hr&Ho&Hm&Hoo&Hom&Hor&Hop).
  set (c' := properties_changed r o m opened c) in *.
  rewrite <- Hr at 1. rewrite <- Ho at 1. rewrite <- Hm at 1.
  rewrite <- Hop at 1. apply properties_unchanged; congruence.
Qed.

Lemma properties_changed_log r o m opened c :
  content_log (properties_changed r o m opened c)
  = (if bool_decide (opened = Some true) && truthy r
        && (bool_decide (_oldRenderer c ≠ r)
            || bool_decide (_oldOpened c ≠ opened)
            || (bool_decide (_oldOwner c ≠ o)
                || bool_decide (_oldModel c ≠ m)))
     then [rendered r o m] else [])
    ++ (if bool_decide (_oldRenderer c ≠ r) then [emptied] else [])
    ++ content_log c.
Proof.
  unfold properties_changed, _rendererOrDataChanged, requestContentUpdate,
    content_event. simpl.
  destruct (truthy r) eqn:Ht, (bool_decide (_oldRenderer c ≠ r)); simpl;
    rewrite ?andb_false_r; simpl; repeat case_match; simpl in *;
    congruence.
Qed.

Lemma content_step_inv c op :
  (_oldOwner c = owner c ∧ _oldModel c = model c ∧
   _oldRenderer c = renderer c ∧
   (_oldOpened c = Some true → truthy (renderer c) = true →
    head (content_log c) = Some (rendered (renderer c) (owner c) (model c)))) →
  let c' := content_step c op in
  _oldOwner c' = owner c' ∧ _oldModel c' = model c' ∧
  _oldRenderer c' = renderer c' ∧
  (_oldOpened c' = Some true → truthy (renderer c') = true →
   head (content_log c') = Some (rendered (renderer c') (owner c') (model c'))).
Proof.
  intros (Ho&Hm&Hr&Hfresh). destruct op as [r o m opened|]; simpl.
  - destruct (properties_changed_seen r o m opened c)
      as (Hr'&Ho'&Hm'&Hoo&Hom&Hor&Hop).
    rewrite Hr', Ho', Hm', Hoo, Hom, Hor, Hop, properties_changed_log.
    split_and!; try done. intros -> Ht.
    rewrite bool_decide_eq_true_2, Ht by done. simpl.
    destruct (bool_decide (_oldRenderer c ≠ r)) eqn:Hrc; simpl; [done|].
    destruct (bool_decide (_oldOpened c ≠ Some true)) eqn:Hoc; simpl;
      [done|].
    destruct (bool_decide (_oldOwner c ≠ o) || bool_decide (_oldModel c ≠ m))
      eqn:Hom'; simpl; [done|].
    apply bool_decide_eq_false in Hrc, Hoc.
    apply orb_false_iff in Hom' as [Hoo' Hmm'].
    apply bool_decide_eq_false in Hoo', Hmm'.
    apply dec_stable in Hrc, Hoc, Hoo', Hmm'.
    rewrite <- Hrc, <- Hoo', <- Hmm', Hr, Ho, Hm. apply Hfresh; [done|].
    by rewrite <- Hr, Hrc.
  - unfold requestContentUpdate.
    destruct (truthy (renderer c)) eqn:Ht; simpl; split_and!; try done.
    intros _. by rewrite Ht.
Qed.

(** X15.  On a new element, after any sequence of property changes and
    calls of [requestContentUpdate]: whenever the overlay is open and has
    a renderer, the latest thing that happened to its content is a call of
    that renderer with the current owner and model.  The content is never
    stale and never left empty. *)
Theorem content_is_fresh ops :
  let c := foldl content_step new_content ops in
  _oldOpened c = Some true → truthy (renderer c) = true →
  head (content_log c) = Some (rendered (renderer c) (owner c) (model c)).
Proof.
  assert (∀ c0,
    (_oldOwner c0 = owner c0 ∧ _oldModel c0 = model c0 ∧
     _oldRenderer c0 = renderer c0 ∧
     (_oldOpened c0 = Some true → truthy (renderer c0) = true →
      head (content_log c0)
      = Some (rendered (renderer c0) (owner c0) (model c0)))) →
    let c := foldl content_step c0 ops in
    _oldOpened c = Some true → truthy (renderer c) = true →
    head (content_log c) = Some (rendered (renderer c) (owner c) (model c)))
    as Hgen.
  { induction ops as [|op ops IH]; intros c0 Hinv; simpl.
    - apply Hinv.
    - apply IH. by apply content_step_inv. }
  apply Hgen. by split_and!.
Qed.

(** ** Well-formed documents stay well-formed *)

(** No method writes the shadow hosts. *)
Lemma host_restore_focus this s s' :
  restore_focus this s = Some s' → host s' = host s.
Proof.
  unfold restore_focus.
  destruct (restoreFocusNode_or_stored (ov s this)); [|by intros [= <-]].
  destruct (restoreFocusOnClose (ov s this)); [|by intros [= <-]].
  destruct (if decide (_getActiveElement s = body) then Some true
            else _deepContains s this (_getActiveElement s)) as [inside|];
    simpl; [|done].
  intros [= <-]. by destruct inside.
Qed.

Lemma host_flush type this s s' :
  _flushAnimation type this s = Some s' → host s' = host s.
Proof.
  unfold _flushAnimation, listener.
  destruct (handler type (ov s this)); [|by intros [= <-]].
  destruct type; simpl.
  - by intros [= <-].
  - destruct (_finishClosing this s) as [s1|] eqn:Hf; simpl; [|done].
    intros [= <-]. by apply _finishClosing_Some in Hf as (ph&q&_&_&->).
Qed.

Lemma host_opening_tail a this s : host (opening_tail a this s) = host s.
Proof.
  unfold opening_tail, _enqueueAnimation, _finishOpening.
  destruct a, (negb _); simpl; try done;
    by destruct (modal_frame_enter this s) as (_&_&?&_).
Qed.

Lemma host_animatedOpening a this s s' :
  _animatedOpening a this s = Some s' → host s' = host s.
Proof.
  intros H. apply _animatedOpening_Some in H as (s1&p&Hfl&_&->).
  rewrite host_opening_tail.
  change (host s1 = host s).
  destruct (_ && _); [by apply (host_flush closing this)|].
  by injection Hfl as <-.
Qed.

Lemma host_animatedClosing a this s s' :
  _animatedClosing a this s = Some s' → host s' = host s.
Proof.
  unfold _animatedClosing.
  destruct (if attr_opening (ov s this) then _flushAnimation opening this s
            else Some s) as [s0|] eqn:H0; simpl; [|done].
  assert (host s0 = host s) as <-.
  { destruct (attr_opening (ov s this)); [by apply (host_flush opening this)|].
    by injection H0 as <-. }
  destruct (_placeholder (ov s0 this)); [|by intros [= <-]].
  destruct (restore_focus this (_exitModalState this s0)) as [s2|] eqn:Hrf;
    simpl; [|done].
  assert (host s2 = host s0) as <-.
  { rewrite (host_restore_focus _ _ _ Hrf).
    by destruct (modal_frame_exit this s0) as (_&_&?&_). }
  destruct a; [by intros [= <-]|].
  intros H. by apply _finishClosing_Some in H as (ph&q&_&_&->).
Qed.

Lemma host_set_opened a this v s s' :
  set_opened_property a this v s = Some s' → host s' = host s.
Proof.
  unfold set_opened_property. case_decide; [by intros [= <-]|].
  unfold _openedChanged. destruct v.
  - intros H'. by rewrite (host_animatedOpening _ _ _ _ H').
  - destruct (opened (ov s this)); [|by intros [= <-]].
    intros H'. by rewrite (host_animatedClosing _ _ _ _ H').
Qed.

Lemma host_close veto a this s s' :
  close veto a this s = Some s' → host s' = host s.
Proof.
  unfold close. destruct (negb _); [|by intros [= <-]].
  intros H'. by rewrite (host_set_opened _ _ _ _ _ H').
Qed.

Lemma step_host op s s' : step op s = Some s' → host s' = host s.
Proof.
  intros [_ Hperf]%step_Some.
  destruct op as [el a|el a|el|el|el v|el e|el e|el e veto a|el e veto a];
    simpl in Hperf.
  - by apply (host_set_opened a el true).
  - by apply (host_set_opened a el false).
  - unfold animationend in Hperf.
    destruct (_flushAnimation opening el s) as [s1|] eqn:H1; simpl in Hperf;
      [|done].
    rewrite (host_flush _ _ _ _ Hperf). by apply (host_flush opening el).
  - by injection Hperf as <-.
  - injection Hperf as <-. unfold set_modeless_property.
    case_decide; [done|]. unfold _modelessChanged.
    destruct (negb v); [destruct (opened _)|]; try done.
    + by destruct (modal_frame_enter el (update el (set_modeless v) s))
        as (_&_&?&_).
    + by destruct (modal_frame_exit el (update el (set_modeless v) s))
        as (_&_&?&_).
  - by injection Hperf as <-.
  - by injection Hperf as <-.
  - revert Hperf. unfold _outsideClickListener.
    destruct (_ || _); [by intros [= <-]|].
    destruct (negb _); [by intros [= <-]|].
    destruct (_ && _); [|by intros [= <-]].
    intros H'. by rewrite (host_close _ _ _ _ _ H').
  - revert Hperf. unfold _keydownListener.
    destruct (negb _); [by intros [= <-]|].
    destruct (_ && _); [by intros [= <-]|].
    case_decide; [|by intros [= <-]].
    destruct (_ && _); [|by intros [= <-]].
    intros H'. by rewrite (host_close _ _ _ _ _ H').
Qed.

Lemma bounded_overlay s el :
  bounded s → is_Some (overlays s !! el) → (el < next_node s)%nat.
Proof. intros (_&_&_&_&Hov) [o Ho]. by apply (Hov el o). Qed.

Lemma dom_inv_frame s s' :
  frame _placeholder s s' → host s' = host s → dom_inv s → dom_inv s'.
Proof.
  intros (Hb&Hp&Hn&Hd&Hv) Hh (Hbounded&Hrooted&Hfresh&rank&Hranked).
  assert (∀ el, overlays s' !! el = None ↔ overlays s !! el = None) as Hnone.
  { intros el. rewrite !eq_None_not_Some. by rewrite Hd. }
  split_and!.
  - destruct Hbounded as (?&?&?&?&Hov). unfold bounded.
    rewrite Hp, Hh, Hb, Hn. split_and!; try done.
    intros el o' Ho'. apply (bounded_overlay s); [|apply Hd; eauto].
    by split_and!.
  - destruct Hrooted as (?&?&?). unfold rooted.
    rewrite Hp, Hh, Hnone. done.
  - intros el ph Hel Hin Hph. rewrite Hb in Hin. rewrite Hv in Hph.
    rewrite Hnone, Hn. apply (Hfresh el); [by apply Hd|done..].
  - exists rank. destruct Hranked as (Hac&Hbody&Hback). split_and!.
    + by apply (acyclic_ext rank s).
    + intros el Hel. apply Hbody. by apply Hd.
    + intros el ph p Hel Hin Hph Hpar.
      rewrite Hb in Hin. rewrite Hv in Hph. rewrite Hp in Hpar.
      apply (Hback el ph p); [by apply Hd|done..].
Qed.

(** [_attachOverlay], up to [bringToFront]. *)
Lemma dom_inv_attach s el p :
  dom_inv s → is_Some (overlays s !! el) →
  parentNode s !! el = Some p → p ≠ body →
  dom_inv (appended el p s).
Proof.
  intros ((Hpn&Hhost&Hbl&Hbody&Hov)&(Hrp&Hrh&Hro)&Hfresh&rank&Hac&Hrb&Hback)
    Hel Hp Hpb.
  set (ph := next_node s).
  assert ((el < ph)%nat) as Hel_lt.
  { apply (bounded_overlay s); [by split_and!|done]. }
  assert ((p < ph)%nat) as Hp_lt by (by destruct (Hpn el p Hp)).
  assert (∀ j, is_Some (overlays (appended el p s) !! j)
               ↔ is_Some (overlays s !! j)) as Hd
    by (intros j; apply appended_is_Some).
  assert (parentNode (appended el p s)
          = <[el:=body]> (<[ph:=p]> (parentNode s))) as Hp'
    by apply appended_parentNode.
  assert (body_childNodes (appended el p s)
          = list_remove el (list_remove ph (body_childNodes s)) ++ [el])
    as Hb' by (by apply appended_body).
  assert (next_node (appended el p s) = S ph) as Hn' by done.
  assert (host (appended el p s) = host s) as Hh' by done.
  assert (∀ j, j ∈ body_childNodes (appended el p s) → j ≠ el →
               j ∈ body_childNodes s) as Hsub.
  { intros j. rewrite Hb', elem_of_app, !elem_of_list_remove,
      list_elem_of_singleton. tauto. }
  split_and!.
  - unfold bounded. rewrite Hp', Hh', Hn'. split_and!.
    + apply map_Forall_insert_2; [lia|].
      apply map_Forall_insert_2; [lia|].
      eapply map_Forall_impl; [exact Hpn|]. simpl. lia.
    + eapply map_Forall_impl; [exact Hhost|]. simpl. lia.
    + rewrite Forall_forall. intros j Hj.
      destruct (decide (j = el)) as [->|Hne]; [lia|].
      rewrite Forall_forall in Hbl. specialize (Hbl j (Hsub j Hj Hne)). lia.
    + lia.
    + intros j o Ho.
      assert ((j < ph)%nat); [|lia].
      apply (bounded_overlay s); [by split_and!|apply Hd; eauto].
  - unfold rooted. rewrite Hp', Hh'. split_and!; [|done|].
    + rewrite !lookup_insert_ne; [done|unfold document, body in *; lia|].
      intros ->. destruct Hel as [o Ho]. congruence.
    + apply eq_None_not_Some. rewrite Hd. by rewrite Hro; intros [? ?].
  - intros j phj Hj Hin Hphj. rewrite Hn'.
    destruct (decide (j = el)) as [->|Hne].
    + rewrite appended_placeholder in Hphj by done. injection Hphj as <-.
      split; [|lia]. apply eq_None_not_Some. rewrite Hd.
      intros Hph. apply (bounded_overlay s) in Hph; [|by split_and!].
      unfold ph in Hph. lia.
    + rewrite appended_other in Hphj by done. apply Hd in Hj.
      destruct (Hfresh j phj Hj (Hsub j Hin Hne) Hphj) as [Hnov Hlt].
      split; [|lia]. apply eq_None_not_Some. rewrite Hd.
      by rewrite Hnov; intros [? ?].
  - exists (λ n, if decide (n = ph) then S (rank p) else rank n).
    assert (∀ n : Node, (n < ph)%nat →
              (if decide (n = ph) then S (rank p) else rank n) = rank n)
      as Hold.
    { intros n Hn. rewrite decide_False; [done|lia]. }
    destruct Hac as [Hacp Hach].
    split_and!.
    + split.
      * rewrite Hp'. apply map_Forall_insert_2.
        { cbv beta. rewrite (Hold body) by exact Hbody.
          rewrite (Hold el) by done. by apply Hrb. }
        apply map_Forall_insert_2.
        { cbv beta. rewrite (Hold p) by done.
          rewrite decide_True by done. lia. }
        intros n m Hnm. destruct (Hpn n m Hnm).
        rewrite !Hold by done. by apply (Hacp n m).
      * rewrite Hh'. intros n m Hnm. destruct (Hhost n m Hnm).
        rewrite !Hold by done. by apply (Hach n m).
    + intros j Hj. apply Hd in Hj.
      rewrite (Hold body) by exact Hbody.
      rewrite (Hold j); [by apply Hrb|].
      apply (bounded_overlay s); [by split_and!|done].
    + intros j phj q Hj Hin Hphj Hq. apply Hd in Hj.
      assert ((j < ph)%nat) as Hj_lt
        by (apply (bounded_overlay s); [by split_and!|done]).
      rewrite (Hold j) by done. rewrite Hp' in Hq.
      destruct (decide (j = el)) as [->|Hne].
      * rewrite appended_placeholder in Hphj by done. injection Hphj as <-.
        rewrite lookup_insert_ne, lookup_insert_eq in Hq by lia.
        injection Hq as <-. rewrite Hold by done. by apply (Hacp el p).
      * rewrite appended_other in Hphj by done.
        destruct (Hfresh j phj Hj (Hsub j Hin Hne) Hphj) as [Hnov Hlt].
        rewrite !lookup_insert_ne in Hq.
        -- destruct (Hpn phj q Hq). rewrite Hold by done.
           by apply (Hback j phj q Hj (Hsub j Hin Hne)).
        -- fold ph in Hlt. lia.
        -- intros ->. destruct Hel as [o Ho]. congruence.
Qed.

(** [_finishClosing] *)
Lemma dom_inv_detach s el ph p :
  dom_inv s → is_Some (overlays s !! el) → el ∈ body_childNodes s →
  _placeholder (ov s el) = Some ph → parentNode s !! ph = Some p →
  p ≠ body → dom_inv (finished_closing el ph p s).
Proof.
  intros ((Hpn&Hhost&Hbl&Hbody&Hov)&(Hrp&Hrh&Hro)&Hfresh&rank&Hac&Hrb&Hback)
    Hel Hin Hph Hp Hpb.
  set (s' := finished_closing el ph p s).
  assert (∀ j, is_Some (overlays s' !! j) ↔ is_Some (overlays s !! j)) as Hd
    by (intros j; apply finished_closing_is_Some).
  assert (parentNode s' = delete ph (<[el:=p]> (parentNode s))) as Hp'
    by apply finished_closing_parentNode.
  assert (body_childNodes s'
          = list_remove ph (list_remove el (body_childNodes s))) as Hb'
    by (by apply finished_closing_body).
  assert (next_node s' = next_node s) as Hn' by done.
  assert (host s' = host s) as Hh' by done.
  assert (∀ j, _placeholder (ov s' j) = _placeholder (ov s j)) as Hv
    by (intros j; by apply finished_closing_field).
  assert (∀ j, j ∈ body_childNodes s' → j ∈ body_childNodes s ∧ j ≠ el)
    as Hsub.
  { intros j. rewrite Hb', !elem_of_list_remove. tauto. }
  destruct (Hfresh el ph Hel Hin Hph) as [Hphov Hphlt].
  assert (el ≠ ph) as Hne.
  { intros ->. destruct Hel as [o Ho]. congruence. }
  assert ((el < next_node s)%nat) as Hel_lt
    by (apply (bounded_overlay s); [by split_and!|done]).
  destruct (Hpn ph p Hp) as [_ Hp_lt].
  assert (∀ n m, parentNode s' !! n = Some m →
            (n = el ∧ m = p) ∨ parentNode s !! n = Some m) as Hlinks.
  { intros n m. rewrite Hp'.
    destruct (decide (n = ph)) as [->|?]; [by rewrite lookup_delete_eq|].
    rewrite lookup_delete_ne by done.
    destruct (decide (n = el)) as [->|?].
    - rewrite lookup_insert_eq. intros [= <-]. by left.
    - rewrite lookup_insert_ne by done. by right. }
  split_and!.
  - unfold bounded. rewrite Hh', Hn'. split_and!; try done.
    + intros n m [[-> ->]|Hnm]%Hlinks; [done|by apply (Hpn n m)].
    + rewrite Forall_forall in Hbl |- *. intros j [Hj _]%Hsub. by apply Hbl.
    + intros j o Ho. apply (bounded_overlay s); [by split_and!|].
      apply Hd. eauto.
  - unfold rooted. rewrite Hh'. split_and!; [|done|].
    + destruct (parentNode s' !! document) as [m|] eqn:Hm; [|done].
      apply Hlinks in Hm as [[Heq _]|Hm]; [|congruence].
      destruct Hel as [o Ho]. rewrite <- Heq in Ho. congruence.
    + apply eq_None_not_Some. rewrite Hd. by rewrite Hro; intros [? ?].
  - intros j phj Hj [Hinj _]%Hsub Hphj. rewrite Hv in Hphj. rewrite Hn'.
    apply Hd in Hj. destruct (Hfresh j phj Hj Hinj Hphj) as [Hnov Hlt].
    split; [|done]. apply eq_None_not_Some. rewrite Hd.
    by rewrite Hnov; intros [? ?].
  - exists rank. destruct Hac as [Hacp Hach]. split_and!.
    + split; [|by rewrite Hh'].
      intros n m [[-> ->]|Hnm]%Hlinks; [|by apply (Hacp n m)].
      by apply (Hback el ph p).
    + intros j Hj. apply Hrb. by apply Hd.
    + intros j phj q Hj [Hinj Hnej]%Hsub Hphj Hq.
      rewrite Hv in Hphj. apply Hd in Hj.
      apply Hlinks in Hq as [[-> _]|Hq].
      * destruct (Hfresh j el Hj Hinj Hphj) as [Hnov _].
        destruct Hel as [o Ho]. congruence.
      * by apply (Hback j phj q).
Qed.

Lemma frame_bringToFront {T} (V : Overlay → T) this s :
  ignores V set_style_zIndex → ignores V set___zIndex →
  frame V s (bringToFront this s).
Proof.
  intros H1 H2. unfold frame. split_and!; try done.
  - intros j. apply bringToFront_is_Some.
  - intros j. by apply bringToFront_field.
Qed.

Lemma dom_inv_flush_closing s s' el :
  stack_inv s → dom_inv s → is_Some (overlays s !! el) →
  _flushAnimation closing el s = Some s' → dom_inv s'.
Proof.
  intros Hinv Hdom Hel Hfl.
  apply _flushAnimation_closing_Some in Hfl
    as [[_ ->]|(Hh&ph&q&Hph&Hq&->)]; [done|].
  destruct Hel as [o Ho].
  destruct (inv_phase s Hinv el o Ho) as [(_&Hh'&_)|[Hin _]];
    rewrite <- (ov_lookup s el o Ho) in *; [congruence|].
  destruct Hin as (Hb&_&_&ph'&q'&Hph'&Hq'&Hqb&_).
  rewrite Hph in Hph'. injection Hph' as <-.
  rewrite Hq in Hq'. injection Hq' as <-.
  apply (dom_inv_frame (finished_closing el ph q s)).
  - by apply frame_update.
  - done.
  - apply dom_inv_detach; eauto.
Qed.

Lemma dom_inv_open s s' el a :
  stack_inv s → opened_inv s → dom_inv s → is_Some (overlays s !! el) →
  opened (ov s el) = false →
  set_opened_property a el true s = Some s' → dom_inv s'.
Proof.
  intros Hinv Hop Hdom Hel Hclosed Hset.
  unfold set_opened_property in Hset.
  rewrite Hclosed, decide_False in Hset by done.
  set (pre := update el (set___restoreFocusNode
                           (Some (_getActiveElement s)))
                (update el (set_opened true) s)).
  change (_animatedOpening a el pre = Some s') in Hset.
  assert (∀ T (V : Overlay → T), ignores V set___restoreFocusNode →
            ignores V set_opened → frame V s pre) as Hf0
    by (intros; by apply reopening_frame).
  assert (stack_inv pre) as Hinv0
    by (apply (stack_inv_frame s); [by apply Hf0|done]).
  assert (dom_inv pre) as Hdom0
    by (apply (dom_inv_frame s); [by apply Hf0|done|done]).
  assert (is_Some (overlays pre !! el)) as Hel0.
  { destruct (Hf0 _ modeless) as (_&_&_&Hd&_); [done..|]. by apply Hd. }
  apply _animatedOpening_Some in Hset as (s1&p&Hfl&Hp&->).
  assert (el ∉ attached_children pre) as Hnin.
  { rewrite (frame_attached_children s pre) by (by apply Hf0).
    intros Hin. apply Hop in Hin; [congruence|done]. }
  assert (stack_inv s1 ∧ dom_inv s1 ∧ is_Some (overlays s1 !! el) ∧ p ≠ body)
    as (Hinv1&Hdom1&Hel1&Hpb).
  { destruct (not_attached_phase pre el Hinv0 Hel0 Hnin)
      as [(_&_&_&q&Hq&Hqb)|((_&Hpar&_)&Hc&Hh)].
    - rewrite Hq, bool_decide_eq_false_2 in Hfl by congruence.
      simpl in Hfl. injection Hfl as <-.
      rewrite Hp in Hq. injection Hq as <-. by split_and!.
    - rewrite Hpar, bool_decide_eq_true_2, Hc in Hfl by done.
      simpl in Hfl.
      destruct (stack_inv_flush_closing pre s1 el Hinv0 Hel0 Hh Hfl)
        as (Hinv1&_&(_&_&_&p'&Hp'&Hpb)&_).
      rewrite Hp in Hp'. injection Hp' as <-.
      split_and!; try done.
      + by apply (dom_inv_flush_closing pre s1 el).
      + by rewrite (flush_closing_is_Some el pre s1). }
  apply (dom_inv_frame (bringToFront el (appended el p s1))).
  - by apply frame_opening_tail.
  - apply host_opening_tail.
  - apply (dom_inv_frame (appended el p s1)).
    + by apply frame_bringToFront.
    + done.
    + by apply dom_inv_attach.
Qed.

Lemma dom_inv_set_closed s s' el a :
  stack_inv s → opened_inv s → dom_inv s → is_Some (overlays s !! el) →
  set_opened_property a el false s = Some s' → dom_inv s'.
Proof.
  intros Hinv Hop Hdom Hel Hset. pose proof (host_set_opened _ _ _ _ _ Hset)
    as Hhost.
  unfold set_opened_property in Hset.
  case_decide as Hopen; [by injection Hset as <-|].
  apply not_false_is_true in Hopen.
  unfold _openedChanged in Hset. rewrite Hopen in Hset.
  set (s0 := update el (set_opened false) s) in Hset.
  assert (frame _placeholder s s0) as Hf0 by (by apply frame_update).
  apply _animatedClosing_Some in Hset as (s00&Hs00&Hrest).
  assert (el ∈ attached_children s) as Hin by (by apply Hop).
  destruct (attached_phase s el Hinv Hin)
    as ((Hb&_&_&ph&p&Hph&Hp&Hpb&_)&_).
  assert (_placeholder (ov s0 el) = Some ph) as Hph0.
  { unfold s0. by rewrite (ov_update_field _placeholder). }
  rewrite Hph0 in Hrest. destruct Hrest as (s2&Hrf&Hs').
  set (sm := closing_marked el s2) in *.
  assert (frame _placeholder s sm) as Hfm.
  { eapply frame_trans; [exact Hf0|].
    eapply frame_trans; [by apply Hs00|].
    eapply frame_trans; [by apply frame_exit|].
    eapply frame_trans;
      [by apply (restore_focus_frame _placeholder el _ s2)|].
    unfold sm, closing_marked.
    eapply frame_trans; [|apply frame_dispatchEvent].
    by apply frame_update. }
  destruct a.
  - subst s'. apply (dom_inv_frame s); [|done|done].
    eapply frame_trans; [exact Hfm|]. unfold _enqueueAnimation.
    by apply frame_update.
  - apply _finishClosing_Some in Hs' as (ph'&q'&Hph'&Hq'&->).
    destruct Hfm as (Hbm&Hpm&Hnm&Hdm&Hvm).
    rewrite Hvm, Hph in Hph'. injection Hph' as <-.
    rewrite Hpm, Hp in Hq'. injection Hq' as <-.
    apply dom_inv_detach; try done.
    + apply (dom_inv_frame s); [by split_and!|done|done].
    + by apply Hdm.
    + by rewrite Hbm.
    + by rewrite Hvm.
    + by rewrite Hpm.
Qed.

Lemma dom_inv_set_opened s s' el a v :
  stack_inv s → opened_inv s → dom_inv s → is_Some (overlays s !! el) →
  set_opened_property a el v s = Some s' → dom_inv s'.
Proof.
  intros Hinv Hop Hdom Hel Hset. destruct v.
  - destruct (opened (ov s el)) eqn:Hopen.
    + unfold set_opened_property in Hset.
      rewrite Hopen, decide_True in Hset by done. by injection Hset as <-.
    + by apply (dom_inv_open s s' el a).
  - by apply (dom_inv_set_closed s s' el a).
Qed.

Lemma inv_dispatchEvent el e s :
  stack_inv s → opened_inv s → dom_inv s →
  stack_inv (dispatchEvent el e s) ∧ opened_inv (dispatchEvent el e s) ∧
  dom_inv (dispatchEvent el e s).
Proof.
  intros Hinv Hop Hdom.
  destruct (inv_frame s (dispatchEvent el e s)
              (frame_dispatchEvent _ el e s) Hinv Hop) as (?&?&_).
  by split_and!.
Qed.

Lemma dom_inv_close s s' el veto a :
  stack_inv s → opened_inv s → dom_inv s → is_Some (overlays s !! el) →
  close veto a el s = Some s' → dom_inv s'.
Proof.
  intros Hinv Hop Hdom Hel. unfold close.
  destruct (inv_dispatchEvent el vaadin_overlay_close s) as (?&?&?);
    try done.
  destruct (negb _); [|by intros [= <-]].
  intros Hset.
  by apply (dom_inv_set_opened
              (dispatchEvent el vaadin_overlay_close s) s' el a false).
Qed.

Lemma step_dom_inv op s s' :
  stack_inv s → opened_inv s → dom_inv s →
  step op s = Some s' → dom_inv s'.
Proof.
  intros Hinv Hop Hdom Hstep. pose proof (step_host op s s' Hstep) as Hhost.
  apply step_Some in Hstep as [Hel Hperf].
  destruct op as [el a|el a|el|el|el v|el e|el e|el e veto a|el e veto a];
    simpl in Hel, Hperf.
  - by apply (dom_inv_set_opened s s' el a true).
  - by apply (dom_inv_set_opened s s' el a false).
  - unfold animationend in Hperf.
    destruct (_flushAnimation_opening_Some el s) as (s1&Hs1&Hf1).
    rewrite Hs1 in Hperf. simpl in Hperf.
    destruct (Hf1 _ (λ o, (opened o, stack_view o))) as [Hf _]; [done..|].
    destruct (inv_frame s s1 Hf Hinv Hop) as (Hinv1&_).
    apply (dom_inv_flush_closing s1 s' el); try done.
    + apply (dom_inv_frame s); [|by apply (host_flush opening el)|done].
      by destruct (Hf1 _ _placeholder) as [? _].
    + destruct Hf as (_&_&_&Hd&_). by apply Hd.
  - injection Hperf as <-.
    apply (dom_inv_frame s); [by apply frame_bringToFront|done|done].
  - injection Hperf as <-.
    apply (dom_inv_frame s); [by apply frame_set_modeless|done|done].
  - injection Hperf as <-.
    apply (dom_inv_frame s); [by apply frame_update|done|done].
  - injection Hperf as <-.
    apply (dom_inv_frame s); [by apply frame_update|done|done].
  - revert Hperf. unfold _outsideClickListener.
    destruct (_ || _).
    { intros [= <-]. apply (dom_inv_frame s); [|done|done].
      eapply frame_trans; by apply frame_update. }
    destruct (negb _); [by intros [= <-]|].
    destruct (inv_dispatchEvent el vaadin_overlay_outside_click s)
      as (?&?&?); try done.
    destruct (_ && _); [|by intros [= <-]].
    by apply (dom_inv_close
                (dispatchEvent el vaadin_overlay_outside_click s) s' el).
  - revert Hperf. unfold _keydownListener.
    destruct (negb _); [by intros [= <-]|].
    destruct (_ && _); [by intros [= <-]|].
    case_decide; [|by intros [= <-]].
    destruct (inv_dispatchEvent el vaadin_overlay_escape_press s)
      as (?&?&?); try done.
    destruct (_ && _); [|by intros [= <-]].
    by apply (dom_inv_close
                (dispatchEvent el vaadin_overlay_escape_press s) s' el).
Qed.

Lemma well_formed_dom_inv rank s : well_formed rank s → dom_inv s.
Proof.
  intros (Hinit&Hbounded&Hrooted&Hac&Hrank).
  assert (∀ el, is_Some (overlays s !! el) → el ∉ body_childNodes s)
    as Hout.
  { intros el [o Ho]. destruct Hinit as (Hfresh&_).
    by destruct (Hfresh el o Ho) as (_&_&_&_&_&_&_&_&_&?&_). }
  split_and!; try done.
  - intros el ph Hel Hin. by apply Hout in Hel.
  - exists rank. split_and!; try done.
    + intros el [o Ho]. by apply (Hrank el o).
    + intros el ph p Hel Hin. by apply Hout in Hel.
Qed.

Lemma run_inv ops s0 s :
  stack_inv s0 → opened_inv s0 → dom_inv s0 → run ops s0 = Some s →
  stack_inv s ∧ opened_inv s ∧ dom_inv s.
Proof.
  revert s0. induction ops as [|op ops IH]; intros s0 Hinv Hop Hdom Hrun;
    simpl in Hrun.
  - by injection Hrun as <-.
  - destruct (step op s0) as [s1|] eqn:Hstep; simpl in Hrun; [|done].
    destruct (step_inv op s0 s1) as [Hinv1 Hop1]; try done.
    apply (IH s1); try done. by apply (step_dom_inv op s0).
Qed.

Lemma flush_closing_total s el :
  stack_inv s → is_Some (overlays s !! el) →
  is_Some (_flushAnimation closing el s).
Proof.
  intros Hinv Hel. unfold _flushAnimation. simpl.
  destruct (__closingHandler (ov s el)) eqn:Hh; [|done].
  assert (attr_closing (ov s el) = true) as Hc.
  { destruct Hel as [o Ho].
    destruct (inv_phase s Hinv el o Ho) as [(_&Hh'&_)|[_ Heq]];
      rewrite <- (ov_lookup s el o Ho) in *; congruence. }
  destruct (closing_in_flight s el Hinv Hel Hc)
    as (ph&p&_&_&_&_&_&_&_&_&->). done.
Qed.

Lemma close_total s el veto a :
  stack_inv s → opened_inv s → dom_inv s → is_Some (overlays s !! el) →
  is_Some (close veto a el s).
Proof.
  intros Hinv Hop (_&(Hrp&Hrh&_)&_&rank&Hac&_) Hel.
  destruct (opened (ov s el)) eqn:Hopen.
  - assert (el ∈ attached_children s) as Hin by (by apply Hop).
    destruct (attached_phase s el Hinv Hin) as ((_&_&_&ph&p&Hph&Hp&_)&_).
    destruct (close_outcome rank veto a el s ph p) as (s'&_&->&_);
      try done.
    unfold parentNode_or_host. by rewrite Hrp.
  - unfold close. destruct (negb _); [|done].
    unfold set_opened_property.
    change (opened (ov (dispatchEvent el vaadin_overlay_close s) el))
      with (opened (ov s el)).
    by rewrite Hopen, decide_True.
Qed.

(** No operation on an overlay fails. *)
Lemma step_total op s :
  stack_inv s → opened_inv s → dom_inv s →
  is_Some (overlays s !! target op) → is_Some (step op s).
Proof.
  intros Hinv Hop Hdom Hel. unfold step. rewrite decide_True by done.
  destruct op as [el a|el a|el|el|el v|el e|el e|el e veto a|el e veto a];
    simpl in *; try done.
  - destruct (opened (ov s el)) eqn:Hopen; [|by apply open_total].
    unfold set_opened_property. by rewrite Hopen, decide_True.
  - destruct (opened (ov s el)) eqn:Hopen.
    + destruct Hdom as (_&(Hrp&Hrh&_)&_&rank&Hac&_).
      assert (el ∈ attached_children s) as Hin by (by apply Hop).
      destruct (attached_phase s el Hinv Hin) as ((_&_&_&ph&p&Hph&Hp&_)&_).
      destruct (set_opened_false rank a el s ph p) as (s'&->&_); try done.
      unfold parentNode_or_host. by rewrite Hrp.
    + unfold set_opened_property. by rewrite Hopen, decide_True.
  - unfold animationend.
    destruct (_flushAnimation_opening_Some el s) as (s1&->&Hf1). simpl.
    destruct (Hf1 _ stack_view) as [Hf _]; [done..|].
    apply flush_closing_total; [by apply (stack_inv_frame s)|].
    destruct Hf as (_&_&_&Hd&_). by apply Hd.
  - unfold _outsideClickListener.
    destruct (_ || _); [done|]. destruct (negb _); [done|].
    destruct (_ && _); [|done].
    destruct (inv_dispatchEvent el vaadin_overlay_outside_click s)
      as (?&?&?); try done.
    by apply close_total.
  - unfold _keydownListener.
    destruct (negb _); [done|]. destruct (_ && _); [done|].
    case_decide; [|done]. destruct (_ && _); [|done].
    destruct (inv_dispatchEvent el vaadin_overlay_escape_press s)
      as (?&?&?); try done.
    by apply close_total.
Qed.

(** X16.  On a well-formed page (a document without cycles rooted at
    [document], every overlay below [<body>], no overlay opened yet), every
    sequence of operations on overlays of the page runs to its end: no
    call raises a [TypeError] for a missing parent or placeholder, and no
    walk through the document fails to terminate. *)
Theorem operations_never_fail rank ops s0 :
  well_formed rank s0 →
  Forall (λ op, is_Some (overlays s0 !! target op)) ops →
  is_Some (run ops s0).
Proof.
  intros Hwf Hops.
  destruct (initial_inv s0) as [Hinv Hop]; [apply Hwf|].
  pose proof (well_formed_dom_inv rank s0 Hwf) as Hdom.
  clear Hwf. revert s0 Hinv Hop Hdom Hops.
  induction ops as [|op ops IH]; intros s0 Hinv Hop Hdom Hops; [done|].
  apply Forall_cons in Hops as [Hel Hops]. simpl.
  destruct (step_total op s0 Hinv Hop Hdom Hel) as [s1 Hstep].
  rewrite Hstep. simpl.
  destruct (step_inv op s0 s1 Hinv Hop Hstep) as [Hinv1 Hop1].
  apply IH; try done.
  - by apply (step_dom_inv op s0).
  - eapply Forall_impl; [exact Hops|]. intros op' Hel'. simpl in Hel'.
    by apply (step_is_Some op s0 s1).
Qed.

(** ** Opening and closing as a round trip *)

Lemma list_remove_notin x (l : list Node) : x ∉ l → list_remove x l = l.
Proof.
  intros Hx. unfold list_remove. apply filter_id. rewrite Forall_forall.
  by intros y Hy ->.
Qed.

Lemma list_remove_snoc x (l : list Node) :
  x ∉ l → list_remove x (l ++ [x]) = l.
Proof.
  intros Hx. unfold list_remove. rewrite filter_app, filter_cons.
  rewrite decide_False by (by intros ?). rewrite filter_nil, app_nil_r.
  by apply list_remove_notin.
Qed.

(** What opening does to the document, for an overlay that is closed and
    not in its closing animation. *)
Lemma open_document s s' el a p :
  stack_inv s → opened_inv s → is_Some (overlays s !! el) →
  el ∉ body_childNodes s → parentNode s !! el = Some p →
  set_opened_property a el true s = Some s' →
  opened (ov s el) = false ∧
  parentNode s' = <[el:=body]> (<[next_node s:=p]> (parentNode s)) ∧
  body_childNodes s'
  = list_remove el (list_remove (next_node s) (body_childNodes s)) ++ [el] ∧
  next_node s' = S (next_node s) ∧
  _placeholder (ov s' el) = Some (next_node s).
Proof.
  intros Hinv Hop Hel Hnb Hp Hset.
  assert (opened (ov s el) = false) as Hclosed.
  { destruct (opened (ov s el)) eqn:Ho; [|done]. apply Hop in Ho; [|done].
    by apply elem_of_attached_children in Ho as [? _]. }
  split; [done|].
  assert (p ≠ body) as Hpb.
  { destruct Hel as [o Ho].
    destruct (inv_phase s Hinv el o Ho) as [(_&_&_&q&Hq&?)|[(?&_) _]];
      [|done]. congruence. }
  unfold set_opened_property in Hset.
  rewrite Hclosed, decide_False in Hset by done.
  set (pre := update el (set___restoreFocusNode
                           (Some (_getActiveElement s)))
                (update el (set_opened true) s)).
  change (_animatedOpening a el pre = Some s') in Hset.
  apply _animatedOpening_Some in Hset as (s1&q&Hfl&Hq&->).
  change (parentNode pre) with (parentNode s) in Hfl.
  rewrite Hp, bool_decide_eq_false_2 in Hfl by congruence.
  simpl in Hfl. injection Hfl as <-.
  change (parentNode pre) with (parentNode s) in Hq.
  rewrite Hp in Hq. injection Hq as <-.
  destruct (frame_opening_tail _placeholder a el
              (bringToFront el (appended el p pre)))
    as (Hb&Hpn&Hn&_&Hv); [done..|].
  rewrite Hb, Hpn, Hn, Hv. split_and!.
  - apply (appended_parentNode el p pre).
  - by apply (appended_body el p pre).
  - done.
  - rewrite (bringToFront_field _placeholder) by done.
    apply (appended_placeholder el p pre).
    unfold pre. by rewrite !update_is_Some.
Qed.

(** What closing does to it. *)
Lemma close_document s s' el a :
  stack_inv s → opened_inv s → is_Some (overlays s !! el) →
  opened (ov s el) = true →
  set_opened_property a el false s = Some s' →
  ∃ ph p, _placeholder (ov s el) = Some ph ∧ parentNode s !! ph = Some p ∧
    p ≠ body ∧ next_node s' = next_node s ∧
    if a
    then parentNode s' = parentNode s ∧
         body_childNodes s' = body_childNodes s ∧
         _placeholder (ov s' el) = Some ph ∧
         __closingHandler (ov s' el) = true
    else parentNode s' = delete ph (<[el:=p]> (parentNode s)) ∧
         body_childNodes s'
         = list_remove ph (list_remove el (body_childNodes s)).
Proof.
  intros Hinv Hop Hel Hopen Hset.
  unfold set_opened_property in Hset.
  rewrite Hopen, decide_False in Hset by done.
  unfold _openedChanged in Hset.
  set (s0 := update el (set_opened false) s) in Hset.
  assert (frame _placeholder s s0) as Hf0 by (by apply frame_update).
  apply _animatedClosing_Some in Hset as (s00&Hs00&Hrest).
  assert (el ∈ attached_children s) as Hin by (by apply Hop).
  destruct (attached_phase s el Hinv Hin)
    as ((Hb&_&_&ph&p&Hph&Hp&Hpb&_)&_).
  assert (_placeholder (ov s0 el) = Some ph) as Hph0.
  { unfold s0. by rewrite (ov_update_field _placeholder). }
  rewrite Hph0 in Hrest. destruct Hrest as (s2&Hrf&Hs').
  set (sm := closing_marked el s2) in *.
  assert (frame _placeholder s sm) as (Hbm&Hpm&Hnm&Hdm&Hvm).
  { eapply frame_trans; [exact Hf0|].
    eapply frame_trans; [by apply Hs00|].
    eapply frame_trans; [by apply frame_exit|].
    eapply frame_trans;
      [by apply (restore_focus_frame _placeholder el _ s2)|].
    unfold sm, closing_marked.
    eapply frame_trans; [|apply frame_dispatchEvent].
    by apply frame_update. }
  exists ph, p. split_and!; try done.
  - destruct a; [by subst s'|].
    by apply _finishClosing_Some in Hs' as (ph'&q'&_&_&->).
  - destruct a.
    + subst s'. unfold _enqueueAnimation. split_and!; try done.
      * rewrite (ov_update_field _placeholder) by done. by rewrite Hvm.
      * rewrite ov_update_eq; [done|]. by apply Hdm.
    + apply _finishClosing_Some in Hs' as (ph'&q'&Hph'&Hq'&->).
      rewrite Hvm, Hph in Hph'. injection Hph' as <-.
      rewrite Hpm, Hp in Hq'. injection Hq' as <-.
      rewrite finished_closing_parentNode, finished_closing_body by done.
      by rewrite Hpm, Hbm.
Qed.

(** What the end of an animation does to it. *)
Lemma animationend_document s s' el :
  stack_inv s → is_Some (overlays s !! el) →
  animationend el s = Some s' →
  next_node s' = next_node s ∧
  if __closingHandler (ov s el)
  then ∃ ph p, _placeholder (ov s el) = Some ph ∧
         parentNode s !! ph = Some p ∧
         parentNode s' = delete ph (<[el:=p]> (parentNode s)) ∧
         body_childNodes s'
         = list_remove ph (list_remove el (body_childNodes s))
  else parentNode s' = parentNode s ∧
       body_childNodes s' = body_childNodes s.
Proof.
  intros Hinv Hel Hend. unfold animationend in Hend.
  destruct (_flushAnimation_opening_Some el s) as (s1&Hs1&Hf1).
  rewrite Hs1 in Hend. simpl in Hend.
  destruct (Hf1 _ stack_view) as [Hf _]; [done..|].
  pose proof (stack_inv_frame s s1 Hf Hinv) as Hinv1.
  pose proof Hf as (Hb1&Hp1&Hn1&Hd1&Hv1).
  pose proof (Hv1 el) as (Hc1&Hh1&Hph1&_)%stack_view_inv.
  rewrite <- Hh1.
  apply _flushAnimation_closing_Some in Hend
    as [[Hh ->]|(Hh&ph&q&Hph&Hq&->)]; rewrite Hh; [done|].
  split; [done|].
  assert (q ≠ body) as Hqb.
  { assert (is_Some (overlays s1 !! el)) as [o Ho] by (by apply Hd1).
    assert (attr_closing (ov s1 el) = true) as Hc.
    { destruct (inv_phase s1 Hinv1 el o Ho) as [(_&Hh'&_)|[_ Heq]];
        rewrite <- (ov_lookup s1 el o Ho) in *; congruence. }
    destruct (closing_in_flight s1 el Hinv1 (mk_is_Some _ _ Ho) Hc)
      as (ph'&q'&Hph'&Hq'&?&_).
    congruence. }
  exists ph, q. rewrite <- Hph1, <- Hp1, <- Hb1. split_and!; try done.
  change (body_childNodes (finished_closing el ph q s1)
          = list_remove ph (list_remove el (body_childNodes s1))).
  by apply finished_closing_body.
Qed.

(** X18.  Take a well-formed page (a document without cycles rooted at
    [document], on which no overlay has been opened and every overlay is
    declared outside the child list of [<body>]) whose style sheets give
    every overlay a number for its z-index.  After any sequence of
    operations on it, setting [opened] to false on an open overlay returns
    and dispatches [vaadin-overlay-closing].  Whether the closing is
    animated or not, the overlay leaves the stack at once and the other
    instances keep their order, so that dismissal is routed to the
    instance below from then on; only an overlay whose closing is animated
    stays a child of [<body>] until the animation ends. *)
Theorem close_leaves_stack rank ops s0 s a this :
  well_formed rank s0 → numeric_sheets s0 → run ops s0 = Some s →
  is_Some (overlays s !! this) → opened (ov s this) = true →
  ∃ s', set_opened_property a this false s = Some s' ∧
    opened (ov s' this) = false ∧
    dispatched s' = (this, vaadin_overlay_closing) :: dispatched s ∧
    __attachedInstances s' = others s this ∧
    _last s' this = false ∧
    (this ∈ body_childNodes s' ↔ a = true).
Proof.
  intros Hwf Hsheets Hrun Hel Hopen.
  destruct (initial_inv s0) as [Hinv0 Hop0]; [apply Hwf|].
  destruct (run_inv ops s0 s Hinv0 Hop0 (well_formed_dom_inv rank s0 Hwf)
              Hrun) as (Hinv&Hop&Hdom).
  pose proof (run_numeric_sheets ops s0 s Hrun Hsheets) as Hns.
  assert (this ∈ attached_children s) as Hin by (by apply Hop).
  destruct (attached_phase s this Hinv Hin)
    as ((Hb&_&_&ph&p&Hph&Hp&Hpb&_)&_).
  pose proof Hdom as (_&(Hrp&Hrh&_)&_&rank'&Hac&_).
  destruct (set_opened_false rank' a this s ph p) as (s'&Hs'&Hclosed&Hd);
    try done.
  { unfold parentNode_or_host. by rewrite Hrp. }
  destruct (close_stack s s' this a Hinv Hop Hel Hopen Hs')
    as (Hinv'&Hop'&HA&Hz).
  assert (__attachedInstances s' = others s this) as Hst.
  { apply (attachedInstances_removed s s' this); try done.
    by apply stack_inv_numeric. }
  exists s'. split_and!; try done.
  - apply bool_decide_eq_false. rewrite Hst. intros Hlast.
    assert (this ∈ others s this) as Hmem.
    { apply list_elem_of_lookup.
      exists (pred (length (others s this))). by rewrite <- last_lookup. }
    apply elem_of_others in Hmem. tauto.
  - destruct (close_document s s' this a Hinv Hop Hel Hopen Hs')
      as (ph'&p'&Hph'&Hp'&Hpb'&_&Hshape).
    destruct a.
    + destruct Hshape as (_&->&_). done.
    + destruct Hshape as (_&->). rewrite !elem_of_list_remove.
      split; [tauto|done].
Qed.

(** ** Containment *)

(** X19.  On a document without cycles rooted at [document],
    [_deepContains] returns for every overlay and every node, and it
    returns true exactly when the overlay is the node itself or lies above
    it along parent links and the links from shadow roots to their
    hosts. *)
Theorem deepContains_decides_ancestry rank s this n :
  acyclic rank s → parentNode_or_host s document = None →
  ∃ b, _deepContains s this n = Some b ∧
       (b = true ↔ deep_ancestor s n this).
Proof. intros Hac Hroot. by apply (_deepContains_spec rank). Qed.

(** ** The record of the body's pointer-events *)

Lemma close_record s s' el veto a :
  (opened (ov s el) = true → is_Some (_placeholder (ov s el))) →
  close veto a el s = Some s' →
  _previousDocumentPointerEvents (ov s' el) = None ∨ ov s' el = ov s el.
Proof.
  intros Hph. unfold close.
  destruct (negb _); [|intros [= <-]; by right].
  intros Hset.
  destruct (opened (ov s el)) eqn:Hopen.
  - left.
    by destruct (close_modal_effect
                   (dispatchEvent el vaadin_overlay_close s) s' el a)
      as (_&_&_&?); auto.
  - right. unfold set_opened_property in Hset.
    rewrite ov_dispatchEvent, Hopen, decide_True in Hset by done.
    by injection Hset as <-.
Qed.

Lemma step_target_record op s s' :
  stack_inv s → opened_inv s → record_inv s → step op s = Some s' →
  is_Some (_previousDocumentPointerEvents (ov s' (target op))) →
  opened (ov s' (target op)) = true ∧ modeless (ov s' (target op)) = false.
Proof.
  intros Hinv Hop Hrec Hstep.
  destruct (step_inv op s s' Hinv Hop Hstep) as [Hinv' Hop'].
  apply step_Some in Hstep as [Hel Hperf].
  assert (∀ el, opened (ov s el) = false →
            _previousDocumentPointerEvents (ov s el) = None) as Hnone.
  { intros el Hclosed.
    destruct (_previousDocumentPointerEvents (ov s el)) eqn:Hr; [|done].
    destruct (Hrec el) as [? _]; [by rewrite Hr|congruence]. }
  destruct op as [el a|el a|el|el|el v|el e|el e|el e veto a|el e veto a];
    simpl in Hel, Hperf |- *.
  - destruct (opened (ov s el)) eqn:Hopen.
    { unfold set_opened_property in Hperf.
      rewrite Hopen, decide_True in Hperf by done. injection Hperf as <-.
      apply Hrec. }
    destruct (open_modal_effect s s' el a Hel Hopen Hperf) as (Hm&_&Hcase).
    destruct (open_stack s s' el a Hinv Hop Hel Hopen Hperf)
      as (_&_&HA&_).
    assert (opened (ov s' el) = true) as Hopen'.
    { apply Hop'; [by apply (set_opened_is_Some a el true s s' el)|].
      rewrite HA, elem_of_app, list_elem_of_singleton. by right. }
    rewrite Hm. destruct (modeless (ov s el)); [|done].
    destruct Hcase as [_ ->]. rewrite (Hnone el Hopen). by intros [? ?].
  - destruct (opened (ov s el)) eqn:Hopen.
    + destruct (close_modal_effect s s' el a) as (_&_&_&->);
        [done|by apply open_placeholder|done|].
      by intros [? ?].
    + unfold set_opened_property in Hperf.
      rewrite Hopen, decide_True in Hperf by done. injection Hperf as <-.
      apply Hrec.
  - destruct (pe_same_animationend el s s' Hperf) as [_ Hr].
    rewrite Hr, (animationend_field opened el s s' el Hperf),
      (animationend_field modeless el s s' el Hperf) by done.
    apply Hrec.
  - injection Hperf as <-.
    rewrite !bringToFront_field by done. apply Hrec.
  - injection Hperf as <-. unfold set_modeless_property.
    case_decide as Hv; [apply Hrec|].
    assert (is_Some (overlays (update el (set_modeless v) s) !! el)) as Hel0
      by (by apply update_is_Some).
    unfold _modelessChanged. destruct v; simpl.
    + rewrite _exitModalState_previous, decide_True by done.
      by intros [? ?].
    + destruct (opened (ov (update el (set_modeless false) s) el)) eqn:Ho.
      * rewrite (_enterModalState_field opened),
          (_enterModalState_field modeless) by done.
        rewrite Ho, ov_update_eq by done. done.
      * rewrite (ov_update_field opened) in Ho by done.
        rewrite (ov_update_field _previousDocumentPointerEvents) by done.
        rewrite (Hnone el Ho). by intros [? ?].
  - injection Hperf as <-. unfold _mouseDownListener.
    rewrite !ov_update_field by done. apply Hrec.
  - injection Hperf as <-. unfold _mouseUpListener.
    rewrite !ov_update_field by done. apply Hrec.
  - revert Hperf. unfold _outsideClickListener.
    destruct (_ || _).
    { intros [= <-]. rewrite !ov_update_field by done. apply Hrec. }
    destruct (negb _); [intros [= <-]; apply Hrec|].
    destruct (_ && _); [|intros [= <-]; apply Hrec].
    intros Hclose.
    apply (close_record _ s' el veto a) in Hclose as [->| ->].
    + by intros [? ?].
    + apply Hrec.
    + exact (open_placeholder s el Hinv Hop Hel).
  - revert Hperf. unfold _keydownListener.
    destruct (negb _); [intros [= <-]; apply Hrec|].
    destruct (_ && _); [intros [= <-]; apply Hrec|].
    case_decide; [|intros [= <-]; apply Hrec].
    destruct (_ && _); [|intros [= <-]; apply Hrec].
    intros Hclose.
    apply (close_record _ s' el veto a) in Hclose as [->| ->].
    + by intros [? ?].
    + apply Hrec.
    + exact (open_placeholder s el Hinv Hop Hel).
Qed.

Lemma record_inv_step op s s' :
  stack_inv s → opened_inv s → record_inv s → step op s = Some s' →
  record_inv s'.
Proof.
  intros Hinv Hop Hrec Hstep el.
  destruct (decide (el = target op)) as [->|Hne].
  - by apply (step_target_record op s s').
  - destruct (step_other op s s' el Hstep Hne) as [-> ->].
    destruct (pe_step_step op s s' Hstep) as [Hr _].
    rewrite Hr by done. apply Hrec.
Qed.

Lemma record_inv_run ops s0 s :
  initial s0 → run ops s0 = Some s → record_inv s.
Proof.
  intros Hinit Hrun.
  assert (record_inv s0) as Hrec0.
  { intros j. destruct (overlays s0 !! j) as [o|] eqn:Ho.
    - rewrite (ov_lookup s0 j o Ho). destruct Hinit as (Hfresh&_).
      destruct (Hfresh j o Ho) as (_&_&_&_&_&_&_&->&_). by intros [? ?].
    - unfold ov. rewrite Ho. simpl. by intros [? ?]. }
  assert (reachable s0) as Hreach by (by apply reachable_initial).
  clear Hinit. revert s0 Hrun Hrec0 Hreach.
  induction ops as [|op ops IH]; intros s0 Hrun Hrec0 Hreach;
    simpl in Hrun.
  - by injection Hrun as <-.
  - destruct (step op s0) as [s1|] eqn:Hstep; simpl in Hrun; [|done].
    destruct (reachable_inv s0 Hreach) as [Hinv Hop].
    apply (IH s1); try done.
    + by apply (record_inv_step op s0).
    + by apply (reachable_step s0 op).
Qed.

(** X20.  After any sequence of operations on a page on which no overlay
    had been opened, an overlay that holds a record of the previous
    [pointer-events] of [<body>] is open and modal: a closed overlay and a
    modeless one hold none, so that none is ever written back late. *)
Theorem record_only_while_modal ops s0 s el :
  initial s0 → run ops s0 = Some s →
  is_Some (_previousDocumentPointerEvents (ov s el)) →
  opened (ov s el) = true ∧ modeless (ov s el) = false.
Proof. intros Hinit Hrun. by apply (record_inv_run ops s0 s). Qed.


(** X17.  On a well-formed page, after any sequence of operations, take an
    overlay that is not a child of [<body>].  Opening it, closing it and
    letting the animation end, with or without animations, returns, and
    puts the document back as it was: every node has the parent it had,
    [<body>] has the children it had in the order they were in and the
    inline [pointer-events] it had, the placeholder is gone, the stack is
    the one it was and the overlay is closed. *)
Theorem open_close_round_trip rank ops s0 s a a' this :
  well_formed rank s0 → run ops s0 = Some s →
  is_Some (overlays s !! this) → this ∉ body_childNodes s →
  ∃ s', run [Open this a; Close this a'; AnimationEnd this] s = Some s' ∧
    parentNode s' = parentNode s ∧
    body_childNodes s' = body_childNodes s ∧
    host s' = host s ∧
    body_pointerEvents s' = body_pointerEvents s ∧
    __attachedInstances s' = __attachedInstances s ∧
    opened (ov s' this) = false ∧ attr_closing (ov s' this) = false.
Proof.
  intros Hwf Hrun Hel Hnb.
  destruct (initial_inv s0) as [Hinv0 Hop0]; [apply Hwf|].
  destruct (run_inv ops s0 s Hinv0 Hop0 (well_formed_dom_inv rank s0 Hwf)
              Hrun) as (Hinv&Hop&Hdom).
  (* where the overlay is *)
  assert (∃ p, parentNode s !! this = Some p) as [p Hp].
  { destruct Hel as [o Ho].
    destruct (inv_phase s Hinv this o Ho) as [(_&_&_&q&Hq&_)|[(?&_) _]];
      [eauto|done]. }
  set (ph := next_node s).
  assert (parentNode s !! ph = None) as Hphnone.
  { destruct Hdom as ((Hpn&_)&_).
    destruct (parentNode s !! ph) as [m|] eqn:Hm; [|done].
    destruct (Hpn ph m Hm) as [Hlt _]. unfold ph in Hlt. lia. }
  assert (ph ∉ body_childNodes s) as Hphnb.
  { destruct Hdom as ((_&_&Hbl&_)&_). rewrite Forall_forall in Hbl.
    intros Hin. apply Hbl in Hin. unfold ph in Hin. lia. }
  assert (this ≠ ph) as Hne.
  { intros Heq. pose proof (inv_fresh s Hinv this Hel) as Hlt.
    rewrite Heq in Hlt. unfold ph in Hlt. lia. }
  assert (this ∉ attached_children s) as Hnin.
  { by intros [? _]%elem_of_attached_children. }
  (* opening *)
  destruct (step_total (Open this a) s Hinv Hop Hdom Hel) as [s1 Hstep1].
  destruct (step_inv _ s s1 Hinv Hop Hstep1) as [Hinv1 Hop1].
  pose proof (step_dom_inv _ s s1 Hinv Hop Hdom Hstep1) as Hdom1.
  pose proof (step_host _ s s1 Hstep1) as Hhost1.
  assert (is_Some (overlays s1 !! this)) as Hel1
    by (by apply (step_is_Some _ s s1 this Hstep1)).
  pose proof Hstep1 as [_ Hopen]%step_Some. simpl in Hopen.
  destruct (open_document s s1 this a p Hinv Hop Hel Hnb Hp Hopen)
    as (Hclosed&Hpn1&Hb1&Hn1&Hph1).
  destruct (open_stack s s1 this a Hinv Hop Hel Hclosed Hopen)
    as (_&_&HA1&Hz1&_).
  assert (opened (ov s1 this) = true) as Hopened1.
  { apply Hop1; [done|]. rewrite HA1, elem_of_app, list_elem_of_singleton.
    by right. }
  (* closing *)
  destruct (step_total (Close this a') s1 Hinv1 Hop1 Hdom1 Hel1)
    as [s2 Hstep2].
  destruct (step_inv _ s1 s2 Hinv1 Hop1 Hstep2) as [Hinv2 Hop2].
  pose proof (step_dom_inv _ s1 s2 Hinv1 Hop1 Hdom1 Hstep2) as Hdom2.
  pose proof (step_host _ s1 s2 Hstep2) as Hhost2.
  pose proof Hstep2 as [_ Hclose]%step_Some. simpl in Hclose.
  destruct (close_document s1 s2 this a' Hinv1 Hop1 Hel1 Hopened1 Hclose)
    as (ph'&p'&Hph'&Hp'&_&Hn2&Hshape).
  rewrite Hph1 in Hph'. injection Hph' as <-. fold ph in Hpn1, Hb1.
  rewrite Hpn1, lookup_insert_ne, lookup_insert_eq in Hp' by done.
  injection Hp' as <-.
  destruct (close_stack s1 s2 this a' Hinv1 Hop1 Hel1 Hopened1 Hclose)
    as (_&_&HA2&Hz2).
  (* the end of the animation *)
  assert (is_Some (overlays s2 !! this)) as Hel2
    by (by apply (step_is_Some _ s1 s2 this Hstep2)).
  destruct (step_total (AnimationEnd this) s2 Hinv2 Hop2 Hdom2 Hel2)
    as [s3 Hstep3].
  destruct (step_inv _ s2 s3 Hinv2 Hop2 Hstep3) as [Hinv3 Hop3].
  pose proof (step_host _ s2 s3 Hstep3) as Hhost3.
  pose proof Hstep3 as [_ Hend]%step_Some. simpl in Hend.
  destruct (animationend_document s2 s3 this Hinv2 Hel2 Hend)
    as [Hn3 Hshape3].
  destruct (animationend_stack s2 s3 this Hinv2 Hop2 Hel2 Hend)
    as (_&_&HA3&Hz3).
  assert (parentNode s3 = delete ph (<[this:=p]> (parentNode s1)) ∧
          body_childNodes s3
          = list_remove ph (list_remove this (body_childNodes s1)))
    as [Hpn3 Hb3].
  { destruct a'.
    - destruct Hshape as (Hpn2&Hb2&Hph2&Hh2). rewrite Hh2 in Hshape3.
      destruct Hshape3 as (ph3&p3&Hph3&Hp3&Hpn3&Hb3).
      rewrite Hph2 in Hph3. injection Hph3 as <-.
      rewrite Hpn2, Hpn1, lookup_insert_ne, lookup_insert_eq in Hp3 by done.
      injection Hp3 as <-. by rewrite Hpn3, Hb3, Hpn2, Hb2.
    - destruct Hshape as (Hpn2&Hb2).
      assert (__closingHandler (ov s2 this) = false) as Hh2.
      { destruct Hel2 as [o Ho]. rewrite (ov_lookup s2 this o Ho).
        destruct (inv_phase s2 Hinv2 this o Ho)
          as [(_&?&_)|[(Hin&_) _]]; [done|].
        rewrite Hb2, !elem_of_list_remove in Hin. tauto. }
      rewrite Hh2 in Hshape3. destruct Hshape3 as [-> ->]. done. }
  exists s3. split_and!.
  - simpl. rewrite Hstep1. simpl. rewrite Hstep2. simpl. by rewrite Hstep3.
  - rewrite Hpn3, Hpn1, insert_insert_eq, delete_insert_ne by done.
    rewrite delete_insert_eq, delete_id by done. by apply insert_id.
  - rewrite Hb3, Hb1.
    rewrite (list_remove_notin ph (body_childNodes s)) by done.
    rewrite (list_remove_notin this (body_childNodes s)) by done.
    rewrite list_remove_snoc by done. by apply list_remove_notin.
  - congruence.
  - assert (_previousDocumentPointerEvents (ov s this) = None) as Hnone.
    { destruct (_previousDocumentPointerEvents (ov s this)) eqn:Hr; [|done].
      destruct (record_inv_run ops s0 s (proj1 Hwf) Hrun this) as [Ho _];
        [by rewrite Hr|congruence]. }
    destruct (pe_same_animationend this s2 s3 Hend) as [-> _].
    assert (is_Some (_placeholder (ov s1 this))) as Hsome
      by (by rewrite Hph1).
    destruct (close_modal_effect s1 s2 this a' Hopened1 Hsome Hclose)
      as (_&_&->&_).
    destruct (open_modal_effect s s1 this a Hel Hclosed Hopen)
      as (_&_&Hcase).
    destruct (modeless (ov s this)).
    + destruct Hcase as [-> ->]. by rewrite Hnone.
    + destruct Hcase as [-> ->].
      destruct (decide (body_pointerEvents s ≠ "none"%string)) as [Hb|Hb];
        [done|].
      rewrite Hnone. simpl. symmetry. by apply dec_stable.
  - assert (attached_children s3 = attached_children s) as HA.
    { rewrite HA3, HA2, HA1, filter_app, filter_cons.
      rewrite decide_False by (by intros ?). rewrite filter_nil, app_nil_r.
      by apply filter_not_elem. }
    unfold __attachedInstances. rewrite HA. apply sort_ext.
    intros x y Hx Hy.
    assert (∀ j, j ∈ attached_children s →
              __zIndex (ov s3 j) = __zIndex (ov s j)) as Hz.
    { intros j Hj. rewrite Hz3, Hz2. apply Hz1. by intros ->. }
    unfold compareFn. by rewrite !Hz.
  - destruct (opened (ov s3 this)) eqn:Ho; [|done].
    apply Hop3 in Ho; [|by apply (step_is_Some _ s2 s3 this Hstep3)].
    rewrite HA3, HA2, HA1, list_elem_of_filter in Ho. tauto.
  - assert (is_Some (overlays s3 !! this)) as [o Ho]
      by (by apply (step_is_Some _ s2 s3 this Hstep3)).
    rewrite (ov_lookup s3 this o Ho).
    destruct (inv_phase s3 Hinv3 this o Ho) as [(?&_)|[(Hin&_) _]]; [done|].
    rewrite Hb3, !elem_of_list_remove in Hin. tauto.
Qed.

(** ** The overlay that recorded the body's [pointer-events] *)

Lemma owner_inv_no_record pe0 s :
  owner_inv pe0 s → body_pointerEvents s ≠ "none"%string →
  ∀ el, _previousDocumentPointerEvents (ov s el) = None.
Proof.
  intros [Hrec _] Hb el.
  destruct (_previousDocumentPointerEvents (ov s el)) as [v|] eqn:Hv;
    [|done].
  by destruct (Hrec el v Hv) as (_&_&?&_).
Qed.

Lemma owner_inv_step pe0 this s s' :
  pe_step this s s' → owner_inv pe0 s → owner_inv pe0 s'.
Proof.
  intros [Hothers Hcase] Hinv. pose proof Hinv as [Hrec Hnone].
  destruct Hcase as [[Hb Hr]|[(Hne&Hb&Hr)|(v&Hr&Hb&Hr')]].
  - assert (∀ el, _previousDocumentPointerEvents (ov s' el)
                  = _previousDocumentPointerEvents (ov s el)) as Hsame.
    { intros el. destruct (decide (el = this)) as [->|?]; [done|].
      by apply Hothers. }
    split.
    + intros el v. rewrite Hsame, Hb. intros Hv.
      destruct (Hrec el v Hv) as (?&?&?&Huniq). split_and!; try done.
      intros el'. rewrite Hsame. apply Huniq.
    + intros Hall. rewrite Hb. apply Hnone. intros el.
      by rewrite <- Hsame.
  - pose proof (owner_inv_no_record pe0 s Hinv Hne) as Hall.
    pose proof (Hnone Hall) as Hpe0. split.
    + intros el v Hv.
      assert (el = this) as ->.
      { destruct (decide (el = this)) as [|Hneq]; [done|].
        rewrite Hothers, Hall in Hv by done. done. }
      rewrite Hr in Hv. injection Hv as <-. split_and!; try done.
      * by rewrite <- Hpe0.
      * intros el' [v' Hv']. destruct (decide (el' = this)) as [|Hneq]; [done|].
        rewrite Hothers, Hall in Hv' by done. done.
    + intros Hall'. by rewrite Hall' in Hr.
  - destruct (Hrec this v Hr) as (->&_&_&Huniq).
    assert (∀ el, _previousDocumentPointerEvents (ov s' el) = None) as Hall.
    { intros el. destruct (decide (el = this)) as [->|Hneq]; [done|].
      rewrite Hothers by done.
      destruct (_previousDocumentPointerEvents (ov s el)) eqn:Hv; [|done].
      destruct Hneq. apply Huniq. by rewrite Hv. }
    split; [|done]. intros el v. by rewrite Hall.
Qed.

Lemma owner_inv_run ops s0 s :
  initial s0 → run ops s0 = Some s → owner_inv (body_pointerEvents s0) s.
Proof.
  intros Hinit Hrun.
  assert (owner_inv (body_pointerEvents s0) s0) as Hown.
  { assert (∀ j, _previousDocumentPointerEvents (ov s0 j) = None) as Hall.
    { intros j. destruct (overlays s0 !! j) as [o|] eqn:Ho.
      - rewrite (ov_lookup s0 j o Ho). destruct Hinit as (Hfresh&_).
        by destruct (Hfresh j o Ho) as (_&_&_&_&_&_&_&->&_).
      - unfold ov. by rewrite Ho. }
    split; [|done]. intros el v. by rewrite Hall. }
  clear Hinit. generalize dependent (body_pointerEvents s0). intros pe0.
  revert s0 Hrun. induction ops as [|op ops IH]; intros s0 Hrun Hown;
    simpl in Hrun.
  - by injection Hrun as <-.
  - destruct (step op s0) as [s1|] eqn:Hstep; simpl in Hrun; [|done].
    apply (IH s1); [done|].
    apply (owner_inv_step pe0 (target op) s0); [|done].
    by apply pe_step_step.
Qed.

(** After [this.opened = false] the overlay is not open. *)
Lemma set_opened_false_closed s s' el a :
  stack_inv s → opened_inv s → is_Some (overlays s !! el) →
  set_opened_property a el false s = Some s' → opened (ov s' el) = false.
Proof.
  intros Hinv Hop Hel Hset.
  destruct (close_stack_any s s' el a Hinv Hop Hel Hset) as (_&Hop'&HA&_).
  destruct (opened (ov s' el)) eqn:Ho'; [|done].
  apply Hop' in Ho'; [|by apply (set_opened_is_Some a el false s s')].
  rewrite HA in Ho'. by apply list_elem_of_filter in Ho' as [? _].
Qed.

Lemma close_keeps_record s s' el veto a :
  stack_inv s → opened_inv s → is_Some (overlays s !! el) →
  close veto a el s = Some s' → opened (ov s' el) = true →
  _previousDocumentPointerEvents (ov s' el)
  = _previousDocumentPointerEvents (ov s el).
Proof.
  intros Hinv Hop Hel Hclose Ho'. unfold close in Hclose.
  set (s1 := dispatchEvent el vaadin_overlay_close s) in *.
  destruct (inv_frame s s1 (frame_dispatchEvent _ _ _ _) Hinv Hop)
    as (Hinv1&Hop1&_).
  destruct (negb _).
  - rewrite (set_opened_false_closed s1 s' el a) in Ho'; done.
  - by injection Hclose as <-.
Qed.

(** An operation on an open modal overlay that leaves it open and modal
    leaves its record alone. *)
Lemma step_keeps_record op s s' :
  stack_inv s → opened_inv s → step op s = Some s' →
  opened (ov s (target op)) = true → modeless (ov s (target op)) = false →
  opened (ov s' (target op)) = true → modeless (ov s' (target op)) = false →
  _previousDocumentPointerEvents (ov s' (target op))
  = _previousDocumentPointerEvents (ov s (target op)).
Proof.
  intros Hinv Hop [Hel Hperf]%step_Some Ho Hm Ho' Hm'.
  destruct op as [el a|el a|el|el|el v|el e|el e|el e veto a|el e veto a];
    simpl in *.
  - unfold set_opened_property in Hperf.
    rewrite Ho, decide_True in Hperf by done. by injection Hperf as <-.
  - by rewrite (set_opened_false_closed s s' el a) in Ho'.
  - by destruct (pe_same_animationend el s s' Hperf) as [_ ->].
  - injection Hperf as <-. by apply bringToFront_field.
  - injection Hperf as <-. revert Hm'. unfold set_modeless_property.
    rewrite Hm. destruct v.
    + rewrite decide_False by done. unfold _modelessChanged. simpl.
      rewrite (_exitModalState_field modeless) by done.
      by rewrite ov_update_eq.
    + by rewrite decide_True.
  - injection Hperf as <-. by apply ov_update_field.
  - injection Hperf as <-. by apply ov_update_field.
  - revert Hperf. unfold _outsideClickListener.
    destruct (_ || _);
      [intros [= <-];
       by rewrite !(ov_update_field _previousDocumentPointerEvents)|].
    destruct (negb _); [by intros [= <-]|].
    set (s1 := dispatchEvent el vaadin_overlay_outside_click s) in *.
    destruct (inv_frame s s1 (frame_dispatchEvent _ _ _ _) Hinv Hop)
      as (Hinv1&Hop1&_).
    destruct (_ && _); [|by intros [= <-]].
    intros Hclose. by rewrite (close_keeps_record s1 s' el veto a).
  - revert Hperf. unfold _keydownListener.
    destruct (negb _); [by intros [= <-]|].
    destruct (_ && _); [by intros [= <-]|].
    case_decide; [|by intros [= <-]].
    set (s1 := dispatchEvent el vaadin_overlay_escape_press s) in *.
    destruct (inv_frame s s1 (frame_dispatchEvent _ _ _ _) Hinv Hop)
      as (Hinv1&Hop1&_).
    destruct (_ && _); [|by intros [= <-]].
    intros Hclose. by rewrite (close_keeps_record s1 s' el veto a).
Qed.

(** C3, as the code has it.  After any sequence of operations on a page
    on which no overlay had been opened, with [pe0] the inline
    [pointer-events] the body started with: at most one overlay holds a
    record of the body's previous value, the overlay that disabled the
    body; it is open and modal, its record is [pe0], and the body is
    ['none'].  When no overlay holds a record, and in particular when no
    modal overlay is open, the body has the value [pe0].  Then, whatever
    the next operation is: as long as the overlay that holds the record
    is open and modal afterwards, as it is after every operation on
    another overlay (closing another modal overlay, say), it still holds
    the record and the body is still ['none']; and once it is closed or
    modeless, the body has the value [pe0] again, whether or not other
    modal overlays are still open: the class keeps no count of them. *)
Theorem body_restored_by_recorder ops s0 s :
  initial s0 → run ops s0 = Some s →
  let pe0 := body_pointerEvents s0 in
  (∀ el, is_Some (_previousDocumentPointerEvents (ov s el)) →
     opened (ov s el) = true ∧ modeless (ov s el) = false ∧
     _previousDocumentPointerEvents (ov s el) = Some pe0 ∧
     pe0 ≠ "none"%string ∧
     body_pointerEvents s = "none"%string ∧
     ∀ el', is_Some (_previousDocumentPointerEvents (ov s el')) →
            el' = el) ∧
  ((∀ el, _previousDocumentPointerEvents (ov s el) = None) →
   body_pointerEvents s = pe0) ∧
  ((∀ el, is_Some (overlays s !! el) → opened (ov s el) = true →
          modeless (ov s el) = true) →
   body_pointerEvents s = pe0) ∧
  (∀ op s' el, step op s = Some s' →
     is_Some (_previousDocumentPointerEvents (ov s el)) →
     (el ≠ target op →
      opened (ov s' el) = true ∧ modeless (ov s' el) = false) ∧
     (opened (ov s' el) = true → modeless (ov s' el) = false →
      is_Some (_previousDocumentPointerEvents (ov s' el)) ∧
      body_pointerEvents s' = "none"%string) ∧
     (opened (ov s' el) = false ∨ modeless (ov s' el) = true →
      body_pointerEvents s' = pe0)).
Proof.
  intros Hinit Hrun pe0.
  pose proof (owner_inv_run ops s0 s Hinit Hrun) as Hown. fold pe0 in Hown.
  pose proof (record_inv_run ops s0 s Hinit Hrun) as Hrec.
  destruct (reachable_run ops s0 s Hinit Hrun) as [Hinv Hop].
  pose proof Hown as [Hholder Hnone].
  split_and!.
  - intros el [v Hv]. destruct (Hrec el) as [Hopen Hmodal]; [by rewrite Hv|].
    destruct (Hholder el v Hv) as (->&?&?&?). by split_and!.
  - done.
  - intros Hall. apply Hnone. intros el.
    destruct (_previousDocumentPointerEvents (ov s el)) as [v|] eqn:Hv;
      [|done].
    destruct (Hrec el) as [Hopen Hmodal]; [by rewrite Hv|].
    assert (is_Some (overlays s !! el)) as Hel.
    { destruct (overlays s !! el) as [o|] eqn:Ho; [by eauto|].
      unfold ov in Hv. by rewrite Ho in Hv. }
    rewrite (Hall el Hel Hopen) in Hmodal. done.
  - intros op s' el Hstep [v Hv].
    pose proof (pe_step_step op s s' Hstep) as Hpe.
    pose proof (owner_inv_step pe0 (target op) s s' Hpe Hown)
      as [Hholder' Hnone'].
    pose proof (record_inv_step op s s' Hinv Hop Hrec Hstep) as Hrec'.
    destruct Hpe as [Hothers _].
    destruct (Hholder el v Hv) as (_&_&_&Huniq).
    destruct (Hrec el) as [Hopen Hmodal]; [by rewrite Hv|].
    split_and!.
    + intros Hne. destruct (step_other op s s' el Hstep Hne) as [-> ->].
      done.
    + intros Hopen' Hmodal'.
      assert (_previousDocumentPointerEvents (ov s' el) = Some v) as Hv'.
      { destruct (decide (el = target op)) as [->|Hne].
        - by rewrite (step_keeps_record op s s').
        - by rewrite Hothers. }
      split; [by rewrite Hv'|]. by destruct (Hholder' el v Hv') as (_&_&?&_).
    + intros Hgone. apply Hnone'.
      assert (_previousDocumentPointerEvents (ov s' el) = None) as Hel'.
      { destruct (_previousDocumentPointerEvents (ov s' el)) eqn:Hv';
          [|done].
        destruct (Hrec' el) as [Hopen' Hmodal']; [by rewrite Hv'|].
        destruct Hgone; congruence. }
      intros j. destruct (decide (j = el)) as [->|Hj]; [done|].
      destruct (_previousDocumentPointerEvents (ov s' j)) as [w|] eqn:Hw;
        [|done].
      destruct (decide (j = target op)) as [->|Htarget].
      * rewrite Hothers, Hv in Hel' by (by apply not_eq_sym). done.
      * rewrite Hothers in Hw by done. destruct Hj. apply Huniq.
        by rewrite Hw.
Qed.

(** * The example page, continued *)

Lemma page_well_formed : well_formed node_rank page.
Proof. decided. Qed.

Lemma page_numeric_sheets : numeric_sheets page.
Proof. decided. Qed.

(** Overlays 10 and 11 are opened; overlay 10 holds the record.  Closing
    overlay 11, which holds none, leaves the record with overlay 10 and
    the body disabled. *)
Lemma body_restored_by_recorder_witness :
  let ops := [Open 10%nat false; Open 11%nat false] in
  let s := after ops page in
  let s' := after (ops ++ [Close 11%nat false]) page in
  initial page ∧ run ops page = Some s ∧
  is_Some (_previousDocumentPointerEvents (ov s 10%nat)) ∧
  step (Close 11%nat false) s = Some s' ∧
  is_Some (_previousDocumentPointerEvents (ov s' 10%nat)) ∧
  body_pointerEvents s' = "none"%string.
Proof.
  intros ops s s'.
  assert (initial page) as Hinit by decided.
  assert (run ops page = Some s) as Hrun by evaluated.
  assert (is_Some (_previousDocumentPointerEvents (ov s 10%nat))) as Hrec.
  { vm_compute. eauto. }
  assert (step (Close 11%nat false) s = Some s') as Hstep by evaluated.
  destruct (body_restored_by_recorder ops page s Hinit Hrun)
    as (_&_&_&Hnext).
  destruct (Hnext (Close 11%nat false) s' 10%nat Hstep Hrec)
    as (Hother&Hkeeps&_).
  destruct Hother as [Hopen Hmodal]; [simpl; lia|].
  destruct (Hkeeps Hopen Hmodal) as [Hrec' Hbody].
  split_and!; [exact Hinit|exact Hrun|exact Hrec|exact Hstep|exact Hrec'|
               exact Hbody].
Defined.

(** Overlays 10 and 11 are opened and 10 is brought to the front: the
    stack is 11, 10, in strictly ascending stacking order. *)
Lemma stack_strictly_ascending_witness :
  let ops := [Open 10%nat false; Open 11%nat false; BringToFront 10%nat] in
  let s := after ops page in
  initial page ∧ run ops page = Some s ∧
  __attachedInstances s = [11%nat; 10%nat] ∧
  NoDup (__attachedInstances s) ∧
  StronglySorted (λ x y, stackingOrder s x < stackingOrder s y)
    (__attachedInstances s).
Proof.
  intros ops s.
  assert (initial page) as Hinit by decided.
  assert (run ops page = Some s) as Hrun by evaluated.
  destruct (stack_strictly_ascending ops page s Hinit page_numeric_sheets
              Hrun) as (Hnd&_&Hs).
  assert (__attachedInstances s = [11%nat; 10%nat]) as Hst by evaluated.
  by split_and!.
Defined.

(** Overlay 10 in the middle of its closing animation is in the second
    phase. *)
Lemma overlay_phases_witness :
  let ops := [Open 10%nat true; AnimationEnd 10%nat; Close 10%nat true] in
  let s := after ops page in
  opened (ov s 10%nat) = false ∧ (10%nat ∉ __attachedInstances s) ∧
  10%nat ∈ body_childNodes s ∧ attr_closing (ov s 10%nat) = true ∧
  __closingHandler (ov s 10%nat) = true.
Proof.
  intros ops s.
  destruct (overlay_phases ops page s 10%nat)
    as [(Ho&_)|[Hclosing|(_&_&Hc&_)]].
  - decided.
  - evaluated.
  - vm_compute. eauto.
  - assert (opened (ov s 10%nat) = false) as Hf by evaluated. congruence.
  - exact Hclosing.
  - assert (attr_closing (ov s 10%nat) = true) as Ht by evaluated.
    congruence.
Defined.

(** With overlay 10 open, opening overlay 11 puts it on top. *)
Lemma open_puts_on_top_witness :
  let s := after [Open 10%nat false] page in
  ∃ s', set_opened_property false 11%nat true s = Some s' ∧
    __attachedInstances s' = __attachedInstances s ++ [11%nat] ∧
    _last s' 11%nat = true.
Proof.
  intros s.
  destruct (open_puts_on_top [Open 10%nat false] page s false 11%nat)
    as (s'&Hs'&_&Hst&Hlast&_).
  - decided.
  - exact page_numeric_sheets.
  - evaluated.
  - vm_compute. eauto.
  - evaluated.
  - by exists s'.
Defined.

(** With overlays 10 and 11 open, [bringToFront] on 10 makes it the last
    one. *)
Lemma bringToFront_makes_last_witness :
  let s := after [Open 10%nat false; Open 11%nat false] page in
  __attachedInstances (bringToFront 10%nat s) = others s 10%nat ++ [10%nat] ∧
  _last (bringToFront 10%nat s) 10%nat = true.
Proof.
  intros s.
  apply (bringToFront_makes_last [Open 10%nat false; Open 11%nat false] page).
  - decided.
  - exact page_numeric_sheets.
  - evaluated.
  - assert (__attachedInstances s = [10%nat; 11%nat]) as -> by evaluated.
    by left.
Defined.

(** A click on the second button while overlay 10 is open and alone on
    the stack closes it. *)
Lemma outside_click_on_last_witness :
  let s := after [Open 10%nat false] page in
  ∃ s', _outsideClickListener no_veto false 10%nat click_outside s = Some s' ∧
    opened (ov s' 10%nat) = false.
Proof.
  intros s.
  destruct (outside_click_on_last node_rank no_veto false 10%nat
              click_outside s 30%nat 5%nat) as (s'&log&Hs'&_&Hclosed&_);
    [decided|evaluated..|].
  exists s'. split; [exact Hs'|]. apply Hclosed. split; reflexivity.
Defined.

(** Escape with the focus on the first button does nothing to the
    modeless overlay 12, although it is the last of the stack. *)
Lemma escape_on_modeless_witness :
  let s := after [Open 12%nat false] page in
  _last s 12%nat = true ∧
  _keydownListener no_veto false 12%nat escape s = Some s.
Proof.
  intros s. split; [evaluated|].
  destruct (escape_on_modeless node_rank no_veto false 12%nat escape s
              30%nat 5%nat) as (_&Houtside&_);
    [decided|evaluated..|].
  apply Houtside. evaluated.
Defined.

(** A press on the button inside overlay 10, released on the second
    button of the page: the click that follows does not close it. *)
Lemma drag_across_the_edge_witness :
  let s := after [Open 10%nat false] page in
  let s1 := _mouseUpListener 10%nat click_outside
              (_mouseDownListener 10%nat press_inside s) in
  ∃ s2, _outsideClickListener no_veto false 10%nat click_outside s1
        = Some s2 ∧
    dispatched s2 = dispatched s ∧
    opened (ov s2 10%nat) = opened (ov s 10%nat) ∧
    _mouseDownInside (ov s2 10%nat) = false ∧
    _mouseUpInside (ov s2 10%nat) = false.
Proof.
  intros s.
  apply (drag_across_the_edge no_veto false 10%nat press_inside
           click_outside click_outside s).
  - vm_compute. eauto.
  - left. evaluated.
Defined.

(** After the press inside overlay 10, one click clears the flag. *)
Lemma click_clears_flags_witness :
  let s := _mouseDownListener 10%nat press_inside
             (after [Open 10%nat false] page) in
  let s' := after [Click 10%nat click_outside no_veto false] s in
  _mouseDownInside (ov s 10%nat) = true ∧
  _mouseDownInside (ov s' 10%nat) = false ∧
  _mouseUpInside (ov s' 10%nat) = false.
Proof.
  intros s s'. split; [evaluated|].
  apply (click_clears_flags no_veto false 10%nat click_outside s s').
  - vm_compute. eauto.
  - evaluated.
Defined.

(** With overlay 10 open, [_enterModalState] on overlay 11 disables the
    part of overlay 10. *)
Lemma enterModalState_disables_others_witness :
  let s := after [Open 10%nat false] page in
  part_pointerEvents (ov (_enterModalState 11%nat s) 10%nat)
  = Some "none"%string.
Proof.
  intros s.
  destruct (enterModalState_disables_others 11%nat s) as (_&_&Hothers&_).
  - vm_compute. eauto.
  - apply Hothers; [|done].
    assert (__attachedInstances s = [10%nat]) as -> by evaluated. by left.
Defined.

(** On the example page, entering and leaving the modal state on overlay
    10 leaves the body as it was. *)
Lemma enter_exit_restores_body_witness :
  let s' := _exitModalState 10%nat (_enterModalState 10%nat page) in
  body_pointerEvents s' = body_pointerEvents page ∧
  _previousDocumentPointerEvents (ov s' 10%nat) = None.
Proof.
  apply (enter_exit_restores_body 10%nat page).
  - vm_compute. eauto.
  - evaluated.
Defined.

(** Two modeless overlays are opened and one is closed: the body is never
    disabled. *)
Lemma modeless_never_disables_body_witness :
  let ops := [Open 10%nat false; Open 12%nat true; Close 10%nat false] in
  let s := after ops modeless_page in
  run ops modeless_page = Some s ∧
  body_pointerEvents s = body_pointerEvents modeless_page.
Proof.
  intros ops s.
  assert (run ops modeless_page = Some s) as Hrun by evaluated.
  split; [exact Hrun|].
  assert (initial modeless_page) as Hinit by decided.
  assert (map_Forall (λ _ o, modeless o = true) (overlays modeless_page))
    as Hall by decided.
  assert (Forall keeps_modeless ops) as Hkeep by (repeat constructor).
  refine (proj1 (modeless_never_disables_body ops modeless_page s
                   Hinit _ Hkeep Hrun)).
  intros el [o Ho]. rewrite (ov_lookup _ _ _ Ho). exact (Hall el o Ho).
Defined.

(** Overlay 10 is hidden in the middle of its closing animation: it goes
    back under the container at once. *)
Lemma hidden_finishes_closing_witness :
  let ops := [Open 10%nat true; AnimationEnd 10%nat; Close 10%nat true] in
  let s := after ops page in
  ∃ s', _hiddenChanged 10%nat true s = Some s' ∧
    (10%nat ∉ body_childNodes s') ∧ parentNode s' !! 10%nat = Some 5%nat ∧
    attr_closing (ov s' 10%nat) = false.
Proof.
  intros ops s.
  destruct (hidden_finishes_closing ops page s 10%nat) as [_ Hclosing].
  - decided.
  - evaluated.
  - vm_compute. eauto.
  - destruct Hclosing as (s'&ph&p&Hs'&Hph&Hp&Hnb&Hpar&_&Hc&_);
      [evaluated|].
    assert (_placeholder (ov s 10%nat) = Some 30%nat) as Hph30 by evaluated.
    assert (ph = 30%nat) as -> by congruence.
    assert (Some p = Some 5%nat) as Hp5.
    { transitivity (parentNode s !! 30%nat); [symmetry; exact Hp|evaluated]. }
    injection Hp5 as ->.
    exists s'. split_and!; [exact Hs'|exact Hnb|exact Hpar|exact Hc].
Defined.

(** Overlays 10 and 12 are opened and 10 is closed: the listeners of the
    modeless overlay 12 are its keydown listener alone, and overlay 10 has
    left none behind. *)
Lemma listeners_follow_state_witness :
  let ops := [Open 10%nat false; Open 12%nat false; Close 10%nat false] in
  let sl := after_listeners ops (page, no_listeners) in
  12%nat ∈ keydown_listeners sl.2 ∧ (12%nat ∉ click_listeners sl.2) ∧
  (10%nat ∉ keydown_listeners sl.2) ∧ (10%nat ∉ click_listeners sl.2).
Proof.
  intros ops sl.
  assert (initial page) as Hinit by decided.
  assert (run_listeners ops (page, no_listeners) = Some (sl.1, sl.2))
    as Hrun by evaluated.
  pose proof (listeners_follow_state ops page sl.1 sl.2 Hinit Hrun) as Hinv.
  destruct (Hinv 12%nat) as (Hk12&_&_&Hc12).
  destruct (Hinv 10%nat) as (Hk10&_&_&Hc10).
  assert (opened (ov sl.1 12%nat) = true) as Ho12 by evaluated.
  assert (modeless (ov sl.1 12%nat) = true) as Hm12 by evaluated.
  assert (opened (ov sl.1 10%nat) = false) as Ho10 by evaluated.
  split_and!.
  - apply Hk12. exact Ho12.
  - intros Hin. apply Hc12 in Hin as [_ Hm].
    pose proof (eq_trans (eq_sym Hm12) Hm) as Habs. discriminate Habs.
  - intros Hin. apply Hk10 in Hin.
    pose proof (eq_trans (eq_sym Ho10) Hin) as Habs. discriminate Habs.
  - intros Hin. apply Hc10 in Hin as [Ho _].
    pose proof (eq_trans (eq_sym Ho10) Ho) as Habs. discriminate Habs.
Defined.

(** The overlay is opened with a renderer, its model is replaced, and the
    page asks for an update: the last thing that happened to the content is
    a call of the renderer with the new model. *)
Lemma content_is_fresh_witness :
  let ops :=
    [PropertiesChanged (object 1) (object 2) undefined (Some true);
     PropertiesChanged (object 1) (object 2) (object 3) (Some true);
     RequestContentUpdate] in
  head (content_log (foldl content_step new_content ops))
  = Some (rendered (object 1) (object 2) (object 3)).
Proof. intros ops. exact (content_is_fresh ops eq_refl eq_refl). Defined.

(** A session on the example page, with an animated opening, Escape, an
    outside click on a closed overlay and a stray [animationend], runs to
    its end. *)
Lemma operations_never_fail_witness :
  is_Some
    (run [Open 10%nat true; Open 12%nat false; AnimationEnd 10%nat;
          Keydown 10%nat escape no_veto true; BringToFront 11%nat;
          Click 11%nat click_outside no_veto false; AnimationEnd 10%nat;
          AnimationEnd 12%nat; SetModeless 12%nat false;
          Close 12%nat false] page).
Proof.
  apply (operations_never_fail node_rank).
  - exact page_well_formed.
  - repeat constructor; vm_compute; eauto.
Defined.

(** With overlay 11 open, overlay 10 is opened and closed with animations:
    the page is as before. *)
Lemma open_close_round_trip_witness :
  let s := after [Open 11%nat false] page in
  ∃ s', run [Open 10%nat true; Close 10%nat true; AnimationEnd 10%nat] s
        = Some s' ∧
    parentNode s' = parentNode s ∧ body_childNodes s' = body_childNodes s ∧
    host s' = host s ∧ body_pointerEvents s' = body_pointerEvents s ∧
    __attachedInstances s' = __attachedInstances s ∧
    opened (ov s' 10%nat) = false ∧ attr_closing (ov s' 10%nat) = false.
Proof.
  intros s.
  apply (open_close_round_trip node_rank [Open 11%nat false] page s true true
           10%nat).
  - exact page_well_formed.
  - evaluated.
  - vm_compute. eauto.
  - decided.
Defined.

(** With overlays 10 and 11 open, closing overlay 10 without animation
    leaves overlay 11 alone on the stack. *)
Lemma close_leaves_stack_witness :
  let s := after [Open 10%nat false; Open 11%nat false] page in
  ∃ s', set_opened_property false 10%nat false s = Some s' ∧
    opened (ov s' 10%nat) = false ∧ __attachedInstances s' = [11%nat] ∧
    _last s' 10%nat = false.
Proof.
  intros s.
  destruct (close_leaves_stack node_rank [Open 10%nat false; Open 11%nat false]
              page s false 10%nat) as (s'&Hs'&Ho&_&Hst&Hl&_).
  - exact page_well_formed.
  - exact page_numeric_sheets.
  - evaluated.
  - vm_compute. eauto.
  - evaluated.
  - exists s'. split_and!; [exact Hs'|exact Ho| |exact Hl].
    rewrite Hst. evaluated.
Defined.

(** The button in the shadow tree of the open overlay 10 is inside it. *)
Lemma deepContains_decides_ancestry_witness :
  let s := after [Open 10%nat false] page in
  _deepContains s 10%nat 18%nat = Some true ∧ deep_ancestor s 18%nat 10%nat.
Proof.
  intros s.
  destruct (deepContains_decides_ancestry node_rank s 10%nat 18%nat)
    as (b&Hb&Hiff).
  - decided.
  - evaluated.
  - assert (_deepContains s 10%nat 18%nat = Some true) as Ht by evaluated.
    assert (Some b = Some true) as Hbt.
    { transitivity (_deepContains s 10%nat 18%nat);
        [symmetry; exact Hb|exact Ht]. }
    injection Hbt as ->.
    split; [exact Ht|]. apply Hiff. reflexivity.
Defined.

(** The open modal overlay 10 holds a record. *)
Lemma record_only_while_modal_witness :
  let s := after [Open 10%nat false] page in
  is_Some (_previousDocumentPointerEvents (ov s 10%nat)) ∧
  opened (ov s 10%nat) = true ∧ modeless (ov s 10%nat) = false.
Proof.
  intros s.
  assert (is_Some (_previousDocumentPointerEvents (ov s 10%nat))) as Hrec.
  { vm_compute. eauto. }
  split; [exact Hrec|].
  apply (record_only_while_modal [Open 10%nat false] page s 10%nat).
  - decided.
  - evaluated.
  - exact Hrec.
Defined.
